(** * WunderGraph development orchestrator and operation compiler

    A shallow embedding of three source files of the repository:

    - [packages/sdk/src/operations/operations.ts]: the operation factory
      ([createQuery], [createMutation], [createSubscription]);
    - [packages/sdk/src/graphql/operations.ts]: [parseGraphQLOperations] and
      the directive handlers it drives;
    - [cli/commands/up.go]: the [up] command, its after-build callbacks and
      the rewrite of the S3 endpoints of a freshly parsed configuration.

    TypeScript code that throws is modelled in an error monad; code that
    mutates [parsed.operations] and writes to the logger threads that state
    explicitly.  The Go command is modelled as a function from the outcomes
    of its external calls to the instruction sequence of its main goroutine;
    goroutines and [sync.WaitGroup] get a small interleaving semantics. *)

From Stdlib Require Import Floats Ascii String.
From stdpp Require Import gmap strings list.

Local Open Scope string_scope.
Local Open Scope list_scope.
Set Warnings "-register-all".

(** ** JavaScript values used by both TypeScript files *)

Module JS.

(** [ToBoolean] on a number: [+0], [-0] and [NaN] are falsy. *)
Definition truthy_number (x : float) : bool :=
  negb (PrimFloat.eqb x 0%float || PrimFloat.is_nan x).

(** [a || b] on booleans: the left operand when it is truthy, else the right. *)
Definition or_bool (a b : bool) : bool := if a then a else b.

(** [a || b] on numbers. *)
Definition or_number (a b : float) : float := if truthy_number a then a else b.

(** [a || b] where [a] may be [undefined] and is an array otherwise: every
    array is truthy, the empty one too. *)
Definition or_array {A} (a : option (list A)) (b : list A) : list A :=
  match a with Some l => l | None => b end.

(** The property names every object literal inherits from
    [Object.prototype]; the [in] operator sees them. *)
Definition Object_prototype_keys : list string :=
  [ "constructor"; "__defineGetter__"; "__defineSetter__"; "hasOwnProperty";
    "__lookupGetter__"; "__lookupSetter__"; "isPrototypeOf";
    "propertyIsEnumerable"; "toString"; "valueOf"; "__proto__";
    "toLocaleString" ].

(** [obj[key]] over the own entries. *)
Fixpoint get_own {A} (key : string) (obj : list (string * A)) : option A :=
  match obj with
  | [] => None
  | (k, v) :: rest => if String.eqb k key then Some v else get_own key rest
  end.

(** [[...new Set(l)]]: duplicates dropped, first occurrences kept in order. *)
Fixpoint set_spread_from (seen l : list string) : list string :=
  match l with
  | [] => []
  | x :: rest =>
      if bool_decide (x ∈ seen) then set_spread_from seen rest
      else x :: set_spread_from (x :: seen) rest
  end.

Definition set_spread (l : list string) : list string := set_spread_from [] l.

(** [xs.join(sep)] *)
Fixpoint join (sep : string) (xs : list string) : string :=
  match xs with
  | [] => ""
  | [x] => x
  | x :: rest => x +:+ sep +:+ join sep rest
  end.

(** [s.split('.')] *)
Fixpoint split_dot_from (cur : string) (s : string) : list string :=
  match s with
  | EmptyString => [cur]
  | String c rest =>
      if Ascii.eqb c "."%char then cur :: split_dot_from "" rest
      else split_dot_from (cur +:+ String c EmptyString) rest
  end.

Definition split_dot (s : string) : list string := split_dot_from "" s.

End JS.

(** ** packages/sdk/src/operations/operations.ts *)

Module NodeJSOperations.

Inductive OperationTypes := query | mutation | subscription.

Record LiveQueryConfig := {
  enable : bool;
  pollingIntervalSeconds : float;
}.

Record RbacInput := {
  in_requireMatchAll : option (list string);
  in_requireMatchAny : option (list string);
  in_denyMatchAll : option (list string);
  in_denyMatchAny : option (list string);
}.

Record Rbac := {
  requireMatchAll : list string;
  requireMatchAny : list string;
  denyMatchAll : list string;
  denyMatchAny : list string;
}.

Section Factory.

(** The zod input schema and the handler closures are carried, never
    inspected. *)
Context {Schema Handler : Type}.

(** The object a caller passes to [query], [mutation] or [subscription];
    an absent property is [None]. *)
Record OperationArgs := {
  input : option Schema;
  handler : Handler;
  live : option LiveQueryConfig;
  arg_requireAuthentication : option bool;
  arg_internal : option bool;
  rbac : option RbacInput;
}.

Record NodeJSOperation := {
  type : OperationTypes;
  inputSchema : option Schema;
  queryHandler : option Handler;
  mutationHandler : option Handler;
  subscriptionHandler : option Handler;
  requireAuthentication : bool;
  internal : bool;
  liveQuery : LiveQueryConfig;
  op_rbac : Rbac;
}.

(** [rbac?.f || []] *)
Definition rbac_field (r : option RbacInput)
    (f : RbacInput -> option (list string)) : list string :=
  JS.or_array (r ≫= f) [].

Definition build_rbac (r : option RbacInput) : Rbac :=
  {| denyMatchAll := rbac_field r in_denyMatchAll;
     denyMatchAny := rbac_field r in_denyMatchAny;
     requireMatchAll := rbac_field r in_requireMatchAll;
     requireMatchAny := rbac_field r in_requireMatchAny |}.

(** [live?.enable]: [undefined] (falsy) when [live] is absent. *)
Definition live_enable (l : option LiveQueryConfig) : bool :=
  match l with Some c => enable c | None => false end.

(** [live?.pollingIntervalSeconds || 5] *)
Definition live_polling (l : option LiveQueryConfig) : float :=
  match l with
  | Some c => JS.or_number (pollingIntervalSeconds c) 5%float
  | None => 5%float
  end.

Definition createQuery (a : OperationArgs) : NodeJSOperation :=
  let requireAuthentication := default false (arg_requireAuthentication a) in
  let internal := default false (arg_internal a) in
  {| type := query;
     inputSchema := input a;
     queryHandler := Some (handler a);
     mutationHandler := None;
     subscriptionHandler := None;
     internal := JS.or_bool internal false;
     requireAuthentication := requireAuthentication;
     op_rbac := build_rbac (rbac a);
     liveQuery :=
       {| enable := JS.or_bool (live_enable (live a)) true;
          pollingIntervalSeconds := live_polling (live a) |} |}.

Definition createMutation (a : OperationArgs) : NodeJSOperation :=
  let requireAuthentication := default false (arg_requireAuthentication a) in
  let internal := default false (arg_internal a) in
  {| type := mutation;
     inputSchema := input a;
     queryHandler := None;
     mutationHandler := Some (handler a);
     subscriptionHandler := None;
     internal := JS.or_bool internal false;
     requireAuthentication := requireAuthentication;
     op_rbac := build_rbac (rbac a);
     liveQuery := {| enable := false; pollingIntervalSeconds := 0%float |} |}.

Definition createSubscription (a : OperationArgs) : NodeJSOperation :=
  let requireAuthentication := default false (arg_requireAuthentication a) in
  let internal := default false (arg_internal a) in
  {| type := subscription;
     inputSchema := input a;
     queryHandler := None;
     mutationHandler := None;
     subscriptionHandler := Some (handler a);
     internal := JS.or_bool internal false;
     requireAuthentication := requireAuthentication;
     op_rbac := build_rbac (rbac a);
     liveQuery := {| enable := false; pollingIntervalSeconds := 0%float |} |}.

Record OperationFactory := {
  f_query : OperationArgs -> NodeJSOperation;
  f_mutation : OperationArgs -> NodeJSOperation;
  f_subscription : OperationArgs -> NodeJSOperation;
}.

Definition createOperationFactory (_ : unit) : OperationFactory :=
  {| f_query := createQuery;
     f_mutation := createMutation;
     f_subscription := createSubscription |}.

End Factory.

Arguments OperationArgs : clear implicits.
Arguments NodeJSOperation : clear implicits.
Arguments OperationFactory : clear implicits.

End NodeJSOperations.

(** ** packages/sdk/src/graphql/operations.ts *)

Module GraphQL.

(** *** Exceptions

    A JavaScript [throw new Error(msg)] is [Throw msg]; a caller that does
    not catch it propagates it. *)

Inductive Result (A : Type) : Type :=
| Ok (a : A)
| Throw (message : string).

Arguments Ok {A} a.
Arguments Throw {A} message.

#[export] Instance Result_ret : MRet Result := fun _ a => Ok a.

#[export] Instance Result_bind : MBind Result := fun _ _ f m =>
  match m with
  | Ok a => f a
  | Throw e => Throw e
  end.

(** [xs.forEach(x => body(acc, x))] where the body may throw: the first
    exception ends the loop. *)
Fixpoint forEachM {A S} (body : S -> A -> Result S) (xs : list A) (s : S)
  : Result S :=
  match xs with
  | [] => Ok s
  | x :: rest => s' ← body s x; forEachM body rest s'
  end.

(** A property looked up with [key in obj ? obj[key] : ...]: an own entry
    or a member inherited from [Object.prototype]. *)
Inductive Member (A : Type) : Type :=
| Own (a : A)
| Inherited (key : string).

Arguments Own {A} a.
Arguments Inherited {A} key.

Definition get_in {A} (key : string) (obj : list (string * A))
  : option (Member A) :=
  match JS.get_own key obj with
  | Some v => Some (Own v)
  | None =>
      if bool_decide (key ∈ JS.Object_prototype_keys)
      then Some (Inherited key) else None
  end.

(** *** The graphql-js syntax tree, as far as the handlers read it *)

Inductive ValueNode :=
| IntValue (value : string)
| FloatValue (value : string)
| StringValue (value : string)
| BooleanValue (value : bool)
| NullValue
| EnumValue (value : string)
| ListValue (values : list ValueNode)
| ObjectValue (fields : list (string * ValueNode)).

(** [value.kind] *)
Definition kind (v : ValueNode) : string :=
  match v with
  | IntValue _ => "IntValue"
  | FloatValue _ => "FloatValue"
  | StringValue _ => "StringValue"
  | BooleanValue _ => "BooleanValue"
  | NullValue => "NullValue"
  | EnumValue _ => "EnumValue"
  | ListValue _ => "ListValue"
  | ObjectValue _ => "ObjectValue"
  end.

Record ArgumentNode := {
  arg_name : string;
  arg_value : ValueNode;
}.

Record DirectiveNode := {
  dir_name : string;
  dir_arguments : option (list ArgumentNode);
}.

(** The type reference and the selection set are only handed on to the
    schema compiler; they are carried as source text. *)
Record VariableDefinitionNode := {
  variable_name : string;
  var_type : string;
  defaultValue : option ValueNode;
  var_directives : option (list DirectiveNode);
}.

Record OperationDefinitionNode := {
  operation : string;
  variableDefinitions : option (list VariableDefinitionNode);
  op_directives : option (list DirectiveNode);
  selectionSet : string;
}.

Inductive DefinitionNode :=
| OperationDefinition (node : OperationDefinitionNode)
| OtherDefinition (source : string).

Definition DocumentNode := list DefinitionNode.

(** [getType('WG_ROLE')?.astNode] *)
Inductive TypeDefinitionNode :=
| EnumTypeDefinition (values : option (list string))
| OtherTypeDefinition (node_kind : string).

(** *** Protobuf enums and messages *)

Inductive ClaimType :=
| ISSUER | PROVIDER | SUBJECT | USERID | NAME | GIVEN_NAME | FAMILY_NAME
| MIDDLE_NAME | NICKNAME | PREFERRED_USERNAME | PROFILE | PICTURE | WEBSITE
| EMAIL | EMAIL_VERIFIED | GENDER | BIRTH_DATE | ZONE_INFO | LOCALE
| LOCATION | CUSTOM.

Inductive InjectVariableKind := UUID | DATE_TIME | ENVIRONMENT_VARIABLE.

Inductive OperationType := QUERY | MUTATION | SUBSCRIPTION | OperationType_minus_1.

Inductive OperationExecutionEngine := ENGINE_GRAPHQL | ENGINE_NODEJS.

(** An entry of [options.customClaims]. *)
Record CustomClaim := {
  cc_jsonPathComponents : list string;
  cc_type : string;
  cc_required : bool;
}.

(** [claim.custom]; the three fields copied from the looked-up entry are
    [undefined] when the entry is an inherited member. *)
Record ClaimConfigCustom := {
  custom_name : string;
  jsonPathComponents : option (list string);
  custom_type : option string;
  custom_required : option bool;
}.

Record ClaimConfig := {
  claim_variablePathComponents : list string;
  claimType : Member ClaimType;
  custom : option ClaimConfigCustom;
}.

Record OperationRoleConfig := {
  requireMatchAll : list string;
  requireMatchAny : list string;
  denyMatchAll : list string;
  denyMatchAny : list string;
}.

Record VariableInjectionConfiguration := {
  variablePathComponents : list string;
  variableKind : InjectVariableKind;
  dateFormat : string;
  environmentVariableName : string;
}.

Record PostResolveTransformation := {
  depth : nat;
  get_from : list string;
  get_to : list string;
}.

Record MockResolve := {
  mock_enable : bool;
  subscriptionPollingIntervalMillis : nat;
}.

Record HooksConfiguration := {
  preResolve : bool;
  postResolve : bool;
  mutatingPreResolve : bool;
  mutatingPostResolve : bool;
  mockResolve : MockResolve;
  httpTransportOnRequest : bool;
  httpTransportOnResponse : bool;
  customResolve : bool;
}.

Record AuthenticationConfig := { required : bool }.

Record AuthorizationConfig := {
  claims : list ClaimConfig;
  roleConfig : OperationRoleConfig;
}.

Record VariablesConfiguration := {
  injectVariables : list VariableInjectionConfiguration;
}.

(** The edit a [jsonSchema] directive argument asks for: the closure passed
    to [updateSchema], with its guard on the kind of the argument's value
    already decided. *)
Inductive CommonPattern := PATTERN_EMAIL | PATTERN_DOMAIN | PATTERN_URL.

Inductive SchemaUpdate :=
| SetString (keyword value : string)
| SetInt (keyword digits : string)
| SetBoolean (keyword : string) (value : bool)
| SetCommonPattern (p : CommonPattern)
| NoAssignment.

Record GraphQLOperationFile := {
  operation_name : string;
  api_mount_path : string;
  file_path : string;
  content : string;
}.

Record LoadOperationsOutput := {
  graphql_operation_files : option (list GraphQLOperationFile);
  invalid : option (list string);
  errors : option (list string);
  info : option (list string);
}.

Record ParseOperationsOptions := {
  keepFromClaimVariables : option bool;
  interpolateVariableDefinitionAsJSON : option (list string);
  customJsonScalars : option (list string);
  customClaims : option (list (string * CustomClaim));
}.

Definition defaultParseOptions : ParseOperationsOptions :=
  {| keepFromClaimVariables := Some false;
     interpolateVariableDefinitionAsJSON := None;
     customJsonScalars := None;
     customClaims := None |}.

(** What the logger and the console received, oldest first. *)
Inductive Output :=
| Logger_error (message : string)
| console_log (message : string).

(** *** The graphql-js library and the schema compiler

    [buildSchema], [parse], [print], [validate] and [stripIgnoredCharacters]
    belong to the graphql package; the JSON-Schema compiler
    ([operationVariablesToJSONSchema], [operationResponseToJSONSchema]), the
    in-place edit of a schema object at a variable path ([updateJSONSchema])
    and [removeTransformDirectives] work on its object graph.  All are
    parameters here, and each of them may throw. *)

Class GraphQLLib := {
  GraphQLSchema : Type;
  JSONSchema : Type;
  buildSchema : string -> Result GraphQLSchema;
  getQueryType_defined : GraphQLSchema -> bool;
  getType_astNode : GraphQLSchema -> string -> option TypeDefinitionNode;
  parse : string -> Result DocumentNode;
  print : OperationDefinitionNode -> Result string;
  validate : GraphQLSchema -> DocumentNode -> Result (list string);
  stripIgnoredCharacters : string -> Result string;
  removeTransformDirectives : string -> Result string;
  operationVariablesToJSONSchema :
    GraphQLSchema -> OperationDefinitionNode -> list string -> bool -> bool ->
    list string -> Result JSONSchema;
  operationResponseToJSONSchema :
    GraphQLSchema -> DocumentNode -> OperationDefinitionNode ->
    Result (JSONSchema * list PostResolveTransformation);
  updateJSONSchema :
    JSONSchema -> list string -> SchemaUpdate -> Result JSONSchema;
  WG_PRETTY_GRAPHQL_VALIDATION_ERRORS : bool;
}.

Section Parser.

Context {lib : GraphQLLib}.

Record GraphQLOperation := {
  Name : string;
  PathName : string;
  Content : string;
  OperationType_ : OperationType;
  ExecutionEngine : OperationExecutionEngine;
  VariablesSchema : JSONSchema;
  InterpolationVariablesSchema : JSONSchema;
  InjectedVariablesSchema : JSONSchema;
  InternalVariablesSchema : JSONSchema;
  ResponseSchema : JSONSchema;
  AuthenticationConfig_ : AuthenticationConfig;
  AuthorizationConfig_ : AuthorizationConfig;
  HooksConfiguration_ : HooksConfiguration;
  VariablesConfiguration_ : VariablesConfiguration;
  Internal : bool;
  PostResolveTransformations : option (list PostResolveTransformation);
}.

Record ParsedOperations := { operations : list GraphQLOperation }.

(** The state [parseGraphQLOperations] mutates: the result under
    construction and the output written so far. *)
Record Heap := {
  parsed : ParsedOperations;
  output : list Output;
}.

(** Assignments to the fields the handlers write. *)

Definition set_AuthenticationConfig (a : AuthenticationConfig)
    (o : GraphQLOperation) : GraphQLOperation :=
  {| Name := Name o; PathName := PathName o; Content := Content o;
     OperationType_ := OperationType_ o; ExecutionEngine := ExecutionEngine o;
     VariablesSchema := VariablesSchema o;
     InterpolationVariablesSchema := InterpolationVariablesSchema o;
     InjectedVariablesSchema := InjectedVariablesSchema o;
     InternalVariablesSchema := InternalVariablesSchema o;
     ResponseSchema := ResponseSchema o;
     AuthenticationConfig_ := a;
     AuthorizationConfig_ := AuthorizationConfig_ o;
     HooksConfiguration_ := HooksConfiguration_ o;
     VariablesConfiguration_ := VariablesConfiguration_ o;
     Internal := Internal o;
     PostResolveTransformations := PostResolveTransformations o |}.

Definition set_AuthorizationConfig (a : AuthorizationConfig)
    (o : GraphQLOperation) : GraphQLOperation :=
  {| Name := Name o; PathName := PathName o; Content := Content o;
     OperationType_ := OperationType_ o; ExecutionEngine := ExecutionEngine o;
     VariablesSchema := VariablesSchema o;
     InterpolationVariablesSchema := InterpolationVariablesSchema o;
     InjectedVariablesSchema := InjectedVariablesSchema o;
     InternalVariablesSchema := InternalVariablesSchema o;
     ResponseSchema := ResponseSchema o;
     AuthenticationConfig_ := AuthenticationConfig_ o;
     AuthorizationConfig_ := a;
     HooksConfiguration_ := HooksConfiguration_ o;
     VariablesConfiguration_ := VariablesConfiguration_ o;
     Internal := Internal o;
     PostResolveTransformations := PostResolveTransformations o |}.

Definition set_VariablesConfiguration (v : VariablesConfiguration)
    (o : GraphQLOperation) : GraphQLOperation :=
  {| Name := Name o; PathName := PathName o; Content := Content o;
     OperationType_ := OperationType_ o; ExecutionEngine := ExecutionEngine o;
     VariablesSchema := VariablesSchema o;
     InterpolationVariablesSchema := InterpolationVariablesSchema o;
     InjectedVariablesSchema := InjectedVariablesSchema o;
     InternalVariablesSchema := InternalVariablesSchema o;
     ResponseSchema := ResponseSchema o;
     AuthenticationConfig_ := AuthenticationConfig_ o;
     AuthorizationConfig_ := AuthorizationConfig_ o;
     HooksConfiguration_ := HooksConfiguration_ o;
     VariablesConfiguration_ := v;
     Internal := Internal o;
     PostResolveTransformations := PostResolveTransformations o |}.

Definition set_Internal (b : bool) (o : GraphQLOperation) : GraphQLOperation :=
  {| Name := Name o; PathName := PathName o; Content := Content o;
     OperationType_ := OperationType_ o; ExecutionEngine := ExecutionEngine o;
     VariablesSchema := VariablesSchema o;
     InterpolationVariablesSchema := InterpolationVariablesSchema o;
     InjectedVariablesSchema := InjectedVariablesSchema o;
     InternalVariablesSchema := InternalVariablesSchema o;
     ResponseSchema := ResponseSchema o;
     AuthenticationConfig_ := AuthenticationConfig_ o;
     AuthorizationConfig_ := AuthorizationConfig_ o;
     HooksConfiguration_ := HooksConfiguration_ o;
     VariablesConfiguration_ := VariablesConfiguration_ o;
     Internal := b;
     PostResolveTransformations := PostResolveTransformations o |}.

(** The four variable schemas after an edit made through [updateSchema]. *)
Definition set_schemas (variables interpolation internal injected : JSONSchema)
    (o : GraphQLOperation) : GraphQLOperation :=
  {| Name := Name o; PathName := PathName o; Content := Content o;
     OperationType_ := OperationType_ o; ExecutionEngine := ExecutionEngine o;
     VariablesSchema := variables;
     InterpolationVariablesSchema := interpolation;
     InjectedVariablesSchema := injected;
     InternalVariablesSchema := internal;
     ResponseSchema := ResponseSchema o;
     AuthenticationConfig_ := AuthenticationConfig_ o;
     AuthorizationConfig_ := AuthorizationConfig_ o;
     HooksConfiguration_ := HooksConfiguration_ o;
     VariablesConfiguration_ := VariablesConfiguration_ o;
     Internal := Internal o;
     PostResolveTransformations := PostResolveTransformations o |}.

(** [operation.AuthenticationConfig.required = b] *)
Definition set_required (b : bool) (o : GraphQLOperation) : GraphQLOperation :=
  set_AuthenticationConfig {| required := b |} o.

(** [operation.AuthorizationConfig.claims.push(claim)] *)
Definition push_claim (claim : ClaimConfig) (o : GraphQLOperation)
  : GraphQLOperation :=
  set_AuthorizationConfig
    {| claims := claims (AuthorizationConfig_ o) ++ [claim];
       roleConfig := roleConfig (AuthorizationConfig_ o) |} o.

Definition set_roleConfig (r : OperationRoleConfig) (o : GraphQLOperation)
  : GraphQLOperation :=
  set_AuthorizationConfig
    {| claims := claims (AuthorizationConfig_ o); roleConfig := r |} o.

(** [operation.VariablesConfiguration.injectVariables.push(c)] *)
Definition push_injectVariable (c : VariableInjectionConfiguration)
    (o : GraphQLOperation) : GraphQLOperation :=
  set_VariablesConfiguration
    {| injectVariables := injectVariables (VariablesConfiguration_ o) ++ [c] |} o.

(** *** Directive helpers *)

Definition directivesNamed (variable : VariableDefinitionNode)
    (directiveNames : list string) : list DirectiveNode :=
  match var_directives variable with
  | Some directives =>
      List.filter (fun directive =>
        bool_decide (dir_name directive ∈ directiveNames)) directives
  | None => []
  end.

(** [directive.arguments?.find((arg) => arg.name.value === name)] *)
Definition find_argument (name : string) (directive : DirectiveNode)
  : option ArgumentNode :=
  arguments ← dir_arguments directive;
  List.find (fun arg => String.eqb (arg_name arg) name) arguments.

(** [directives?.find((d) => d.name.value === name)] *)
Definition find_directive (name : string) (directives : option (list DirectiveNode))
  : option DirectiveNode :=
  ds ← directives; List.find (fun d => String.eqb (dir_name d) name) ds.

Definition directiveInjectedVariablePathComponents (directive : DirectiveNode)
    (variable : VariableDefinitionNode) (operation : GraphQLOperation)
  : Result (list string) :=
  let onArg := find_argument "on" directive in
  let variableName := variable_name variable in
  match onArg with
  | Some onArg =>
      match arg_value onArg with
      | StringValue value => Ok (variableName :: JS.split_dot value)
      | other =>
          Throw ("@" +:+ dir_name directive +:+ " on: argument on operation "
                 +:+ Name operation +:+ " (" +:+ variableName
                 +:+ ") must be a String, not " +:+ kind other)
      end
  | None => Ok [variableName]
  end.

(** *** [@fromClaim] *)

Definition wellKnownClaims : list (string * ClaimType) :=
  [ ("ISSUER", ISSUER); ("PROVIDER", PROVIDER); ("SUBJECT", SUBJECT);
    ("USERID", USERID); ("NAME", NAME); ("GIVEN_NAME", GIVEN_NAME);
    ("FAMILY_NAME", FAMILY_NAME); ("MIDDLE_NAME", MIDDLE_NAME);
    ("NICKNAME", NICKNAME); ("PREFERRED_USERNAME", PREFERRED_USERNAME);
    ("PROFILE", PROFILE); ("PICTURE", PICTURE); ("WEBSITE", WEBSITE);
    ("EMAIL", EMAIL); ("EMAIL_VERIFIED", EMAIL_VERIFIED); ("GENDER", GENDER);
    ("BIRTH_DATE", BIRTH_DATE); ("ZONE_INFO", ZONE_INFO); ("LOCALE", LOCALE);
    ("LOCATION", LOCATION) ].

Definition parseWellKnownClaim (name : string)
    (operation : option GraphQLOperation) : Result (Member ClaimType) :=
  match get_in name wellKnownClaims with
  | Some c => Ok c
  | None =>
      match operation with
      | Some operation =>
          Throw ("unhandled claim " +:+ name +:+ " on operation "
                 +:+ Name operation)
      | None => Throw ("unhandled claim " +:+ name)
      end
  end.

Definition handleFromClaimDirective (fromClaimDirective : DirectiveNode)
    (variable : VariableDefinitionNode) (operation : GraphQLOperation)
    (customClaims : list (string * CustomClaim)) : Result GraphQLOperation :=
  match dir_arguments fromClaimDirective with
  | None =>
      Throw ("@fromClaim directive on operation " +:+ Name operation
             +:+ " has no arguments")
  | Some arguments =>
      match List.find (fun arg => String.eqb (arg_name arg) "name") arguments with
      | None =>
          Throw ("@fromClaim on operation " +:+ Name operation
                 +:+ " does not have a name: argument")
      | Some nameArg =>
          match arg_value nameArg with
          | EnumValue claimName =>
              variablePathComponents ←
                directiveInjectedVariablePathComponents
                  fromClaimDirective variable operation;
              claim ←
                match get_in claimName customClaims with
                | Some customClaim =>
                    Ok {| claim_variablePathComponents := variablePathComponents;
                          claimType := Own CUSTOM;
                          custom := Some
                            {| custom_name := claimName;
                               jsonPathComponents :=
                                 match customClaim with
                                 | Own c => Some (cc_jsonPathComponents c)
                                 | Inherited _ => None
                                 end;
                               custom_type :=
                                 match customClaim with
                                 | Own c => Some (cc_type c)
                                 | Inherited _ => None
                                 end;
                               custom_required :=
                                 match customClaim with
                                 | Own c => Some (cc_required c)
                                 | Inherited _ => None
                                 end |} |}
                | None =>
                    claimType ← parseWellKnownClaim claimName None;
                    Ok {| claim_variablePathComponents := variablePathComponents;
                          claimType := claimType;
                          custom := None |}
                end;
              Ok (push_claim claim (set_required true operation))
          | other =>
              Throw ("@fromClaim name: argument on operation "
                     +:+ Name operation +:+ " must be a WG_CLAIM, not "
                     +:+ kind other)
          end
      end
  end.

Definition handleFromClaimDirectives (variable : VariableDefinitionNode)
    (operation : GraphQLOperation) (customClaims : list (string * CustomClaim))
  : Result GraphQLOperation :=
  forEachM
    (fun operation directive =>
       handleFromClaimDirective directive variable operation customClaims)
    (directivesNamed variable ["fromClaim"]) operation.

(** *** [@jsonSchema] *)

(** The [switch] over the argument name: [None] when no case matches (then
    [updateSchema] is not called); otherwise the assignment the closure
    makes, [NoAssignment] when the value has another kind than the closure
    asks for. *)
Definition jsonSchemaUpdate (arg : ArgumentNode) : option SchemaUpdate :=
  let name := arg_name arg in
  let string_keyword :=
    Some match arg_value arg with
         | StringValue v => SetString name v
         | _ => NoAssignment
         end in
  let int_keyword :=
    Some match arg_value arg with
         | IntValue v => SetInt name v
         | _ => NoAssignment
         end in
  if bool_decide (name ∈ ["title"; "description"; "pattern"]) then
    string_keyword
  else if bool_decide (name ∈ ["multipleOf"; "maximum"; "exclusiveMaximum";
                               "minimum"; "exclusiveMinimum"; "maxLength";
                               "minLength"; "maxItems"; "minItems"]) then
    int_keyword
  else if String.eqb name "uniqueItems" then
    Some match arg_value arg with
         | BooleanValue v => SetBoolean name v
         | _ => NoAssignment
         end
  else if String.eqb name "commonPattern" then
    Some match arg_value arg with
         | EnumValue "EMAIL" => SetCommonPattern PATTERN_EMAIL
         | EnumValue "DOMAIN" => SetCommonPattern PATTERN_DOMAIN
         | EnumValue "URL" => SetCommonPattern PATTERN_URL
         | _ => NoAssignment
         end
  else None.

Definition updateSchema (directive : DirectiveNode)
    (variable : VariableDefinitionNode) (update : SchemaUpdate)
    (operation : GraphQLOperation) : Result GraphQLOperation :=
  variablePathComponents ←
    directiveInjectedVariablePathComponents directive variable operation;
  variables ←
    updateJSONSchema (VariablesSchema operation) variablePathComponents update;
  interpolation ←
    updateJSONSchema (InterpolationVariablesSchema operation)
      variablePathComponents update;
  internal ←
    updateJSONSchema (InternalVariablesSchema operation)
      variablePathComponents update;
  injected ←
    updateJSONSchema (InjectedVariablesSchema operation)
      variablePathComponents update;
  Ok (set_schemas variables interpolation internal injected operation).

Definition handleJsonSchemaDirectives (variable : VariableDefinitionNode)
    (operation : GraphQLOperation) : Result GraphQLOperation :=
  forEachM
    (fun operation directive =>
       forEachM
         (fun operation arg =>
            match jsonSchemaUpdate arg with
            | Some update => updateSchema directive variable update operation
            | None => Ok operation
            end)
         (default [] (dir_arguments directive)) operation)
    (directivesNamed variable ["jsonSchema"]) operation.

(** *** Injected variables *)

(** [{ ...defaultVariableInjectionConfiguration, variablePathComponents,
       variableKind }] *)
Definition defaultVariableInjectionConfiguration
    (variablePathComponents : list string) (variableKind : InjectVariableKind)
  : VariableInjectionConfiguration :=
  {| variablePathComponents := variablePathComponents;
     variableKind := variableKind;
     environmentVariableName := "";
     dateFormat := "" |}.

Definition handleInjectEnvironmentVariableDirectives
    (variable : VariableDefinitionNode) (operation : GraphQLOperation)
  : Result GraphQLOperation :=
  let directiveName := "injectEnvironmentVariable" in
  forEachM
    (fun operation directive =>
       match find_argument "name" directive with
       | None =>
           Throw ("name: argument missing in @" +:+ directiveName
                  +:+ " in operation " +:+ Name operation)
       | Some arg =>
           match arg_value arg with
           | StringValue value =>
               variablePathComponents ←
                 directiveInjectedVariablePathComponents
                   directive variable operation;
               Ok (push_injectVariable
                     {| variablePathComponents := variablePathComponents;
                        variableKind := ENVIRONMENT_VARIABLE;
                        dateFormat := "";
                        environmentVariableName := value |} operation)
           | other =>
               Throw ("name: argument in @" +:+ directiveName
                      +:+ " in operation " +:+ Name operation
                      +:+ " must be string, not " +:+ kind other)
           end
       end)
    (directivesNamed variable [directiveName]) operation.

Definition handleUuidDirectives (variable : VariableDefinitionNode)
    (operation : GraphQLOperation) : Result GraphQLOperation :=
  forEachM
    (fun operation directive =>
       variablePathComponents ←
         directiveInjectedVariablePathComponents directive variable operation;
       Ok (push_injectVariable
             (defaultVariableInjectionConfiguration variablePathComponents UUID)
             operation))
    (directivesNamed variable ["injectGeneratedUUID"]) operation.

Definition availableTimeFormats : list (string * string) :=
  [ ("ISO8601", "2006-01-02T15:04:05Z07:00");
    ("ANSIC", "Mon Jan _2 15:04:05 2006");
    ("UnixDate", "Mon Jan _2 15:04:05 MST 2006");
    ("RubyDate", "Mon Jan 02 15:04:05 -0700 2006");
    ("RFC822", "02 Jan 06 15:04 MST");
    ("RFC822Z", "02 Jan 06 15:04 -0700");
    ("RFC850", "Monday, 02-Jan-06 15:04:05 MST");
    ("RFC1123", "Mon, 02 Jan 2006 15:04:05 MST");
    ("RFC1123Z", "Mon, 02 Jan 2006 15:04:05 -0700");
    ("RFC3339", "2006-01-02T15:04:05Z07:00");
    ("RFC3339Nano", "2006-01-02T15:04:05.999999999Z07:00");
    ("Kitchen", "3:04PM");
    ("Stamp", "Jan _2 15:04:05");
    ("StampMilli", "Jan _2 15:04:05.000");
    ("StampMicro", "Jan _2 15:04:05.000000");
    ("StampNano", "Jan _2 15:04:05.000000000") ].

Definition getTimeFormat (timeFormat : string) : Result (Member string) :=
  match get_in timeFormat availableTimeFormats with
  | Some format => Ok format
  | None =>
      Throw ("unknown time format " +:+ String "034"%char "" +:+ timeFormat)
  end.

(** The body of the [forEach] in [handleDateTimeDirectives], for one
    [@injectCurrentDateTime] directive.  [dateFormat] is computed, and an
    ill-formed argument throws while it is; the pushed configuration does
    not use it. *)
Definition handleDateTimeDirective (variable : VariableDefinitionNode)
    (operation : GraphQLOperation) (directive : DirectiveNode)
  : Result GraphQLOperation :=
  let directiveName := "injectCurrentDateTime" in
  let formatArg := find_argument "format" directive in
  let customFormatArg := find_argument "customFormat" directive in
  if bool_decide (is_Some formatArg) && bool_decide (is_Some customFormatArg)
  then
    Throw ("@" +:+ directiveName +:+ " in operation " +:+ Name operation
           +:+ " has both format: and customFormat: arguments")
  else
    dateFormat ←
      match formatArg, customFormatArg with
      | Some formatArg, _ =>
          match arg_value formatArg with
          | EnumValue value => getTimeFormat value
          | other =>
              Throw ("format: argument in @" +:+ directiveName
                     +:+ " in operation " +:+ Name operation
                     +:+ " must be an enum, not " +:+ kind other)
          end
      | None, Some customFormatArg =>
          match arg_value customFormatArg with
          | StringValue value => Ok (Own value)
          | other =>
              Throw ("customFormat: argument in @" +:+ directiveName
                     +:+ " in operation " +:+ Name operation
                     +:+ " must be a String, not " +:+ kind other)
          end
      | None, None => Ok (Own "2006-01-02T15:04:05Z07:00")
      end;
    variablePathComponents ←
      directiveInjectedVariablePathComponents directive variable operation;
    Ok (push_injectVariable
          {| variablePathComponents := variablePathComponents;
             dateFormat := "2006-01-02T15:04:05Z07:00";
             variableKind := DATE_TIME;
             environmentVariableName := "" |} operation).

Definition handleDateTimeDirectives (variable : VariableDefinitionNode)
    (operation : GraphQLOperation) : Result GraphQLOperation :=
  forEachM (handleDateTimeDirective variable)
    (directivesNamed variable ["injectCurrentDateTime"]) operation.

Definition parseOperationTypeNode (node : string) : OperationType :=
  if String.eqb node "subscription" then SUBSCRIPTION
  else if String.eqb node "mutation" then MUTATION
  else if String.eqb node "query" then QUERY
  else OperationType_minus_1.

(** *** [parseGraphQLOperations] *)

(** The inner [visit] of the re-parsed operation: variable definitions that
    carry [@hooksVariable] are removed. *)
Definition hasHooksVariableDirective (variable : VariableDefinitionNode) : bool :=
  match var_directives variable with
  | Some directives =>
      existsb (fun directive => String.eqb (dir_name directive) "hooksVariable")
        directives
  | None => false
  end.

Definition withoutHooksVariables (document : DocumentNode) : DocumentNode :=
  map (fun definition =>
         match definition with
         | OperationDefinition node =>
             OperationDefinition
               {| operation := operation node;
                  variableDefinitions :=
                    List.filter (fun v => negb (hasHooksVariableDirective v))
                      <$> variableDefinitions node;
                  op_directives := op_directives node;
                  selectionSet := selectionSet node |}
         | OtherDefinition source => OtherDefinition source
         end) document.

(** The values of one [@rbac] argument: enum values that [WG_ROLE] declares. *)
Definition rbacValues (roles : option (list string)) (values : list ValueNode)
  : list string :=
  List.filter
    (fun v =>
       match roles with
       | Some roles => bool_decide (is_Some (List.find (String.eqb v) roles))
       | None => false
       end)
    (map (fun v => match v with EnumValue value => value | _ => "" end) values).

(** The callback of [rbac?.arguments?.forEach]. *)
Definition applyRbacArgument (roles : option (list string))
    (operation : GraphQLOperation) (arg : ArgumentNode) : GraphQLOperation :=
  match arg_value arg with
  | ListValue argValues =>
      let values := rbacValues roles argValues in
      let config := roleConfig (AuthorizationConfig_ operation) in
      if String.eqb (arg_name arg) "requireMatchAll" then
        set_roleConfig
          {| requireMatchAll := JS.set_spread (requireMatchAll config ++ values);
             requireMatchAny := requireMatchAny config;
             denyMatchAll := denyMatchAll config;
             denyMatchAny := denyMatchAny config |} operation
      else if String.eqb (arg_name arg) "requireMatchAny" then
        set_roleConfig
          {| requireMatchAll := requireMatchAll config;
             requireMatchAny := JS.set_spread (requireMatchAny config ++ values);
             denyMatchAll := denyMatchAll config;
             denyMatchAny := denyMatchAny config |} operation
      else if String.eqb (arg_name arg) "denyMatchAll" then
        set_roleConfig
          {| requireMatchAll := requireMatchAll config;
             requireMatchAny := requireMatchAny config;
             denyMatchAll := JS.set_spread (denyMatchAll config ++ values);
             denyMatchAny := denyMatchAny config |} operation
      else if String.eqb (arg_name arg) "denyMatchAny" then
        set_roleConfig
          {| requireMatchAll := requireMatchAll config;
             requireMatchAny := requireMatchAny config;
             denyMatchAll := denyMatchAll config;
             denyMatchAny := JS.set_spread (denyMatchAny config ++ values) |}
          operation
      else operation
  | _ => operation
  end.

Definition applyRbac (wgRoleEnum : option TypeDefinitionNode)
    (node : OperationDefinitionNode) (operation : GraphQLOperation)
  : GraphQLOperation :=
  match wgRoleEnum with
  | Some (EnumTypeDefinition roles) =>
      let rbac := find_directive "rbac" (op_directives node) in
      fold_left (applyRbacArgument roles)
        (default [] (rbac ≫= dir_arguments)) operation
  | _ => operation
  end.

(** The two checks before the push: an operation with roles or claims
    requires authentication. *)
Definition requireAuthenticationForAuthorization (operation : GraphQLOperation)
  : GraphQLOperation :=
  let config := roleConfig (AuthorizationConfig_ operation) in
  let operation :=
    if negb (Nat.eqb
               (length (denyMatchAny config) + length (denyMatchAll config)
                + length (requireMatchAll config)
                + length (requireMatchAny config)) 0)
    then set_required true operation else operation in
  if negb (Nat.eqb (length (claims (AuthorizationConfig_ operation))) 0)
  then set_required true operation else operation.

(** The object literal assigned to [operation]; the calls into the library
    run in the order the properties are written. *)
Definition newOperation (parsedGraphQLSchema : GraphQLSchema)
    (options : ParseOperationsOptions) (operationFile : GraphQLOperationFile)
    (ast : DocumentNode) (node : OperationDefinitionNode) (content_ : string)
  : Result GraphQLOperation :=
  let keep := default false (keepFromClaimVariables options) in
  let scalars := default [] (customJsonScalars options) in
  withoutTransform ← removeTransformDirectives content_;
  stripped ← stripIgnoredCharacters withoutTransform;
  variables ←
    operationVariablesToJSONSchema parsedGraphQLSchema node [] keep false scalars;
  interpolation ←
    operationVariablesToJSONSchema parsedGraphQLSchema node
      (default [] (interpolateVariableDefinitionAsJSON options)) keep false
      scalars;
  internal ←
    operationVariablesToJSONSchema parsedGraphQLSchema node [] true false scalars;
  injected ←
    operationVariablesToJSONSchema parsedGraphQLSchema node [] true true scalars;
  response ← operationResponseToJSONSchema parsedGraphQLSchema ast node;
  let transformations := response.2 in
  Ok {| Name := operation_name operationFile;
        PathName := api_mount_path operationFile;
        Content := stripped;
        OperationType_ := parseOperationTypeNode (operation node);
        ExecutionEngine := ENGINE_GRAPHQL;
        VariablesSchema := variables;
        InterpolationVariablesSchema := interpolation;
        InternalVariablesSchema := internal;
        InjectedVariablesSchema := injected;
        ResponseSchema := response.1;
        AuthenticationConfig_ := {| required := false |};
        AuthorizationConfig_ :=
          {| claims := [];
             roleConfig :=
               {| requireMatchAll := []; requireMatchAny := [];
                  denyMatchAll := []; denyMatchAny := [] |} |};
        HooksConfiguration_ :=
          {| preResolve := false; postResolve := false;
             mutatingPreResolve := false; mutatingPostResolve := false;
             mockResolve :=
               {| mock_enable := false;
                  subscriptionPollingIntervalMillis := 0 |};
             httpTransportOnResponse := false;
             httpTransportOnRequest := false;
             customResolve := false |};
        VariablesConfiguration_ := {| injectVariables := [] |};
        Internal := false;
        PostResolveTransformations :=
          if Nat.ltb 0 (length transformations) then Some transformations else None |}.

(** The callback of [node.variableDefinitions?.forEach]. *)
Definition handleVariable (options : ParseOperationsOptions)
    (operation : GraphQLOperation) (variable : VariableDefinitionNode)
  : Result GraphQLOperation :=
  operation ←
    handleFromClaimDirectives variable operation
      (default [] (customClaims options));
  operation ← handleJsonSchemaDirectives variable operation;
  operation ← handleUuidDirectives variable operation;
  operation ← handleDateTimeDirectives variable operation;
  handleInjectEnvironmentVariableDirectives variable operation.

(** Everything [enter] does between a successful validation and the push;
    an exception leaves [parsed] as it was. *)
Definition buildOperation (parsedGraphQLSchema : GraphQLSchema)
    (wgRoleEnum : option TypeDefinitionNode) (options : ParseOperationsOptions)
    (operationFile : GraphQLOperationFile) (ast : DocumentNode)
    (node : OperationDefinitionNode) (content_ : string)
  : Result GraphQLOperation :=
  operation ←
    newOperation parsedGraphQLSchema options operationFile ast node content_;
  operation ←
    forEachM (handleVariable options) (default [] (variableDefinitions node))
      operation;
  let operation :=
    set_Internal
      (bool_decide (is_Some (find_directive "internalOperation"
                               (op_directives node)))) operation in
  let operation := applyRbac wgRoleEnum node operation in
  Ok (requireAuthenticationForAuthorization operation).

Definition log (lines : list Output) (h : Heap) : Heap :=
  {| parsed := parsed h; output := output h ++ lines |}.

(** [parsed.operations.push(operation)] *)
Definition push_operation (operation : GraphQLOperation) (h : Heap) : Heap :=
  {| parsed := {| operations := operations (parsed h) ++ [operation] |};
     output := output h |}.

(** What [enter] logs for an operation that fails validation. *)
Definition validationFailureOutput (operationFile : GraphQLOperationFile)
    (errors_ : list string) : list Output :=
  [ Logger_error ("Error parsing operation " +:+ file_path operationFile
                  +:+ ": " +:+ JS.join "," errors_);
    Logger_error "Skipping operation" ]
  ++ (if WG_PRETTY_GRAPHQL_VALIDATION_ERRORS
      then [console_log (String "010"%char "" +:+ JS.join "," errors_
                         +:+ String "010"%char "")]
      else []).

(** The [enter] callback of the [OperationDefinition] visitor. *)
Definition enter (parsedGraphQLSchema : GraphQLSchema)
    (wgRoleEnum : option TypeDefinitionNode) (options : ParseOperationsOptions)
    (operationFile : GraphQLOperationFile) (ast : DocumentNode)
    (node : OperationDefinitionNode) (h : Heap) : Result unit * Heap :=
  let validated :=
    content_ ← print node;
    parsedOperation ← parse content_;
    let operationWithoutHooksVariables := withoutHooksVariables parsedOperation in
    errors_ ← validate parsedGraphQLSchema operationWithoutHooksVariables;
    Ok (content_, errors_) in
  match validated with
  | Throw e => (Throw e, h)
  | Ok (content_, errors_) =>
      if Nat.ltb 0 (length errors_) then
        (Ok (), log (validationFailureOutput operationFile errors_) h)
      else
        match buildOperation parsedGraphQLSchema wgRoleEnum options
                operationFile ast node content_ with
        | Throw e => (Throw e, h)
        | Ok operation => (Ok (), push_operation operation h)
        end
  end.

(** [visit(ast, { OperationDefinition: { enter } })]: [enter] runs on every
    operation definition of the document, in order; an exception ends the
    traversal and keeps what was pushed before. *)
Fixpoint visit (on_enter : OperationDefinitionNode -> Heap -> Result unit * Heap)
    (definitions : list DefinitionNode) (h : Heap) : Result unit * Heap :=
  match definitions with
  | [] => (Ok (), h)
  | OperationDefinition node :: rest =>
      match on_enter node h with
      | (Ok _, h') => visit on_enter rest h'
      | (Throw e, h') => (Throw e, h')
      end
  | OtherDefinition _ :: rest => visit on_enter rest h
  end.

(** What the [catch] block logs. *)
Definition catchOutput (e : string) (operationFile : GraphQLOperationFile)
  : list Output :=
  [ Logger_error e;
    Logger_error ("Operations document: " +:+ content operationFile);
    Logger_error "No Operations found! Please create at least one Operation in the directory ./operations";
    Logger_error "Operation files must have the file extension '.graphql', otherwise they are ignored.";
    Logger_error "Operations don't need to be named, the file name is responsible for the operation name." ].

(** The callback of [graphql_operation_files?.forEach]: [try { ... } catch]. *)
Definition processOperationFile (parsedGraphQLSchema : GraphQLSchema)
    (wgRoleEnum : option TypeDefinitionNode) (options : ParseOperationsOptions)
    (h : Heap) (operationFile : GraphQLOperationFile) : Heap :=
  let tried :=
    match parse (content operationFile) with
    | Throw e => (Throw e, h)
    | Ok ast =>
        visit (enter parsedGraphQLSchema wgRoleEnum options operationFile ast)
          ast h
    end in
  match tried with
  | (Ok _, h') => h'
  | (Throw e, h') => log (catchOutput e operationFile) h'
  end.

Definition processOperationFiles (parsedGraphQLSchema : GraphQLSchema)
    (wgRoleEnum : option TypeDefinitionNode) (options : ParseOperationsOptions)
    (files : list GraphQLOperationFile) (h : Heap) : Heap :=
  fold_left (processOperationFile parsedGraphQLSchema wgRoleEnum options)
    files h.

(** [buildSchema], with the fallback query type when the schema has none. *)
Definition buildParsedSchema (graphQLSchema : string) : Result GraphQLSchema :=
  parsedGraphQLSchema ← buildSchema graphQLSchema;
  if getQueryType_defined parsedGraphQLSchema then Ok parsedGraphQLSchema
  else buildSchema (graphQLSchema +:+ " type Query {hello: String}").

Definition emptyHeap : Heap :=
  {| parsed := {| operations := [] |}; output := [] |}.

(** [parseGraphQLOperations]: the value returned (or the exception of
    [buildSchema], the only call outside the [try]) and the output written.
    An omitted [options] argument is [None]. *)
Definition parseGraphQLOperations (graphQLSchema : string)
    (loadOperationsOutput : LoadOperationsOutput)
    (options : option ParseOperationsOptions)
  : Result ParsedOperations * list Output :=
  let options := default defaultParseOptions options in
  match buildParsedSchema graphQLSchema with
  | Throw e => (Throw e, [])
  | Ok parsedGraphQLSchema =>
      let wgRoleEnum := getType_astNode parsedGraphQLSchema "WG_ROLE" in
      let h :=
        processOperationFiles parsedGraphQLSchema wgRoleEnum options
          (default [] (graphql_operation_files loadOperationsOutput))
          emptyHeap in
      (Ok (parsed h), output h)
  end.

(** *** Properties of operations and of the state *)

(** The configuration [handleDateTimeDirectives] pushes. *)
Definition pushedDateTime (c : VariableInjectionConfiguration) : Prop :=
  dateFormat c = "2006-01-02T15:04:05Z07:00" /\ variableKind c = DATE_TIME.

(** An operation that carries authorization rules: a claim, or a role in
    one of the four role lists. *)
Definition hasAuthorization (o : GraphQLOperation) : Prop :=
  claims (AuthorizationConfig_ o) <> []
  \/ requireMatchAll (roleConfig (AuthorizationConfig_ o)) <> []
  \/ requireMatchAny (roleConfig (AuthorizationConfig_ o)) <> []
  \/ denyMatchAll (roleConfig (AuthorizationConfig_ o)) <> []
  \/ denyMatchAny (roleConfig (AuthorizationConfig_ o)) <> [].

Definition authorizationRequiresAuthentication (o : GraphQLOperation) : Prop :=
  hasAuthorization o -> required (AuthenticationConfig_ o) = true.

(** [h] followed by what a run started from the empty state added. *)
Definition heap_app (h d : Heap) : Heap :=
  {| parsed := {| operations := operations (parsed h) ++ operations (parsed d) |};
     output := output h ++ output d |}.

End Parser.

Arguments GraphQLOperation : clear implicits.
Arguments GraphQLOperation {lib}.
Arguments ParsedOperations : clear implicits.
Arguments ParsedOperations {lib}.
Arguments Heap : clear implicits.
Arguments Heap {lib}.

End GraphQL.

(** ** cli/commands/up.go *)

Module Up.

(** *** Goroutines and wait groups

    The code of a goroutine is a list of instructions.  [Do e] is an
    observable action of the command (a call into another package, a log
    line, a channel send); [Go body] is [go func() { body }()]; the three
    [Wg] instructions are the methods of a [sync.WaitGroup], named by a
    number. *)

Definition GoError := string.

Inductive Level := DebugLevel | InfoLevel | ErrorLevel.

Inductive BundlerName :=
| config_bundler | hooks_bundler | webhooks_bundler | operations_bundler.

Inductive RunnerName :=
| config_runner | config_introspection_runner | hook_server_runner.

Record WatchPath := {
  Path : string;
  Optional : bool;
}.

Record BundlerConfig := {
  bundler_Name : BundlerName;
  EntryPoints : list string;
  bundler_AbsWorkingDir : string;
  OutFile : string;
  OutDir : string;
  bundler_WatchPaths : list WatchPath;
  IgnorePaths : list string;
}.

Record ScriptRunnerConfig := {
  runner_Name : RunnerName;
  Executable : string;
  runner_AbsWorkingDir : string;
  ScriptArgs : list string;
  ScriptEnv : list string;
}.

(** Modelled from the spec: the configuration types of the packages [wgpb]
    and [node] are not part of the sources at hand.  The spec calls the
    object-storage endpoint an infrastructure-dependent field of the runtime
    configuration that is patched in memory; the rewrite in [up.go] assigns
    [Endpoint.StaticVariableContent] and [Endpoint.Kind] of every element
    of [cfg.Api.S3UploadConfiguration] through a pointer.  Whatever else
    the messages hold is carried untouched in the [other] fields. *)
Inductive ConfigurationVariableKind :=
| STATIC_CONFIGURATION_VARIABLE
| ENV_CONFIGURATION_VARIABLE
| PLACEHOLDER_CONFIGURATION_VARIABLE.

Record ConfigurationVariable := {
  Kind : ConfigurationVariableKind;
  StaticVariableContent : string;
  variable_other : string;
}.

Record S3UploadConfiguration := {
  Endpoint : ConfigurationVariable;
  s3_other : string;
}.

Record ApiConfig := {
  S3UploadConfiguration_ : list S3UploadConfiguration;
  api_other : string;
}.

Record WunderNodeConfig := {
  Api : ApiConfig;
  config_other : string;
}.

Inductive Event :=
| Log (level : Level) (msg : string) (fields : list (string * string))
| NotifyContext
| SignalStop
| ContextCancel
| AwaitContextDone
| KillExistingHooksProcess (port : nat)
| NewScriptRunner (config : ScriptRunnerConfig)
| NewServerRunner (wunderGraphDirAbs serverScriptFile : string)
| NewBundler (config : BundlerConfig)
| BundleBegin (name : BundlerName)
| BundleReturn (name : BundlerName) (err : option GoError)
| BundlerWatch (name : BundlerName)
| OperationsCleanup (paths : list string)
| EnsureWunderGraphFactoryTS
| RunBegin (name : RunnerName)
| RunDone (name : RunnerName)
| StackNewRunner
| StackRun
| NewWatcher (name : string) (paths : list WatchPath)
| WatcherWatch (name : string)
| NodeNew
| NodeStartBlocking
| NodeClose
| SendConfig (config : WunderNodeConfig)
| Panic (msg : string).

Inductive Instr :=
| Do (e : Event)
| Go (body : list Instr)
| WgAdd (wg : nat) (delta : nat)
| WgDone (wg : nat)
| WgWait (wg : nat).

(** The actions a piece of code can perform, those of the goroutines it
    starts included, in the order they are written. *)
Fixpoint events_of (i : Instr) : list Event :=
  match i with
  | Do e => [e]
  | Go body => flat_map events_of body
  | _ => []
  end.

Definition all_events (code : list Instr) : list Event :=
  flat_map events_of code.

(** The number of scheduling steps left in a piece of code. *)
Fixpoint instr_size (i : Instr) : nat :=
  match i with
  | Go body => S (list_sum (map instr_size body))
  | _ => 1
  end.

Definition code_size (code : list Instr) : nat :=
  list_sum (map instr_size code).

(** The state of the running program: the wait-group counters and what is
    left of every goroutine (the first is the one that was started with). *)
Record Machine := {
  counters : nat -> nat;
  goroutines : list (list Instr);
}.

Definition start (code : list Instr) : Machine :=
  {| counters := fun _ => 0; goroutines := [code] |}.

Definition machine_size (m : Machine) : nat :=
  list_sum (map code_size (goroutines m)).

Definition set_counter (wg n : nat) (counters : nat -> nat) : nat -> nat :=
  fun w => if Nat.eqb w wg then n else counters w.

(** One step of goroutine [i]: the action it shows, if any, and the next
    state; [None] when the goroutine has finished or waits on a wait group
    whose counter is not zero. *)
Definition step_goroutine (m : Machine) (i : nat)
  : option (option Event * Machine) :=
  match goroutines m !! i with
  | Some (instr :: rest) =>
      let continue := <[i := rest]> (goroutines m) in
      match instr with
      | Do e => Some (Some e, {| counters := counters m; goroutines := continue |})
      | Go body =>
          Some (None, {| counters := counters m;
                         goroutines := continue ++ [body] |})
      | WgAdd wg delta =>
          Some (None, {| counters := set_counter wg (counters m wg + delta)
                                       (counters m);
                         goroutines := continue |})
      | WgDone wg =>
          Some (None, {| counters := set_counter wg (counters m wg - 1)
                                       (counters m);
                         goroutines := continue |})
      | WgWait wg =>
          if Nat.eqb (counters m wg) 0
          then Some (None, {| counters := counters m; goroutines := continue |})
          else None
      end
  | _ => None
  end.

(** The steps the scheduler can choose from. *)
Definition enabled (m : Machine) : list (option Event * Machine) :=
  omap (step_goroutine m) (seq 0 (length (goroutines m))).

Definition observe (e : option Event) (trace : list Event) : list Event :=
  match e with Some e => e :: trace | None => trace end.

(** Every execution: the scheduler picks any enabled goroutine until none
    is left.  [executions] is the relation, [schedules] enumerates the
    traces of the complete executions of at most [fuel] steps. *)
Inductive executions : Machine -> list Event -> Prop :=
| exec_done m : enabled m = [] -> executions m []
| exec_step m e m' trace :
    (e, m') ∈ enabled m -> executions m' trace ->
    executions m (observe e trace).

Fixpoint schedules (fuel : nat) (m : Machine) : list (list Event) :=
  match fuel with
  | 0 => [[]]
  | S fuel =>
      match enabled m with
      | [] => [[]]
      | steps =>
          flat_map (fun step => map (observe step.1) (schedules fuel step.2))
            steps
      end
  end.

(** The traces of a piece of code run as the first goroutine. *)
Definition traces (code : list Instr) : list (list Event) :=
  schedules (code_size code) (start code).

(** The same code with every wait group [w] named [w + k]. *)
Fixpoint shift_instr (k : nat) (i : Instr) : Instr :=
  match i with
  | Do e => Do e
  | Go body => Go (map (shift_instr k) body)
  | WgAdd wg delta => WgAdd (wg + k) delta
  | WgDone wg => WgDone (wg + k)
  | WgWait wg => WgWait (wg + k)
  end.

(** Two machines that run the same code up to the names of the wait
    groups, and two steps that show the same action and lead to such
    machines. *)
Definition shifted (k : nat) (m m' : Machine) : Prop :=
  goroutines m' = map (map (shift_instr k)) (goroutines m)
  /\ forall w, counters m' (w + k) = counters m w.

Definition same_step (k : nat) (s s' : option Event * Machine) : Prop :=
  s.1 = s'.1 /\ shifted k s.2 s'.2.

(** *** Sequential Go code with early return

    A function body is written in a monad that collects the instructions
    executed so far; [Returned err] is a [return err] and [Panicked] a
    panic: both skip the rest of the body. *)

Inductive Outcome (A : Type) : Type :=
| Next (a : A)
| Returned (err : option GoError)
| Panicked.

Arguments Next {A} a.
Arguments Returned {A} err.
Arguments Panicked {A}.

Record Prog (A : Type) : Type := {
  code : list Instr;
  outcome : Outcome A;
}.

Arguments code {A} p.
Arguments outcome {A} p.

#[export] Instance Prog_ret : MRet Prog := fun _ a =>
  {| code := []; outcome := Next a |}.

#[export] Instance Prog_bind : MBind Prog := fun _ _ f p =>
  match outcome p with
  | Next a =>
      let rest := f a in
      {| code := code p ++ code rest; outcome := outcome rest |}
  | Returned err => {| code := code p; outcome := Returned err |}
  | Panicked => {| code := code p; outcome := Panicked |}
  end.

Definition exec (i : Instr) : Prog unit :=
  {| code := [i]; outcome := Next () |}.

Definition return_ {A} (err : option GoError) : Prog A :=
  {| code := []; outcome := Returned err |}.

(** A nil-pointer dereference. *)
Definition panic {A} (msg : string) : Prog A :=
  {| code := [Do (Panic msg)]; outcome := Panicked |}.

(** [defer f()]: [f] runs when the rest of the body is left, however. *)
Definition defer {A} (deferred : list Instr) (rest : Prog A) : Prog A :=
  {| code := code rest ++ deferred; outcome := outcome rest |}.

(** The error a function body returns; falling off its end is [return nil]
    where the source ends so. *)
Definition returned (p : Prog unit) : option GoError :=
  match outcome p with
  | Returned err => err
  | _ => None
  end.

(** [if err != nil { return err }] *)
Definition check (err : option GoError) : Prog unit :=
  match err with
  | Some e => return_ (Some e)
  | None => mret ()
  end.

(** [v, err := f(); if err != nil { return err }] *)
Definition try {A} (r : A + GoError) : Prog A :=
  match r with
  | inl a => mret a
  | inr e => return_ (Some e)
  end.

(** *** The packages the command calls

    Names of other files of the package [commands] and of the packages
    [webhooks], [operations] and [stack]. *)
Record Package := {
  configEntryPointFilename : string;
  serverEntryPointFilename : string;
  configJsonFilename : string;
  WebhookDirectoryName : string;
  operations_DirectoryName : string;
  wunderctlBinaryPathEnvKey : string;
  wunderctlBinaryPath : string;
  CliEnv : list string;
  disableCache : bool;
  BuildInfo : list (string * string);
  stack_S3 : string;
  GetDefaultS3PortID : string;
  (** [json.Unmarshal] of the artifact and [node.CreateConfig]. *)
  decodeConfig : string -> WunderNodeConfig + GoError;
}.

(** [filepath.Join] *)
Definition filepath_Join (elem : list string) : string := JS.join "/" elem.

(** [fmt.Sprintf("%t", b)] *)
Definition fmt_bool (b : bool) : string := if b then "true" else "false".

(** Modelled from the spec: a resource of the StackSupervisor is a named
    auxiliary service with a discoverable host:port; the spec calls the
    lookup from resource kind to endpoint a stringly-typed map. *)
Record Resource := { GetHostPort : string -> string }.

Record StackRunner := { Resources : gmap string Resource }.

(** The files on disk: path to content. *)
Definition Disk := gmap string string.

(** What one run of the after-build callback meets: the answers of the
    calls it makes. *)
Record AfterBuildEnv := {
  operationsDirExists : bool;
  operations_GetPaths : list string + GoError;
  operations_Cleanup : option GoError;
  operations_EnsureWunderGraphFactoryTS : option GoError;
  operationsBundle : option GoError;
  hooksBundle : option GoError;
  webhooksBundle : option GoError;
}.

(** One build of the config bundler: whether the compilation itself fails,
    and what the after-build callback meets when it does not. *)
Record BuildEnv := {
  configBundle : option GoError;
  afterBuild : AfterBuildEnv;
}.

(** What one run of the command meets. *)
Record Env := {
  FindWunderGraphDir : string + GoError;
  (** [os.Stat] at startup: files and directories that exist. *)
  exists_on_disk : string -> bool;
  ServerPortFromConfig : nat + GoError;
  GetWebhooks : list string + GoError;
  initialBuild : BuildEnv;
  stack_NewRunner : StackRunner + GoError;
  stack_Run : option GoError;
  (** The builds the watch loop of the config bundler runs, in order. *)
  watchBuilds : list BuildEnv;
  configWatcherSetup : option GoError;
  (** The disk at each change event of the config artifact, in order. *)
  configFileChanges : list Disk;
  node_StartBlocking : option GoError;
  (** The disk at the explicit parse after the gateway start. *)
  diskAfterStart : Disk;
}.

(** Modelled from the spec: [files.CodeFilePath] is not part of the sources
    at hand.  The mandatory entry point is required to exist, [up.go] says
    of the call that it only validates that the file exists, and the result
    for the optional entry point is the empty path when it is absent. *)
Definition CodeFilePath (env : Env) (wunderGraphDir filename : string)
  : string * option GoError :=
  let path := filepath_Join [wunderGraphDir; filename] in
  if exists_on_disk env path then (path, None)
  else ("", Some ("code file not found: " +:+ path)).

(** Modelled from the spec: [files.DirectoryExists]. *)
Definition DirectoryExists (env : Env) (path : string) : bool :=
  exists_on_disk env path.

(** Modelled from the spec: [bundler.Bundle] is not part of the sources at
    hand.  A build compiles the entry points; after every successful build
    it invokes [OnAfterBundle] synchronously and waits for it; an error of
    the callback is returned to the caller; a failed build does not invoke
    the callback. *)
Definition Bundle (name : BundlerName) (build : option GoError)
    (OnAfterBundle : option (Prog unit)) : list Instr * option GoError :=
  match build with
  | Some e => ([Do (BundleBegin name); Do (BundleReturn name (Some e))], Some e)
  | None =>
      match OnAfterBundle with
      | Some callback =>
          ([Do (BundleBegin name)] ++ code callback
           ++ [Do (BundleReturn name (returned callback))], returned callback)
      | None => ([Do (BundleBegin name); Do (BundleReturn name None)], None)
      end
  end.

(** [err := b.Bundle()] inside a function body. *)
Definition call_Bundle (name : BundlerName) (build : option GoError)
    (OnAfterBundle : option (Prog unit)) : Prog (option GoError) :=
  let r := Bundle name build OnAfterBundle in
  {| code := r.1; outcome := Next r.2 |}.

(** Modelled from the spec: [bundler.Watch].  Every qualifying change event
    triggers one [Bundle]; a build failure is logged with the name of the
    pipeline and does not end the loop. *)
Definition Bundler_Watch (name : BundlerName)
    (builds : list (list Instr * option GoError)) : list Instr :=
  Do (BundlerWatch name)
  :: flat_map
       (fun build =>
          build.1 ++
          match build.2 with
          | Some e => [Do (Log ErrorLevel "could not bundle" [("error", e)])]
          | None => []
          end) builds.

(** [<-runner.Run(ctx)]: the runner (re)starts its process and the caller
    waits for the channel it returns. *)
Definition await_Run (name : RunnerName) : Prog unit :=
  _ ← exec (Do (RunBegin name)); exec (Do (RunDone name)).

(** Modelled from the spec: [watcher.Watch] is not part of the sources at
    hand.  A mandatory path that is missing is an error at setup; otherwise
    the callback runs once per change event, never concurrently with
    itself, and an error it returns is logged and does not stop the loop.
    A callback that panics ends the program. *)
Fixpoint watch_loop (name : string) (callbacks : list (Prog unit)) : list Instr :=
  match callbacks with
  | [] => []
  | callback :: rest =>
      code callback ++
      match outcome callback with
      | Panicked => []
      | Returned (Some e) =>
          Do (Log ErrorLevel "watcher callback" [("watcher", name); ("error", e)])
          :: watch_loop name rest
      | _ => watch_loop name rest
      end
  end.

Definition Watcher_Watch (name : string) (setup : option GoError)
    (callbacks : list (Prog unit)) : list Instr * option GoError :=
  match setup with
  | Some e => ([Do (WatcherWatch name)], Some e)
  | None => (Do (WatcherWatch name) :: watch_loop name callbacks, None)
  end.

(** Modelled from the spec: [node.ReadAndCreateConfig] is not part of the
    sources at hand.  The artifact is read and parsed, the option passed by
    the caller patches the parsed value in memory, and the patched value is
    returned; the file on disk is not rewritten.  The result is the value
    (or the error) and the disk afterwards. *)
Definition ReadAndCreateConfig (pkg : Package) (disk : Disk)
    (configFilePath : string)
    (option_ : WunderNodeConfig -> option WunderNodeConfig)
  : Prog (WunderNodeConfig + GoError) * Disk :=
  (match disk !! configFilePath with
   | None => mret (inr ("open " +:+ configFilePath +:+ ": no such file"))
   | Some data =>
       match decodeConfig pkg data with
       | inr e => mret (inr e)
       | inl cfg =>
           match option_ cfg with
           | Some cfg => mret (inl cfg)
           | None => panic "invalid memory address or nil pointer dereference"
           end
       end
   end, disk).

(** *** The rewrite of the S3 endpoints *)

(** The two assignments through [s3Cfg.Endpoint]. *)
Definition setEndpoint (hostPort : string) (s3Cfg : S3UploadConfiguration)
  : S3UploadConfiguration :=
  let endpoint := Endpoint s3Cfg in
  let endpoint :=
    {| StaticVariableContent := hostPort;
       Kind := Kind endpoint;
       variable_other := variable_other endpoint |} in
  let endpoint :=
    {| StaticVariableContent := StaticVariableContent endpoint;
       Kind := STATIC_CONFIGURATION_VARIABLE;
       variable_other := variable_other endpoint |} in
  {| Endpoint := endpoint; s3_other := s3_other s3Cfg |}.

(** [for _, s3Cfg := range cfg.Api.S3UploadConfiguration { ... }]: the
    elements are pointers, the assignments reach the configuration. *)
Definition setEndpoints (hostPort : string) (cfg : WunderNodeConfig)
  : WunderNodeConfig :=
  {| Api := {| S3UploadConfiguration_ :=
                 map (setEndpoint hostPort) (S3UploadConfiguration_ (Api cfg));
               api_other := api_other (Api cfg) |};
     config_other := config_other cfg |}.

(** The option passed to [ReadAndCreateConfig] by the callback of the
    config watcher.  [range] over a Go map visits the entries in no fixed
    order; [stackRunner] is nil when [stack.NewRunner] failed. *)
Definition watcherConfigOption (pkg : Package) (stackRunner : option StackRunner)
    (cfg : WunderNodeConfig) : option WunderNodeConfig :=
  stackRunner ← stackRunner;
  Some (map_fold
          (fun s resource cfg =>
             if decide (s = stack_S3 pkg)
             then setEndpoints (GetHostPort resource (GetDefaultS3PortID pkg)) cfg
             else cfg)
          cfg (Resources stackRunner)).

(** The option passed to [ReadAndCreateConfig] by the explicit parse after
    the gateway start. *)
Definition startupConfigOption (pkg : Package) (stackRunner : option StackRunner)
    (cfg : WunderNodeConfig) : option WunderNodeConfig :=
  stackRunner ← stackRunner;
  Some (map_fold
          (fun s resource cfg =>
             if decide (s = stack_S3 pkg)
             then setEndpoints (GetHostPort resource (GetDefaultS3PortID pkg)) cfg
             else cfg)
          cfg (Resources stackRunner)).

(** *** The after-build callbacks *)

Definition operationsBundlerConfig (wunderGraphDir : string)
    (operationsPaths : list string) : BundlerConfig :=
  {| bundler_Name := operations_bundler;
     EntryPoints := operationsPaths;
     bundler_AbsWorkingDir := wunderGraphDir;
     OutFile := "";
     OutDir := filepath_Join ["generated"; "bundle"];
     bundler_WatchPaths := [];
     IgnorePaths := [] |}.

(** [OnAfterBundle] of the webhooks bundler. *)
Definition webhooksOnAfterBundle : Prog unit :=
  _ ← exec (Do (Log DebugLevel "Webhooks bundled!"
                  [("bundlerName", "webhooks-bundler")]));
  return_ None.

(** [onAfterBuild] when the server-hooks entry point exists.
    [webhooksBundler] tells whether the webhooks bundler was created (it is
    nil otherwise); [wg] names the wait group of this invocation. *)
Definition onAfterBuild_hooks (wunderGraphDir : string) (webhooksBundler : bool)
    (wg : nat) (ab : AfterBuildEnv) : Prog unit :=
  _ ← exec (Do (Log DebugLevel "Config built!"
                  [("bundlerName", "config-bundler")]));
  _ ← (if operationsDirExists ab then
         operationsPaths ← try (operations_GetPaths ab);
         _ ← exec (Do (OperationsCleanup operationsPaths));
         _ ← check (operations_Cleanup ab);
         _ ← exec (Do EnsureWunderGraphFactoryTS);
         _ ← check (operations_EnsureWunderGraphFactoryTS ab);
         _ ← exec (Do (NewBundler
                         (operationsBundlerConfig wunderGraphDir operationsPaths)));
         err ← call_Bundle operations_bundler (operationsBundle ab) None;
         check err
       else mret ());
  (* generate new config *)
  _ ← await_Run config_runner;
  _ ← exec (WgAdd wg 1);
  _ ← exec (Go ((Bundle hooks_bundler (hooksBundle ab) None).1 ++ [WgDone wg]));
  _ ← (if webhooksBundler then
         _ ← exec (WgAdd wg 1);
         exec (Go ((Bundle webhooks_bundler (webhooksBundle ab)
                      (Some webhooksOnAfterBundle)).1 ++ [WgDone wg]))
       else mret ());
  _ ← exec (WgWait wg);
  (* run or restart hook server *)
  _ ← exec (Go (code (await_Run hook_server_runner)));
  (* run or restart the introspection poller *)
  _ ← exec (Go (code (await_Run config_introspection_runner)));
  return_ None.

(** [onAfterBuild] when the server-hooks entry point is absent. *)
Definition onAfterBuild_no_hooks : Prog unit :=
  (* generate new config *)
  _ ← await_Run config_runner;
  (* run or restart the introspection poller *)
  _ ← exec (Go (code (await_Run config_introspection_runner)));
  _ ← exec (Do (Log DebugLevel "Config built!"
                  [("bundlerName", "config-bundler")]));
  return_ None.

(** *** [upCmd.RunE] *)

Section Command.

Context (pkg : Package).

Definition configRunnerConfig (wunderGraphDir configOutFile : string)
  : ScriptRunnerConfig :=
  {| runner_Name := config_runner;
     Executable := "node";
     runner_AbsWorkingDir := wunderGraphDir;
     ScriptArgs := [configOutFile];
     ScriptEnv :=
       CliEnv pkg ++
       [ "WG_PRETTY_GRAPHQL_VALIDATION_ERRORS=true";
         "WG_ENABLE_INTROSPECTION_CACHE=" +:+ fmt_bool (negb (disableCache pkg));
         "WG_DIR_ABS=" +:+ wunderGraphDir;
         wunderctlBinaryPathEnvKey pkg +:+ "=" +:+ wunderctlBinaryPath pkg ] |}.

Definition configIntrospectionRunnerConfig (wunderGraphDir configOutFile : string)
  : ScriptRunnerConfig :=
  {| runner_Name := config_introspection_runner;
     Executable := "node";
     runner_AbsWorkingDir := wunderGraphDir;
     ScriptArgs := [configOutFile];
     ScriptEnv :=
       CliEnv pkg ++
       [ "WG_DATA_SOURCE_POLLING_MODE=true";
         "WG_ENABLE_INTROSPECTION_CACHE=" +:+ fmt_bool (negb (disableCache pkg));
         "WG_DIR_ABS=" +:+ wunderGraphDir;
         wunderctlBinaryPathEnvKey pkg +:+ "=" +:+ wunderctlBinaryPath pkg ] |}.

Definition hooksBundlerConfig (wunderGraphDir serverOutFile configJsonPath : string)
  : BundlerConfig :=
  {| bundler_Name := hooks_bundler;
     EntryPoints := [serverEntryPointFilename pkg];
     bundler_AbsWorkingDir := wunderGraphDir;
     OutFile := serverOutFile;
     OutDir := "";
     bundler_WatchPaths := [{| Path := configJsonPath; Optional := false |}];
     IgnorePaths := [] |}.

Definition webhooksBundlerConfig (wunderGraphDir webhooksOutDir : string)
    (webhookPaths : list string) : BundlerConfig :=
  {| bundler_Name := webhooks_bundler;
     EntryPoints := webhookPaths;
     bundler_AbsWorkingDir := wunderGraphDir;
     OutFile := "";
     OutDir := webhooksOutDir;
     bundler_WatchPaths := [];
     IgnorePaths := [] |}.

Definition configBundlerConfig
    (wunderGraphDir configOutFile webhooksDir operationsDir
     introspectionCacheDir : string) : BundlerConfig :=
  {| bundler_Name := config_bundler;
     EntryPoints := [configEntryPointFilename pkg];
     bundler_AbsWorkingDir := wunderGraphDir;
     OutFile := configOutFile;
     OutDir := "";
     bundler_WatchPaths :=
       [ {| Path := filepath_Join [wunderGraphDir; "operations"]; Optional := true |};
         {| Path := filepath_Join [wunderGraphDir; "fragments"]; Optional := true |};
         {| Path := webhooksDir; Optional := true |};
         {| Path := operationsDir; Optional := true |};
         {| Path := introspectionCacheDir; Optional := false |} ];
     IgnorePaths := ["node_modules"] |}.

(** The [if codeServerFilePath != ""] statement: what it constructs, and
    the [onAfterBuild] it assigns (a function of the wait group and of what
    the invocation meets). *)
Definition configureHooks (env : Env)
    (wunderGraphDir codeServerFilePath serverOutFile webhooksOutDir webhooksDir
     configJsonPath : string)
  : Prog (nat -> AfterBuildEnv -> Prog unit) :=
  if negb (String.eqb codeServerFilePath "") then
    _ ← exec (Do (NewBundler
                    (hooksBundlerConfig wunderGraphDir serverOutFile
                       configJsonPath)));
    webhooksBundler ←
      (if DirectoryExists env webhooksDir then
         webhookPaths ← try (GetWebhooks env);
         _ ← exec (Do (NewBundler
                         (webhooksBundlerConfig wunderGraphDir webhooksOutDir
                            webhookPaths)));
         mret true
       else mret false);
    _ ← exec (Do (NewServerRunner wunderGraphDir serverOutFile));
    mret (onAfterBuild_hooks wunderGraphDir webhooksBundler)
  else
    _ ← exec (Do (Log InfoLevel "hooks EntryPoint not found, skipping"
                    [("file", serverEntryPointFilename pkg)]));
    mret (fun _ _ => onAfterBuild_no_hooks).

(** The callback handed to [configWatcher.Watch], at one change event. *)
Definition onConfigFileChange (stackRunner : option StackRunner)
    (configJsonPath : string) (disk : Disk) : Prog unit :=
  r ← (ReadAndCreateConfig pkg disk configJsonPath
         (watcherConfigOption pkg stackRunner)).1;
  wunderNodeConfig ← try r;
  _ ← exec (Do (SendConfig wunderNodeConfig));
  return_ None.

(** The goroutine around [configWatcher.Watch]. *)
Definition configWatcherGoroutine (env : Env) (stackRunner : option StackRunner)
    (configJsonPath : string) : list Instr :=
  let watch :=
    Watcher_Watch "config" (configWatcherSetup env)
      (map (onConfigFileChange stackRunner configJsonPath)
         (configFileChanges env)) in
  watch.1 ++
  match watch.2 with
  | Some e => [Do (Log ErrorLevel "watcher" [("watcher", "config"); ("error", e)])]
  | None => []
  end.

(** The goroutine around [n.StartBlocking]. *)
Definition nodeGoroutine (env : Env) : list Instr :=
  Do NodeStartBlocking ::
  match node_StartBlocking env with
  | Some e => [Do (Log ErrorLevel "node exited" [("error", e)]); Do ContextCancel]
  | None => []
  end.

(** Everything from [stack.NewRunner] on: the part of the command that
    follows the initial build. *)
Definition afterInitialBuild (env : Env)
    (onAfterBuild : nat -> AfterBuildEnv -> Prog unit)
    (wunderGraphDir configJsonPath : string) : Prog unit :=
  _ ← exec (Do StackNewRunner);
  stackRunner ←
    match stack_NewRunner env with
    | inr e =>
        _ ← exec (Do (Log ErrorLevel "failed to initialize stack runner"
                        [("error", e)]));
        mret None
    | inl stackRunner =>
        _ ← exec (Do StackRun);
        _ ← match stack_Run env with
            | Some e =>
                exec (Do (Log ErrorLevel "failed to run stack" [("error", e)]))
            | None => mret ()
            end;
        mret (Some stackRunner)
    end;
  (* only start watching in the builder once the initial config was built *)
  _ ← exec (Go (Bundler_Watch config_bundler
                  (imap (fun i build =>
                           Bundle config_bundler (configBundle build)
                             (Some (onAfterBuild (S i) (afterBuild build))))
                     (watchBuilds env))));
  _ ← exec (Do (NewWatcher "config"
                  [{| Path := configJsonPath; Optional := false |}]));
  _ ← exec (Go (configWatcherGoroutine env stackRunner configJsonPath));
  _ ← exec (Do NodeNew);
  _ ← exec (Go (nodeGoroutine env));
  r ← (ReadAndCreateConfig pkg (diskAfterStart env) configJsonPath
         (startupConfigOption pkg stackRunner)).1;
  wunderNodeConfig ← try r;
  (* trigger server reload after initial config build *)
  _ ← exec (Do (SendConfig wunderNodeConfig));
  (* wait for context to be canceled *)
  _ ← exec (Do AwaitContextDone);
  _ ← exec (Do (Log InfoLevel
                  "Context was canceled. Initialize WunderNode shutdown ...." []));
  _ ← exec (Do NodeClose);
  _ ← exec (Do (Log InfoLevel "server shutdown complete" []));
  return_ None.

(** From the construction of the config bundler on: the initial build, the
    log line for its failure, and the rest of the command. *)
Definition initialBuildAndStart (env : Env)
    (onAfterBuild : nat -> AfterBuildEnv -> Prog unit)
    (wunderGraphDir configOutFile webhooksDir operationsDir
     introspectionCacheDir configJsonPath : string) : Prog unit :=
  _ ← exec (Do (NewBundler
                  (configBundlerConfig wunderGraphDir configOutFile
                     webhooksDir operationsDir introspectionCacheDir)));
  err ← call_Bundle config_bundler (configBundle (initialBuild env))
          (Some (onAfterBuild 0 (afterBuild (initialBuild env))));
  _ ← match err with
      | Some e =>
          exec (Do (Log ErrorLevel "could not bundle"
                      [("bundlerName", "config-bundler");
                       ("watcher", "config"); ("error", e)]))
      | None => mret ()
      end;
  afterInitialBuild env onAfterBuild wunderGraphDir configJsonPath.

(** The body of the command once the project directory and its entry points
    are known. *)
Definition startup (env : Env) (wunderGraphDir codeServerFilePath : string)
  : Prog unit :=
  _ ← exec (Do (Log InfoLevel "Starting WunderNode" (BuildInfo pkg)));
  let introspectionCacheDir :=
    filepath_Join [wunderGraphDir; "cache"; "introspection"] in
  let configJsonPath :=
    filepath_Join [wunderGraphDir; "generated"; configJsonFilename pkg] in
  let webhooksDir := filepath_Join [wunderGraphDir; WebhookDirectoryName pkg] in
  let configOutFile := filepath_Join ["generated"; "bundle"; "config.js"] in
  let serverOutFile := filepath_Join ["generated"; "bundle"; "server.js"] in
  let webhooksOutDir := filepath_Join ["generated"; "bundle"; "webhooks"] in
  let operationsDir :=
    filepath_Join [wunderGraphDir; operations_DirectoryName pkg] in
  _ ← match ServerPortFromConfig env with
      | inl port => exec (Do (KillExistingHooksProcess port))
      | inr _ => mret ()
      end;
  _ ← exec (Do (NewScriptRunner
                  (configRunnerConfig wunderGraphDir configOutFile)));
  _ ← exec (Do (NewScriptRunner
                  (configIntrospectionRunnerConfig wunderGraphDir
                     configOutFile)));
  onAfterBuild ←
    configureHooks env wunderGraphDir codeServerFilePath serverOutFile
      webhooksOutDir webhooksDir configJsonPath;
  initialBuildAndStart env onAfterBuild wunderGraphDir configOutFile
    webhooksDir operationsDir introspectionCacheDir configJsonPath.

Definition RunE (env : Env) : Prog unit :=
  defer [Do ContextCancel] (
    wunderGraphDir ← try (FindWunderGraphDir env);
    (* only validate if the file exists *)
    _ ← check (CodeFilePath env wunderGraphDir (configEntryPointFilename pkg)).2;
    (* optional, no error check *)
    let codeServerFilePath :=
      (CodeFilePath env wunderGraphDir (serverEntryPointFilename pkg)).1 in
    _ ← exec (Do NotifyContext);
    defer [Do SignalStop] (startup env wunderGraphDir codeServerFilePath)).

End Command.

(** *** Properties of traces *)

#[export] Instance BundlerName_eq_dec : EqDecision BundlerName.
Proof. solve_decision. Defined.

#[export] Instance RunnerName_eq_dec : EqDecision RunnerName.
Proof. solve_decision. Defined.

#[export] Instance Level_eq_dec : EqDecision Level.
Proof. solve_decision. Defined.

Definition is_BundleBegin (name : BundlerName) (e : Event) : bool :=
  match e with BundleBegin n => bool_decide (n = name) | _ => false end.

Definition is_BundleReturn (name : BundlerName) (e : Event) : bool :=
  match e with BundleReturn n _ => bool_decide (n = name) | _ => false end.

Definition is_RunBegin (name : RunnerName) (e : Event) : bool :=
  match e with RunBegin n => bool_decide (n = name) | _ => false end.

Definition is_Log (level : Level) (e : Event) : bool :=
  match e with Log l _ _ => bool_decide (l = level) | _ => false end.

(** The bundler an action creates or runs, if it is about one. *)
Definition bundler_of (e : Event) : option BundlerName :=
  match e with
  | NewBundler config => Some (bundler_Name config)
  | BundleBegin name | BundleReturn name _ | BundlerWatch name => Some name
  | _ => None
  end.

(** The stage of the after-build callback an action belongs to: the
    operations bundle and its preparation (0), the config script (1), the
    hooks and webhooks bundles (2), the restarts of the hook server and of
    the introspection poller (3). *)
Definition stage (e : Event) : nat :=
  match e with
  | RunBegin config_runner | RunDone config_runner => 1
  | BundleBegin hooks_bundler | BundleReturn hooks_bundler _
  | BundleBegin webhooks_bundler | BundleReturn webhooks_bundler _
  | Log DebugLevel "Webhooks bundled!" _ => 2
  | RunBegin _ | RunDone _ => 3
  | _ => 0
  end.

(** No action of an earlier stage follows an action of a later one. *)
Fixpoint staged (trace : list Event) : bool :=
  match trace with
  | [] => true
  | e :: rest => forallb (fun e' => Nat.leb (stage e) (stage e')) rest && staged rest
  end.

(** Bundler [y] begins while bundler [x] has begun and not yet returned. *)
Fixpoint begins_during (x y : BundlerName) (running : bool) (trace : list Event)
  : bool :=
  match trace with
  | [] => false
  | e :: rest =>
      if is_BundleBegin x e then begins_during x y true rest
      else if is_BundleReturn x e then begins_during x y false rest
      else if is_BundleBegin y e && running then true
      else begins_during x y running rest
  end.

(** The two bundlers run concurrently in a trace: one begins while the
    other is running. *)
Definition overlap (x y : BundlerName) (trace : list Event) : bool :=
  begins_during x y false trace || begins_during y x false trace.

(** An action that creates a bundler, a watcher, a runner or the gateway,
    starts or initializes the stack, or runs, kills or restarts a process. *)
Definition creates_or_spawns (e : Event) : bool :=
  match e with
  | Log _ _ _ | NotifyContext | SignalStop | ContextCancel | AwaitContextDone
  | Panic _ => false
  | _ => true
  end.

(** An action on the hook server, or on the hooks, webhooks or operations
    bundler. *)
Definition about_hooks (e : Event) : bool :=
  match e with
  | NewServerRunner _ _ => true
  | NewScriptRunner config => bool_decide (runner_Name config = hook_server_runner)
  | RunBegin hook_server_runner | RunDone hook_server_runner => true
  | OperationsCleanup _ | EnsureWunderGraphFactoryTS => true
  | _ =>
      match bundler_of e with
      | Some config_bundler | None => false
      | Some _ => true
      end
  end.

(** What every trace of the after-build callback with hooks is checked
    for, given whether the webhooks bundler exists and whether the callback
    gets past the operations bundle: the stages come in order, the
    operations bundle overlaps with no other bundle, and either both
    concurrent bundles return and both restarts begin, or none of them
    begins. *)
Definition after_build_trace_ok (webhooksBundler completes : bool)
    (trace : list Event) : bool :=
  staged trace
  && negb (overlap operations_bundler hooks_bundler trace)
  && negb (overlap operations_bundler webhooks_bundler trace)
  && (if completes then
        existsb (is_BundleBegin hooks_bundler) trace
        && existsb (is_BundleReturn hooks_bundler) trace
        && (if webhooksBundler then
              existsb (is_BundleBegin webhooks_bundler) trace
              && existsb (is_BundleReturn webhooks_bundler) trace
            else negb (existsb (is_BundleBegin webhooks_bundler) trace))
        && existsb (is_RunBegin hook_server_runner) trace
        && existsb (is_RunBegin config_introspection_runner) trace
      else
        negb (existsb (is_BundleBegin hooks_bundler) trace)
        && negb (existsb (is_BundleBegin webhooks_bundler) trace)
        && negb (existsb (is_RunBegin config_runner) trace)
        && negb (existsb (is_RunBegin hook_server_runner) trace)
        && negb (existsb (is_RunBegin config_introspection_runner) trace)).

(** The same run of the callback with other results of the hooks and the
    webhooks bundle. *)
Definition with_sub_builds (hooks webhooks : option GoError) (ab : AfterBuildEnv)
  : AfterBuildEnv :=
  {| operationsDirExists := operationsDirExists ab;
     operations_GetPaths := operations_GetPaths ab;
     operations_Cleanup := operations_Cleanup ab;
     operations_EnsureWunderGraphFactoryTS :=
       operations_EnsureWunderGraphFactoryTS ab;
     operationsBundle := operationsBundle ab;
     hooksBundle := hooks;
     webhooksBundle := webhooks |}.

(** [return nil]: the function body ran to its end. *)
Definition completes (p : Prog unit) : bool :=
  match returned p with None => true | Some _ => false end.

(** Every action of a function body, the goroutines it starts included,
    satisfies [P]. *)
Definition safe (P : Event -> Prop) {A} (p : Prog A) : Prop :=
  Forall P (all_events (code p)).

(** The [stackRunner] variable after [stack.NewRunner]: nil when it
    returned an error. *)
Definition stackRunner_of (env : Env) : option StackRunner :=
  match stack_NewRunner env with
  | inl stackRunner => Some stackRunner
  | inr _ => None
  end.

Definition is_SendConfig (e : Event) : bool :=
  match e with SendConfig _ => true | _ => false end.

(** A configuration that is the artifact read at [path] from one of
    [disks], with every S3 endpoint set to [hostPort]. *)
Definition rewritten_artifact (pkg : Package) (disks : list Disk)
    (path hostPort : string) (c : WunderNodeConfig) : Prop :=
  exists (disk : Disk) data raw,
    disk ∈ disks
    /\ disk !! path = Some data
    /\ decodeConfig pkg data = inl raw
    /\ c = setEndpoints hostPort raw.

(** The disk at every parse of the config artifact in a run: the explicit
    parse after the gateway start and one per change event. *)
Definition parsedDisks (env : Env) : list Disk :=
  diskAfterStart env :: configFileChanges env.

(** The path of the config artifact in the project directory of a run. *)
Definition configJsonPath_of (pkg : Package) (env : Env) : string :=
  match FindWunderGraphDir env with
  | inl dir => filepath_Join [dir; "generated"; configJsonFilename pkg]
  | inr _ => ""
  end.

(** The return of a [Bundle] call of the config bundler, as an instruction
    of the goroutine that made the call. *)
Definition is_config_return (i : Instr) : bool :=
  match i with Do (BundleReturn config_bundler _) => true | _ => false end.

(** An instruction at which a goroutine can be kept waiting. *)
Definition waits (i : Instr) : bool :=
  match i with WgWait _ => true | _ => false end.

(** What the statement after [stack.NewRunner] does: it runs the stack
    when there is a runner, and logs the error of whichever call failed. *)
Definition runStack (env : Env) : list Instr :=
  match stack_NewRunner env with
  | inl _ =>
      Do StackRun ::
      match stack_Run env with
      | Some e => [Do (Log ErrorLevel "failed to run stack" [("error", e)])]
      | None => []
      end
  | inr e =>
      [Do (Log ErrorLevel "failed to initialize stack runner" [("error", e)])]
  end.

(** The goroutines the command starts after the initial build, and the
    constructions between them, in the order of the source: the watch loop
    of the config bundler, the watcher of the config artifact, and the
    gateway node. *)
Definition watchersAndNode (pkg : Package) (env : Env)
    (onAfterBuild : nat -> AfterBuildEnv -> Prog unit) (configJsonPath : string)
  : list Instr :=
  [ Go (Bundler_Watch config_bundler
          (imap (fun i build =>
                   Bundle config_bundler (configBundle build)
                     (Some (onAfterBuild (S i) (afterBuild build))))
             (watchBuilds env)));
    Do (NewWatcher "config" [{| Path := configJsonPath; Optional := false |}]);
    Go (configWatcherGoroutine pkg env (stackRunner_of env) configJsonPath);
    Do NodeNew;
    Go (nodeGoroutine env) ].

(** The configurations a piece of code sends to the gateway. *)
Definition sent_configs (code : list Instr) : list WunderNodeConfig :=
  omap (fun e => match e with SendConfig c => Some c | _ => None end)
    (all_events code).

End Up.

(** ** Sample inputs

    A small stand-in for the graphql package and a project on disk, used to
    run the definitions. *)

Module Samples.

Import GraphQL.

Definition adminOnly : DirectiveNode :=
  {| dir_name := "rbac";
     dir_arguments :=
       Some [{| arg_name := "requireMatchAll";
                arg_value := ListValue [EnumValue "admin"] |}] |}.

Definition injectNow (arguments : list ArgumentNode) : DirectiveNode :=
  {| dir_name := "injectCurrentDateTime"; dir_arguments := Some arguments |}.

Definition fromClaimEmail : DirectiveNode :=
  {| dir_name := "fromClaim";
     dir_arguments := Some [{| arg_name := "name"; arg_value := EnumValue "EMAIL" |}] |}.

Definition variableWith (name : string) (directives : list DirectiveNode)
  : VariableDefinitionNode :=
  {| variable_name := name; var_type := "String!"; defaultValue := None;
     var_directives := Some directives |}.

Definition queryNode (selection : string) (variables : list VariableDefinitionNode)
    (directives : list DirectiveNode) : OperationDefinitionNode :=
  {| operation := "query";
     variableDefinitions := Some variables;
     op_directives := Some directives;
     selectionSet := selection |}.

(** The documents the stand-in parser knows, by their source text. *)
Definition documents : list (string * DocumentNode) :=
  [ ("plain", [OperationDefinition (queryNode "plain" [] [])]);
    ("admin", [OperationDefinition (queryNode "admin" [] [adminOnly])]);
    ("claim", [OperationDefinition
                 (queryNode "claim" [variableWith "email" [fromClaimEmail]] [])]);
    ("unknownField", [OperationDefinition (queryNode "unknownField" [] [])]);
    ("now", [OperationDefinition
               (queryNode "now"
                  [variableWith "at"
                     [injectNow [{| arg_name := "format";
                                    arg_value := EnumValue "Kitchen" |}]]] [])]);
    ("nowBoth", [OperationDefinition
                   (queryNode "nowBoth"
                      [variableWith "at"
                         [injectNow [{| arg_name := "format";
                                        arg_value := EnumValue "Kitchen" |};
                                     {| arg_name := "customFormat";
                                        arg_value := StringValue "2006" |}]]] [])]) ].

Definition mentions (selection : string) (document : DocumentNode) : bool :=
  existsb (fun definition =>
             match definition with
             | OperationDefinition node => String.eqb (selectionSet node) selection
             | OtherDefinition _ => false
             end) document.

#[export] Instance sampleLib : GraphQLLib :=
  {| GraphQLSchema := unit;
     JSONSchema := unit;
     buildSchema := fun source =>
       if String.eqb source "" then Throw "Syntax Error: Unexpected <EOF>."
       else Ok ();
     getQueryType_defined := fun _ => true;
     getType_astNode := fun _ name =>
       if String.eqb name "WG_ROLE"
       then Some (EnumTypeDefinition (Some ["admin"; "user"])) else None;
     parse := fun source =>
       match JS.get_own source documents with
       | Some document => Ok document
       | None => Throw ("Syntax Error: " +:+ source)
       end;
     print := fun node => Ok (selectionSet node);
     validate := fun _ document =>
       Ok (if mentions "unknownField" document
           then ["Cannot query field"] else []);
     stripIgnoredCharacters := Ok;
     removeTransformDirectives := Ok;
     operationVariablesToJSONSchema := fun _ _ _ _ _ _ => Ok ();
     operationResponseToJSONSchema := fun _ _ _ => Ok ((), []);
     updateJSONSchema := fun s _ _ => Ok s;
     WG_PRETTY_GRAPHQL_VALIDATION_ERRORS := true |}.

Definition file (name : string) : GraphQLOperationFile :=
  {| operation_name := name;
     api_mount_path := name;
     file_path := "operations/" +:+ name +:+ ".graphql";
     content := name |}.

Definition loaded (names : list string) : LoadOperationsOutput :=
  {| graphql_operation_files := Some (map file names);
     invalid := None; errors := None; info := None |}.

(** An operation as [parseGraphQLOperations] creates it, before any
    directive is handled. *)
Definition freshOperation (name : string) : GraphQLOperation :=
  {| Name := name; PathName := name; Content := name;
     OperationType_ := QUERY; ExecutionEngine := ENGINE_GRAPHQL;
     VariablesSchema := (); InterpolationVariablesSchema := ();
     InjectedVariablesSchema := (); InternalVariablesSchema := ();
     ResponseSchema := ();
     AuthenticationConfig_ := {| required := false |};
     AuthorizationConfig_ :=
       {| claims := [];
          roleConfig := {| requireMatchAll := []; requireMatchAny := [];
                           denyMatchAll := []; denyMatchAny := [] |} |};
     HooksConfiguration_ :=
       {| preResolve := false; postResolve := false;
          mutatingPreResolve := false; mutatingPostResolve := false;
          mockResolve := {| mock_enable := false;
                            subscriptionPollingIntervalMillis := 0 |};
          httpTransportOnRequest := false; httpTransportOnResponse := false;
          customResolve := false |};
     VariablesConfiguration_ := {| injectVariables := [] |};
     Internal := false;
     PostResolveTransformations := None |}.

(** [@injectCurrentDateTime(format: Kitchen)] *)
Definition injectNowKitchen : DirectiveNode :=
  injectNow [{| arg_name := "format"; arg_value := EnumValue "Kitchen" |}].

(** A project for the [up] command. *)
Definition s3Upload (endpoint : string) : Up.S3UploadConfiguration :=
  {| Up.Endpoint :=
       {| Up.Kind := Up.ENV_CONFIGURATION_VARIABLE;
          Up.StaticVariableContent := endpoint;
          Up.variable_other := "S3_ENDPOINT" |};
     Up.s3_other := "bucket" |}.

Definition artifact : Up.WunderNodeConfig :=
  {| Up.Api := {| Up.S3UploadConfiguration_ :=
                    [s3Upload "s3.example.com"; s3Upload ""];
                  Up.api_other := "api" |};
     Up.config_other := "server" |}.

Definition pkg : Up.Package :=
  {| Up.configEntryPointFilename := "wundergraph.config.ts";
     Up.serverEntryPointFilename := "wundergraph.server.ts";
     Up.configJsonFilename := "wundergraph.config.json";
     Up.WebhookDirectoryName := "webhooks";
     Up.operations_DirectoryName := "operations";
     Up.wunderctlBinaryPathEnvKey := "WUNDERCTL_BINARY_PATH";
     Up.wunderctlBinaryPath := "/usr/local/bin/wunderctl";
     Up.CliEnv := [];
     Up.disableCache := false;
     Up.BuildInfo := [("version", "dev")];
     Up.stack_S3 := "s3";
     Up.GetDefaultS3PortID := "9000/tcp";
     Up.decodeConfig := fun data =>
       if String.eqb data "" then inr "unexpected end of JSON input"
       else inl artifact |}.

(** An after-build run in which every call succeeds. *)
Definition allGood : Up.AfterBuildEnv :=
  {| Up.operationsDirExists := true;
     Up.operations_GetPaths := inl ["operations/users/get.ts"];
     Up.operations_Cleanup := None;
     Up.operations_EnsureWunderGraphFactoryTS := None;
     Up.operationsBundle := None;
     Up.hooksBundle := None;
     Up.webhooksBundle := None |}.

(** An after-build run in which the operations bundle does not compile. *)
Definition operationsBroken : Up.AfterBuildEnv :=
  {| Up.operationsDirExists := true;
     Up.operations_GetPaths := inl ["operations/users/get.ts"];
     Up.operations_Cleanup := None;
     Up.operations_EnsureWunderGraphFactoryTS := None;
     Up.operationsBundle := Some "operations-bundler: build failed";
     Up.hooksBundle := None;
     Up.webhooksBundle := None |}.

(** An after-build run in which the hooks bundle does not compile. *)
Definition hooksBroken : Up.AfterBuildEnv :=
  {| Up.operationsDirExists := true;
     Up.operations_GetPaths := inl ["operations/users/get.ts"];
     Up.operations_Cleanup := None;
     Up.operations_EnsureWunderGraphFactoryTS := None;
     Up.operationsBundle := None;
     Up.hooksBundle := Some "hooks-bundler: build failed";
     Up.webhooksBundle := None |}.

Definition localS3 : Up.Resource :=
  {| Up.GetHostPort := fun portID =>
       if String.eqb portID "9000/tcp" then "127.0.0.1:49153" else "" |}.

Definition stack : Up.StackRunner :=
  {| Up.Resources := {[ "s3" := localS3 ]} |}.

Definition diskWithArtifact : Up.Disk :=
  {[ "/app/.wundergraph/generated/wundergraph.config.json" := "{}" ]}.

(** A run of the command in the project [/app/.wundergraph] holding the
    files [present], with the given initial build and stack runner. *)
Definition run (present : list string) (initial : Up.BuildEnv)
    (stackRunner : Up.StackRunner + Up.GoError) : Up.Env :=
  {| Up.FindWunderGraphDir := inl "/app/.wundergraph";
     Up.exists_on_disk := fun path =>
       bool_decide (path ∈ map (fun f => "/app/.wundergraph/" +:+ f) present);
     Up.ServerPortFromConfig := inr "no config";
     Up.GetWebhooks := inl ["webhooks/github.ts"];
     Up.initialBuild := initial;
     Up.stack_NewRunner := stackRunner;
     Up.stack_Run := None;
     Up.watchBuilds := [{| Up.configBundle := None; Up.afterBuild := allGood |}];
     Up.configWatcherSetup := None;
     Up.configFileChanges := [diskWithArtifact];
     Up.node_StartBlocking := None;
     Up.diskAfterStart := diskWithArtifact |}.

Definition syntaxError : Up.BuildEnv :=
  {| Up.configBundle := Some "config-bundler: syntax error";
     Up.afterBuild := allGood |}.

(** A run whose initial build meets a syntax error in the config. *)
Definition failingRun : Up.Env :=
  run ["wundergraph.config.ts"; "wundergraph.server.ts"; "webhooks"]
    syntaxError (inl stack).

Definition goodBuild : Up.BuildEnv :=
  {| Up.configBundle := None; Up.afterBuild := allGood |}.

(** A caller of the query constructor that switches live queries off and
    asks for no polling. *)
Definition liveOff : NodeJSOperations.OperationArgs unit unit :=
  {| NodeJSOperations.input := None;
     NodeJSOperations.handler := ();
     NodeJSOperations.live :=
       Some {| NodeJSOperations.enable := false;
               NodeJSOperations.pollingIntervalSeconds := 0%float |};
     NodeJSOperations.arg_requireAuthentication := None;
     NodeJSOperations.arg_internal := None;
     NodeJSOperations.rbac := None |}.

End Samples.

(** ** Properties of the directive handlers *)

Module HandlerProperties.

Import GraphQL.

Section WithLib.

Context {lib : GraphQLLib}.

(** The parts of an operation that no directive handler of a variable
    assigns: everything but the authentication flag, the claims, the
    injected variables and the four variable schemas. *)
Definition untouched (o : GraphQLOperation) :=
  (Name o, PathName o, Content o, OperationType_ o, ExecutionEngine o,
   ResponseSchema o, HooksConfiguration_ o, Internal o,
   PostResolveTransformations o, roleConfig (AuthorizationConfig_ o)).

(** The directives of a variable that a handler loops over. *)
Definition count (variable : VariableDefinitionNode) (directiveName : string)
  : nat :=
  length (directivesNamed variable [directiveName]).

(** The four role lists of an operation. *)
Definition roleLists (o : GraphQLOperation) : list (list string) :=
  let config := roleConfig (AuthorizationConfig_ o) in
  [ requireMatchAll config; requireMatchAny config;
    denyMatchAll config; denyMatchAny config ].

(** The values of the enum [WG_ROLE] of the schema; none when the schema
    has no such type, when it is no enum, or when the enum is empty. *)
Definition declaredRoles (wgRoleEnum : option TypeDefinitionNode) : list string :=
  match wgRoleEnum with
  | Some (EnumTypeDefinition (Some values)) => values
  | _ => []
  end.

(** Every role list is free of duplicates and holds declared roles only. *)
Definition rolesDeclared (declared : list string) (o : GraphQLOperation) : Prop :=
  Forall (fun roles => NoDup roles /\ roles ⊆ declared) (roleLists o).

(** [HooksConfiguration] of an operation no hook is configured for. *)
Definition noHooks : HooksConfiguration :=
  {| preResolve := false; postResolve := false;
     mutatingPreResolve := false; mutatingPostResolve := false;
     mockResolve := {| mock_enable := false;
                       subscriptionPollingIntervalMillis := 0 |};
     httpTransportOnRequest := false; httpTransportOnResponse := false;
     customResolve := false |}.

(** Where an operation comes from and how it is executed. *)
Definition origin (o : GraphQLOperation) :=
  (Name o, PathName o, ExecutionEngine o, HooksConfiguration_ o).

(** An operation as a file [operationFile] gives rise to. *)
Definition builtFrom (operationFile : GraphQLOperationFile)
    (o : GraphQLOperation) : Prop :=
  origin o
  = (operation_name operationFile, api_mount_path operationFile,
     ENGINE_GRAPHQL, noHooks).

(** The [on:] argument of a directive, when there is one, is a string. *)
Definition onArgumentIsString (directive : DirectiveNode) : Prop :=
  forall onArg,
    find_argument "on" directive = Some onArg ->
    kind (arg_value onArg) = "StringValue".

(** [key in obj] for an object literal with the own entries [obj]. *)
Definition isIn {A} (key : string) (obj : list (string * A)) : Prop :=
  key ∈ obj.*1 \/ key ∈ JS.Object_prototype_keys.

(** An [@injectEnvironmentVariable] directive the handler accepts, and the
    configuration it pushes for it. *)
Definition environmentVariableOf (directive : DirectiveNode)
    (c : VariableInjectionConfiguration) : Prop :=
  exists arg value,
    find_argument "name" directive = Some arg
    /\ arg_value arg = StringValue value
    /\ variableKind c = ENVIRONMENT_VARIABLE
    /\ environmentVariableName c = value
    /\ dateFormat c = "".

End WithLib.

End HandlerProperties.

(** ** Properties of the [up] command *)

Module UpProperties.

Import Up.

(** An instruction by which the main goroutine serves the gateway: the
    push of a configuration, the wait for the end of the context, the
    close of the node. *)
Definition serves (i : Instr) : bool :=
  match i with
  | Do (SendConfig _) | Do AwaitContextDone | Do NodeClose => true
  | _ => false
  end.

(** The explicit parse of the config artifact after the gateway start. *)
Definition startupParse (pkg : Package) (env : Env)
  : Prog (WunderNodeConfig + GoError) :=
  (ReadAndCreateConfig pkg (diskAfterStart env) (configJsonPath_of pkg env)
     (startupConfigOption pkg (stackRunner_of env))).1.

(** What the main goroutine does from the push of the initial
    configuration to its [return nil]. *)
Definition serveUntilCancelled (c : WunderNodeConfig) : list Instr :=
  [ Do (SendConfig c);
    Do AwaitContextDone;
    Do (Log InfoLevel
          "Context was canceled. Initialize WunderNode shutdown ...." []);
    Do NodeClose;
    Do (Log InfoLevel "server shutdown complete" []) ].

End UpProperties.

(** ** What a call of a schema compiler comes to *)

Module Outcome.

(** A call returns, throws, or is not followed by the model: when the
    recursion is deeper than the fuel given, and when an assignment
    changes an object the whole program shares or the prototype of an
    object. *)

Inductive Run (A : Type) : Type :=
| Returns (a : A)
| Throws (message : string)
| Unfollowed.

Arguments Returns {A} a.
Arguments Throws {A} message.
Arguments Unfollowed {A}.

#[export] Instance Run_ret : MRet Run := fun _ a => Returns a.

#[export] Instance Run_bind : MBind Run := fun _ _ f m =>
  match m with
  | Returns a => f a
  | Throws e => Throws e
  | Unfollowed => Unfollowed
  end.

(** [xs.forEach(x => body(x))] over a state the body mutates. *)
Fixpoint forEachRun {A S} (body : S -> A -> Run S) (xs : list A) (s : S)
  : Run S :=
  match xs with
  | [] => Returns s
  | x :: rest => s' ← body s x; forEachRun body rest s'
  end.

(** [obj[key] = value] on the own properties: an existing key keeps its
    place, a new one goes last. *)
Fixpoint set_own {A} (key : string) (value : A) (obj : list (string * A))
  : list (string * A) :=
  match obj with
  | [] => [(key, value)]
  | (k, v) :: rest =>
      if String.eqb k key then (k, value) :: rest
      else (k, v) :: set_own key value rest
  end.

(** [obj[key] = value] on an object literal whose inherited members are
    never read afterwards: assigning to [__proto__] replaces the prototype
    and creates no own property. *)
Definition assign {A} (key : string) (value : A) (obj : list (string * A))
  : list (string * A) :=
  if String.eqb key "__proto__" then obj else set_own key value obj.

End Outcome.

(** ** The JSON-Schema compiler for the variables of an operation

    [operationVariablesToJSONSchema], [typeSchema] and the helpers that
    decide which variables and which fields of a variable are left out of
    a schema (graphql/operations.ts).  The directive handlers above take
    the compiler as a parameter; here it is embedded on its own. *)

Module VariablesSchema.

Export Outcome.

(** *** Which directives hide a variable, and which a field of it *)

(** [!!field] for a string that may be undefined: the empty string is
    falsy. *)
Definition truthy (field : option string) : bool :=
  match field with
  | Some s => negb (String.eqb s "")
  | None => false
  end.

Definition internalVariables : list string :=
  [ "fromClaim"; "internal"; "injectGeneratedUUID"; "injectCurrentDateTime";
    "injectEnvironmentVariable" ].

Definition injectedVariables : list string :=
  [ "injectGeneratedUUID"; "injectCurrentDateTime"; "injectEnvironmentVariable" ].

Definition directiveInjectedField (node : GraphQL.DirectiveNode) : option string :=
  match GraphQL.find_argument "on" node with
  | None => None
  | Some onArgument =>
      match GraphQL.arg_value onArgument with
      | GraphQL.StringValue value => Some value
      | _ => None
      end
  end.

Definition directiveHasNoField (node : GraphQL.DirectiveNode) : bool :=
  negb (truthy (directiveInjectedField node)).

Definition hasInternalVariable (variable : GraphQL.VariableDefinitionNode) : bool :=
  Nat.ltb 0
    (length (List.filter directiveHasNoField
               (GraphQL.directivesNamed variable internalVariables))).

Definition hasInjectedVariable (variable : GraphQL.VariableDefinitionNode) : bool :=
  Nat.ltb 0
    (length (List.filter directiveHasNoField
               (GraphQL.directivesNamed variable injectedVariables))).

Definition directiveDefinedFields (variable : GraphQL.VariableDefinitionNode)
    (directiveNames : list string) : list string :=
  omap (fun directive =>
          let field := directiveInjectedField directive in
          if truthy field then field else None)
    (GraphQL.directivesNamed variable directiveNames).

(** *** The fields to skip

    [SchemaSkipFields] is a tree of objects keyed by field name; a leaf (an
    empty object) marks a field that is left out of the schema. *)

Inductive SchemaSkipFields :=
| SkipFields (entries : list (string * SchemaSkipFields)).

Definition entries (fields : SchemaSkipFields) : list (string * SchemaSkipFields) :=
  match fields with SkipFields entries => entries end.

(** The [for] loop of [updateSkipFields] for one path, from the object
    [fields] on.  [fields[component]] reads through the prototype: for a
    name inherited from [Object.prototype] it is not undefined, nothing is
    created, and the loop goes on inside the inherited member; the source
    then writes into a built-in object that the whole program shares, and
    the model does not follow it there ([None]). *)
Fixpoint insertPath (components : list string) (fields : SchemaSkipFields)
  : option SchemaSkipFields :=
  match components with
  | [] => Some fields
  | component :: rest =>
      match GraphQL.get_in component (entries fields) with
      | None =>
          created ← insertPath rest (SkipFields []);
          Some (SkipFields (set_own component created (entries fields)))
      | Some (GraphQL.Own inner) =>
          updated ← insertPath rest inner;
          Some (SkipFields (set_own component updated (entries fields)))
      | Some (GraphQL.Inherited _) =>
          match rest with
          | [] => Some fields
          | _ => None
          end
      end
  end.

Fixpoint updateSkipFields (skipFields : SchemaSkipFields)
    (skipVariablePaths : list string) : option SchemaSkipFields :=
  match skipVariablePaths with
  | [] => Some skipFields
  | field :: rest =>
      skipFields ← insertPath (JS.split_dot field) skipFields;
      updateSkipFields skipFields rest
  end.

(** The object under a path of own properties, if there is one. *)
Fixpoint lookupPath (components : list string) (fields : SchemaSkipFields)
  : option SchemaSkipFields :=
  match components with
  | [] => Some fields
  | component :: rest =>
      inner ← JS.get_own component (entries fields);
      lookupPath rest inner
  end.

(** A path whose components are no members of [Object.prototype]. *)
Definition ownNames (components : list string) : Prop :=
  Forall (fun c => c ∉ JS.Object_prototype_keys) components.

(** *** The GraphQL schema and the type references, as far as the
    compiler reads them *)

Inductive TypeNode :=
| NonNullType (type : TypeNode)
| ListType (type : TypeNode)
| NamedType (name : string).

(** A field of an input object type. *)
Record InputValueDefinitionNode := {
  field_name : string;
  field_type : TypeNode;
  field_defaultValue : option GraphQL.ValueNode;
}.

(** [namedType.astNode]; [typeSchema] has a case for scalars, enums and
    input objects and none for the other kinds. *)
Inductive TypeDefinitionNode :=
| ScalarTypeDefinition
| EnumTypeDefinition (values : option (list string))
| InputObjectTypeDefinition (fields : option (list InputValueDefinitionNode))
| OtherTypeDefinition (node_kind : string).

Record GraphQLNamedType := {
  type_name : string;
  astNode : option TypeDefinitionNode;
}.

(** [graphQLSchema.getType] *)
Definition GraphQLSchema := string -> option GraphQLNamedType.

(** A variable definition with its type reference as a tree (the directive
    handlers never look at the type and carry it as source text). *)
Record VariableDefinition := {
  node : GraphQL.VariableDefinitionNode;
  variable_type : TypeNode;
}.

(** *** JSON Schema objects *)

(** [type]: one name, or an array of names. *)
Inductive JSONSchemaType :=
| One (name : string)
| Several (names : list string).

(** The keywords the compiler writes; a keyword that is absent from the
    object is [None]. *)
Inductive JSONSchema := Schema {
  type : option JSONSchemaType;
  items : option JSONSchema;
  required : option (list string);
  minItems : option nat;
  enum : option (list string);
  additionalProperties : option bool;
  properties : option (list (string * JSONSchema));
  definitions : option (list (string * JSONSchema));
  ref : option string;
}.

(** [{}] *)
Definition emptySchema : JSONSchema :=
  {| type := None; items := None; required := None; minItems := None;
     enum := None; additionalProperties := None; properties := None;
     definitions := None; ref := None |}.

(** [{ type: t }] *)
Definition typed (t : JSONSchemaType) : JSONSchema :=
  {| type := Some t; items := None; required := None; minItems := None;
     enum := None; additionalProperties := None; properties := None;
     definitions := None; ref := None |}.

(** [{ $ref: target }] *)
Definition reference (target : string) : JSONSchema :=
  {| type := None; items := None; required := None; minItems := None;
     enum := None; additionalProperties := None; properties := None;
     definitions := None; ref := Some target |}.

Definition set_items (v : JSONSchema) (s : JSONSchema) : JSONSchema :=
  {| type := type s; items := Some v; required := required s;
     minItems := minItems s; enum := enum s;
     additionalProperties := additionalProperties s;
     properties := properties s; definitions := definitions s; ref := ref s |}.

Definition set_required (v : list string) (s : JSONSchema) : JSONSchema :=
  {| type := type s; items := items s; required := Some v;
     minItems := minItems s; enum := enum s;
     additionalProperties := additionalProperties s;
     properties := properties s; definitions := definitions s; ref := ref s |}.

Definition set_minItems (v : nat) (s : JSONSchema) : JSONSchema :=
  {| type := type s; items := items s; required := required s;
     minItems := Some v; enum := enum s;
     additionalProperties := additionalProperties s;
     properties := properties s; definitions := definitions s; ref := ref s |}.

Definition set_properties (v : list (string * JSONSchema)) (s : JSONSchema)
  : JSONSchema :=
  {| type := type s; items := items s; required := required s;
     minItems := minItems s; enum := enum s;
     additionalProperties := additionalProperties s;
     properties := Some v; definitions := definitions s; ref := ref s |}.

Definition set_definitions (v : list (string * JSONSchema)) (s : JSONSchema)
  : JSONSchema :=
  {| type := type s; items := items s; required := required s;
     minItems := minItems s; enum := enum s;
     additionalProperties := additionalProperties s;
     properties := properties s; definitions := Some v; ref := ref s |}.

(** [nonNull ? name : [name, 'null']] *)
Definition nullable (nonNull : bool) (name : string) : JSONSchemaType :=
  if nonNull then One name else Several [name; "null"].

(** The two objects [typeSchema] mutates.  At the outermost call they are
    one and the same object. *)
Inductive Objects :=
| RootIsParent (root : JSONSchema)
| RootAndParent (root parent : JSONSchema).

Definition the_root (objects : Objects) : JSONSchema :=
  match objects with
  | RootIsParent root | RootAndParent root _ => root
  end.

Definition the_parent (objects : Objects) : JSONSchema :=
  match objects with
  | RootIsParent root => root
  | RootAndParent _ parent => parent
  end.

Definition on_root (f : JSONSchema -> JSONSchema) (objects : Objects) : Objects :=
  match objects with
  | RootIsParent root => RootIsParent (f root)
  | RootAndParent root parent => RootAndParent (f root) parent
  end.

Definition on_parent (f : JSONSchema -> JSONSchema) (objects : Objects) : Objects :=
  match objects with
  | RootIsParent root => RootIsParent (f root)
  | RootAndParent root parent => RootAndParent root (f parent)
  end.

(** The objects of the caller once a call that was given another parent
    has returned [inner]: the root is the one the call left. *)
Definition back_to (objects inner : Objects) : Objects :=
  on_root (fun _ => the_root inner) objects.

(** The [switch (parent.type)] of the [NonNullType] case. *)
Definition markNonNull (name : string) (parent : JSONSchema) : JSONSchema :=
  match type parent with
  | Some (One "object") =>
      set_required (default [] (required parent) ++ [name]) parent
  | Some (One "array") => set_minItems 1 parent
  | _ => parent
  end.

(** [skipFields ? skipFields[name] : undefined] *)
Definition currentSkipFields (skipFields : option SchemaSkipFields)
    (name : string) : option (GraphQL.Member SchemaSkipFields) :=
  fields ← skipFields; GraphQL.get_in name (entries fields).

(** [currentSkipFields !== undefined &&
     Object.keys(currentSkipFields).length == 0]: the members inherited
    from [Object.prototype] have no enumerable keys of their own. *)
Definition isLeaf (current : option (GraphQL.Member SchemaSkipFields)) : bool :=
  match current with
  | None => false
  | Some (GraphQL.Own fields) => Nat.eqb (length (entries fields)) 0
  | Some (GraphQL.Inherited _) => true
  end.

(** What is passed on as [skipFields] for a field that is no leaf. *)
Definition passedOn (current : option (GraphQL.Member SchemaSkipFields))
  : option SchemaSkipFields :=
  match current with
  | Some (GraphQL.Own fields) => Some fields
  | _ => None
  end.

Section Compiler.

Context (graphQLSchema : GraphQLSchema).
Context (interpolateVariableDefinitionAsJSON customJsonScalars : list string).

Section Cases.

(** [typeSchema] as the cases below call it back; [None] when the model
    has no fuel left to follow it. *)
Context (typeSchema :
  option (Objects -> TypeNode -> string -> bool -> option SchemaSkipFields ->
          Run (JSONSchema * Objects))).

(** The callback of [(namedType.astNode.fields || []).forEach]; [schema]
    is the parent of [inside]. *)
Definition fieldCallback (skipFields : option SchemaSkipFields)
    (inside : Objects) (f : InputValueDefinitionNode) : Run Objects :=
  let name := field_name f in
  let current := currentSkipFields skipFields name in
  if isLeaf current then Returns inside
  else
    let fieldType :=
      match field_defaultValue f, field_type f with
      | Some _, NonNullType inner => inner
      | _, fieldType => fieldType
      end in
    match typeSchema with
    | None => Unfollowed
    | Some typeSchema =>
        '(fieldSchema, inside) ←
          typeSchema inside fieldType name false (passedOn current);
        match properties (the_parent inside) with
        | None => Throws "TypeError: Cannot set properties of undefined"
        | Some props =>
            Returns
              (on_parent (set_properties (assign name fieldSchema props)) inside)
        end
    end.

(** The [InputObjectTypeDefinition] case. *)
Definition inputObjectSchema (objects : Objects) (typeName : string)
    (fields : option (list InputValueDefinitionNode)) (nonNull : bool)
    (skipFields : option SchemaSkipFields) : Run (JSONSchema * Objects) :=
  match definitions (the_root objects) with
  | None => Throws "TypeError: Cannot convert undefined or null to object"
  | Some defined =>
      if bool_decide (typeName ∈ defined.*1) then
        Returns (reference ("#/definitions/" +:+ typeName), objects)
      else
        let objects :=
          on_root
            (set_definitions
               (assign typeName (typed (nullable nonNull "object")) defined))
            objects in
        let schema :=
          {| additionalProperties := Some false;
             type := Some (nullable nonNull "object");
             properties := Some [];
             items := None; required := None; minItems := None; enum := None;
             definitions := None; ref := None |} in
        after ←
          forEachRun (fieldCallback skipFields) (default [] fields)
            (RootAndParent (the_root objects) schema);
        match definitions (the_root after) with
        | None => Throws "TypeError: Cannot set properties of undefined"
        | Some defined =>
            Returns
              (reference ("#/definitions/" +:+ typeName),
               on_root
                 (fun _ =>
                    set_definitions
                      (assign typeName (the_parent after) defined)
                      (the_root after)) objects)
        end
  end.

(** The [NamedType] case. *)
Definition namedTypeSchema (objects : Objects) (typeName : string)
    (nonNull : bool) (skipFields : option SchemaSkipFields)
  : Run (JSONSchema * Objects) :=
  if String.eqb typeName "Int" then
    Returns (typed (nullable nonNull "integer"), objects)
  else if String.eqb typeName "Boolean" then
    Returns (typed (nullable nonNull "boolean"), objects)
  else if String.eqb typeName "ID" then
    Returns (typed (nullable nonNull "string"), objects)
  else if String.eqb typeName "Float" then
    Returns (typed (nullable nonNull "number"), objects)
  else if String.eqb typeName "String" then
    Returns (typed (nullable nonNull "string"), objects)
  else if String.eqb typeName "JSON" then
    Returns (emptySchema, objects)
  else if bool_decide (typeName ∈ customJsonScalars) then
    Returns (emptySchema, objects)
  else
    match graphQLSchema typeName with
    | None => Returns (emptySchema, objects)
    | Some namedType =>
        match astNode namedType with
        | None => Returns (emptySchema, objects)
        | Some definition =>
            if negb (Nat.eqb (length interpolateVariableDefinitionAsJSON) 0)
               && bool_decide (type_name namedType
                               ∈ interpolateVariableDefinitionAsJSON)
            then Returns (emptySchema, objects)
            else
              match definition with
              | ScalarTypeDefinition =>
                  Returns (typed (nullable nonNull "string"), objects)
              | EnumTypeDefinition values =>
                  Returns
                    ({| type := Some (nullable nonNull "string");
                        enum := Some (default [] values);
                        items := None; required := None; minItems := None;
                        additionalProperties := None; properties := None;
                        definitions := None; ref := None |},
                     objects)
              | InputObjectTypeDefinition fields =>
                  inputObjectSchema objects (type_name namedType) fields
                    nonNull skipFields
              | OtherTypeDefinition _ => Returns (emptySchema, objects)
              end
        end
    end.

End Cases.

(** [typeSchema(root, parent, graphQLSchema, ..., type, name, nonNull,
    customJsonScalars, skipFields)]: the schema returned and the two
    objects afterwards.  The fuel bounds how deep the input object types
    are entered. *)
Fixpoint typeSchema (fuel : nat) (objects : Objects) (type : TypeNode)
    (name : string) (nonNull : bool) (skipFields : option SchemaSkipFields)
    {struct fuel} : Run (JSONSchema * Objects) :=
  (fix on_type (objects : Objects) (type : TypeNode) (nonNull : bool)
       {struct type} : Run (JSONSchema * Objects) :=
     match type with
     | NonNullType inner =>
         on_type (on_parent (markNonNull name) objects) inner true
     | ListType inner =>
         let schema := typed (nullable nonNull "array") in
         '(itemSchema, after) ←
           on_type (RootAndParent (the_root objects) schema) inner false;
         Returns (set_items itemSchema (the_parent after), back_to objects after)
     | NamedType typeName =>
         namedTypeSchema
           (match fuel with
            | 0 => None
            | S fuel => Some (typeSchema fuel)
            end)
           objects typeName nonNull skipFields
     end) objects type nonNull.

(** One of the two blocks
    [if (!keep) { if (has(variable)) { return; } updateSkipFields(skipFields, fields); }]
    of the callback below; [None] when the callback returns there. *)
Definition hideVariables (keep hasVariable : bool) (fields : list string)
    (skipFields : SchemaSkipFields) : Run (option SchemaSkipFields) :=
  if keep then Returns (Some skipFields)
  else if hasVariable then Returns None
  else
    match updateSkipFields skipFields fields with
    | Some skipFields => Returns (Some skipFields)
    | None => Unfollowed
    end.

(** The callback of [operation.variableDefinitions.forEach]. *)
Definition variableCallback (fuel : nat)
    (keepInternalVariables keepInjectedVariables : bool)
    (schema : JSONSchema) (variable : VariableDefinition) : Run JSONSchema :=
  internal ←
    hideVariables keepInternalVariables (hasInternalVariable (node variable))
      (directiveDefinedFields (node variable) internalVariables)
      (SkipFields []);
  match internal with
  | None => Returns schema
  | Some skipFields =>
      injected ←
        hideVariables keepInjectedVariables
          (hasInjectedVariable (node variable))
          (directiveDefinedFields (node variable) injectedVariables)
          skipFields;
      match injected with
      | None => Returns schema
      | Some skipFields =>
          let '(type, nonNullType) :=
            match variable_type variable,
                  GraphQL.defaultValue (node variable) with
            | NonNullType inner, Some _ => (inner, true)
            | type, _ => (type, false)
            end in
          let name := GraphQL.variable_name (node variable) in
          '(variableSchema, after) ←
            typeSchema fuel (RootIsParent schema) type name nonNullType
              (Some skipFields);
          match properties (the_root after) with
          | None => Throws "TypeError: Cannot set properties of undefined"
          | Some props =>
              Returns (set_properties (assign name variableSchema props)
                         (the_root after))
          end
      end
  end.

(** [operationVariablesToJSONSchema], given [operation.variableDefinitions]. *)
Definition operationVariablesToJSONSchema (fuel : nat)
    (variableDefinitions : option (list VariableDefinition))
    (keepInternalVariables keepInjectedVariables : bool) : Run JSONSchema :=
  let schema :=
    {| type := Some (One "object");
       properties := Some [];
       additionalProperties := Some false;
       definitions := Some [];
       items := None; required := None; minItems := None; enum := None;
       ref := None |} in
  match variableDefinitions with
  | None => Returns schema
  | Some variables =>
      forEachRun
        (variableCallback fuel keepInternalVariables keepInjectedVariables)
        variables schema
  end.

End Compiler.

End VariablesSchema.

(** ** Notions used to state what the schema compiler does *)

Module SchemaProperties.

Import VariablesSchema.

(** The number of [!] a type reference begins with. *)
Fixpoint leading (type : TypeNode) : nat :=
  match type with
  | NonNullType inner => S (leading inner)
  | _ => 0
  end.

(** A type reference of the GraphQL grammar: [!] is never applied twice
    in a row. *)
Fixpoint wellFormed (type : TypeNode) : bool :=
  match type with
  | NonNullType (NonNullType _) => false
  | NonNullType inner => wellFormed inner
  | ListType inner => wellFormed inner
  | NamedType _ => true
  end.

Definition isNonNull (type : TypeNode) : bool :=
  match type with
  | NonNullType _ => true
  | _ => false
  end.

(** A schema object without its [definitions]. *)
Definition without_definitions (s : JSONSchema) : JSONSchema :=
  {| type := type s; items := items s; required := required s;
     minItems := minItems s; enum := enum s;
     additionalProperties := additionalProperties s;
     properties := properties s; definitions := None; ref := ref s |}.

(** What a call of [typeSchema] does to the two objects it is given: the
    parent is marked [k] times for [name], and nothing else but the
    [definitions] of the root changes. *)
Definition effect (k : nat) (name : string) (objects objects' : Objects) : Prop :=
  match objects, objects' with
  | RootIsParent r, RootIsParent r' =>
      without_definitions r'
      = Nat.iter k (markNonNull name) (without_definitions r)
  | RootAndParent r p, RootAndParent r' p' =>
      without_definitions r' = without_definitions r
      /\ p' = Nat.iter k (markNonNull name) p
  | _, _ => False
  end.

(** The definitions of the root are kept and only grow. *)
Definition grows (objects objects' : Objects) : Prop :=
  forall defined,
    definitions (the_root objects) = Some defined ->
    exists defined',
      definitions (the_root objects') = Some defined'
      /\ defined.*1 ⊆ defined'.*1.

Definition TypeSchema : Type :=
  Objects -> TypeNode -> string -> bool -> option SchemaSkipFields ->
  Run (JSONSchema * Objects).

Definition respects (typeSchema : TypeSchema) : Prop :=
  forall objects type name nonNull skipFields s objects',
    typeSchema objects type name nonNull skipFields = Returns (s, objects') ->
    effect (leading type) name objects objects' /\ grows objects objects'.

(** A variable that the schema shows, given the two flags. *)
Definition visible (keepInternalVariables keepInjectedVariables : bool)
    (variable : VariableDefinition) : bool :=
  negb (negb keepInternalVariables && hasInternalVariable (node variable))
  && negb (negb keepInjectedVariables && hasInjectedVariable (node variable)).

(** A variable declared with [!] and without a default value. *)
Definition requiredVariable (variable : VariableDefinition) : bool :=
  match variable_type variable, GraphQL.defaultValue (node variable) with
  | NonNullType _, None => true
  | _, _ => false
  end.

(** The type of a variable as [operationVariablesToJSONSchema] passes it
    on: a default value takes the leading [!] away. *)
Definition strippedVariableType (variable : VariableDefinition) : TypeNode :=
  match variable_type variable, GraphQL.defaultValue (node variable) with
  | NonNullType inner, Some _ => inner
  | type, _ => type
  end.

(** The own property names of an object that may be absent. *)
Definition keys {A} (obj : option (list (string * A))) : list string :=
  default [] (obj ≫= fun obj => Some obj.*1).

(** [s.type === 'object'] *)
Definition isObject (s : JSONSchema) : bool :=
  match type s with
  | Some (One "object") => true
  | _ => false
  end.

(** [s.type === 'array'] *)
Definition isArray (s : JSONSchema) : bool :=
  match type s with
  | Some (One "array") => true
  | _ => false
  end.

(** A field declared with [!] and without a default value. *)
Definition requiredField (f : InputValueDefinitionNode) : bool :=
  match field_type f, field_defaultValue f with
  | NonNullType _, None => true
  | _, _ => false
  end.

(** The type of a field as the loop over the fields passes it on: a
    default value takes the leading [!] away. *)
Definition strippedType (f : InputValueDefinitionNode) : TypeNode :=
  match field_defaultValue f, field_type f with
  | Some _, NonNullType inner => inner
  | _, fieldType => fieldType
  end.

(** A field that the schema of an input object shows, given the fields to
    skip. *)
Definition shownField (skipFields : option SchemaSkipFields)
    (f : InputValueDefinitionNode) : bool :=
  negb (isLeaf (currentSkipFields skipFields (field_name f))).

(** The input object types of a schema are among [inputTypes]. *)
Definition inputTypesAmong (graphQLSchema : GraphQLSchema)
    (inputTypes : list string) : Prop :=
  forall typeName namedType fields,
    graphQLSchema typeName = Some namedType ->
    astNode namedType = Some (InputObjectTypeDefinition fields) ->
    type_name namedType ∈ inputTypes.

(** A type name that [typeSchema] resolves to an input object type and
    enters: no built-in scalar, no custom scalar, a type of the schema with
    an input object definition, and not among the types taken as JSON. *)
Definition resolvesToInputObject (graphQLSchema : GraphQLSchema)
    (interpolateVariableDefinitionAsJSON customJsonScalars : list string)
    (typeName : string) (namedType : GraphQLNamedType)
    (fields : option (list InputValueDefinitionNode)) : Prop :=
  (typeName ∉ ["Int"; "Boolean"; "ID"; "Float"; "String"; "JSON"])
  /\ (typeName ∉ customJsonScalars)
  /\ graphQLSchema typeName = Some namedType
  /\ astNode namedType = Some (InputObjectTypeDefinition fields)
  /\ (type_name namedType ∉ interpolateVariableDefinitionAsJSON).

(** How many of [inputTypes] have no definition yet. *)
Definition notYetDefined (inputTypes : list string)
    (defined : list (string * JSONSchema)) : nat :=
  size (list_to_set inputTypes ∖ list_to_set defined.*1 : gset string).

(** With the definitions the root has, a call returns within [fuel]. *)
Definition returnsWithin (inputTypes : list string) (fuel : nat)
    (typeSchema : TypeSchema) : Prop :=
  forall objects type name nonNull skipFields defined,
    definitions (the_root objects) = Some defined ->
    notYetDefined inputTypes defined <= fuel ->
    exists result,
      typeSchema objects type name nonNull skipFields = Returns result.

(** The targets of the [$ref]s of a schema object, at any depth: in
    itself, its items, its properties and its definitions. *)
Fixpoint referenced (s : JSONSchema) : list string :=
  match s with
  | Schema _ items _ _ _ _ properties definitions ref =>
      match ref with Some target => [target] | None => [] end
      ++ match items with Some inner => referenced inner | None => [] end
      ++ match properties with
         | Some props =>
             (fix among (l : list (string * JSONSchema)) : list string :=
                match l with
                | [] => []
                | (_, inner) :: rest => referenced inner ++ among rest
                end) props
         | None => []
         end
      ++ match definitions with
         | Some defined =>
             (fix among (l : list (string * JSONSchema)) : list string :=
                match l with
                | [] => []
                | (_, inner) :: rest => referenced inner ++ among rest
                end) defined
         | None => []
         end
  end.

Definition referencedAmong (l : list (string * JSONSchema)) : list string :=
  flat_map (fun entry => referenced entry.2) l.

(** Every [$ref] of [s] points to one of the definitions [defined]. *)
Definition resolvedIn (defined : list string) (s : JSONSchema) : Prop :=
  forall target,
    target ∈ referenced s ->
    exists typeName,
      target = "#/definitions/" +:+ typeName /\ typeName ∈ defined.

(** The two objects hold no [$ref] but to the definitions of the root. *)
Definition closed (objects : Objects) : Prop :=
  exists defined,
    definitions (the_root objects) = Some defined
    /\ resolvedIn defined.*1 (the_root objects)
    /\ resolvedIn defined.*1 (the_parent objects).

(** No input object type of the schema is called [__proto__]. *)
Definition noProtoType (graphQLSchema : GraphQLSchema) : Prop :=
  forall typeName namedType fields,
    graphQLSchema typeName = Some namedType ->
    astNode namedType = Some (InputObjectTypeDefinition fields) ->
    type_name namedType <> "__proto__".

(** [typeSchema] keeps the two objects closed, and what it returns
    refers to the definitions of the root only. *)
Definition keepsClosed (typeSchema : TypeSchema) : Prop :=
  forall objects type name nonNull skipFields s objects',
    typeSchema objects type name nonNull skipFields = Returns (s, objects') ->
    closed objects ->
    closed objects'
    /\ exists defined',
         definitions (the_root objects') = Some defined'
         /\ resolvedIn defined'.*1 s.

(** The [on:] paths of a variable stay clear of the names every object
    inherits. *)
Definition ownPaths (variable : VariableDefinition) : Prop :=
  Forall (fun field => ownNames (JS.split_dot field))
    (directiveDefinedFields (node variable) internalVariables).

End SchemaProperties.

(** ** The JSON-Schema compiler for the response of an operation

    [operationResponseToJSONSchema], [resolveSelections],
    [resolveFieldSchema] and [handleTransformDirective]
    (graphql/operations.ts).  The schema of the response follows the
    selection set of the operation; a [@transform] directive replaces the
    schema of a field by a schema further down. *)

Module ResponseSchema.

Export Outcome.

(** *** Schema objects *)

(** What the property of an object holds: a schema object, [undefined],
    or a member that every object inherits from [Object.prototype] (for a
    property called [toString], say). *)
Inductive Value (S : Type) : Type :=
| Here (schema : S)
| Undefined
| InheritedMember (key : string).

Arguments Here {S} schema.
Arguments Undefined {S}.
Arguments InheritedMember {S} key.

(** The keywords the compiler writes; a keyword that is absent from the
    object is [None].  [handleTransformDirective] can leave [undefined] or
    an inherited member where the schema of a property is expected. *)
Inductive JSONSchema := Schema {
  type : option string;
  properties : option (list (string * Value JSONSchema));
  required : option (list string);
  additionalProperties : option bool;
  enum : option (list string);
  items : option JSONSchema;
  minItems : option nat;
}.

(** [{}] *)
Definition emptySchema : JSONSchema :=
  {| type := None; properties := None; required := None;
     additionalProperties := None; enum := None; items := None;
     minItems := None |}.

(** [{ type: t }] *)
Definition typed (t : string) : JSONSchema :=
  {| type := Some t; properties := None; required := None;
     additionalProperties := None; enum := None; items := None;
     minItems := None |}.

(** [{ type: 'object', properties: {}, additionalProperties: false }] *)
Definition emptyObject : JSONSchema :=
  {| type := Some "object"; properties := Some []; required := None;
     additionalProperties := Some false; enum := None; items := None;
     minItems := None |}.

(** [{ type: 'string', enum: values }] *)
Definition stringEnum (values : list string) : JSONSchema :=
  {| type := Some "string"; properties := None; required := None;
     additionalProperties := None; enum := Some values; items := None;
     minItems := None |}.

Definition set_required (v : option (list string)) (s : JSONSchema)
  : JSONSchema :=
  {| type := type s; properties := properties s; required := v;
     additionalProperties := additionalProperties s; enum := enum s;
     items := items s; minItems := minItems s |}.

Definition set_minItems (v : nat) (s : JSONSchema) : JSONSchema :=
  {| type := type s; properties := properties s; required := required s;
     additionalProperties := additionalProperties s; enum := enum s;
     items := items s; minItems := Some v |}.

Definition set_enum (v : list string) (s : JSONSchema) : JSONSchema :=
  {| type := type s; properties := properties s; required := required s;
     additionalProperties := additionalProperties s; enum := Some v;
     items := items s; minItems := minItems s |}.

Definition set_properties (v : list (string * Value JSONSchema))
    (s : JSONSchema) : JSONSchema :=
  {| type := type s; properties := Some v; required := required s;
     additionalProperties := additionalProperties s; enum := enum s;
     items := items s; minItems := minItems s |}.

(** [properties[name]], read through the prototype. *)
Definition property (name : string) (props : list (string * Value JSONSchema))
  : Value JSONSchema :=
  match GraphQL.get_in name props with
  | Some (GraphQL.Own value) => value
  | Some (GraphQL.Inherited key) => InheritedMember key
  | None => Undefined
  end.

(** [parentObject.properties![propName] = value].  The properties of a
    response schema are read through the prototype later on, so an
    assignment to [__proto__], which replaces the prototype, is not
    followed. *)
Definition store (propName : string) (value : Value JSONSchema)
    (parentObject : JSONSchema) : Run JSONSchema :=
  match properties parentObject with
  | None => Throws "TypeError: Cannot set properties of undefined"
  | Some props =>
      if String.eqb propName "__proto__" then Unfollowed
      else Returns (set_properties (set_own propName value props) parentObject)
  end.

(** [if (parentObject.required) { parentObject.required.push(propName) }
     else { parentObject.required = [propName] }] *)
Definition requireProperty (propName : string) (parentObject : JSONSchema)
  : JSONSchema :=
  set_required (Some (default [] (required parentObject) ++ [propName]))
    parentObject.

(** *** The [@transform] directive *)

(** [updatedSchema.items]; reading a property of [undefined] throws. *)
Definition read_items (updatedSchema : Value JSONSchema)
  : Run (option JSONSchema) :=
  match updatedSchema with
  | Here schema => Returns (items schema)
  | InheritedMember _ => Returns None
  | Undefined =>
      Throws "TypeError: Cannot read properties of undefined (reading 'items')"
  end.

(** [updatedSchema.properties] *)
Definition read_properties (updatedSchema : Value JSONSchema)
  : Run (option (list (string * Value JSONSchema))) :=
  match updatedSchema with
  | Here schema => Returns (properties schema)
  | InheritedMember _ => Returns None
  | Undefined =>
      Throws
        "TypeError: Cannot read properties of undefined (reading 'properties')"
  end.

Record Walk := {
  outPath : list string;
  updatedSchema : Value JSONSchema;
  valid : bool;
}.

(** The callback of [path.forEach]. *)
Definition walkStep (walk : Walk) (elem : string) : Run Walk :=
  found ← read_items (updatedSchema walk);
  match found with
  | Some inner =>
      if String.eqb elem "[]" then
        Returns {| outPath := outPath walk ++ ["[]"];
                   updatedSchema := Here inner;
                   valid := valid walk |}
      else
        (* unwrap array so that we can get to the property *)
        let walk := {| outPath := outPath walk ++ ["[]"];
                       updatedSchema := Here inner;
                       valid := valid walk |} in
        props ← read_properties (updatedSchema walk);
        match props with
        | Some props =>
            Returns {| outPath := outPath walk ++ [elem];
                       updatedSchema := property elem props;
                       valid := valid walk |}
        | None =>
            Returns {| outPath := outPath walk;
                       updatedSchema := updatedSchema walk;
                       valid := false |}
        end
  | None =>
      props ← read_properties (updatedSchema walk);
      match props with
      | Some props =>
          Returns {| outPath := outPath walk ++ [elem];
                     updatedSchema := property elem props;
                     valid := valid walk |}
      | None =>
          Returns {| outPath := outPath walk;
                     updatedSchema := updatedSchema walk;
                     valid := false |}
      end
  end.

Section Compiler.

(** [JSON.stringify], for the message of an error. *)
Context (stringify : JSONSchema -> string).

(** [handleTransformDirective(transformDirective, schema, documentPath,
    transformations)]: what is returned, and [transformations]
    afterwards. *)
Definition handleTransformDirective
    (transformDirective : GraphQL.DirectiveNode) (schema : JSONSchema)
    (documentPath : list string)
    (transformations : list GraphQL.PostResolveTransformation)
  : Run (Value JSONSchema * list GraphQL.PostResolveTransformation) :=
  match GraphQL.find_argument "get" transformDirective with
  | Some get =>
      match GraphQL.arg_value get with
      | GraphQL.StringValue value =>
          let path := JS.split_dot value in
          walk ←
            forEachRun walkStep path
              {| outPath := []; updatedSchema := Here schema; valid := true |};
          if valid walk then
            let from := documentPath ++ outPath walk in
            Returns
              (updatedSchema walk,
               transformations
               ++ [ {| GraphQL.depth := length from;
                       GraphQL.get_from := from;
                       GraphQL.get_to := documentPath |} ])
          else
            Throws
              ("Invalid path for get transformation: " +:+ value
               +:+ ", schema: " +:+ stringify schema)
      | _ => Returns (Here schema, transformations)
      end
  | None => Returns (Here schema, transformations)
  end.

(** *** The operation and the GraphQL schema, as far as the compiler
    reads them *)

Inductive SelectionNode :=
| Field (name : string) (alias : option string)
    (directives : option (list GraphQL.DirectiveNode))
    (selectionSet : option (list SelectionNode))
| FragmentSpread (name : string)
| InlineFragment (typeCondition : option string)
    (selectionSet : list SelectionNode).

Record FragmentDefinitionNode := {
  fragment_name : string;
  fragment_typeCondition : string;
  fragment_selectionSet : list SelectionNode;
}.

(** The definitions of the operation document; only the fragments are
    looked at. *)
Inductive DefinitionNode :=
| FragmentDefinition (fragment : FragmentDefinitionNode)
| OtherDefinition.

Definition DocumentNode := list DefinitionNode.

(** [operationDocument.definitions.find((node) =>
     node.kind === 'FragmentDefinition' && node.name.value === name)] *)
Fixpoint find_fragment (name : string) (definitions : DocumentNode)
  : option FragmentDefinitionNode :=
  match definitions with
  | [] => None
  | FragmentDefinition fragment :: rest =>
      if String.eqb (fragment_name fragment) name then Some fragment
      else find_fragment name rest
  | OtherDefinition :: rest => find_fragment name rest
  end.

Record FieldDefinitionNode := {
  field_name : string;
  field_type : VariablesSchema.TypeNode;
}.

(** [namedType.astNode] *)
Inductive TypeDefinitionNode :=
| ScalarTypeDefinition
| EnumTypeDefinition (values : option (list string))
| ObjectTypeDefinition (fields : option (list FieldDefinitionNode))
| InterfaceTypeDefinition (fields : option (list FieldDefinitionNode))
| UnionTypeDefinition (types : option (list string))
| OtherTypeDefinition (node_kind : string).

Record GraphQLNamedType := {
  type_name : string;
  astNode : option TypeDefinitionNode;
}.

(** [getQueryType()] and its like give the name of the root type, if the
    schema has one. *)
Record GraphQLSchema := {
  getType : string -> option GraphQLNamedType;
  getQueryType : option string;
  getMutationType : option string;
  getSubscriptionType : option string;
}.

Context (graphQLSchema : GraphQLSchema) (operationDocument : DocumentNode).

Definition Transformations : Type := list GraphQL.PostResolveTransformation.

(** [resolveSelections] as [resolveFieldSchema] and the callbacks below
    call it back. *)
Definition ResolveSelections : Type :=
  list SelectionNode -> string -> JSONSchema -> list string ->
  Transformations -> Run (JSONSchema * Transformations).

Section Cases.

Context (resolveSelections : ResolveSelections).

(** [resolveFieldSchema(graphQLSchema, operationDocument, propName, field,
    fieldType, parent, documentPath, transformations)], given
    [field.selectionSet]: the schema returned, [parent] and
    [transformations] afterwards. *)
Fixpoint resolveFieldSchema (propName : string)
    (selectionSet : option (list SelectionNode))
    (fieldType : VariablesSchema.TypeNode) (parent : JSONSchema)
    (documentPath : list string) (transformations : Transformations)
  : Run (JSONSchema * JSONSchema * Transformations) :=
  match fieldType with
  | VariablesSchema.NonNullType inner =>
      match type parent with
      | Some "object" =>
          let parent :=
            set_required
              (Some (JS.set_spread
                       (default [] (required parent) ++ [propName])))
              parent in
          resolveFieldSchema propName selectionSet inner parent documentPath
            transformations
      | Some "array" =>
          let parent := set_minItems 1 parent in
          resolveFieldSchema propName selectionSet inner parent documentPath
            transformations
      | _ => Returns (emptySchema, parent, transformations)
      end
  | VariablesSchema.ListType inner =>
      '(itemSchema, parent, transformations) ←
        resolveFieldSchema propName selectionSet inner parent
          (documentPath ++ ["[]"]) transformations;
      Returns
        ({| type := Some "array"; items := Some itemSchema;
            properties := None; required := None;
            additionalProperties := None; enum := None; minItems := None |},
         parent, transformations)
  | VariablesSchema.NamedType name =>
      if String.eqb name "Int" then
        Returns (typed "integer", parent, transformations)
      else if String.eqb name "Boolean" then
        Returns (typed "boolean", parent, transformations)
      else if String.eqb name "ID" then
        Returns (typed "string", parent, transformations)
      else if String.eqb name "Float" then
        Returns (typed "number", parent, transformations)
      else if String.eqb name "String" then
        Returns (typed "string", parent, transformations)
      else if String.eqb name "JSON" then
        Returns (emptySchema, parent, transformations)
      else
        match getType graphQLSchema name with
        | None => Returns (emptySchema, parent, transformations)
        | Some namedType =>
            match astNode namedType with
            | None => Returns (emptySchema, parent, transformations)
            | Some ScalarTypeDefinition =>
                Returns (typed "string", parent, transformations)
            | Some (EnumTypeDefinition values) =>
                Returns (stringEnum (default [] values), parent,
                         transformations)
            | Some (UnionTypeDefinition _)
            | Some (InterfaceTypeDefinition _)
            | Some (ObjectTypeDefinition _) =>
                let schema := emptyObject in
                match selectionSet with
                | None => Returns (schema, parent, transformations)
                | Some selections =>
                    '(schema, transformations) ←
                      resolveSelections selections (type_name namedType)
                        schema documentPath transformations;
                    Returns (schema, parent, transformations)
                end
            | Some (OtherTypeDefinition _) =>
                Returns (emptySchema, parent, transformations)
            end
        end
  end.

(** The callback of [selections.forEach] for a parent of a union type. *)
Definition unionSelection (types : option (list string))
    (documentPath : list string)
    (state : JSONSchema * Transformations) (selection : SelectionNode)
  : Run (JSONSchema * Transformations) :=
  let '(parentObject, transformations) := state in
  match selection with
  | Field fieldName alias _ _ =>
      let propName := default fieldName alias in
      if negb (String.eqb fieldName "__typename") then Returns state
      else
        parentObject ←
          store propName (Here (stringEnum (default [] types))) parentObject;
        Returns (requireProperty propName parentObject, transformations)
  | InlineFragment typeCondition selections =>
      match typeCondition with
      | None => Returns state
      | Some typeName =>
          '(parentObject, transformations) ←
            resolveSelections selections typeName parentObject documentPath
              transformations;
          (* union root fields are always optional *)
          Returns (set_required None parentObject, transformations)
      end
  | FragmentSpread name =>
      match find_fragment name operationDocument with
      | Some fragmentDefinition =>
          '(parentObject, transformations) ←
            resolveSelections (fragment_selectionSet fragmentDefinition)
              (fragment_typeCondition fragmentDefinition) parentObject
              documentPath transformations;
          (* union root fields are always optional *)
          Returns (set_required None parentObject, transformations)
      | None => Returns state
      end
  end.

(** The callback of [selections.forEach] for a parent of an object or
    interface type with the fields [fields]. *)
Definition objectSelection (parentTypeName : string)
    (fields : list FieldDefinitionNode) (documentPath : list string)
    (state : JSONSchema * Transformations) (selection : SelectionNode)
  : Run (JSONSchema * Transformations) :=
  let '(parentObject, transformations) := state in
  match selection with
  | Field fieldName alias directives selectionSet =>
      let propName := default fieldName alias in
      if String.eqb fieldName "__typename" then
        match properties parentObject with
        | None => Throws "TypeError: Cannot read properties of undefined"
        | Some props =>
            match property propName props with
            | Here existing =>
                match enum existing with
                | Some values =>
                    Returns
                      (set_properties
                         (set_own propName
                            (Here (set_enum (values ++ [parentTypeName])
                                     existing)) props)
                         parentObject,
                       transformations)
                | None =>
                    parentObject ←
                      store propName (Here (stringEnum [parentTypeName]))
                        parentObject;
                    Returns (requireProperty propName parentObject,
                             transformations)
                end
            | _ =>
                parentObject ←
                  store propName (Here (stringEnum [parentTypeName]))
                    parentObject;
                Returns (requireProperty propName parentObject,
                         transformations)
            end
        end
      else
        match List.find (fun f => String.eqb (field_name f) fieldName) fields
        with
        | None => Returns state
        | Some definition =>
            '(schema, parentObject, transformations) ←
              resolveFieldSchema propName selectionSet (field_type definition)
                parentObject (documentPath ++ [propName]) transformations;
            '(schema, transformations) ←
              match GraphQL.find_directive "transform" directives with
              | Some transformDirective =>
                  handleTransformDirective transformDirective schema
                    (documentPath ++ [propName]) transformations
              | None => Returns (Here schema, transformations)
              end;
            parentObject ← store propName schema parentObject;
            Returns (parentObject, transformations)
        end
  | FragmentSpread name =>
      match find_fragment name operationDocument with
      | None =>
          Throws
            "TypeError: Cannot read properties of undefined (reading 'selectionSet')"
      | Some fragmentDefinition =>
          resolveSelections (fragment_selectionSet fragmentDefinition)
            parentTypeName parentObject documentPath transformations
      end
  | InlineFragment _ selections =>
      resolveSelections selections parentTypeName parentObject documentPath
        transformations
  end.

End Cases.

(** [resolveSelections(graphQLSchema, operationDocument, selections,
    parentTypeName, parentObject, documentPath, transformations)]:
    [parentObject] and [transformations] afterwards.  The fuel bounds how
    deep selection sets and fragments are entered. *)
Fixpoint resolveSelections (fuel : nat) (selections : list SelectionNode)
    (parentTypeName : string) (parentObject : JSONSchema)
    (documentPath : list string) (transformations : Transformations)
    {struct fuel} : Run (JSONSchema * Transformations) :=
  match fuel with
  | 0 => Unfollowed
  | S fuel =>
      match getType graphQLSchema parentTypeName with
      | None => Returns (parentObject, transformations)
      | Some parentType =>
          match astNode parentType with
          | None => Returns (parentObject, transformations)
          | Some (UnionTypeDefinition types) =>
              forEachRun
                (unionSelection (resolveSelections fuel) types documentPath)
                selections (parentObject, transformations)
          | Some (ObjectTypeDefinition (Some fields))
          | Some (InterfaceTypeDefinition (Some fields)) =>
              forEachRun
                (objectSelection (resolveSelections fuel) parentTypeName
                   fields documentPath)
                selections (parentObject, transformations)
          | Some _ => Returns (parentObject, transformations)
          end
      end
  end.

(** [operationRootTypeName(node, graphQLSchema)], given [node.operation]. *)
Definition operationRootTypeName (operation : string) : string :=
  if String.eqb operation "query" then default "" (getQueryType graphQLSchema)
  else if String.eqb operation "mutation" then
    default "" (getMutationType graphQLSchema)
  else if String.eqb operation "subscription" then
    default "" (getSubscriptionType graphQLSchema)
  else "".

(** [operationResponseToJSONSchema(graphQLSchema, operationDocument,
    operationNode, transformations)], given [operationNode.operation] and
    [operationNode.selectionSet.selections]: the schema returned, and
    [transformations] afterwards. *)
Definition operationResponseToJSONSchema (fuel : nat) (operation : string)
    (selections : list SelectionNode) (transformations : Transformations)
  : Run (JSONSchema * Transformations) :=
  let dataSchema := emptyObject in
  let typeName := operationRootTypeName operation in
  '(dataSchema, transformations) ←
    resolveSelections fuel selections typeName dataSchema ["data"]
      transformations;
  Returns
    ({| type := Some "object";
        properties := Some [("data", Here dataSchema)];
        additionalProperties := Some false;
        required := None; enum := None; items := None; minItems := None |},
     transformations).

End Compiler.

End ResponseSchema.

(** ** Notions used to state what the response compiler does *)

Module ResponseProperties.

Import ResponseSchema.

(** One step down a schema: [[]] enters the items of an array schema,
    any other name (and [[]] where there are no items) the property of
    that name. *)
Definition descend1 (cursor : Value JSONSchema) (elem : string)
  : Value JSONSchema :=
  match cursor with
  | Here schema =>
      match items schema, String.eqb elem "[]" with
      | Some inner, true => Here inner
      | _, _ =>
          match properties schema with
          | Some props => property elem props
          | None => Undefined
          end
      end
  | _ => Undefined
  end.

Definition descend (path : list string) (schema : JSONSchema)
  : Value JSONSchema :=
  fold_left descend1 path (Here schema).

(** A path without its [[]] components. *)
Definition names (path : list string) : list string :=
  List.filter (fun elem => negb (String.eqb elem "[]")) path.

(** The [get:] argument of a directive, when it is a string. *)
Definition getPath (transformDirective : GraphQL.DirectiveNode)
  : option string :=
  match GraphQL.find_argument "get" transformDirective with
  | Some get =>
      match GraphQL.arg_value get with
      | GraphQL.StringValue value => Some value
      | _ => None
      end
  | None => None
  end.

(** A type reference with a [!] on the type itself or on the element
    type of its lists, at any depth. *)
Fixpoint containsNonNull (type : VariablesSchema.TypeNode) : bool :=
  match type with
  | VariablesSchema.NonNullType _ => true
  | VariablesSchema.ListType inner => containsNonNull inner
  | VariablesSchema.NamedType _ => false
  end.

(** The own property names of a schema object. *)
Definition keys (s : JSONSchema) : list string :=
  default [] (props ← properties s; Some props.*1).

(** A transformation recorded for a field at or below [documentPath]: it
    leads from a path to a prefix of it that starts with [documentPath],
    and its depth is the length of the path it leads from. *)
Definition recordedUnder (documentPath : list string)
    (t : GraphQL.PostResolveTransformation) : Prop :=
  GraphQL.depth t = length (GraphQL.get_from t)
  /\ GraphQL.get_to t `prefix_of` GraphQL.get_from t
  /\ documentPath `prefix_of` GraphQL.get_to t.

(** What a call of [resolveSelections] does to the object schema it is
    given and to the transformations: the properties stay or are added
    to, the names required stay among the properties, nothing else of the
    object changes, and transformations are only added, each for a field
    below [documentPath]. *)
Definition extends (documentPath : list string)
    (parentObject : JSONSchema) (transformations : Transformations)
    (parentObject' : JSONSchema) (transformations' : Transformations)
  : Prop :=
  type parentObject' = type parentObject
  /\ additionalProperties parentObject' = additionalProperties parentObject
  /\ enum parentObject' = enum parentObject
  /\ items parentObject' = items parentObject
  /\ minItems parentObject' = minItems parentObject
  /\ (is_Some (properties parentObject) -> is_Some (properties parentObject'))
  /\ keys parentObject ⊆ keys parentObject'
  /\ (default [] (required parentObject) ⊆ keys parentObject ->
      default [] (required parentObject') ⊆ keys parentObject')
  /\ exists added,
       transformations' = transformations ++ added
       /\ Forall (recordedUnder documentPath) added.

Definition respects (resolveSelections : ResolveSelections) : Prop :=
  forall selections parentTypeName parentObject documentPath transformations
         parentObject' transformations',
    resolveSelections selections parentTypeName parentObject documentPath
      transformations
    = Returns (parentObject', transformations') ->
    type parentObject = Some "object" ->
    extends documentPath parentObject transformations parentObject'
      transformations'.

End ResponseProperties.

(** ** More sample inputs *)

Module MoreSamples.

Import GraphQL Samples.

(** [$email: String! @fromClaim(name: EMAIL) @injectCurrentDateTime(format:
    Kitchen) @injectGeneratedUUID] *)
Definition busyVariable : VariableDefinitionNode :=
  variableWith "email"
    [ fromClaimEmail; injectNowKitchen;
      {| dir_name := "injectGeneratedUUID"; dir_arguments := None |} ].

(** [@fromClaim(name: toString)] *)
Definition fromClaimToString : DirectiveNode :=
  {| dir_name := "fromClaim";
     dir_arguments :=
       Some [{| arg_name := "name"; arg_value := EnumValue "toString" |}] |}.

(** A run of the command in which the webhooks cannot be listed. *)
Definition unlistedWebhooks : Up.Env :=
  {| Up.FindWunderGraphDir := inl "/app/.wundergraph";
     Up.exists_on_disk := fun path =>
       bool_decide
         (path ∈ [ "/app/.wundergraph/wundergraph.config.ts";
                   "/app/.wundergraph/wundergraph.server.ts";
                   "/app/.wundergraph/webhooks" ]);
     Up.ServerPortFromConfig := inl 3000;
     Up.GetWebhooks := inr "open webhooks: permission denied";
     Up.initialBuild := goodBuild;
     Up.stack_NewRunner := inl stack;
     Up.stack_Run := None;
     Up.watchBuilds := [];
     Up.configWatcherSetup := None;
     Up.configFileChanges := [];
     Up.node_StartBlocking := None;
     Up.diskAfterStart := diskWithArtifact |}.

(** A run of the command in which the config script has written no
    artifact by the time the gateway is started. *)
Definition noArtifact : Up.Env :=
  {| Up.FindWunderGraphDir := inl "/app/.wundergraph";
     Up.exists_on_disk := fun path =>
       bool_decide (path = "/app/.wundergraph/wundergraph.config.ts");
     Up.ServerPortFromConfig := inr "no config";
     Up.GetWebhooks := inl [];
     Up.initialBuild := syntaxError;
     Up.stack_NewRunner := inl stack;
     Up.stack_Run := None;
     Up.watchBuilds := [];
     Up.configWatcherSetup := None;
     Up.configFileChanges := [];
     Up.node_StartBlocking := None;
     Up.diskAfterStart := ∅ |}.

End MoreSamples.

(** ** Sample inputs for the schema compiler *)

Module SchemaSamples.

Import VariablesSchema.

(** [[
input Filter {
  name: String!
  id: ID! = "0"
  owner: String!
  and: [Filter!]
  toString: String
}
]] *)
Definition filterType : GraphQLNamedType :=
  {| type_name := "Filter";
     astNode :=
       Some (InputObjectTypeDefinition
               (Some [ {| field_name := "name";
                          field_type := NonNullType (NamedType "String");
                          field_defaultValue := None |};
                       {| field_name := "id";
                          field_type := NonNullType (NamedType "ID");
                          field_defaultValue := Some (GraphQL.StringValue "0") |};
                       {| field_name := "owner";
                          field_type := NonNullType (NamedType "String");
                          field_defaultValue := None |};
                       {| field_name := "and";
                          field_type :=
                            ListType (NonNullType (NamedType "Filter"));
                          field_defaultValue := None |};
                       {| field_name := "toString";
                          field_type := NamedType "String";
                          field_defaultValue := None |} ])) |}.

(** [enum Role { ADMIN USER }] *)
Definition roleType : GraphQLNamedType :=
  {| type_name := "Role";
     astNode := Some (EnumTypeDefinition (Some ["ADMIN"; "USER"])) |}.

Definition shopSchema : GraphQLSchema := fun typeName =>
  if String.eqb typeName "Filter" then Some filterType
  else if String.eqb typeName "Role" then Some roleType
  else None.

(** [@fromClaim(name: EMAIL, on: "owner")] *)
Definition fromClaimOnOwner : GraphQL.DirectiveNode :=
  {| GraphQL.dir_name := "fromClaim";
     GraphQL.dir_arguments :=
       Some [ {| GraphQL.arg_name := "name";
                 GraphQL.arg_value := GraphQL.EnumValue "EMAIL" |};
              {| GraphQL.arg_name := "on";
                 GraphQL.arg_value := GraphQL.StringValue "owner" |} ] |}.

(** [[
query (
  $filter: Filter! @fromClaim(name: EMAIL, on: "owner")
  $limit: Int! = 10
  $role: Role
  $tags: [String!]!
  $email: String! @fromClaim(name: EMAIL)
)
]] *)
Definition searchVariables : list VariableDefinition :=
  [ {| node :=
         {| GraphQL.variable_name := "filter"; GraphQL.var_type := "Filter!";
            GraphQL.defaultValue := None;
            GraphQL.var_directives := Some [fromClaimOnOwner] |};
       variable_type := NonNullType (NamedType "Filter") |};
    {| node :=
         {| GraphQL.variable_name := "limit"; GraphQL.var_type := "Int!";
            GraphQL.defaultValue := Some (GraphQL.IntValue "10");
            GraphQL.var_directives := None |};
       variable_type := NonNullType (NamedType "Int") |};
    {| node :=
         {| GraphQL.variable_name := "role"; GraphQL.var_type := "Role";
            GraphQL.defaultValue := None;
            GraphQL.var_directives := Some [] |};
       variable_type := NamedType "Role" |};
    {| node :=
         {| GraphQL.variable_name := "tags"; GraphQL.var_type := "[String!]!";
            GraphQL.defaultValue := None;
            GraphQL.var_directives := Some [] |};
       variable_type := NonNullType (ListType (NonNullType (NamedType "String"))) |};
    {| node :=
         {| GraphQL.variable_name := "email"; GraphQL.var_type := "String!";
            GraphQL.defaultValue := None;
            GraphQL.var_directives := Some [Samples.fromClaimEmail] |};
       variable_type := NonNullType (NamedType "String") |} ].

End SchemaSamples.

(** ** Sample inputs for the response compiler *)

Module ResponseSamples.

Import ResponseSchema.

(** The schema of a selected field [friends: [User!]] with the selection
    [{ name }]. *)
Definition friendsSchema : JSONSchema :=
  {| type := Some "array";
     items :=
       Some {| type := Some "object";
               properties := Some [("name", Here (typed "string"))];
               additionalProperties := Some false;
               required := None; enum := None; items := None;
               minItems := None |};
     properties := None; required := None; additionalProperties := None;
     enum := None; minItems := None |}.

(** [@transform(get: "name")] *)
Definition transformGetName : GraphQL.DirectiveNode :=
  {| GraphQL.dir_name := "transform";
     GraphQL.dir_arguments :=
       Some [ {| GraphQL.arg_name := "get";
                 GraphQL.arg_value := GraphQL.StringValue "name" |} ] |}.

(** [[
type Query { me: User!  friends: [User!]  search: [SearchResult] }
type User { id: ID!  name: String  role: Role! }
type Post { title: String! }
enum Role { ADMIN USER }
union SearchResult = User | Post
]] *)
Definition blogSchema : GraphQLSchema :=
  {| getType := fun name =>
       if String.eqb name "Query" then
         Some {| type_name := "Query";
                 astNode :=
                   Some (ObjectTypeDefinition
                           (Some [ {| field_name := "me";
                                      field_type :=
                                        VariablesSchema.NonNullType
                                          (VariablesSchema.NamedType "User") |};
                                   {| field_name := "friends";
                                      field_type :=
                                        VariablesSchema.ListType
                                          (VariablesSchema.NonNullType
                                             (VariablesSchema.NamedType "User")) |};
                                   {| field_name := "search";
                                      field_type :=
                                        VariablesSchema.ListType
                                          (VariablesSchema.NamedType
                                             "SearchResult") |} ])) |}
       else if String.eqb name "User" then
         Some {| type_name := "User";
                 astNode :=
                   Some (ObjectTypeDefinition
                           (Some [ {| field_name := "id";
                                      field_type :=
                                        VariablesSchema.NonNullType
                                          (VariablesSchema.NamedType "ID") |};
                                   {| field_name := "name";
                                      field_type :=
                                        VariablesSchema.NamedType "String" |};
                                   {| field_name := "role";
                                      field_type :=
                                        VariablesSchema.NonNullType
                                          (VariablesSchema.NamedType "Role") |} ])) |}
       else if String.eqb name "Post" then
         Some {| type_name := "Post";
                 astNode :=
                   Some (ObjectTypeDefinition
                           (Some [ {| field_name := "title";
                                      field_type :=
                                        VariablesSchema.NonNullType
                                          (VariablesSchema.NamedType "String") |} ])) |}
       else if String.eqb name "Role" then
         Some {| type_name := "Role";
                 astNode := Some (EnumTypeDefinition (Some ["ADMIN"; "USER"])) |}
       else if String.eqb name "SearchResult" then
         Some {| type_name := "SearchResult";
                 astNode := Some (UnionTypeDefinition (Some ["User"; "Post"])) |}
       else None;
     getQueryType := Some "Query";
     getMutationType := None;
     getSubscriptionType := None |}.

(** [fragment PostParts on Post { title }] *)
Definition blogDocument : DocumentNode :=
  [ OtherDefinition;
    FragmentDefinition
      {| fragment_name := "PostParts";
         fragment_typeCondition := "Post";
         fragment_selectionSet := [Field "title" None None None] |} ].

(** [[
{
  me { id name role }
  friends { id }
  names: friends @transform(get: "name") { name }
  search { __typename ... on User { id } ...PostParts }
}
]] *)
Definition blogSelections : list SelectionNode :=
  [ Field "me" None None
      (Some [ Field "id" None None None; Field "name" None None None;
              Field "role" None None None ]);
    Field "friends" None (Some []) (Some [Field "id" None None None]);
    Field "friends" (Some "names") (Some [transformGetName])
      (Some [Field "name" None None None]);
    Field "search" None None
      (Some [ Field "__typename" None None None;
              InlineFragment (Some "User") [Field "id" None None None];
              FragmentSpread "PostParts" ]) ].

End ResponseSamples.

(** ** Facts about the operation factory *)

Module NodeJSOperationsFacts.

Import NodeJSOperations Samples.

Lemma or_bool_true_r (b : bool) : JS.or_bool b true = true.
Proof. by destruct b. Qed.

Lemma or_number_falsy (x d : float) :
  JS.truthy_number x = false -> JS.or_number x d = d.
Proof. unfold JS.or_number. by intros ->. Qed.

Lemma zero_is_falsy (x : float) :
  PrimFloat.eqb x 0%float = true -> JS.truthy_number x = false.
Proof. unfold JS.truthy_number. by intros ->. Qed.

(** C10.  Every operation returned by the [query] constructor of the
    operation factory has [liveQuery.enable = true], also when the caller
    passes [live] with [enable: false]; its
    [liveQuery.pollingIntervalSeconds] is 5 when the caller passes no
    [live] and when the value passed is 0. *)
Theorem query_liveQuery_defaults {Schema Handler : Type}
    (a : OperationArgs Schema Handler) :
  let built := f_query (createOperationFactory ()) a in
  enable (liveQuery built) = true
  /\ (forall l, live a = Some l -> enable l = false ->
        enable (liveQuery built) = true)
  /\ (live a = None -> pollingIntervalSeconds (liveQuery built) = 5%float)
  /\ (forall l, live a = Some l ->
        PrimFloat.eqb (pollingIntervalSeconds l) 0%float = true ->
        pollingIntervalSeconds (liveQuery built) = 5%float).
Proof.
  cbn. split; [|split; [|split]].
  - apply or_bool_true_r.
  - intros. apply or_bool_true_r.
  - by intros ->.
  - intros l -> Hzero. cbn. by apply or_number_falsy, zero_is_falsy.
Qed.

Lemma query_liveQuery_defaults_witness :
  liveQuery (f_query (createOperationFactory ()) liveOff)
  = {| enable := true; pollingIntervalSeconds := 5%float |}.
Proof.
  destruct (query_liveQuery_defaults liveOff) as (He & _ & _ & Hp).
  specialize (Hp _ eq_refl eq_refl).
  destruct (liveQuery (f_query (createOperationFactory ()) liveOff)).
  cbn in He, Hp. by subst.
Defined.

End NodeJSOperationsFacts.

(** ** Facts about [parseGraphQLOperations] *)

Module GraphQLFacts.

Import GraphQL Samples.

Ltac unfold_bind := unfold mbind, Result_bind, mret, Result_ret in *.

Section WithLib.

Context {lib : GraphQLLib}.

(** A loop whose every successful step appends one element to a list kept
    in the state appends one element per item. *)
Lemma forEachM_appends {A S B} (field : S -> list B) (Q : B -> Prop)
    (body : S -> A -> Result S) (xs : list A) (s s' : S) :
  (forall s x s', body s x = Ok s' ->
     exists b, field s' = field s ++ [b] /\ Q b) ->
  forEachM body xs s = Ok s' ->
  exists added, field s' = field s ++ added
                /\ length added = length xs /\ Forall Q added.
Proof.
  intros Hbody. revert s. induction xs as [|x xs IH]; intros s Hrun; cbn in Hrun.
  - simplify_eq. exists []. by rewrite app_nil_r.
  - unfold_bind. destruct (body s x) as [s1|e] eqn:Hx; [|done].
    destruct (Hbody _ _ _ Hx) as (b & Hb & HQ).
    destruct (IH _ Hrun) as (added & Hadd & Hlen & Hall).
    exists (b :: added). rewrite Hadd, Hb, <- app_assoc. cbn.
    split; [done|]. split; [by rewrite Hlen|]. by constructor.
Qed.

Lemma handleDateTimeDirective_pushes variable operation directive operation' :
  handleDateTimeDirective variable operation directive = Ok operation' ->
  exists c,
    injectVariables (VariablesConfiguration_ operation')
    = injectVariables (VariablesConfiguration_ operation) ++ [c]
    /\ pushedDateTime c.
Proof.
  unfold handleDateTimeDirective. intros H.
  case_match; [done|]. unfold_bind.
  repeat (case_match; simplify_eq; try done); eexists; (split; [reflexivity|done]).
Qed.

(** C9.  Every configuration [handleDateTimeDirectives] pushes for an
    accepted [@injectCurrentDateTime] directive carries the fixed date
    format [2006-01-02T15:04:05Z07:00], whatever [format:] or
    [customFormat:] says: one directive pushes exactly one such
    configuration, and a variable gets one per directive.  The arguments are
    checked all the same: both arguments together, a [format:] that is no
    enum and a [customFormat:] that is no string throw. *)
Theorem injectCurrentDateTime_fixed_format
    (variable : VariableDefinitionNode) (operation : GraphQLOperation) :
  (forall directive operation',
     handleDateTimeDirective variable operation directive = Ok operation' ->
     exists c,
       injectVariables (VariablesConfiguration_ operation')
       = injectVariables (VariablesConfiguration_ operation) ++ [c]
       /\ dateFormat c = "2006-01-02T15:04:05Z07:00"
       /\ variableKind c = DATE_TIME)
  /\ (forall operation',
       handleDateTimeDirectives variable operation = Ok operation' ->
       exists added,
         injectVariables (VariablesConfiguration_ operation')
         = injectVariables (VariablesConfiguration_ operation) ++ added
         /\ length added
            = length (directivesNamed variable ["injectCurrentDateTime"])
         /\ Forall (fun c => dateFormat c = "2006-01-02T15:04:05Z07:00") added)
  /\ (forall directive formatArg customFormatArg,
       find_argument "format" directive = Some formatArg ->
       find_argument "customFormat" directive = Some customFormatArg ->
       exists e, handleDateTimeDirective variable operation directive = Throw e)
  /\ (forall directive formatArg,
       find_argument "format" directive = Some formatArg ->
       kind (arg_value formatArg) <> "EnumValue" ->
       exists e, handleDateTimeDirective variable operation directive = Throw e)
  /\ (forall directive customFormatArg,
       find_argument "format" directive = None ->
       find_argument "customFormat" directive = Some customFormatArg ->
       kind (arg_value customFormatArg) <> "StringValue" ->
       exists e, handleDateTimeDirective variable operation directive = Throw e).
Proof.
  split; [|split; [|split; [|split]]].
  - intros directive operation' H.
    destruct (handleDateTimeDirective_pushes _ _ _ _ H) as (c & Hc & Hf & Hk).
    by exists c.
  - intros operation' H. unfold handleDateTimeDirectives in H.
    destruct (forEachM_appends
                (fun o => injectVariables (VariablesConfiguration_ o))
                pushedDateTime _ _ _ _
                (handleDateTimeDirective_pushes variable) H)
      as (added & Hadd & Hlen & Hall).
    exists added. split; [done|]. split; [done|].
    eapply Forall_impl; [exact Hall|]. by intros c [Hf _].
  - intros directive formatArg customFormatArg Hf Hc.
    unfold handleDateTimeDirective. rewrite Hf, Hc. cbn. by eexists.
  - intros directive formatArg Hf Hkind.
    unfold handleDateTimeDirective. rewrite Hf.
    destruct (find_argument "customFormat" directive); cbn; [by eexists|].
    unfold_bind. destruct (arg_value formatArg); cbn in *; try done; by eexists.
  - intros directive customFormatArg Hf Hc Hkind.
    unfold handleDateTimeDirective. rewrite Hf, Hc. cbn.
    unfold_bind. destruct (arg_value customFormatArg); cbn in *; try done; by eexists.
Qed.

Lemma requireAuthenticationForAuthorization_ok (o : GraphQLOperation) :
  authorizationRequiresAuthentication (requireAuthenticationForAuthorization o).
Proof.
  unfold authorizationRequiresAuthentication, hasAuthorization,
    requireAuthenticationForAuthorization.
  destruct o as [? ? ? ? ? ? ? ? ? ? [req] [cl [rAll rAny dAll dAny]] ? ? ? ?].
  cbn. destruct cl, rAll, rAny, dAll, dAny; cbn; intros Hauth; try done;
    destruct Hauth as [?|[?|[?|[?|?]]]]; done.
Qed.

Lemma buildOperation_ok schema wgRoleEnum options operationFile ast node c o :
  buildOperation schema wgRoleEnum options operationFile ast node c = Ok o ->
  authorizationRequiresAuthentication o.
Proof.
  unfold buildOperation. unfold_bind. intros H.
  repeat (case_match; try done). simplify_eq.
  apply requireAuthenticationForAuthorization_ok.
Qed.

Lemma enter_invariant schema wgRoleEnum options operationFile ast node h r h' :
  enter schema wgRoleEnum options operationFile ast node h = (r, h') ->
  Forall authorizationRequiresAuthentication (operations (parsed h)) ->
  Forall authorizationRequiresAuthentication (operations (parsed h')).
Proof.
  unfold enter. intros H Hh.
  repeat (case_match; simplify_eq; try done).
  cbn. apply Forall_app. split; [done|].
  constructor; [|done]. by eapply buildOperation_ok.
Qed.

Lemma visit_invariant on_enter definitions :
  (forall node h r h',
     on_enter node h = (r, h') ->
     Forall authorizationRequiresAuthentication (operations (parsed h)) ->
     Forall authorizationRequiresAuthentication (operations (parsed h'))) ->
  forall h r h',
    visit on_enter definitions h = (r, h') ->
    Forall authorizationRequiresAuthentication (operations (parsed h)) ->
    Forall authorizationRequiresAuthentication (operations (parsed h')).
Proof.
  intros Henter. induction definitions as [|[node|source] rest IH];
    intros h r h' H Hh; cbn in H.
  - by simplify_eq.
  - destruct (on_enter node h) as [[[]|e] h1] eqn:Hn.
    + eapply IH; [exact H|]. eauto.
    + simplify_eq. eauto.
  - eauto.
Qed.

Lemma processOperationFile_invariant schema wgRoleEnum options h operationFile :
  Forall authorizationRequiresAuthentication (operations (parsed h)) ->
  Forall authorizationRequiresAuthentication
    (operations (parsed (processOperationFile schema wgRoleEnum options h
                           operationFile))).
Proof.
  intros Hh. unfold processOperationFile.
  destruct (parse (content operationFile)) as [ast|e]; [|done].
  destruct (visit _ ast h) as [[[]|e] h'] eqn:Hv; cbn;
    eapply visit_invariant; try exact Hv; try done;
    intros; by eapply enter_invariant.
Qed.

Lemma processOperationFiles_invariant schema wgRoleEnum options files h :
  Forall authorizationRequiresAuthentication (operations (parsed h)) ->
  Forall authorizationRequiresAuthentication
    (operations (parsed (processOperationFiles schema wgRoleEnum options files h))).
Proof.
  unfold processOperationFiles. revert h.
  induction files as [|f files IH]; intros h Hh; cbn; [done|].
  by apply IH, processOperationFile_invariant.
Qed.

(** C8.  In every operation [parseGraphQLOperations] returns, a non-empty
    claims list or a non-empty role list ([requireMatchAll],
    [requireMatchAny], [denyMatchAll], [denyMatchAny]) comes with
    [AuthenticationConfig.required = true]. *)
Theorem authorization_requires_authentication
    (graphQLSchema : string) (loadOperationsOutput : LoadOperationsOutput)
    (options : option ParseOperationsOptions)
    (result : ParsedOperations) (written : list Output) :
  parseGraphQLOperations graphQLSchema loadOperationsOutput options
  = (Ok result, written) ->
  forall o, o ∈ operations result ->
    (claims (AuthorizationConfig_ o) <> []
     \/ requireMatchAll (roleConfig (AuthorizationConfig_ o)) <> []
     \/ requireMatchAny (roleConfig (AuthorizationConfig_ o)) <> []
     \/ denyMatchAll (roleConfig (AuthorizationConfig_ o)) <> []
     \/ denyMatchAny (roleConfig (AuthorizationConfig_ o)) <> []) ->
    required (AuthenticationConfig_ o) = true.
Proof.
  unfold parseGraphQLOperations. intros H o Ho Hauth.
  destruct (buildParsedSchema graphQLSchema) as [schema|e]; [|done].
  simplify_eq.
  pose proof (processOperationFiles_invariant schema
                (getType_astNode schema "WG_ROLE")
                (default defaultParseOptions options)
                (default [] (graphql_operation_files loadOperationsOutput))
                emptyHeap (Forall_nil_2 _)) as Hall.
  rewrite Forall_forall in Hall. exact (Hall o Ho Hauth).
Qed.

Lemma flat_map_after_map {A B C} (f : B -> list C) (g : A -> B) (l : list A) :
  flat_map f (map g l) = flat_map (fun x => f (g x)) l.
Proof. induction l as [|x l IH]; cbn; [done|]. by rewrite IH. Qed.

Lemma heap_app_empty_r h : heap_app h emptyHeap = h.
Proof. destruct h as [[ops] out]. unfold heap_app. cbn. by rewrite !app_nil_r. Qed.

Lemma heap_app_assoc h1 h2 h3 :
  heap_app (heap_app h1 h2) h3 = heap_app h1 (heap_app h2 h3).
Proof. unfold heap_app. cbn. by rewrite !app_assoc. Qed.

Lemma log_heap_app lines h d : log lines (heap_app h d) = heap_app h (log lines d).
Proof. unfold log, heap_app. cbn. by rewrite app_assoc. Qed.

Lemma log_from_empty lines h : log lines h = heap_app h (log lines emptyHeap).
Proof. by rewrite <- log_heap_app, heap_app_empty_r. Qed.

Lemma push_from_empty o h :
  push_operation o h = heap_app h (push_operation o emptyHeap).
Proof.
  destruct h as [[ops] out]. unfold push_operation, heap_app. cbn.
  by rewrite app_nil_r.
Qed.

(** What [enter] does to the state does not depend on the state. *)
Lemma enter_heap_app schema wgRoleEnum options operationFile ast node h :
  enter schema wgRoleEnum options operationFile ast node h
  = let r := enter schema wgRoleEnum options operationFile ast node emptyHeap in
    (r.1, heap_app h r.2).
Proof.
  unfold enter. cbn zeta.
  destruct (_ ≫= _) as [[content_ errors_]|e]; cbn [fst snd];
    [|by rewrite heap_app_empty_r].
  destruct (Nat.ltb 0 (length errors_)); cbn [fst snd];
    [by rewrite <- log_from_empty|].
  destruct (buildOperation _ _ _ _ _ _ _) as [o|e]; cbn [fst snd].
  - by rewrite <- push_from_empty.
  - by rewrite heap_app_empty_r.
Qed.

Lemma visit_heap_app on_enter definitions :
  (forall node h,
     on_enter node h
     = let r := on_enter node emptyHeap in (r.1, heap_app h r.2)) ->
  forall h,
    visit on_enter definitions h
    = let r := visit on_enter definitions emptyHeap in (r.1, heap_app h r.2).
Proof.
  intros Henter. induction definitions as [|[node|source] rest IH]; intros h; cbn.
  - by rewrite heap_app_empty_r.
  - rewrite (Henter node h). cbn.
    destruct (on_enter node emptyHeap) as [[[]|e] d]; cbn.
    + rewrite (IH (heap_app h d)), (IH d). cbn. by rewrite heap_app_assoc.
    + done.
  - apply IH.
Qed.

Lemma processOperationFile_heap_app schema wgRoleEnum options h operationFile :
  processOperationFile schema wgRoleEnum options h operationFile
  = heap_app h (processOperationFile schema wgRoleEnum options emptyHeap
                  operationFile).
Proof.
  unfold processOperationFile.
  destruct (parse (content operationFile)) as [ast|e].
  - rewrite (visit_heap_app _ ast (enter_heap_app _ _ _ _ _) h). cbn.
    destruct (visit _ ast emptyHeap) as [[[]|e] d]; cbn; [done|].
    apply log_heap_app.
  - by rewrite <- log_heap_app, heap_app_empty_r.
Qed.

(** The state after a list of files is the concatenation of what each file
    adds on its own. *)
Lemma processOperationFiles_concat schema wgRoleEnum options files h :
  processOperationFiles schema wgRoleEnum options files h
  = fold_left heap_app
      (map (processOperationFile schema wgRoleEnum options emptyHeap) files) h.
Proof.
  unfold processOperationFiles. revert h.
  induction files as [|f files IH]; intros h; cbn; [done|].
  by rewrite IH, processOperationFile_heap_app.
Qed.

Lemma fold_heap_app_operations ds h :
  operations (parsed (fold_left heap_app ds h))
  = operations (parsed h) ++ flat_map (fun d => operations (parsed d)) ds.
Proof.
  revert h. induction ds as [|d ds IH]; intros h; cbn.
  - by rewrite app_nil_r.
  - by rewrite IH, app_assoc.
Qed.

Lemma fold_heap_app_output ds h :
  output (fold_left heap_app ds h) = output h ++ flat_map output ds.
Proof.
  revert h. induction ds as [|d ds IH]; intros h; cbn.
  - by rewrite app_nil_r.
  - by rewrite IH, app_assoc.
Qed.


End WithLib.


Lemma authorization_requires_authentication_witness :
  exists o,
    match (parseGraphQLOperations "schema" (loaded ["plain"; "admin"]) None).1 with
    | Ok result => operations result
    | Throw _ => []
    end !! 1 = Some o
    /\ requireMatchAll (roleConfig (AuthorizationConfig_ o)) = ["admin"]
    /\ required (AuthenticationConfig_ o) = true.
Proof.
  destruct (parseGraphQLOperations "schema" (loaded ["plain"; "admin"]) None)
    as [[result|e] written] eqn:Hrun; [|by vm_compute in Hrun].
  cbn [fst].
  destruct (operations result !! 1) as [o|] eqn:Ho.
  - exists o. split; [done|].
    assert (requireMatchAll (roleConfig (AuthorizationConfig_ o)) = ["admin"])
      as Hroles.
    { vm_compute in Hrun. injection Hrun as <- _. vm_compute in Ho.
      by injection Ho as <-. }
    split; [done|].
    apply (authorization_requires_authentication _ _ _ _ _ Hrun o).
    + by eapply list_elem_of_lookup_2.
    + right. left. by rewrite Hroles.
  - vm_compute in Hrun. injection Hrun as <- _. by vm_compute in Ho.
Defined.

Lemma injectCurrentDateTime_fixed_format_witness :
  exists operation' c,
    handleDateTimeDirective (variableWith "at" [injectNowKitchen])
      (freshOperation "now") injectNowKitchen = Ok operation'
    /\ injectVariables (VariablesConfiguration_ operation') = [c]
    /\ dateFormat c = "2006-01-02T15:04:05Z07:00".
Proof.
  destruct (injectCurrentDateTime_fixed_format (lib := sampleLib)
              (variableWith "at" [injectNowKitchen]) (freshOperation "now"))
    as (Hone & _).
  destruct (handleDateTimeDirective (variableWith "at" [injectNowKitchen])
              (freshOperation "now") injectNowKitchen)
    as [operation'|e] eqn:Hrun; [|by vm_compute in Hrun].
  destruct (Hone _ _ Hrun) as (c & Hpush & Hformat & _).
  by exists operation', c.
Defined.

End GraphQLFacts.

(** ** Facts about the goroutine semantics *)

Module GoFacts.

Import Up.

Lemma code_size_cons i code : code_size (i :: code) = instr_size i + code_size code.
Proof. done. Qed.

Lemma sizes_cons (g : list Instr) (gs : list (list Instr)) :
  list_sum (map code_size (g :: gs)) = code_size g + list_sum (map code_size gs).
Proof. done. Qed.

Lemma size_insert (gs : list (list Instr)) i instr rest :
  gs !! i = Some (instr :: rest) ->
  list_sum (map code_size (<[i := rest]> gs)) + instr_size instr
  = list_sum (map code_size gs).
Proof.
  revert i. induction gs as [|g gs IH]; intros [|i] H; [done|done| |].
  - injection H as ->. change (<[0 := rest]> ((instr :: rest) :: gs)) with (rest :: gs).
    rewrite !sizes_cons, code_size_cons. lia.
  - change (<[S i := rest]> (g :: gs)) with (g :: <[i := rest]> gs).
    rewrite !sizes_cons. specialize (IH i H). lia.
Qed.

Lemma elem_of_enabled m e m' :
  (e, m') ∈ enabled m <-> exists i, step_goroutine m i = Some (e, m').
Proof.
  unfold enabled. rewrite list_elem_of_omap. split.
  - intros (i & _ & H). eauto.
  - intros (i & H). exists i. split; [|done].
    apply elem_of_seq. split; [lia|]. cbn.
    unfold step_goroutine in H.
    destruct (goroutines m !! i) eqn:Hi; [|done].
    by eapply lookup_lt_Some.
Qed.

(** Every step consumes one unit of the size of the machine. *)
Lemma step_size m i e m' :
  step_goroutine m i = Some (e, m') -> S (machine_size m') = machine_size m.
Proof.
  unfold step_goroutine, machine_size.
  destruct (goroutines m !! i) as [[|instr rest]|] eqn:Hi; try done.
  pose proof (size_insert _ _ _ _ Hi) as Hsize.
  destruct instr; intros H; try case_match; simplify_eq;
    cbn [goroutines counters instr_size] in *; try lia.
  rewrite map_app, list_sum_app.
  change (list_sum (map code_size [body])) with (code_size body + 0).
  fold (code_size body) in Hsize. lia.
Qed.

Lemma no_step_at_size_0 m : machine_size m = 0 -> enabled m = [].
Proof.
  intros Hsize. destruct (enabled m) as [|[e m'] l] eqn:He; [done|].
  assert ((e, m') ∈ enabled m) as Hin by (rewrite He; left).
  apply elem_of_enabled in Hin as (i & Hi). apply step_size in Hi. lia.
Qed.

Lemma schedules_S fuel m :
  schedules (S fuel) m
  = match enabled m with
    | [] => [[]]
    | steps =>
        flat_map (fun step => map (observe step.1) (schedules fuel step.2)) steps
    end.
Proof. done. Qed.

Lemma schedules_complete m trace :
  executions m trace ->
  forall fuel, machine_size m <= fuel -> trace ∈ schedules fuel m.
Proof.
  induction 1 as [m Hdone|m e m' trace Hstep _ IH]; intros fuel Hfuel.
  - destruct fuel; cbn; [|rewrite Hdone]; left.
  - pose proof Hstep as Hsize.
    apply elem_of_enabled in Hsize as (i & Hi). apply step_size in Hi.
    destruct fuel as [|fuel]; [lia|]. rewrite schedules_S.
    destruct (enabled m) as [|s l] eqn:He; [by apply elem_of_nil in Hstep|].
    cbv beta iota.
    apply list_elem_of_In, in_flat_map. exists (e, m'). split.
    + by apply list_elem_of_In.
    + apply in_map, list_elem_of_In, IH. lia.
Qed.

Lemma schedules_sound fuel :
  forall m trace,
    machine_size m <= fuel -> trace ∈ schedules fuel m -> executions m trace.
Proof.
  induction fuel as [|fuel IH]; intros m trace Hfuel Hin.
  - apply list_elem_of_singleton in Hin as ->.
    apply exec_done, no_step_at_size_0. lia.
  - rewrite schedules_S in Hin. destruct (enabled m) as [|s l] eqn:He.
    + apply list_elem_of_singleton in Hin as ->. by apply exec_done.
    + cbv beta iota in Hin.
      apply list_elem_of_In, in_flat_map in Hin as ([e m'] & Hstep & Hin).
      apply in_map_iff in Hin as (rest & <- & Hrest). cbn.
      assert ((e, m') ∈ enabled m) as Hen by (rewrite He; by apply list_elem_of_In).
      pose proof Hen as Hsize.
      apply elem_of_enabled in Hsize as (i & Hi). apply step_size in Hi.
      apply exec_step with m'; [done|].
      apply IH; [cbn in *; lia|by apply list_elem_of_In].
Qed.

(** [traces] enumerates the complete executions of a piece of code. *)
Lemma traces_executions code trace :
  executions (start code) trace <-> trace ∈ traces code.
Proof.
  assert (machine_size (start code) <= code_size code) as Hsize
    by (unfold machine_size; cbn; lia).
  split.
  - intros H. by apply schedules_complete.
  - by apply schedules_sound.
Qed.

(** *** Renaming wait groups

    The number that names a wait group does not matter: code whose wait
    groups are all shifted by [k] has the same traces. *)

Lemma lookup_map {A B} (f : A -> B) (l : list A) (i : nat) :
  map f l !! i = f <$> (l !! i).
Proof. revert i. induction l as [|x l IH]; intros [|i]; cbn; done. Qed.

Lemma insert_map {A B} (f : A -> B) (l : list A) (i : nat) (x : A) :
  <[i := f x]> (map f l) = map f (<[i := x]> l).
Proof.
  revert i. induction l as [|y l IH]; intros [|i]; cbn; try done.
  by rewrite IH.
Qed.

Lemma set_counter_shifted k wg n (c c' : nat -> nat) :
  (forall w, c' (w + k) = c w) ->
  forall w, set_counter (wg + k) n c' (w + k) = set_counter wg n c w.
Proof.
  intros Hc w. unfold set_counter. rewrite Hc.
  destruct (Nat.eqb_spec (w + k) (wg + k)), (Nat.eqb_spec w wg); try done; lia.
Qed.

Lemma step_shifted k m m' i :
  shifted k m m' ->
  match step_goroutine m i with
  | Some (e, n) =>
      exists n', step_goroutine m' i = Some (e, n') /\ shifted k n n'
  | None => step_goroutine m' i = None
  end.
Proof.
  intros [Hg Hc]. unfold step_goroutine. rewrite Hg, lookup_map.
  destruct (goroutines m !! i) as [[|instr rest]|] eqn:Hi; cbn; try done.
  destruct instr as [e|body|wg delta|wg|wg]; cbn.
  - eexists. split; [done|]. split; cbn; [by rewrite insert_map|done].
  - eexists. split; [done|]. split; cbn; [|done].
    by rewrite insert_map, map_app.
  - eexists. split; [done|]. split; cbn; [by rewrite insert_map|].
    rewrite Hc. by apply set_counter_shifted.
  - eexists. split; [done|]. split; cbn; [by rewrite insert_map|].
    rewrite Hc. by apply set_counter_shifted.
  - rewrite Hc. destruct (Nat.eqb (counters m wg) 0); [|done].
    eexists. split; [done|]. split; cbn; [by rewrite insert_map|done].
Qed.

Lemma omap_steps_shifted k m m' (indices : list nat) :
  shifted k m m' ->
  Forall2 (same_step k)
    (omap (step_goroutine m) indices) (omap (step_goroutine m') indices).
Proof.
  intros Hm. induction indices as [|i indices IH]; cbn; [constructor|].
  pose proof (step_shifted k m m' i Hm) as Hstep.
  destruct (step_goroutine m i) as [[e n]|].
  - destruct Hstep as (n' & -> & Hn). by constructor.
  - by rewrite Hstep.
Qed.

Lemma enabled_shifted k m m' :
  shifted k m m' -> Forall2 (same_step k) (enabled m) (enabled m').
Proof.
  intros Hm. unfold enabled. destruct Hm as [Hg Hc].
  rewrite Hg, !length_map. by apply omap_steps_shifted.
Qed.

Lemma schedules_shifted k fuel :
  forall m m', shifted k m m' -> schedules fuel m' = schedules fuel m.
Proof.
  induction fuel as [|fuel IH]; intros m m' Hm; [done|].
  rewrite !schedules_S.
  pose proof (enabled_shifted k m m' Hm) as Hsteps.
  destruct Hsteps as [|s s' l l' Hs Hl]; [done|].
  cbv beta iota.
  assert (Forall2 (same_step k) (s :: l) (s' :: l')) as Hall by by constructor.
  clear Hs Hl. induction Hall as [|x x' xs xs' [He Hx] _ IHall]; [done|].
  cbn [flat_map]. by rewrite IHall, He, (IH _ _ Hx).
Qed.

Lemma instr_size_shift k : forall i, instr_size (shift_instr k i) = instr_size i.
Proof.
  fix IH 1. intros [e|body|wg delta|wg|wg]; cbn; try done.
  f_equal. unfold list_sum.
  induction body as [|i body IHbody]; cbn; [done|].
  by rewrite IH, IHbody.
Qed.

Lemma code_size_shift k code : code_size (map (shift_instr k) code) = code_size code.
Proof.
  unfold code_size, list_sum. induction code as [|i code IH]; cbn; [done|].
  by rewrite instr_size_shift, IH.
Qed.

Lemma traces_shift k code : traces (map (shift_instr k) code) = traces code.
Proof.
  unfold traces. rewrite code_size_shift.
  apply (schedules_shifted k). by split.
Qed.

End GoFacts.

(** ** Facts about the [up] command *)

Module UpFacts.

Import Up GoFacts Samples.

(** *** Instructions of composed function bodies *)

Lemma code_bind {A B} (p : Prog A) (f : A -> Prog B) :
  code (p ≫= f)
  = code p ++ match outcome p with Next a => code (f a) | _ => [] end.
Proof.
  unfold mbind, Prog_bind. destruct (outcome p); cbn; by rewrite ?app_nil_r.
Qed.

Lemma outcome_bind {A B} (p : Prog A) (f : A -> Prog B) :
  outcome (p ≫= f)
  = match outcome p with
    | Next a => outcome (f a)
    | Returned err => Returned err
    | Panicked => Panicked
    end.
Proof. unfold mbind, Prog_bind. by destruct (outcome p). Qed.

Lemma all_events_app a b : all_events (a ++ b) = all_events a ++ all_events b.
Proof. unfold all_events. by rewrite flat_map_app. Qed.

(** C6.  When the project directory is resolved and the mandatory entry
    point is absent from it, the command returns an error, and the only
    thing it has done by then is to cancel its own context (the deferred
    [cancel]): no bundler, watcher, runner, stack or gateway was created
    and no process was run or killed. *)
Theorem missing_config_entry_point_fails_fast
    (pkg : Package) (env : Env) (wunderGraphDir : string) :
  FindWunderGraphDir env = inl wunderGraphDir ->
  exists_on_disk env
    (filepath_Join [wunderGraphDir; configEntryPointFilename pkg]) = false ->
  (exists err, outcome (RunE pkg env) = Returned (Some err))
  /\ code (RunE pkg env) = [Do ContextCancel]
  /\ Forall (fun e => creates_or_spawns e = false)
       (all_events (code (RunE pkg env))).
Proof.
  intros Hdir Habsent.
  assert (code (RunE pkg env) = [Do ContextCancel]
          /\ exists err, outcome (RunE pkg env) = Returned (Some err))
    as [Hcode Hout].
  { unfold RunE, defer, CodeFilePath. rewrite Hdir. cbn -[filepath_Join].
    rewrite Habsent. cbn.
    split; [done|by eexists]. }
  split; [done|]. split; [done|]. rewrite Hcode. by repeat constructor.
Qed.

Lemma missing_config_entry_point_fails_fast_witness :
  outcome (RunE Samples.pkg (run ["wundergraph.server.ts"] goodBuild (inl stack)))
  = Returned
      (Some "code file not found: /app/.wundergraph/wundergraph.config.ts")
  /\ all_events
       (code (RunE Samples.pkg
                (run ["wundergraph.server.ts"] goodBuild (inl stack))))
     = [ContextCancel].
Proof.
  destruct (missing_config_entry_point_fails_fast Samples.pkg
              (run ["wundergraph.server.ts"] goodBuild (inl stack))
              "/app/.wundergraph" eq_refl eq_refl)
    as (_ & Hcode & _).
  split; [reflexivity|]. by rewrite Hcode.
Defined.

(** *** The after-build callback with hooks *)

Ltac cases_of_after_build ab :=
  destruct ab as [dirExists [paths|e1] [e2|] [e3|] [e4|] [e5|] [e6|]];
  destruct dirExists.

(** The wait group of an invocation is only a name. *)
Lemma onAfterBuild_hooks_wait_group dir webhooksBundler wg ab :
  code (onAfterBuild_hooks dir webhooksBundler wg ab)
  = map (shift_instr wg) (code (onAfterBuild_hooks dir webhooksBundler 0 ab))
  /\ outcome (onAfterBuild_hooks dir webhooksBundler wg ab)
     = outcome (onAfterBuild_hooks dir webhooksBundler 0 ab).
Proof. cases_of_after_build ab; destruct webhooksBundler; by split. Qed.

Lemma after_build_traces_ok dir webhooksBundler ab :
  forallb
    (after_build_trace_ok webhooksBundler
       (completes (onAfterBuild_hooks dir webhooksBundler 0 ab)))
    (traces (code (onAfterBuild_hooks dir webhooksBundler 0 ab))) = true.
Proof.
  cases_of_after_build ab; destruct webhooksBundler; vm_compute; reflexivity.
Qed.

Lemma after_build_overlap dir ab :
  completes (onAfterBuild_hooks dir true 0 ab) = true ->
  existsb (fun trace =>
             begins_during hooks_bundler webhooks_bundler false trace)
    (traces (code (onAfterBuild_hooks dir true 0 ab))) = true
  /\ existsb (fun trace =>
                begins_during webhooks_bundler hooks_bundler false trace)
       (traces (code (onAfterBuild_hooks dir true 0 ab))) = true.
Proof.
  cases_of_after_build ab; vm_compute; try done; by split.
Qed.

(** Every execution of the callback, whatever its wait group is called,
    passes the check. *)
Lemma after_build_executions_ok dir webhooksBundler wg ab trace :
  executions (start (code (onAfterBuild_hooks dir webhooksBundler wg ab))) trace ->
  after_build_trace_ok webhooksBundler
    (completes (onAfterBuild_hooks dir webhooksBundler wg ab)) trace = true.
Proof.
  intros Hexec. apply traces_executions in Hexec.
  destruct (onAfterBuild_hooks_wait_group dir webhooksBundler wg ab)
    as [Hcode Hout].
  rewrite Hcode, traces_shift in Hexec.
  unfold completes, returned. rewrite Hout.
  pose proof (after_build_traces_ok dir webhooksBundler ab) as Hall.
  rewrite forallb_forall in Hall. by apply Hall, list_elem_of_In.
Qed.

(** With the server-hooks entry point on disk, the config bundler gets the
    callback of the hooks branch; its webhooks bundler exists exactly when
    the webhooks directory does. *)
Lemma configureHooks_with_server_file pkg env dir
    serverOutFile webhooksOutDir webhooksDir configJsonPath onAfterBuild :
  exists_on_disk env (filepath_Join [dir; serverEntryPointFilename pkg]) = true ->
  outcome (configureHooks pkg env dir
             (CodeFilePath env dir (serverEntryPointFilename pkg)).1
             serverOutFile webhooksOutDir webhooksDir configJsonPath)
  = Next onAfterBuild ->
  onAfterBuild = onAfterBuild_hooks dir (DirectoryExists env webhooksDir).
Proof.
  intros Hpresent. unfold configureHooks, CodeFilePath. rewrite Hpresent.
  cbv iota. cbn [fst].
  assert (String.eqb (filepath_Join [dir; serverEntryPointFilename pkg]) ""
          = false) as ->.
  { by destruct dir. }
  cbn [negb].
  destruct (DirectoryExists env webhooksDir); [destruct (GetWebhooks env)|];
    cbn; by intros [= <-].
Qed.

Ltac split_andb :=
  repeat match goal with
         | H : _ && _ = true |- _ => apply andb_prop in H as [? ?]
         | H : negb _ = true |- _ => apply negb_true_iff in H
         end.







(** *** A property of every action of a function body *)

Section Safe.

Context (P : Event -> Prop).

Lemma safe_bind {A B} (p : Prog A) (f : A -> Prog B) :
  safe P p -> (forall a, outcome p = Next a -> safe P (f a)) -> safe P (p ≫= f).
Proof.
  unfold safe. intros Hp Hf. rewrite code_bind, all_events_app.
  apply Forall_app_2; [done|].
  destruct (outcome p) as [a| |]; [by apply Hf|constructor|constructor].
Qed.

Lemma safe_ret {A} (a : A) : safe P (mret a).
Proof. constructor. Qed.

Lemma safe_return {A} err : safe P (@return_ A err).
Proof. constructor. Qed.

Lemma safe_check err : safe P (check err).
Proof. destruct err; constructor. Qed.

Lemma safe_try {A} (r : A + GoError) : safe P (try r).
Proof. destruct r; constructor. Qed.

Lemma safe_Do e : P e -> safe P (exec (Do e)).
Proof. by repeat constructor. Qed.

Lemma safe_Go body : Forall P (all_events body) -> safe P (exec (Go body)).
Proof.
  unfold safe, all_events. cbn. by rewrite app_nil_r.
Qed.

Lemma safe_wait_group i :
  match i with Do _ | Go _ => False | _ => True end -> safe P (exec i).
Proof. destruct i; try done; constructor. Qed.

Lemma safe_panic {A} msg : P (Panic msg) -> safe P (@panic A msg).
Proof. by repeat constructor. Qed.

Lemma safe_defer {A} deferred (p : Prog A) :
  safe P p -> Forall P (all_events deferred) -> safe P (defer deferred p).
Proof.
  unfold safe, defer. cbn [code]. rewrite all_events_app. intros.
  by apply Forall_app_2.
Qed.

Lemma safe_await_Run name :
  P (RunBegin name) -> P (RunDone name) -> safe P (await_Run name).
Proof. by repeat constructor. Qed.

Lemma safe_Bundle name build callback :
  P (BundleBegin name) ->
  (forall err, P (BundleReturn name err)) ->
  match callback with Some callback => safe P callback | None => True end ->
  Forall P (all_events (Bundle name build callback).1).
Proof.
  intros Hbegin Hreturn Hcallback. unfold Bundle.
  destruct build as [e|]; [by repeat constructor|].
  destruct callback as [callback|]; [|by repeat constructor].
  cbn [fst]. rewrite !all_events_app.
  apply Forall_app_2; [by repeat constructor|].
  apply Forall_app_2; [done|]. by repeat constructor.
Qed.

Lemma safe_call_Bundle name build callback :
  P (BundleBegin name) ->
  (forall err, P (BundleReturn name err)) ->
  match callback with Some callback => safe P callback | None => True end ->
  safe P (call_Bundle name build callback).
Proof. intros. by apply safe_Bundle. Qed.

Lemma safe_imap_Bundle (f : nat -> BuildEnv -> list Instr * option GoError)
    (builds : list BuildEnv) :
  (forall i build, Forall P (all_events (f i build).1)) ->
  Forall (fun build => Forall P (all_events build.1)) (imap f builds).
Proof.
  revert f. induction builds as [|b builds IH]; intros f Hf; cbn; [constructor|].
  constructor; [apply Hf|]. apply IH. intros i build. apply Hf.
Qed.

Lemma safe_Bundler_Watch name builds :
  P (BundlerWatch name) ->
  (forall e, P (Log ErrorLevel "could not bundle" [("error", e)])) ->
  Forall (fun build => Forall P (all_events build.1)) builds ->
  Forall P (all_events (Bundler_Watch name builds)).
Proof.
  intros Hwatch Hlog Hbuilds. unfold Bundler_Watch.
  change (Forall P (BundlerWatch name
                    :: all_events
                         (flat_map
                            (fun build =>
                               build.1 ++
                               match build.2 with
                               | Some e =>
                                   [Do (Log ErrorLevel "could not bundle"
                                          [("error", e)])]
                               | None => []
                               end) builds))).
  constructor; [done|].
  induction Hbuilds as [|build builds Hbuild _ IH]; [constructor|].
  cbn [flat_map]. rewrite !all_events_app.
  apply Forall_app_2; [|done]. apply Forall_app_2; [done|].
  destruct build as [c [e|]]; cbn [snd]; [|constructor].
  constructor; [apply Hlog|constructor].
Qed.

Lemma safe_watch_loop name callbacks :
  (forall e, P (Log ErrorLevel "watcher callback"
                  [("watcher", name); ("error", e)])) ->
  Forall (safe P) callbacks ->
  Forall P (all_events (watch_loop name callbacks)).
Proof.
  intros Hlog Hcallbacks.
  induction Hcallbacks as [|callback callbacks Hcallback _ IH]; [constructor|].
  cbn [watch_loop]. rewrite all_events_app. apply Forall_app_2; [done|].
  destruct (outcome callback) as [a|[e|]|].
  - done.
  - change (Forall P (Log ErrorLevel "watcher callback"
                        [("watcher", name); ("error", e)]
                      :: all_events (watch_loop name callbacks))).
    by constructor.
  - done.
  - constructor.
Qed.

End Safe.

(** The rule for [x ← p; rest] when the proof needs [x] and how [p] ended. *)
Ltac safe_bind_as x Hx := apply safe_bind; [|intros x Hx; cbv beta].

Ltac safe_step :=
  lazymatch goal with
  | |- safe _ (_ ≫= _) => apply safe_bind; [|intros _ _; cbv beta]
  | |- safe _ (defer _ _) => apply safe_defer
  | |- safe _ (exec (Do _)) => apply safe_Do
  | |- safe _ (exec (Go _)) => apply safe_Go
  | |- safe _ (exec _) => by apply safe_wait_group
  | |- safe _ (mret _) => apply safe_ret
  | |- safe _ (return_ _) => apply safe_return
  | |- safe _ (check _) => apply safe_check
  | |- safe _ (try _) => apply safe_try
  | |- safe _ (await_Run _) => apply safe_await_Run
  | |- safe _ (call_Bundle _ _ _) => apply safe_call_Bundle
  | |- safe _ (match ?x with _ => _ end) => destruct x
  end.

(** *** Every action of the command

    [P] holds of every action of a run of the command when it holds of the
    actions that are not about the hooks subtree and send nothing, of what
    [configureHooks] does and of the callback it yields, and of the
    configurations the two parses send. *)

Section RunE_safe.

Context (P : Event -> Prop) (pkg : Package) (env : Env).

Hypothesis P_plain :
  forall e, about_hooks e = false -> is_SendConfig e = false -> P e.

Hypothesis P_watcher_send :
  forall disk c,
    disk ∈ configFileChanges env ->
    outcome (ReadAndCreateConfig pkg disk (configJsonPath_of pkg env)
               (watcherConfigOption pkg (stackRunner_of env))).1
    = Next (inl c) ->
    P (SendConfig c).

Hypothesis P_startup_send :
  forall c,
    outcome (ReadAndCreateConfig pkg (diskAfterStart env)
               (configJsonPath_of pkg env)
               (startupConfigOption pkg (stackRunner_of env))).1
    = Next (inl c) ->
    P (SendConfig c).

Ltac plain := apply P_plain; reflexivity.

Lemma ReadAndCreateConfig_safe disk path option_ :
  safe P (ReadAndCreateConfig pkg disk path option_).1.
Proof.
  unfold ReadAndCreateConfig. cbn [fst].
  repeat case_match; try apply safe_ret. apply safe_panic. plain.
Qed.

Lemma onConfigFileChange_safe disk :
  disk ∈ configFileChanges env ->
  safe P (onConfigFileChange pkg (stackRunner_of env)
            (configJsonPath_of pkg env) disk).
Proof.
  intros Hdisk. unfold onConfigFileChange.
  safe_bind_as r Hr; [apply ReadAndCreateConfig_safe|].
  safe_bind_as c Hc; [safe_step|].
  destruct r as [c'|e]; [|done]. cbn in Hc. injection Hc as <-.
  safe_step; [|safe_step]. apply safe_Do. by eapply P_watcher_send.
Qed.

Lemma configWatcherGoroutine_safe :
  Forall P
    (all_events
       (configWatcherGoroutine pkg env (stackRunner_of env)
          (configJsonPath_of pkg env))).
Proof.
  unfold configWatcherGoroutine, Watcher_Watch.
  destruct (configWatcherSetup env) as [e|]; cbn [fst snd].
  - repeat constructor; plain.
  - rewrite app_nil_r.
    change (Forall P (WatcherWatch "config"
                      :: all_events
                           (watch_loop "config"
                              (map (onConfigFileChange pkg (stackRunner_of env)
                                      (configJsonPath_of pkg env))
                                 (configFileChanges env))))).
    constructor; [plain|]. apply safe_watch_loop; [intros; plain|].
    apply Forall_forall. intros callback Hin.
    apply list_elem_of_In, in_map_iff in Hin as (disk & <- & Hdisk).
    by apply onConfigFileChange_safe, list_elem_of_In.
Qed.

(** The statement that assigns [stackRunner]. *)
Lemma stackRunner_assigned (p : Prog (option StackRunner)) stackRunner :
  p = match stack_NewRunner env with
      | inr e =>
          _ ← exec (Do (Log ErrorLevel "failed to initialize stack runner"
                          [("error", e)]));
          mret None
      | inl stackRunner =>
          _ ← exec (Do StackRun);
          _ ← match stack_Run env with
              | Some e =>
                  exec (Do (Log ErrorLevel "failed to run stack" [("error", e)]))
              | None => mret ()
              end;
          mret (Some stackRunner)
      end ->
  outcome p = Next stackRunner -> stackRunner = stackRunner_of env.
Proof.
  intros -> H. unfold stackRunner_of.
  destruct (stack_NewRunner env) as [r|e]; [destruct (stack_Run env)|];
    cbn in H; by injection H.
Qed.

Lemma afterInitialBuild_safe onAfterBuild dir :
  (forall wg ab, safe P (onAfterBuild wg ab)) ->
  safe P (afterInitialBuild pkg env onAfterBuild dir (configJsonPath_of pkg env)).
Proof.
  intros Hcallback. unfold afterInitialBuild.
  safe_step; [safe_step; plain|].
  safe_bind_as stackRunner Hrunner.
  { destruct (stack_NewRunner env) as [r|e].
    - safe_step; [safe_step; plain|]. safe_step; [|safe_step].
      destruct (stack_Run env); [safe_step; plain|safe_step].
    - safe_step; [safe_step; plain|safe_step]. }
  apply (stackRunner_assigned _ _ eq_refl) in Hrunner as ->.
  safe_step.
  { safe_step. apply safe_Bundler_Watch; [plain|intros; plain|].
    apply safe_imap_Bundle. intros i build.
    apply safe_Bundle; [plain|intros; plain|apply Hcallback]. }
  safe_step; [safe_step; plain|].
  safe_step; [safe_step; apply configWatcherGoroutine_safe|].
  safe_step; [safe_step; plain|].
  safe_step.
  { safe_step. unfold nodeGoroutine.
    destruct (node_StartBlocking env); repeat constructor; plain. }
  safe_bind_as r Hr; [apply ReadAndCreateConfig_safe|].
  safe_bind_as c Hc; [safe_step|].
  destruct r as [c'|e]; [|done]. cbn in Hc. injection Hc as <-.
  safe_step; [apply safe_Do; by apply P_startup_send|].
  repeat (safe_step; [safe_step; plain|]). safe_step.
Qed.

Hypothesis P_hooks :
  forall dir serverOutFile webhooksOutDir webhooksDir configJsonPath,
    FindWunderGraphDir env = inl dir ->
    let configured :=
      configureHooks pkg env dir
        (CodeFilePath env dir (serverEntryPointFilename pkg)).1
        serverOutFile webhooksOutDir webhooksDir configJsonPath in
    safe P configured
    /\ forall onAfterBuild,
         outcome configured = Next onAfterBuild ->
         forall wg ab, safe P (onAfterBuild wg ab).

Lemma initialBuildAndStart_safe onAfterBuild dir a b c d :
  (forall wg ab, safe P (onAfterBuild wg ab)) ->
  safe P (initialBuildAndStart pkg env onAfterBuild dir a b c d
            (configJsonPath_of pkg env)).
Proof.
  intros Hcallback. unfold initialBuildAndStart.
  safe_step; [safe_step; plain|].
  safe_bind_as err Herr; [safe_step; [plain|intros; plain|apply Hcallback]|].
  safe_step; [destruct err; [safe_step; plain|safe_step]|].
  by apply afterInitialBuild_safe.
Qed.

Lemma RunE_safe : safe P (RunE pkg env).
Proof.
  unfold RunE. apply safe_defer; [|repeat constructor; plain].
  safe_bind_as dir Hdir; [safe_step|].
  assert (FindWunderGraphDir env = inl dir) as Hfound.
  { destruct (FindWunderGraphDir env); cbn in Hdir;
      [by injection Hdir as ->|done]. }
  safe_step; [safe_step|]. safe_step; [safe_step; plain|].
  apply safe_defer; [|repeat constructor; plain].
  unfold startup.
  safe_step; [safe_step; plain|].
  safe_step; [destruct (ServerPortFromConfig env); safe_step; plain|].
  safe_step; [safe_step; plain|]. safe_step; [safe_step; plain|].
  safe_bind_as onAfterBuild Hconfigured; [by apply P_hooks|].
  pose proof (proj2 (P_hooks _ _ _ _ _ Hfound) _ Hconfigured) as Hcallback.
  replace (filepath_Join [dir; "generated"; configJsonFilename pkg])
    with (configJsonPath_of pkg env)
    by (unfold configJsonPath_of; by rewrite Hfound).
  by apply initialBuildAndStart_safe.
Qed.

End RunE_safe.

(** *** Without the server-hooks entry point *)

Lemma configureHooks_without_server_file pkg env dir
    serverOutFile webhooksOutDir webhooksDir configJsonPath :
  exists_on_disk env (filepath_Join [dir; serverEntryPointFilename pkg]) = false ->
  configureHooks pkg env dir
    (CodeFilePath env dir (serverEntryPointFilename pkg)).1
    serverOutFile webhooksOutDir webhooksDir configJsonPath
  = (_ ← exec (Do (Log InfoLevel "hooks EntryPoint not found, skipping"
                     [("file", serverEntryPointFilename pkg)]));
     mret (fun _ _ => onAfterBuild_no_hooks)).
Proof. intros Habsent. unfold configureHooks, CodeFilePath. by rewrite Habsent. Qed.

(** C4.  When the server-hooks entry point is absent from the project
    directory, no action of the command, in any goroutine and at any
    rebuild, is about the hook server or about the hooks, webhooks or
    operations bundler; the after-build callback the config bundler gets is
    the one that runs the config script, starts the restart of the
    introspection poller and logs that the config was built. *)
Theorem no_hooks_subtree_without_server_entry_point
    (pkg : Package) (env : Env) (wunderGraphDir : string) :
  FindWunderGraphDir env = inl wunderGraphDir ->
  exists_on_disk env
    (filepath_Join [wunderGraphDir; serverEntryPointFilename pkg]) = false ->
  Forall (fun e => about_hooks e = false) (all_events (code (RunE pkg env)))
  /\ (forall serverOutFile webhooksOutDir webhooksDir configJsonPath,
       outcome
         (configureHooks pkg env wunderGraphDir
            (CodeFilePath env wunderGraphDir (serverEntryPointFilename pkg)).1
            serverOutFile webhooksOutDir webhooksDir configJsonPath)
       = Next (fun _ _ => onAfterBuild_no_hooks))
  /\ code onAfterBuild_no_hooks
     = [ Do (RunBegin config_runner); Do (RunDone config_runner);
         Go [ Do (RunBegin config_introspection_runner);
              Do (RunDone config_introspection_runner) ];
         Do (Log DebugLevel "Config built!" [("bundlerName", "config-bundler")]) ].
Proof.
  intros Hdir Habsent. split; [|split; [|done]].
  - apply RunE_safe.
    + by intros e He _.
    + done.
    + done.
    + intros dir serverOutFile webhooksOutDir webhooksDir configJsonPath Hdir'.
      assert (dir = wunderGraphDir) as -> by congruence.
      rewrite configureHooks_without_server_file by done.
      split; [by repeat constructor|].
      intros onAfterBuild [= <-] wg ab. by repeat constructor.
  - intros. by rewrite configureHooks_without_server_file.
Qed.

Lemma no_hooks_subtree_without_server_entry_point_witness :
  forallb (fun e => negb (about_hooks e))
    (all_events
       (code (RunE Samples.pkg
                (run ["wundergraph.config.ts"; "webhooks"; "operations"]
                   goodBuild (inl stack))))) = true.
Proof.
  destruct (no_hooks_subtree_without_server_entry_point Samples.pkg
              (run ["wundergraph.config.ts"; "webhooks"; "operations"]
                 goodBuild (inl stack))
              "/app/.wundergraph" eq_refl eq_refl)
    as (Hnone & _).
  apply forallb_forall. intros e He.
  rewrite Forall_forall in Hnone.
  by rewrite (Hnone e (proj2 (list_elem_of_In _ _) He)).
Defined.

(** *** The rewrite of the S3 endpoints *)

Lemma rewrite_is_lookup (pkg : Package) (resources : gmap string Resource)
    (cfg : WunderNodeConfig) :
  map_fold
    (fun s resource cfg =>
       if decide (s = stack_S3 pkg)
       then setEndpoints (GetHostPort resource (GetDefaultS3PortID pkg)) cfg
       else cfg)
    cfg resources
  = match resources !! stack_S3 pkg with
    | Some resource =>
        setEndpoints (GetHostPort resource (GetDefaultS3PortID pkg)) cfg
    | None => cfg
    end.
Proof.
  apply (map_fold_weak_ind
           (fun (r : WunderNodeConfig) (m : gmap string Resource) =>
              r = match m !! stack_S3 pkg with
                  | Some resource =>
                      setEndpoints
                        (GetHostPort resource (GetDefaultS3PortID pkg)) cfg
                  | None => cfg
                  end)).
  - by rewrite lookup_empty.
  - intros s resource m r Hfresh ->. destruct (decide (s = stack_S3 pkg)) as [->|Hne].
    + by rewrite Hfresh, lookup_insert_eq.
    + by rewrite lookup_insert_ne.
Qed.

Lemma setEndpoints_endpoints hostPort cfg s3 :
  s3 ∈ S3UploadConfiguration_ (Api (setEndpoints hostPort cfg)) ->
  StaticVariableContent (Endpoint s3) = hostPort
  /\ Kind (Endpoint s3) = STATIC_CONFIGURATION_VARIABLE.
Proof.
  cbn. intros Hin. apply list_elem_of_In, in_map_iff in Hin as (s3' & <- & _).
  done.
Qed.

Lemma ReadAndCreateConfig_result pkg disks disk path hostPort option_ c :
  disk ∈ disks ->
  (forall cfg, option_ cfg = Some (setEndpoints hostPort cfg)) ->
  outcome (ReadAndCreateConfig pkg disk path option_).1 = Next (inl c) ->
  rewritten_artifact pkg disks path hostPort c.
Proof.
  intros Hdisk Hoption. unfold ReadAndCreateConfig. cbn [fst].
  destruct (disk !! path) as [data|] eqn:Hdata; [|done].
  destruct (decodeConfig pkg data) as [raw|e] eqn:Hraw; [|done].
  rewrite Hoption. intros [= <-]. by exists disk, data, raw.
Qed.

(** No action of the after-build callbacks sends a configuration. *)
Lemma callbacks_send_nothing (P : Event -> Prop) dir webhooksBundler wg ab :
  (forall e, is_SendConfig e = false -> P e) ->
  safe P (onAfterBuild_hooks dir webhooksBundler wg ab)
  /\ safe P onAfterBuild_no_hooks.
Proof.
  intros HP. unfold safe. split.
  - cases_of_after_build ab; destruct webhooksBundler;
      repeat constructor; by apply HP.
  - repeat constructor; by apply HP.
Qed.

Lemma configureHooks_sends_nothing (P : Event -> Prop) pkg env dir
    codeServerFilePath serverOutFile webhooksOutDir webhooksDir configJsonPath :
  (forall e, is_SendConfig e = false -> P e) ->
  let configured :=
    configureHooks pkg env dir codeServerFilePath serverOutFile webhooksOutDir
      webhooksDir configJsonPath in
  safe P configured
  /\ forall onAfterBuild,
       outcome configured = Next onAfterBuild ->
       forall wg ab, safe P (onAfterBuild wg ab).
Proof.
  intros HP. unfold configureHooks.
  destruct (negb (String.eqb codeServerFilePath "")).
  - destruct (DirectoryExists env webhooksDir);
      [destruct (GetWebhooks env)|]; cbn.
    + split; [repeat constructor; by apply HP|].
      intros ? [= <-] wg ab. by apply callbacks_send_nothing.
    + split; [repeat constructor; by apply HP|]. done.
    + split; [repeat constructor; by apply HP|].
      intros ? [= <-] wg ab. by apply callbacks_send_nothing.
  - cbn. split; [repeat constructor; by apply HP|].
    intros ? [= <-] wg ab. by apply (callbacks_send_nothing P "" false 0 ab).
Qed.



(** *** After a failed initial build *)

Lemma afterInitialBuild_code pkg env onAfterBuild dir path :
  exists readPart,
    code (afterInitialBuild pkg env onAfterBuild dir path)
    = Do StackNewRunner :: runStack env
      ++ watchersAndNode pkg env onAfterBuild path ++ readPart
    /\ forallb (fun i => negb (is_config_return i)) readPart = true.
Proof.
  unfold afterInitialBuild, watchersAndNode, runStack, stackRunner_of,
    ReadAndCreateConfig.
  destruct (stack_NewRunner env) as [r|e1]; [destruct (stack_Run env) as [e2|]|];
    cbn -[Bundler_Watch configWatcherGoroutine nodeGoroutine imap];
    (destruct (diskAfterStart env !! path) as [data|];
     [destruct (decodeConfig pkg data) as [raw|e3]|]);
    cbn -[Bundler_Watch configWatcherGoroutine nodeGoroutine imap];
    eexists; (split; [reflexivity|reflexivity]).
Qed.

Lemma RunE_code pkg env dir :
  FindWunderGraphDir env = inl dir ->
  exists_on_disk env (filepath_Join [dir; configEntryPointFilename pkg]) = true ->
  code (RunE pkg env)
  = Do NotifyContext
    :: code (startup pkg env dir
               (CodeFilePath env dir (serverEntryPointFilename pkg)).1)
    ++ [Do SignalStop; Do ContextCancel].
Proof.
  intros Hdir Hconfig.
  assert ((CodeFilePath env dir (configEntryPointFilename pkg)).2 = None)
    as Hcheck by (unfold CodeFilePath; cbv zeta; by rewrite Hconfig).
  unfold RunE, defer. cbn [code]. rewrite code_bind, Hdir.
  cbn [try code outcome mret Prog_ret]. rewrite code_bind, Hcheck.
  cbn [check code outcome mret Prog_ret]. rewrite code_bind.
  cbn [exec code outcome app]. by rewrite <- app_assoc.
Qed.

Lemma initialBuildAndStart_code pkg env onAfterBuild dir a b c d path :
  code (initialBuildAndStart pkg env onAfterBuild dir a b c d path)
  = Do (NewBundler (configBundlerConfig pkg dir a b c d))
    :: (Bundle config_bundler (configBundle (initialBuild env))
          (Some (onAfterBuild 0 (afterBuild (initialBuild env))))).1
    ++ match (Bundle config_bundler (configBundle (initialBuild env))
                (Some (onAfterBuild 0 (afterBuild (initialBuild env))))).2 with
       | Some e =>
           [Do (Log ErrorLevel "could not bundle"
                  [("bundlerName", "config-bundler"); ("watcher", "config");
                   ("error", e)])]
       | None => []
       end
    ++ code (afterInitialBuild pkg env onAfterBuild dir path).
Proof.
  unfold initialBuildAndStart. rewrite !code_bind.
  cbn [exec code outcome call_Bundle].
  destruct (Bundle _ _ _).2; cbn [exec code outcome mret Prog_ret app];
    by rewrite code_bind.
Qed.

(** The instructions before [configureHooks] and those of [configureHooks]:
    none returns from a build of the config bundler, none waits. *)
Lemma startup_code pkg env dir codeServerFilePath :
  exists prelude,
    code (startup pkg env dir codeServerFilePath)
    = prelude
      ++ match outcome
                 (configureHooks pkg env dir codeServerFilePath
                    (filepath_Join ["generated"; "bundle"; "server.js"])
                    (filepath_Join ["generated"; "bundle"; "webhooks"])
                    (filepath_Join [dir; WebhookDirectoryName pkg])
                    (filepath_Join [dir; "generated"; configJsonFilename pkg]))
         with
         | Next onAfterBuild =>
             code (initialBuildAndStart pkg env onAfterBuild dir
                     (filepath_Join ["generated"; "bundle"; "config.js"])
                     (filepath_Join [dir; WebhookDirectoryName pkg])
                     (filepath_Join [dir; operations_DirectoryName pkg])
                     (filepath_Join [dir; "cache"; "introspection"])
                     (filepath_Join [dir; "generated"; configJsonFilename pkg]))
         | _ => []
         end
    /\ forallb (fun i => negb (is_config_return i) && negb (waits i)) prelude
       = true.
Proof.
  exists (Do (Log InfoLevel "Starting WunderNode" (BuildInfo pkg))
          :: match ServerPortFromConfig env with
             | inl port => [Do (KillExistingHooksProcess port)]
             | inr _ => []
             end
          ++ [ Do (NewScriptRunner
                     (configRunnerConfig pkg dir
                        (filepath_Join ["generated"; "bundle"; "config.js"])));
               Do (NewScriptRunner
                     (configIntrospectionRunnerConfig pkg dir
                        (filepath_Join ["generated"; "bundle"; "config.js"]))) ]
          ++ code (configureHooks pkg env dir codeServerFilePath
                     (filepath_Join ["generated"; "bundle"; "server.js"])
                     (filepath_Join ["generated"; "bundle"; "webhooks"])
                     (filepath_Join [dir; WebhookDirectoryName pkg])
                     (filepath_Join [dir; "generated"; configJsonFilename pkg]))).
  split.
  - unfold startup. cbv zeta.
    destruct (ServerPortFromConfig env);
      do 4 (rewrite code_bind; cbn [exec mret Prog_ret code outcome app]);
      rewrite code_bind; by rewrite <- ?app_assoc.
  - cbn [forallb]. rewrite !forallb_app. unfold configureHooks.
    destruct (ServerPortFromConfig env);
      destruct (negb (String.eqb codeServerFilePath ""));
      try (destruct (DirectoryExists env _); [destruct (GetWebhooks env)|]);
      reflexivity.
Qed.

(** The callback [configureHooks] yields is one of the two of the source. *)
Lemma configureHooks_outcome pkg env dir cs a b c d onAfterBuild :
  outcome (configureHooks pkg env dir cs a b c d) = Next onAfterBuild ->
  (exists webhooksBundler, onAfterBuild = onAfterBuild_hooks dir webhooksBundler)
  \/ onAfterBuild = fun _ _ => onAfterBuild_no_hooks.
Proof.
  unfold configureHooks.
  destruct (negb (String.eqb cs ""));
    try (destruct (DirectoryExists env _); [destruct (GetWebhooks env)|]);
    cbn; intros [= <-]; eauto.
Qed.

(** Neither callback returns from a build of the config bundler; a callback
    that returns an error has not waited for anything. *)
Lemma callback_code pkg env dir cs a b c d onAfterBuild wg ab :
  outcome (configureHooks pkg env dir cs a b c d) = Next onAfterBuild ->
  forallb (fun i => negb (is_config_return i)) (code (onAfterBuild wg ab)) = true
  /\ forall e,
       returned (onAfterBuild wg ab) = Some e ->
       forallb (fun i => negb (waits i)) (code (onAfterBuild wg ab)) = true.
Proof.
  intros Hcb. apply configureHooks_outcome in Hcb as [[wh ->]| ->].
  - cases_of_after_build ab; destruct wh; by split.
  - by split.
Qed.

(** An error that a build of the config bundler returns is the result of
    [Bundle], and nothing follows the return. *)
Lemma Bundle_returns_error build callback e :
  forallb (fun i => negb (is_config_return i)) (code callback) = true ->
  (forall e', returned callback = Some e' ->
     forallb (fun i => negb (waits i)) (code callback) = true) ->
  Do (BundleReturn config_bundler (Some e))
  ∈ (Bundle config_bundler build (Some callback)).1 ->
  (Bundle config_bundler build (Some callback)).2 = Some e
  /\ exists running,
       (Bundle config_bundler build (Some callback)).1
       = running ++ [Do (BundleReturn config_bundler (Some e))]
       /\ forallb (fun i => negb (waits i)) running = true.
Proof.
  intros Hcode Hwaits. unfold Bundle. destruct build as [e'|]; cbn [fst snd].
  - intros Hin. apply elem_of_cons in Hin as [[=]|Hin].
    apply list_elem_of_singleton in Hin as [= <-].
    split; [done|]. by exists [Do (BundleBegin config_bundler)].
  - intros Hin. apply elem_of_cons in Hin as [[=]|Hin].
    apply elem_of_app in Hin as [Hin|Hin].
    + rewrite forallb_forall in Hcode.
      by apply list_elem_of_In, Hcode in Hin.
    + apply list_elem_of_singleton in Hin as [= Hreturned].
      rewrite <- Hreturned. split; [done|].
      exists (Do (BundleBegin config_bundler) :: code callback).
      split; [done|]. cbn. by apply (Hwaits e).
Qed.

Lemma no_config_return_among (f : Instr -> bool) (l : list Instr) e :
  (forall i, f i = true -> is_config_return i = false) ->
  forallb f l = true ->
  Do (BundleReturn config_bundler (Some e)) ∉ l.
Proof.
  intros Hf Hl Hin. rewrite forallb_forall in Hl.
  apply list_elem_of_In, Hl, Hf in Hin. done.
Qed.

(** [H] says that an instruction is among a few that all differ from it. *)
Ltac not_among H :=
  repeat (apply elem_of_cons in H as [[=]|H]); by apply elem_of_nil in H.

Lemma runStack_code env e :
  Do (BundleReturn config_bundler (Some e)) ∉ runStack env.
Proof.
  unfold runStack. intros H.
  destruct (stack_NewRunner env); [destruct (stack_Run env)|]; not_among H.
Qed.



End UpFacts.

Module HandlerFacts.

Import GraphQL Samples MoreSamples GraphQLFacts HandlerProperties.

Lemma split_dot_from_not_nil cur s : JS.split_dot_from cur s <> [].
Proof.
  revert cur. induction s as [|c s IH]; intros cur; cbn; [done|].
  destruct (Ascii.eqb c "."); [done|apply IH].
Qed.

Lemma join_cons sep x rest :
  rest <> [] -> JS.join sep (x :: rest) = x +:+ sep +:+ JS.join sep rest.
Proof. by destruct rest. Qed.

Lemma append_String d cur x : String d cur +:+ x = String d (cur +:+ x).
Proof. reflexivity. Qed.

Lemma append_empty_r cur : cur +:+ "" = cur.
Proof. induction cur as [|d cur IH]; [done|]. by rewrite append_String, IH. Qed.

Lemma append_cons_assoc cur c rest :
  (cur +:+ String c "") +:+ rest = cur +:+ String c rest.
Proof.
  induction cur as [|d cur IH]; [done|]. by rewrite !append_String, IH.
Qed.

Lemma join_split_dot_from cur s :
  JS.join "." (JS.split_dot_from cur s) = cur +:+ s.
Proof.
  revert cur. induction s as [|c s IH]; intros cur; cbn [JS.split_dot_from].
  - cbn. by rewrite append_empty_r.
  - destruct (Ascii.eqb c ".") eqn:Hc.
    + apply Ascii.eqb_eq in Hc as ->.
      rewrite join_cons by apply split_dot_from_not_nil.
      rewrite IH. done.
    + rewrite IH. apply append_cons_assoc.
Qed.

Section WithLib.

Context {lib : GraphQLLib}.

(** X1.  The path of an injected variable starts with the name of the
    variable.  Without an [on:] argument it is the name alone; with
    [on: "a.b"] the fields follow, one per dot-separated part, and joining
    them with dots gives the argument back; an [on:] argument that is no
    string throws. *)
Theorem variable_path_components
    (directive : DirectiveNode) (variable : VariableDefinitionNode)
    (operation : GraphQLOperation) :
  (find_argument "on" directive = None ->
   directiveInjectedVariablePathComponents directive variable operation
   = Ok [variable_name variable])
  /\ (forall onArg value,
        find_argument "on" directive = Some onArg ->
        arg_value onArg = StringValue value ->
        exists fields,
          directiveInjectedVariablePathComponents directive variable operation
          = Ok (variable_name variable :: fields)
          /\ fields <> [] /\ JS.join "." fields = value)
  /\ (forall onArg,
        find_argument "on" directive = Some onArg ->
        kind (arg_value onArg) <> "StringValue" ->
        exists e,
          directiveInjectedVariablePathComponents directive variable operation
          = Throw e)
  /\ (forall path,
        directiveInjectedVariablePathComponents directive variable operation
        = Ok path ->
        head path = Some (variable_name variable)).
Proof.
  unfold directiveInjectedVariablePathComponents.
  split; [|split; [|split]].
  - by intros ->.
  - intros onArg value -> ->. exists (JS.split_dot value).
    split; [done|]. split; [apply split_dot_from_not_nil|].
    apply join_split_dot_from.
  - intros onArg -> Hkind.
    destruct (arg_value onArg); try done; by eexists.
  - intros path.
    destruct (find_argument "on" directive) as [onArg|]; [|by intros [= <-]].
    destruct (arg_value onArg); try done. by intros [= <-].
Qed.

(** *** What the handlers leave alone *)

Lemma forEachM_preserves {A S B} (f : S -> B) (body : S -> A -> Result S)
    (xs : list A) (s s' : S) :
  (forall s x s', body s x = Ok s' -> f s' = f s) ->
  forEachM body xs s = Ok s' -> f s' = f s.
Proof.
  intros Hbody. revert s. induction xs as [|x xs IH]; intros s Hrun; cbn in Hrun.
  - by simplify_eq.
  - unfold_bind. destruct (body s x) as [s1|e] eqn:Hx; [|done].
    rewrite (IH _ Hrun). eauto.
Qed.

Lemma handleFromClaimDirective_step directive variable operation customClaims
    operation' :
  handleFromClaimDirective directive variable operation customClaims
  = Ok operation' ->
  exists claim, operation' = push_claim claim (set_required true operation).
Proof.
  unfold handleFromClaimDirective. intros H. unfold_bind.
  repeat (case_match; simplify_eq; try done); by eexists.
Qed.

Lemma handleFromClaimDirectives_frame variable operation customClaims operation' :
  handleFromClaimDirectives variable operation customClaims = Ok operation' ->
  untouched operation' = untouched operation
  /\ injectVariables (VariablesConfiguration_ operation')
     = injectVariables (VariablesConfiguration_ operation)
  /\ (exists added,
        claims (AuthorizationConfig_ operation')
        = claims (AuthorizationConfig_ operation) ++ added
        /\ length added = count variable "fromClaim")
  /\ required (AuthenticationConfig_ operation')
     = if decide (count variable "fromClaim" = 0)
       then required (AuthenticationConfig_ operation) else true.
Proof.
  unfold handleFromClaimDirectives, count. intros H.
  split; [|split; [|split]].
  - eapply (forEachM_preserves untouched); [|exact H].
    intros s x s' Hs. by apply handleFromClaimDirective_step in Hs as (c & ->).
  - eapply (forEachM_preserves
              (fun o => injectVariables (VariablesConfiguration_ o))); [|exact H].
    intros s x s' Hs. by apply handleFromClaimDirective_step in Hs as (c & ->).
  - destruct (forEachM_appends
                (fun o => claims (AuthorizationConfig_ o)) (fun _ => True)
                _ _ _ _
                (fun s x s' Hs =>
                   match handleFromClaimDirective_step _ _ _ _ _ Hs with
                   | ex_intro _ c Hc =>
                       ex_intro _ c (conj (f_equal
                         (fun o => claims (AuthorizationConfig_ o)) Hc) I)
                   end) H)
      as (added & Hadd & Hlen & _).
    by exists added.
  - revert operation H.
    induction (directivesNamed variable ["fromClaim"]) as [|d ds IH];
      intros operation H; cbn in H.
    + by simplify_eq.
    + unfold_bind.
      destruct (handleFromClaimDirective d variable operation customClaims)
        as [o1|e] eqn:Hd; [|done].
      apply handleFromClaimDirective_step in Hd as (c & ->).
      specialize (IH _ H). cbn [length] in *.
      destruct (decide (S (length ds) = 0)); [done|].
      destruct (decide (length ds = 0)); [|done]. by rewrite IH.
Qed.

Lemma updateSchema_step directive variable update operation operation' :
  updateSchema directive variable update operation = Ok operation' ->
  exists a b c d, operation' = set_schemas a b c d operation.
Proof.
  unfold updateSchema. intros H. unfold_bind.
  repeat (case_match; simplify_eq; try done). by eexists _, _, _, _.
Qed.

Lemma handleJsonSchemaDirectives_preserves {B} (f : GraphQLOperation -> B)
    variable operation operation' :
  (forall a b c d o, f (set_schemas a b c d o) = f o) ->
  handleJsonSchemaDirectives variable operation = Ok operation' ->
  f operation' = f operation.
Proof.
  intros Hf. unfold handleJsonSchemaDirectives.
  apply forEachM_preserves. intros s directive s'.
  apply forEachM_preserves. intros o arg o' Ho.
  destruct (jsonSchemaUpdate arg); [|by simplify_eq].
  apply updateSchema_step in Ho as (a & b & c & d & ->). apply Hf.
Qed.

(** A loop that pushes one injected variable of kind [k] per directive. *)
Lemma pushes_injectVariables (k : InjectVariableKind)
    (body : GraphQLOperation -> DirectiveNode -> Result GraphQLOperation)
    (directives : list DirectiveNode) operation operation' :
  (forall o d o', body o d = Ok o' ->
     exists c, o' = push_injectVariable c o /\ variableKind c = k) ->
  forEachM body directives operation = Ok operation' ->
  untouched operation' = untouched operation
  /\ AuthenticationConfig_ operation' = AuthenticationConfig_ operation
  /\ AuthorizationConfig_ operation' = AuthorizationConfig_ operation
  /\ exists added,
       injectVariables (VariablesConfiguration_ operation')
       = injectVariables (VariablesConfiguration_ operation) ++ added
       /\ length added = length directives
       /\ Forall (fun c => variableKind c = k) added.
Proof.
  intros Hbody H. split; [|split; [|split]].
  - eapply (forEachM_preserves untouched); [|exact H].
    intros s x s' Hs. by apply Hbody in Hs as (c & -> & _).
  - eapply (forEachM_preserves AuthenticationConfig_); [|exact H].
    intros s x s' Hs. by apply Hbody in Hs as (c & -> & _).
  - eapply (forEachM_preserves AuthorizationConfig_); [|exact H].
    intros s x s' Hs. by apply Hbody in Hs as (c & -> & _).
  - eapply (forEachM_appends
              (fun o => injectVariables (VariablesConfiguration_ o))); [|exact H].
    intros s x s' Hs. apply Hbody in Hs as (c & -> & Hk). by exists c.
Qed.

Lemma handleUuidDirectives_frame variable operation operation' :
  handleUuidDirectives variable operation = Ok operation' ->
  untouched operation' = untouched operation
  /\ AuthenticationConfig_ operation' = AuthenticationConfig_ operation
  /\ AuthorizationConfig_ operation' = AuthorizationConfig_ operation
  /\ exists added,
       injectVariables (VariablesConfiguration_ operation')
       = injectVariables (VariablesConfiguration_ operation) ++ added
       /\ length added = count variable "injectGeneratedUUID"
       /\ Forall (fun c => variableKind c = UUID) added.
Proof.
  unfold handleUuidDirectives. apply pushes_injectVariables.
  intros o d o' H. unfold_bind.
  repeat (case_match; simplify_eq; try done). by eexists.
Qed.

Lemma handleDateTimeDirectives_frame variable operation operation' :
  handleDateTimeDirectives variable operation = Ok operation' ->
  untouched operation' = untouched operation
  /\ AuthenticationConfig_ operation' = AuthenticationConfig_ operation
  /\ AuthorizationConfig_ operation' = AuthorizationConfig_ operation
  /\ exists added,
       injectVariables (VariablesConfiguration_ operation')
       = injectVariables (VariablesConfiguration_ operation) ++ added
       /\ length added = count variable "injectCurrentDateTime"
       /\ Forall (fun c => variableKind c = DATE_TIME) added.
Proof.
  unfold handleDateTimeDirectives. apply pushes_injectVariables.
  intros o d o' H. unfold handleDateTimeDirective in H. unfold_bind.
  repeat (case_match; simplify_eq; try done); by eexists.
Qed.

Lemma handleInjectEnvironmentVariableDirectives_frame variable operation
    operation' :
  handleInjectEnvironmentVariableDirectives variable operation = Ok operation' ->
  untouched operation' = untouched operation
  /\ AuthenticationConfig_ operation' = AuthenticationConfig_ operation
  /\ AuthorizationConfig_ operation' = AuthorizationConfig_ operation
  /\ exists added,
       injectVariables (VariablesConfiguration_ operation')
       = injectVariables (VariablesConfiguration_ operation) ++ added
       /\ length added = count variable "injectEnvironmentVariable"
       /\ Forall (fun c => variableKind c = ENVIRONMENT_VARIABLE) added.
Proof.
  unfold handleInjectEnvironmentVariableDirectives. apply pushes_injectVariables.
  intros o d o' H. unfold_bind.
  repeat (case_match; simplify_eq; try done); by eexists.
Qed.

(** X2.  The directives of one variable only add to an operation.  When
    [handleVariable] returns, the claims have grown by one per [@fromClaim],
    the injected variables by one per [@injectGeneratedUUID], then one per
    [@injectCurrentDateTime], then one per [@injectEnvironmentVariable], in
    this order whatever the order of the directives; authentication is
    required as soon as there is a [@fromClaim] and is otherwise as before;
    the name, the content, the role lists and the other parts are as they
    were. *)
Theorem handleVariable_only_adds
    (options : ParseOperationsOptions) (operation : GraphQLOperation)
    (variable : VariableDefinitionNode) (operation' : GraphQLOperation) :
  handleVariable options operation variable = Ok operation' ->
  untouched operation' = untouched operation
  /\ (exists newClaims,
        claims (AuthorizationConfig_ operation')
        = claims (AuthorizationConfig_ operation) ++ newClaims
        /\ length newClaims = count variable "fromClaim")
  /\ (exists uuids dateTimes environment,
        injectVariables (VariablesConfiguration_ operation')
        = injectVariables (VariablesConfiguration_ operation)
          ++ uuids ++ dateTimes ++ environment
        /\ length uuids = count variable "injectGeneratedUUID"
        /\ Forall (fun c => variableKind c = UUID) uuids
        /\ length dateTimes = count variable "injectCurrentDateTime"
        /\ Forall (fun c => variableKind c = DATE_TIME) dateTimes
        /\ length environment = count variable "injectEnvironmentVariable"
        /\ Forall (fun c => variableKind c = ENVIRONMENT_VARIABLE) environment)
  /\ required (AuthenticationConfig_ operation')
     = if decide (count variable "fromClaim" = 0)
       then required (AuthenticationConfig_ operation) else true.
Proof.
  unfold handleVariable. intros H. unfold_bind.
  destruct (handleFromClaimDirectives _ _ _) as [o1|] eqn:H1; [|done].
  destruct (handleJsonSchemaDirectives _ o1) as [o2|] eqn:H2; [|done].
  destruct (handleUuidDirectives _ o2) as [o3|] eqn:H3; [|done].
  destruct (handleDateTimeDirectives _ o3) as [o4|] eqn:H4; [|done].
  apply handleFromClaimDirectives_frame in H1 as (U1 & I1 & (cs & C1 & L1) & R1).
  pose proof (handleJsonSchemaDirectives_preserves untouched _ _ _
                (fun _ _ _ _ _ => eq_refl) H2) as U2.
  pose proof (handleJsonSchemaDirectives_preserves AuthenticationConfig_ _ _ _
                (fun _ _ _ _ _ => eq_refl) H2) as A2.
  pose proof (handleJsonSchemaDirectives_preserves AuthorizationConfig_ _ _ _
                (fun _ _ _ _ _ => eq_refl) H2) as Z2.
  pose proof (handleJsonSchemaDirectives_preserves VariablesConfiguration_ _ _ _
                (fun _ _ _ _ _ => eq_refl) H2) as V2.
  apply handleUuidDirectives_frame in H3 as (U3 & A3 & Z3 & us & I3 & L3 & K3).
  apply handleDateTimeDirectives_frame in H4 as (U4 & A4 & Z4 & ds & I4 & L4 & K4).
  apply handleInjectEnvironmentVariableDirectives_frame in H
    as (U5 & A5 & Z5 & es & I5 & L5 & K5).
  split; [congruence|]. split; [|split].
  - exists cs. split; [|done]. by rewrite Z5, Z4, Z3, Z2.
  - exists us, ds, es. split; [|done].
    rewrite I5, I4, I3, V2, I1. by rewrite <- !app_assoc.
  - by rewrite A5, A4, A3, A2.
Qed.

Lemma handleVariable_untouched options operation variable operation' :
  handleVariable options operation variable = Ok operation' ->
  untouched operation' = untouched operation.
Proof.
  unfold handleVariable. intros H. unfold_bind.
  destruct (handleFromClaimDirectives _ _ _) as [o1|] eqn:H1; [|done].
  destruct (handleJsonSchemaDirectives _ o1) as [o2|] eqn:H2; [|done].
  destruct (handleUuidDirectives _ o2) as [o3|] eqn:H3; [|done].
  destruct (handleDateTimeDirectives _ o3) as [o4|] eqn:H4; [|done].
  apply handleFromClaimDirectives_frame in H1 as (U1 & _).
  pose proof (handleJsonSchemaDirectives_preserves untouched _ _ _
                (fun _ _ _ _ _ => eq_refl) H2) as U2.
  apply handleUuidDirectives_frame in H3 as (U3 & _).
  apply handleDateTimeDirectives_frame in H4 as (U4 & _).
  apply handleInjectEnvironmentVariableDirectives_frame in H as (U5 & _).
  congruence.
Qed.

(** *** Every operation of the result *)

Lemma enter_Forall (P : GraphQLOperation -> Prop) schema wgRoleEnum options
    operationFile ast node h r h' :
  (forall c o,
     buildOperation schema wgRoleEnum options operationFile ast node c = Ok o ->
     P o) ->
  enter schema wgRoleEnum options operationFile ast node h = (r, h') ->
  Forall P (operations (parsed h)) -> Forall P (operations (parsed h')).
Proof.
  unfold enter. intros Hbuild H Hh.
  repeat (case_match; simplify_eq; try done).
  cbn. apply Forall_app. split; [done|].
  constructor; [|done]. by eapply Hbuild.
Qed.

Lemma visit_Forall (P : GraphQLOperation -> Prop) on_enter definitions :
  (forall node h r h',
     on_enter node h = (r, h') ->
     Forall P (operations (parsed h)) -> Forall P (operations (parsed h'))) ->
  forall h r h',
    visit on_enter definitions h = (r, h') ->
    Forall P (operations (parsed h)) -> Forall P (operations (parsed h')).
Proof.
  intros Henter. induction definitions as [|[node|source] rest IH];
    intros h r h' H Hh; cbn in H.
  - by simplify_eq.
  - destruct (on_enter node h) as [[[]|e] h1] eqn:Hn.
    + eapply IH; [exact H|]. eauto.
    + simplify_eq. eauto.
  - eauto.
Qed.

Lemma processOperationFile_Forall (P : GraphQLOperation -> Prop) schema
    wgRoleEnum options h operationFile :
  (forall ast node c o,
     buildOperation schema wgRoleEnum options operationFile ast node c = Ok o ->
     P o) ->
  Forall P (operations (parsed h)) ->
  Forall P
    (operations (parsed (processOperationFile schema wgRoleEnum options h
                           operationFile))).
Proof.
  intros Hbuild Hh. unfold processOperationFile.
  destruct (parse (content operationFile)) as [ast|e]; [|done].
  destruct (visit _ ast h) as [[[]|e] h'] eqn:Hv; cbn;
    eapply visit_Forall; try exact Hv; try done;
    intros; eapply enter_Forall; eauto.
Qed.

Lemma processOperationFiles_Forall (P : GraphQLOperation -> Prop) schema
    wgRoleEnum options files h :
  (forall operationFile ast node c o,
     operationFile ∈ files ->
     buildOperation schema wgRoleEnum options operationFile ast node c = Ok o ->
     P o) ->
  Forall P (operations (parsed h)) ->
  Forall P
    (operations (parsed (processOperationFiles schema wgRoleEnum options files h))).
Proof.
  unfold processOperationFiles. revert h.
  induction files as [|f files IH]; intros h Hbuild Hh; cbn; [done|].
  apply IH.
  - intros operationFile ast node c o Hin. apply Hbuild. by right.
  - apply processOperationFile_Forall; [|done].
    intros ast node c o. apply Hbuild. by left.
Qed.

Lemma parseGraphQLOperations_Forall (P : GraphQLOperation -> Prop)
    graphQLSchema loadOperationsOutput options result written :
  (forall schema operationFile ast node c o,
     buildParsedSchema graphQLSchema = Ok schema ->
     operationFile ∈ default [] (graphql_operation_files loadOperationsOutput) ->
     buildOperation schema (getType_astNode schema "WG_ROLE")
       (default defaultParseOptions options) operationFile ast node c = Ok o ->
     P o) ->
  parseGraphQLOperations graphQLSchema loadOperationsOutput options
  = (Ok result, written) ->
  Forall P (operations result).
Proof.
  unfold parseGraphQLOperations. intros Hbuild H.
  destruct (buildParsedSchema graphQLSchema) as [schema|e]; [|done].
  simplify_eq. apply processOperationFiles_Forall; [|constructor].
  intros. by eapply Hbuild.
Qed.

Lemma forEachM_handleVariable_untouched options variables operation operation' :
  forEachM (handleVariable options) variables operation = Ok operation' ->
  untouched operation' = untouched operation.
Proof.
  apply forEachM_preserves. intros s x s'. apply handleVariable_untouched.
Qed.

Lemma requireAuthenticationForAuthorization_untouched (o : GraphQLOperation) :
  untouched (requireAuthenticationForAuthorization o) = untouched o.
Proof.
  unfold requireAuthenticationForAuthorization.
  repeat case_match; reflexivity.
Qed.

(** *** Roles *)

Lemma elem_of_set_spread_from seen l x :
  x ∈ JS.set_spread_from seen l <-> x ∈ l /\ x ∉ seen.
Proof.
  revert seen. induction l as [|y l IH]; intros seen; cbn.
  - split; [intros H|intros [H _]]; by apply elem_of_nil in H.
  - case_bool_decide as Hy.
    + rewrite IH, elem_of_cons. first [tauto | intuition congruence].
    + rewrite !elem_of_cons, IH, not_elem_of_cons.
      destruct (decide (x = y)); first [tauto | intuition congruence].
Qed.

Lemma NoDup_set_spread_from seen l : NoDup (JS.set_spread_from seen l).
Proof.
  revert seen. induction l as [|y l IH]; intros seen; cbn; [constructor|].
  case_bool_decide; [apply IH|].
  constructor; [|apply IH]. rewrite elem_of_set_spread_from, not_elem_of_cons.
  first [tauto | intuition congruence].
Qed.

Lemma set_spread_declared declared old values :
  old ⊆ declared -> values ⊆ declared ->
  NoDup (JS.set_spread (old ++ values))
  /\ JS.set_spread (old ++ values) ⊆ declared.
Proof.
  intros Hold Hvalues. split; [apply NoDup_set_spread_from|].
  intros x Hx. apply elem_of_set_spread_from in Hx as [Hx _].
  apply elem_of_app in Hx as [?|?]; auto.
Qed.

Lemma rbacValues_declared roles values :
  rbacValues roles values ⊆ default [] roles.
Proof.
  intros x Hx. unfold rbacValues in Hx.
  apply list_elem_of_In, filter_In in Hx as [_ Hx].
  destruct roles as [roles|]; [|done]. cbn.
  apply bool_decide_eq_true in Hx as [r Hr].
  apply find_some in Hr as [Hin Heq].
  apply String.eqb_eq in Heq as ->. by apply list_elem_of_In.
Qed.

Lemma applyRbacArgument_rolesDeclared roles operation arg :
  rolesDeclared (default [] roles) operation ->
  rolesDeclared (default [] roles) (applyRbacArgument roles operation arg).
Proof.
  intros H. unfold applyRbacArgument.
  destruct (arg_value arg) as [| | | | | |values|]; try exact H.
  revert H. unfold rolesDeclared, roleLists. cbv zeta.
  rewrite !Forall_cons, Forall_nil.
  intros ([N1 S1] & [N2 S2] & [N3 S3] & [N4 S4] & _).
  pose proof (rbacValues_declared roles values) as Hvalues.
  repeat case_match; cbn; rewrite ?Forall_cons, ?Forall_nil;
    repeat split; try done;
    first [ by apply NoDup_set_spread_from
          | by apply set_spread_declared ].
Qed.

Lemma applyRbac_rolesDeclared wgRoleEnum node operation :
  rolesDeclared (declaredRoles wgRoleEnum) operation ->
  rolesDeclared (declaredRoles wgRoleEnum) (applyRbac wgRoleEnum node operation).
Proof.
  unfold applyRbac. destruct wgRoleEnum as [[roles|]|]; try done.
  change (declaredRoles (Some (EnumTypeDefinition roles)))
    with (default [] roles).
  generalize (default [] (find_directive "rbac" (op_directives node)
                            ≫= dir_arguments)).
  intros arguments. revert operation.
  induction arguments as [|arg arguments IH]; intros operation Ho; cbn; [done|].
  by apply IH, applyRbacArgument_rolesDeclared.
Qed.

Lemma newOperation_fresh schema options operationFile ast node c o :
  newOperation schema options operationFile ast node c = Ok o ->
  builtFrom operationFile o /\ rolesDeclared [] o.
Proof.
  unfold newOperation. intros H. unfold_bind.
  repeat (case_match; simplify_eq; try done);
    (split; [done|]); unfold rolesDeclared, roleLists; cbn;
    repeat constructor; by intros x Hx%elem_of_nil.
Qed.

Lemma untouched_origin (o o' : GraphQLOperation) :
  untouched o' = untouched o ->
  origin o' = origin o /\ roleLists o' = roleLists o.
Proof. unfold untouched, origin, roleLists. intros [= -> -> _ _ -> _ -> _ _ ->]. done. Qed.

Lemma applyRbac_origin wgRoleEnum node (o : GraphQLOperation) :
  origin (applyRbac wgRoleEnum node o) = origin o.
Proof.
  unfold applyRbac. destruct wgRoleEnum as [[roles|]|]; try done.
  generalize (default [] (find_directive "rbac" (op_directives node)
                            ≫= dir_arguments)).
  intros arguments. revert o.
  induction arguments as [|arg arguments IH]; intros o; cbn; [done|].
  rewrite IH. unfold applyRbacArgument.
  destruct (arg_value arg); try done. by repeat case_match.
Qed.

Lemma requireAuthenticationForAuthorization_origin (o : GraphQLOperation) :
  origin (requireAuthenticationForAuthorization o) = origin o
  /\ roleLists (requireAuthenticationForAuthorization o) = roleLists o.
Proof.
  unfold requireAuthenticationForAuthorization. by repeat case_match.
Qed.

Lemma rolesDeclared_nil declared (o : GraphQLOperation) :
  rolesDeclared [] o -> rolesDeclared declared o.
Proof.
  unfold rolesDeclared. intros H. eapply Forall_impl; [exact H|].
  intros roles [Hn Hs].
  split; [done|]. intros x Hx. by apply Hs, elem_of_nil in Hx.
Qed.

Lemma buildOperation_builtFrom schema wgRoleEnum options operationFile ast node
    c o :
  buildOperation schema wgRoleEnum options operationFile ast node c = Ok o ->
  builtFrom operationFile o /\ rolesDeclared (declaredRoles wgRoleEnum) o.
Proof.
  unfold buildOperation. intros H. unfold_bind.
  destruct (newOperation _ _ _ _ _ _) as [o1|] eqn:H1; [|done].
  destruct (forEachM _ _ o1) as [o2|] eqn:H2; [|done].
  injection H as <-.
  apply newOperation_fresh in H1 as [Hbuilt Hroles].
  apply forEachM_handleVariable_untouched, untouched_origin in H2
    as [Horigin Hlists].
  set (internal := bool_decide _).
  destruct (requireAuthenticationForAuthorization_origin
              (applyRbac wgRoleEnum node (set_Internal internal o2)))
    as [Hfinal Hsame].
  split.
  - unfold builtFrom. rewrite Hfinal, applyRbac_origin.
    change (origin (set_Internal internal o2)) with (origin o2).
    by rewrite Horigin.
  - unfold rolesDeclared. rewrite Hsame.
    apply applyRbac_rolesDeclared, rolesDeclared_nil.
    unfold rolesDeclared.
    change (roleLists (set_Internal internal o2)) with (roleLists o2).
    by rewrite Hlists.
Qed.

(** X3.  In every operation [parseGraphQLOperations] returns, each of the four
    role lists is free of duplicates and holds only values of the enum
    [WG_ROLE] of the schema; with a schema that has no such enum the lists
    are empty, whatever [@rbac] says. *)
Theorem returned_roles_are_declared
    (graphQLSchema : string) (loadOperationsOutput : LoadOperationsOutput)
    (options : option ParseOperationsOptions)
    (result : ParsedOperations) (written : list Output) :
  parseGraphQLOperations graphQLSchema loadOperationsOutput options
  = (Ok result, written) ->
  exists schema,
    buildParsedSchema graphQLSchema = Ok schema
    /\ forall o roles,
         o ∈ operations result -> roles ∈ roleLists o ->
         NoDup roles
         /\ (forall role,
               role ∈ roles ->
               role ∈ declaredRoles (getType_astNode schema "WG_ROLE"))
         /\ (declaredRoles (getType_astNode schema "WG_ROLE") = [] ->
             roles = []).
Proof.
  intros H.
  destruct (buildParsedSchema graphQLSchema) as [schema|e] eqn:Hschema;
    [|unfold parseGraphQLOperations in H; by rewrite Hschema in H].
  exists schema. split; [done|]. intros o roles Ho Hroles.
  assert (Forall (rolesDeclared
                    (declaredRoles (getType_astNode schema "WG_ROLE")))
            (operations result)) as Hall.
  { eapply parseGraphQLOperations_Forall; [|exact H].
    intros schema' f ast node c o' Hs _ Hb.
    assert (schema' = schema) as -> by congruence.
    by eapply buildOperation_builtFrom. }
  rewrite Forall_forall in Hall. specialize (Hall o Ho).
  unfold rolesDeclared in Hall. rewrite Forall_forall in Hall.
  destruct (Hall roles Hroles) as [Hn Hs].
  split; [done|]. split; [exact Hs|].
  intros Hnone. rewrite Hnone in Hs.
  destruct roles as [|r roles]; [done|].
  assert (r ∈ r :: roles) as Hr by (apply elem_of_cons; by left).
  by apply Hs, elem_of_nil in Hr.
Qed.

(** X4.  Every operation [parseGraphQLOperations] returns is named after one of
    the files it was given: it carries the operation name and the mount
    path of that file (so a file with several operation definitions yields
    operations of the same name), runs on the GraphQL engine and has no
    hook configured. *)
Theorem returned_operations_come_from_files
    (graphQLSchema : string) (loadOperationsOutput : LoadOperationsOutput)
    (options : option ParseOperationsOptions)
    (result : ParsedOperations) (written : list Output) :
  parseGraphQLOperations graphQLSchema loadOperationsOutput options
  = (Ok result, written) ->
  forall o,
    o ∈ operations result ->
    ExecutionEngine o = ENGINE_GRAPHQL
    /\ HooksConfiguration_ o = noHooks
    /\ exists operationFile,
         operationFile
         ∈ default [] (graphql_operation_files loadOperationsOutput)
         /\ Name o = operation_name operationFile
         /\ PathName o = api_mount_path operationFile.
Proof.
  intros H o Ho.
  assert (Forall (fun o => exists operationFile,
                    operationFile
                    ∈ default [] (graphql_operation_files loadOperationsOutput)
                    /\ builtFrom operationFile o)
            (operations result)) as Hall.
  { eapply parseGraphQLOperations_Forall; [|exact H].
    intros schema f ast node c o' _ Hin Hb. exists f.
    split; [done|]. by eapply buildOperation_builtFrom. }
  rewrite Forall_forall in Hall.
  destruct (Hall o Ho) as (f & Hin & [= HN HP HE HH]).
  split; [done|]. split; [done|]. by exists f.
Qed.

(** *** What the handlers accept *)

Lemma get_own_None {A} key (obj : list (string * A)) :
  JS.get_own key obj = None <-> key ∉ obj.*1.
Proof.
  induction obj as [|[k v] obj IH]; cbn.
  - split; [intros _ H; by apply elem_of_nil in H|done].
  - rewrite not_elem_of_cons. destruct (String.eqb k key) eqn:Hk.
    + apply String.eqb_eq in Hk as ->. split; [done|]. by intros [? _].
    + apply String.eqb_neq in Hk. rewrite IH. first [tauto | intuition congruence].
Qed.

Lemma get_in_is_Some {A} key (obj : list (string * A)) :
  is_Some (get_in key obj) <-> isIn key obj.
Proof.
  unfold get_in, isIn.
  destruct (JS.get_own key obj) as [v|] eqn:Hown.
  - split; [intros _|by eexists]. left.
    destruct (decide (key ∈ obj.*1)) as [|Hn]; [done|].
    apply get_own_None in Hn. congruence.
  - apply get_own_None in Hown.
    case_bool_decide; split; try (by eexists).
    + by right.
    + by intros [? ?].
    + by intros [?|?].
Qed.

Lemma path_accepted_iff directive variable (operation : GraphQLOperation) :
  (exists path,
     directiveInjectedVariablePathComponents directive variable operation
     = Ok path)
  <-> onArgumentIsString directive.
Proof.
  unfold directiveInjectedVariablePathComponents, onArgumentIsString.
  destruct (find_argument "on" directive) as [onArg|].
  - destruct (arg_value onArg) eqn:Hv; cbn;
      (split;
       [ first [ by intros [? [=]] | intros _ ? [= <-]; by rewrite Hv ]
       | first [ by eexists
               | intros H; specialize (H _ eq_refl); by rewrite Hv in H ] ]).
  - split; [by intros|by eexists].
Qed.

(** X5.  [handleFromClaimDirective] accepts a directive exactly when it has
    arguments, among them a [name:] that is an enum value, an [on:] that
    is a string if there is one, and when the name is a property of the
    custom claims or of the table of well-known claims, as the [in]
    operator sees them. *)
Theorem fromClaim_accepted_iff
    (fromClaimDirective : DirectiveNode) (variable : VariableDefinitionNode)
    (operation : GraphQLOperation) (customClaims : list (string * CustomClaim)) :
  (exists operation',
     handleFromClaimDirective fromClaimDirective variable operation customClaims
     = Ok operation')
  <-> exists arguments nameArg claimName,
        dir_arguments fromClaimDirective = Some arguments
        /\ List.find (fun arg => String.eqb (arg_name arg) "name") arguments
           = Some nameArg
        /\ arg_value nameArg = EnumValue claimName
        /\ onArgumentIsString fromClaimDirective
        /\ (isIn claimName customClaims \/ isIn claimName wellKnownClaims).
Proof.
  unfold handleFromClaimDirective.
  destruct (dir_arguments fromClaimDirective) as [arguments|] eqn:Hargs;
    [|split; [by intros [? [=]]|by intros (? & ? & ? & [=] & _)]].
  destruct (List.find _ arguments) as [nameArg|] eqn:Hname;
    [|split; [by intros [? [=]]
             |intros (? & ? & ? & [= <-] & Hf & _); congruence]].
  destruct (arg_value nameArg) as [| | | | |claimName| |] eqn:Hvalue;
    try (split; [by intros [? [=]]
                |intros (? & ? & ? & [= <-] & Hf & Hv & _); congruence]).
  unfold_bind.
  destruct (directiveInjectedVariablePathComponents _ _ _) as [path|e] eqn:Hpath.
  - assert (onArgumentIsString fromClaimDirective) as Hon.
    { apply (path_accepted_iff _ variable operation). by eexists. }
    destruct (get_in claimName customClaims) as [customClaim|] eqn:Hcustom.
    + split; [intros _|by eexists].
      exists arguments, nameArg, claimName. repeat split; try done.
      left. apply get_in_is_Some. by rewrite Hcustom.
    + unfold parseWellKnownClaim.
      destruct (get_in claimName wellKnownClaims) as [c|] eqn:Hknown.
      * split; [intros _|by eexists].
        exists arguments, nameArg, claimName. repeat split; try done.
        right. apply get_in_is_Some. by rewrite Hknown.
      * split; [by intros [? [=]]|].
        intros (? & ? & ? & [= <-] & Hf & Hv & _ & Hor).
        rewrite Hname in Hf. injection Hf as <-.
        rewrite Hvalue in Hv. injection Hv as <-.
        destruct Hor as [H|H]; apply get_in_is_Some in H;
          rewrite ?Hcustom, ?Hknown in H; by destruct H.
  - split; [by intros [? [=]]|].
    intros (? & ? & ? & _ & _ & _ & Hon & _).
    apply (path_accepted_iff _ variable operation) in Hon as [p Hp]. congruence.
Qed.

Lemma get_in_inherited {A} key (obj : list (string * A)) :
  key ∉ obj.*1 -> key ∈ JS.Object_prototype_keys ->
  get_in key obj = Some (Inherited key).
Proof.
  intros Hown Hproto. unfold get_in.
  apply get_own_None in Hown as ->. by rewrite bool_decide_eq_true_2.
Qed.

Lemma prototype_keys_are_no_claims_or_formats name :
  name ∈ JS.Object_prototype_keys ->
  (name ∉ wellKnownClaims.*1) /\ (name ∉ availableTimeFormats.*1).
Proof.
  intros H. unfold JS.Object_prototype_keys in H.
  repeat (apply elem_of_cons in H as [->|H]);
    [..|by apply elem_of_nil in H];
    split; apply get_own_None; reflexivity.
Qed.

(** X6.  The tables of well-known claims and of time formats, and the custom
    claims, are object literals looked up with [in]: a name that every
    object inherits from [Object.prototype], such as [toString] or
    [constructor], passes the check.  [parseWellKnownClaim] and
    [getTimeFormat] return the inherited member instead of throwing, and
    [@fromClaim(name: toString)] is accepted as a custom claim whose path,
    type and required flag are undefined. *)
Theorem inherited_names_pass_the_in_checks (name : string) :
  name ∈ JS.Object_prototype_keys ->
  (forall operation, parseWellKnownClaim name operation = Ok (Inherited name))
  /\ getTimeFormat name = Ok (Inherited name)
  /\ (forall fromClaimDirective variable operation customClaims arguments
             nameArg path,
        dir_arguments fromClaimDirective = Some arguments ->
        List.find (fun arg => String.eqb (arg_name arg) "name") arguments
        = Some nameArg ->
        arg_value nameArg = EnumValue name ->
        name ∉ customClaims.*1 ->
        directiveInjectedVariablePathComponents fromClaimDirective variable
          operation = Ok path ->
        handleFromClaimDirective fromClaimDirective variable operation
          customClaims
        = Ok (push_claim
                {| claim_variablePathComponents := path;
                   claimType := Own CUSTOM;
                   custom := Some {| custom_name := name;
                                     jsonPathComponents := None;
                                     custom_type := None;
                                     custom_required := None |} |}
                (set_required true operation))).
Proof.
  intros Hproto.
  destruct (prototype_keys_are_no_claims_or_formats name Hproto)
    as [Hclaims Hformats].
  split; [|split].
  - intros operation. unfold parseWellKnownClaim.
    by rewrite get_in_inherited.
  - unfold getTimeFormat. by rewrite get_in_inherited.
  - intros d variable operation customClaims arguments nameArg path
      Hargs Hname Hvalue Hcustom Hpath.
    unfold handleFromClaimDirective.
    rewrite Hargs, Hname, Hvalue, Hpath. unfold_bind.
    by rewrite get_in_inherited.
Qed.

(** *** [@injectEnvironmentVariable] *)

Lemma forEachM_ok_iff {A S} (good : A -> Prop) (body : S -> A -> Result S)
    (xs : list A) (s : S) :
  (forall s x, (exists s', body s x = Ok s') <-> good x) ->
  (exists s', forEachM body xs s = Ok s') <-> Forall good xs.
Proof.
  intros Hbody. revert s. induction xs as [|x xs IH]; intros s; cbn.
  - split; [constructor|by eexists].
  - unfold_bind. rewrite Forall_cons, <- (Hbody s x).
    destruct (body s x) as [s1|e]; [rewrite IH|].
    + split; [split; [by eexists|done]|by intros [_ ?]].
    + split; [by intros [? [=]]|by intros [[? [=]] _]].
Qed.

Lemma forEachM_Forall2 {A S B} (field : S -> list B) (R : A -> B -> Prop)
    (body : S -> A -> Result S) (xs : list A) (s s' : S) :
  (forall s x s', body s x = Ok s' ->
     exists b, field s' = field s ++ [b] /\ R x b) ->
  forEachM body xs s = Ok s' ->
  exists added, field s' = field s ++ added /\ Forall2 R xs added.
Proof.
  intros Hbody. revert s. induction xs as [|x xs IH]; intros s Hrun; cbn in Hrun.
  - simplify_eq. exists []. by rewrite app_nil_r.
  - unfold_bind. destruct (body s x) as [s1|e] eqn:Hx; [|done].
    destruct (Hbody _ _ _ Hx) as (b & Hb & HR).
    destruct (IH _ Hrun) as (added & Hadd & Hall).
    exists (b :: added). rewrite Hadd, Hb, <- app_assoc.
    split; [done|]. by constructor.
Qed.

(** X7.  [handleInjectEnvironmentVariableDirectives] accepts a variable exactly
    when each of its [@injectEnvironmentVariable] directives has a
    [name:] argument that is a string and, if it has an [on:] argument, a
    string there too.  It then pushes one configuration per directive, in
    the order of the directives, each of kind [ENVIRONMENT_VARIABLE] and
    carrying the name given, with an empty date format. *)
Theorem injectEnvironmentVariable_accepts_and_pushes
    (variable : VariableDefinitionNode) (operation : GraphQLOperation) :
  ((exists operation',
      handleInjectEnvironmentVariableDirectives variable operation
      = Ok operation')
   <-> Forall (fun directive =>
                 (exists arg value,
                    find_argument "name" directive = Some arg
                    /\ arg_value arg = StringValue value)
                 /\ onArgumentIsString directive)
         (directivesNamed variable ["injectEnvironmentVariable"]))
  /\ (forall operation',
        handleInjectEnvironmentVariableDirectives variable operation
        = Ok operation' ->
        exists added,
          injectVariables (VariablesConfiguration_ operation')
          = injectVariables (VariablesConfiguration_ operation) ++ added
          /\ Forall2 environmentVariableOf
               (directivesNamed variable ["injectEnvironmentVariable"]) added).
Proof.
  unfold handleInjectEnvironmentVariableDirectives. split.
  - apply forEachM_ok_iff. intros o directive.
    destruct (find_argument "name" directive) as [arg|];
      [|split; [by intros [? [=]]|by intros [(? & ? & [=] & _) _]]].
    destruct (arg_value arg) as [| |value| | | | |] eqn:Hvalue;
      try (split; [by intros [? [=]]
                  |intros [(? & ? & [= <-] & Hv) _]; congruence]).
    unfold_bind.
    rewrite <- (path_accepted_iff directive variable o).
    destruct (directiveInjectedVariablePathComponents _ _ _) as [path|e].
    + split; [intros _|by eexists]. split; [by exists arg, value|by eexists].
    + split; [by intros [? [=]]|by intros [_ [? [=]]]].
  - intros operation'.
    apply (forEachM_Forall2
             (fun o => injectVariables (VariablesConfiguration_ o))).
    intros o directive o' H. unfold_bind.
    destruct (find_argument "name" directive) as [arg|] eqn:Harg; [|done].
    destruct (arg_value arg) as [| |value| | | | |] eqn:Hvalue; try done.
    destruct (directiveInjectedVariablePathComponents _ _ _) as [path|e];
      [|done].
    injection H as <-. eexists. split; [reflexivity|].
    by exists arg, value.
Qed.

(** *** The schema *)

(** X8.  [buildSchema] runs outside the [try]: when the schema does not build,
    or when it has no query type and does not build with the stand-in
    query type appended, [parseGraphQLOperations] throws that exception,
    whatever the operation files are, and has written nothing. *)
Theorem schema_errors_are_thrown
    (graphQLSchema : string) (loadOperationsOutput : LoadOperationsOutput)
    (options : option ParseOperationsOptions) (e : string) :
  (buildSchema graphQLSchema = Throw e ->
   parseGraphQLOperations graphQLSchema loadOperationsOutput options
   = (Throw e, []))
  /\ (forall schema,
        buildSchema graphQLSchema = Ok schema ->
        getQueryType_defined schema = false ->
        buildSchema (graphQLSchema +:+ " type Query {hello: String}") = Throw e ->
        parseGraphQLOperations graphQLSchema loadOperationsOutput options
        = (Throw e, []))
  /\ (forall result written,
        parseGraphQLOperations graphQLSchema loadOperationsOutput options
        = (Ok result, written) ->
        exists schema,
          (buildSchema graphQLSchema = Ok schema
           /\ getQueryType_defined schema = true)
          \/ (exists first,
                buildSchema graphQLSchema = Ok first
                /\ getQueryType_defined first = false
                /\ buildSchema (graphQLSchema +:+ " type Query {hello: String}")
                   = Ok schema)).
Proof.
  unfold parseGraphQLOperations, buildParsedSchema. unfold_bind.
  split; [|split].
  - by intros ->.
  - intros schema -> -> ->. done.
  - intros result written H.
    destruct (buildSchema graphQLSchema) as [first|] eqn:H1; [|done].
    destruct (getQueryType_defined first) eqn:H2.
    + exists first. by left.
    + destruct (buildSchema (graphQLSchema +:+ _)) as [schema|] eqn:H3; [|done].
      exists schema. right. by exists first.
Qed.

End WithLib.

Lemma handleVariable_only_adds_witness :
  exists operation',
    handleVariable defaultParseOptions (freshOperation "user") busyVariable
    = Ok operation'
    /\ length (claims (AuthorizationConfig_ operation')) = 1
    /\ map variableKind (injectVariables (VariablesConfiguration_ operation'))
       = [UUID; DATE_TIME]
    /\ required (AuthenticationConfig_ operation') = true.
Proof.
  destruct (handleVariable defaultParseOptions (freshOperation "user")
              busyVariable) as [operation'|e] eqn:Hrun;
    [|by vm_compute in Hrun].
  exists operation'. split; [done|].
  destruct (handleVariable_only_adds (lib := sampleLib) _ _ _ _ Hrun)
    as (_ & (cs & -> & Hcs) & (us & ds & es & -> & Hu & Ku & Hd & Kd & He & _)
        & ->).
  split; [by rewrite length_app, Hcs|]. split; [|done].
  destruct us as [|u [|? ?]]; try done. destruct ds as [|d [|? ?]]; try done.
  destruct es; [|done].
  apply Forall_cons in Ku as [Ku _]. apply Forall_cons in Kd as [Kd _].
  cbn. by rewrite Ku, Kd.
Defined.

Lemma inherited_names_pass_the_in_checks_witness :
  getTimeFormat "toString" = Ok (Inherited "toString")
  /\ exists operation' claim,
       handleFromClaimDirective fromClaimToString
         (variableWith "who" [fromClaimToString]) (freshOperation "user") []
       = Ok operation'
       /\ claims (AuthorizationConfig_ operation') = [claim]
       /\ claimType claim = Own CUSTOM.
Proof.
  destruct (inherited_names_pass_the_in_checks (lib := sampleLib) "toString")
    as (_ & Hformat & Hclaim).
  { unfold JS.Object_prototype_keys. do 8 right. by left. }
  split; [exact Hformat|].
  assert ("toString" ∉ ([] : list (string * CustomClaim)).*1) as Hnone
    by (intros H; by apply elem_of_nil in H).
  pose proof (Hclaim fromClaimToString (variableWith "who" [fromClaimToString])
                (freshOperation "user") [] _ _ ["who"]
                eq_refl eq_refl eq_refl Hnone eq_refl) as Hrun.
  eexists _, _. split; [exact Hrun|]. split; reflexivity.
Defined.

Lemma returned_roles_are_declared_witness :
  match (parseGraphQLOperations "schema" (loaded ["plain"; "admin"]) None).1 with
  | Ok result =>
      Forall (fun o =>
                Forall (fun roles => NoDup roles /\ roles ⊆ ["admin"; "user"])
                  (roleLists o))
        (operations result)
  | Throw _ => False
  end.
Proof.
  destruct (parseGraphQLOperations "schema" (loaded ["plain"; "admin"]) None)
    as [[result|e] written] eqn:Hrun; [|by vm_compute in Hrun].
  cbn [fst].
  destruct (returned_roles_are_declared (lib := sampleLib) _ _ _ _ _ Hrun)
    as (schema & _ & Hall).
  apply Forall_forall. intros o Ho. apply Forall_forall. intros roles Hroles.
  destruct (Hall o roles Ho Hroles) as (Hn & Hs & _).
  split; [done|]. intros role Hrole. exact (Hs role Hrole).
Defined.

Lemma returned_operations_come_from_files_witness :
  match (parseGraphQLOperations "schema" (loaded ["plain"; "admin"]) None).1 with
  | Ok result =>
      Forall (fun o => Name o = "plain" \/ Name o = "admin") (operations result)
  | Throw _ => False
  end.
Proof.
  destruct (parseGraphQLOperations "schema" (loaded ["plain"; "admin"]) None)
    as [[result|e] written] eqn:Hrun; [|by vm_compute in Hrun].
  cbn [fst]. apply Forall_forall. intros o Ho.
  destruct (returned_operations_come_from_files (lib := sampleLib)
              _ _ _ _ _ Hrun o Ho) as (_ & _ & f & Hf & -> & _).
  cbn in Hf. apply elem_of_cons in Hf as [->|Hf]; [by left|].
  apply elem_of_cons in Hf as [->|Hf]; [by right|].
  by apply elem_of_nil in Hf.
Defined.

End HandlerFacts.

Module UpMoreFacts.

Import Up Samples MoreSamples GoFacts UpFacts UpProperties.

Lemma CodeFilePath_present env dir file :
  exists_on_disk env (filepath_Join [dir; file]) = true ->
  CodeFilePath env dir file = (filepath_Join [dir; file], None).
Proof. intros H. unfold CodeFilePath. cbv zeta. by rewrite H. Qed.

Lemma filepath_Join_not_empty dir file :
  String.eqb (filepath_Join [dir; file]) "" = false.
Proof. by destruct dir. Qed.

Lemma bind_ret {A B} (a : A) (f : A -> Prog B) : mret a ≫= f = f a.
Proof. unfold mbind, Prog_bind. cbn. by destruct (f a). Qed.

(** X9.  When the server-hooks entry point and the webhooks directory exist and
    listing the webhooks fails, the command returns that error.  By then
    it has created the two script runners and the hooks bundler and
    nothing else: the config bundler does not exist yet, no bundle was
    built, no script was run and neither stack, watcher nor gateway was
    started; the deferred [stop] and [cancel] run on the way out. *)
Theorem webhooks_listing_failure_is_fatal
    (pkg : Package) (env : Env) (wunderGraphDir : string) (e : GoError) :
  FindWunderGraphDir env = inl wunderGraphDir ->
  exists_on_disk env
    (filepath_Join [wunderGraphDir; configEntryPointFilename pkg]) = true ->
  exists_on_disk env
    (filepath_Join [wunderGraphDir; serverEntryPointFilename pkg]) = true ->
  DirectoryExists env
    (filepath_Join [wunderGraphDir; WebhookDirectoryName pkg]) = true ->
  GetWebhooks env = inr e ->
  outcome (RunE pkg env) = Returned (Some e)
  /\ code (RunE pkg env)
     = [ Do NotifyContext;
         Do (Log InfoLevel "Starting WunderNode" (BuildInfo pkg)) ]
       ++ match ServerPortFromConfig env with
          | inl port => [Do (KillExistingHooksProcess port)]
          | inr _ => []
          end
       ++ [ Do (NewScriptRunner
                  (configRunnerConfig pkg wunderGraphDir
                     (filepath_Join ["generated"; "bundle"; "config.js"])));
            Do (NewScriptRunner
                  (configIntrospectionRunnerConfig pkg wunderGraphDir
                     (filepath_Join ["generated"; "bundle"; "config.js"])));
            Do (NewBundler
                  (hooksBundlerConfig pkg wunderGraphDir
                     (filepath_Join ["generated"; "bundle"; "server.js"])
                     (filepath_Join [wunderGraphDir; "generated";
                                     configJsonFilename pkg])));
            Do SignalStop; Do ContextCancel ].
Proof.
  intros Hdir Hconfig Hserver Hwebhooks Hlist.
  unfold RunE. rewrite Hdir. cbn [try]. rewrite bind_ret.
  rewrite !CodeFilePath_present by done. cbn [fst snd check].
  rewrite bind_ret. unfold startup, configureHooks.
  rewrite filepath_Join_not_empty, Hwebhooks, Hlist.
  destruct (ServerPortFromConfig env); by cbn.
Qed.

(** *** The parse after the gateway start *)

Lemma afterInitialBuild_parsed pkg env onAfterBuild dir :
  let after :=
    afterInitialBuild pkg env onAfterBuild dir (configJsonPath_of pkg env) in
  match outcome (startupParse pkg env) with
  | Next (inl c) =>
      code after
      = (Do StackNewRunner :: runStack env)
        ++ watchersAndNode pkg env onAfterBuild (configJsonPath_of pkg env)
        ++ serveUntilCancelled c
      /\ outcome after = Returned None
  | Next (inr e) =>
      code after
      = (Do StackNewRunner :: runStack env)
        ++ watchersAndNode pkg env onAfterBuild (configJsonPath_of pkg env)
      /\ outcome after = Returned (Some e)
  | _ => True
  end.
Proof.
  unfold startupParse, afterInitialBuild, watchersAndNode, runStack,
    stackRunner_of, ReadAndCreateConfig.
  destruct (stack_NewRunner env) as [r|e1]; [destruct (stack_Run env) as [e2|]|];
    cbn -[Bundler_Watch configWatcherGoroutine nodeGoroutine imap
          configJsonPath_of];
    (destruct (diskAfterStart env !! configJsonPath_of pkg env) as [data|];
     [destruct (decodeConfig pkg data) as [raw|e3]|]);
    cbn -[Bundler_Watch configWatcherGoroutine nodeGoroutine imap
          configJsonPath_of];
    try done;
    try (destruct (map_fold _ _ _));
    by cbn -[Bundler_Watch configWatcherGoroutine nodeGoroutine imap
             configJsonPath_of].
Qed.

Lemma bind_exec {B} (i : Instr) (f : unit -> Prog B) :
  exec i ≫= f = {| code := i :: code (f ()); outcome := outcome (f ()) |}.
Proof. reflexivity. Qed.

Lemma bind_Next {A B} (p : Prog A) (f : A -> Prog B) a :
  outcome p = Next a ->
  p ≫= f = {| code := code p ++ code (f a); outcome := outcome (f a) |}.
Proof. intros H. unfold mbind, Prog_bind. by rewrite H. Qed.

Lemma callbacks_serve_nothing pkg env dir cs a b c d onAfterBuild wg ab :
  outcome (configureHooks pkg env dir cs a b c d) = Next onAfterBuild ->
  forallb (fun i => negb (serves i)) (code (onAfterBuild wg ab)) = true.
Proof.
  intros Hcb. apply configureHooks_outcome in Hcb as [[wh ->]| ->].
  - cases_of_after_build ab; by destruct wh.
  - done.
Qed.

Lemma configureHooks_serves_nothing pkg env dir cs a b c d :
  forallb (fun i => negb (serves i))
    (code (configureHooks pkg env dir cs a b c d)) = true.
Proof.
  unfold configureHooks.
  destruct (negb (String.eqb cs ""));
    try (destruct (DirectoryExists env _); [destruct (GetWebhooks env)|]);
    reflexivity.
Qed.

Lemma Bundle_serves_nothing name build callback :
  forallb (fun i => negb (serves i)) (code callback) = true ->
  forallb (fun i => negb (serves i)) (Bundle name build (Some callback)).1 = true.
Proof.
  intros H. unfold Bundle. destruct build; [done|]. cbn [fst].
  rewrite !forallb_app, H. done.
Qed.

(** The main goroutine up to [stack.NewRunner]. *)
Lemma RunE_before_the_stack pkg env dir onAfterBuild :
  FindWunderGraphDir env = inl dir ->
  exists_on_disk env (filepath_Join [dir; configEntryPointFilename pkg]) = true ->
  outcome (configureHooks pkg env dir
             (CodeFilePath env dir (serverEntryPointFilename pkg)).1
             (filepath_Join ["generated"; "bundle"; "server.js"])
             (filepath_Join ["generated"; "bundle"; "webhooks"])
             (filepath_Join [dir; WebhookDirectoryName pkg])
             (filepath_Join [dir; "generated"; configJsonFilename pkg]))
  = Next onAfterBuild ->
  let after :=
    afterInitialBuild pkg env onAfterBuild dir (configJsonPath_of pkg env) in
  exists before,
    code (RunE pkg env) = before ++ code after ++ [Do SignalStop; Do ContextCancel]
    /\ outcome (RunE pkg env) = outcome after
    /\ forallb (fun i => negb (serves i)) before = true.
Proof.
  intros Hdir Hconfig Hcb after.
  assert (filepath_Join [dir; "generated"; configJsonFilename pkg]
          = configJsonPath_of pkg env) as Hpath
    by (unfold configJsonPath_of; by rewrite Hdir).
  pose proof (callbacks_serve_nothing _ _ _ _ _ _ _ _ _ 0
                (afterBuild (initialBuild env)) Hcb) as Hcallback.
  pose proof (configureHooks_serves_nothing pkg env dir
                (CodeFilePath env dir (serverEntryPointFilename pkg)).1
                (filepath_Join ["generated"; "bundle"; "server.js"])
                (filepath_Join ["generated"; "bundle"; "webhooks"])
                (filepath_Join [dir; WebhookDirectoryName pkg])
                (filepath_Join [dir; "generated"; configJsonFilename pkg]))
    as Hhooks.
  pose proof (Bundle_serves_nothing config_bundler
                (configBundle (initialBuild env))
                (onAfterBuild 0 (afterBuild (initialBuild env)))
                Hcallback) as Hbundle.
  unfold RunE. rewrite Hdir. cbn [try]. rewrite bind_ret.
  rewrite (CodeFilePath_present _ _ _ Hconfig). cbn [snd check].
  rewrite bind_ret, bind_exec. unfold defer, startup. cbv zeta.
  rewrite bind_exec.
  set (kill := match ServerPortFromConfig env with
               | inl port => exec (Do (KillExistingHooksProcess port))
               | inr _ => mret ()
               end).
  assert (outcome kill = Next ()) as Hkill
    by (unfold kill; by destruct (ServerPortFromConfig env)).
  rewrite (bind_Next kill _ _ Hkill), !bind_exec, (bind_Next _ _ _ Hcb).
  unfold initialBuildAndStart. rewrite bind_exec.
  rewrite (bind_Next
             (call_Bundle config_bundler (configBundle (initialBuild env))
                (Some (onAfterBuild 0 (afterBuild (initialBuild env)))))
             _ _ eq_refl).
  subst after. rewrite <- Hpath. unfold call_Bundle. cbv zeta.
  clear Hcallback. revert Hbundle.
  destruct (Bundle config_bundler (configBundle (initialBuild env))
              (Some (onAfterBuild 0 (afterBuild (initialBuild env)))))
    as [building err].
  cbn [fst snd code outcome]. intros Hbundle.
  exists (Do NotifyContext
          :: Do (Log InfoLevel "Starting WunderNode" (BuildInfo pkg))
          :: code kill
          ++ [ Do (NewScriptRunner
                     (configRunnerConfig pkg dir
                        (filepath_Join ["generated"; "bundle"; "config.js"])));
               Do (NewScriptRunner
                     (configIntrospectionRunnerConfig pkg dir
                        (filepath_Join ["generated"; "bundle"; "config.js"]))) ]
          ++ code (configureHooks pkg env dir
                     (CodeFilePath env dir (serverEntryPointFilename pkg)).1
                     (filepath_Join ["generated"; "bundle"; "server.js"])
                     (filepath_Join ["generated"; "bundle"; "webhooks"])
                     (filepath_Join [dir; WebhookDirectoryName pkg])
                     (filepath_Join [dir; "generated"; configJsonFilename pkg]))
          ++ Do (NewBundler
                   (configBundlerConfig pkg dir
                      (filepath_Join ["generated"; "bundle"; "config.js"])
                      (filepath_Join [dir; WebhookDirectoryName pkg])
                      (filepath_Join [dir; operations_DirectoryName pkg])
                      (filepath_Join [dir; "cache"; "introspection"])))
          :: building
          ++ match err with
             | Some e =>
                 [Do (Log ErrorLevel "could not bundle"
                        [("bundlerName", "config-bundler");
                         ("watcher", "config"); ("error", e)])]
             | None => []
             end).
  split; [|split].
  - destruct err; rewrite ?bind_exec, ?bind_ret; cbn [code app];
      repeat (rewrite <- ?app_assoc; cbn [app]; f_equal).
  - by destruct err.
  - cbn [forallb]. rewrite !forallb_app. cbn [forallb].
    rewrite !forallb_app, Hhooks. cbn [forallb]. rewrite Hbundle.
    unfold kill. destruct (ServerPortFromConfig env); by destruct err.
Qed.

Lemma configureHooks_configured pkg env dir cs a b c d webhookPaths :
  GetWebhooks env = inl webhookPaths ->
  exists onAfterBuild,
    outcome (configureHooks pkg env dir cs a b c d) = Next onAfterBuild.
Proof.
  intros Hlist. unfold configureHooks. rewrite Hlist.
  destruct (negb (String.eqb cs "")); [destruct (DirectoryExists env c)|];
    by eexists.
Qed.

Lemma stack_and_goroutines_serve_nothing pkg env onAfterBuild path :
  exists starting,
    (Do StackNewRunner :: runStack env)
    ++ watchersAndNode pkg env onAfterBuild path
    = starting ++ [Do NodeNew; Go (nodeGoroutine env)]
    /\ forallb (fun i => negb (serves i)) starting = true.
Proof.
  exists ((Do StackNewRunner :: runStack env)
          ++ [ Go (Bundler_Watch config_bundler
                     (imap (fun i build =>
                              Bundle config_bundler (configBundle build)
                                (Some (onAfterBuild (S i) (afterBuild build))))
                        (watchBuilds env)));
               Do (NewWatcher "config"
                     [{| Path := path; Optional := false |}]);
               Go (configWatcherGoroutine pkg env (stackRunner_of env) path) ]).
  split; [by rewrite <- app_assoc|].
  rewrite forallb_app. unfold runStack.
  destruct (stack_NewRunner env); [destruct (stack_Run env)|]; reflexivity.
Qed.

(** X10.  When the explicit parse of the config artifact after the gateway start
    fails, the command returns that error.  The watch loop, the config
    watcher and the gateway node were started in their goroutines just
    before; the main goroutine has pushed no configuration, has not waited
    for the end of the context and has not closed the node; the deferred
    [stop] and [cancel] run on the way out. *)
Theorem unreadable_config_after_start_is_fatal
    (pkg : Package) (env : Env) (wunderGraphDir : string)
    (webhookPaths : list string) (e : GoError) :
  FindWunderGraphDir env = inl wunderGraphDir ->
  exists_on_disk env
    (filepath_Join [wunderGraphDir; configEntryPointFilename pkg]) = true ->
  GetWebhooks env = inl webhookPaths ->
  outcome (startupParse pkg env) = Next (inr e) ->
  outcome (RunE pkg env) = Returned (Some e)
  /\ (exists before,
        code (RunE pkg env)
        = before ++ [ Do NodeNew; Go (nodeGoroutine env);
                      Do SignalStop; Do ContextCancel ])
  /\ forallb (fun i => negb (serves i)) (code (RunE pkg env)) = true.
Proof.
  intros Hdir Hconfig Hlist Hparse.
  destruct (configureHooks_configured pkg env wunderGraphDir
              (CodeFilePath env wunderGraphDir (serverEntryPointFilename pkg)).1
              (filepath_Join ["generated"; "bundle"; "server.js"])
              (filepath_Join ["generated"; "bundle"; "webhooks"])
              (filepath_Join [wunderGraphDir; WebhookDirectoryName pkg])
              (filepath_Join [wunderGraphDir; "generated";
                              configJsonFilename pkg])
              _ Hlist) as [onAfterBuild Hcb].
  destruct (RunE_before_the_stack pkg env wunderGraphDir onAfterBuild
              Hdir Hconfig Hcb) as (before & Hcode & Hout & Hbefore).
  pose proof (afterInitialBuild_parsed pkg env onAfterBuild wunderGraphDir)
    as Hafter.
  cbv zeta in Hafter. rewrite Hparse in Hafter.
  destruct Hafter as [Hafter Hreturned].
  destruct (stack_and_goroutines_serve_nothing pkg env onAfterBuild
              (configJsonPath_of pkg env)) as (starting & Hstart & Hstarting).
  rewrite Hcode, Hout, Hafter, Hstart. split; [done|]. split.
  - exists (before ++ starting). by rewrite <- !app_assoc.
  - rewrite !forallb_app, Hbefore, Hstarting. done.
Qed.


Lemma webhooks_listing_failure_is_fatal_witness :
  outcome (RunE Samples.pkg unlistedWebhooks)
  = Returned (Some "open webhooks: permission denied")
  /\ length (code (RunE Samples.pkg unlistedWebhooks)) = 8.
Proof.
  destruct (webhooks_listing_failure_is_fatal Samples.pkg unlistedWebhooks
              "/app/.wundergraph" "open webhooks: permission denied"
              eq_refl eq_refl eq_refl eq_refl eq_refl) as [Hout Hcode].
  split; [exact Hout|]. by rewrite Hcode.
Defined.

Lemma unreadable_config_after_start_is_fatal_witness :
  exists e,
    outcome (RunE Samples.pkg noArtifact) = Returned (Some e)
    /\ existsb serves (code (RunE Samples.pkg noArtifact)) = false.
Proof.
  destruct (unreadable_config_after_start_is_fatal Samples.pkg noArtifact
              "/app/.wundergraph" []
              "open /app/.wundergraph/generated/wundergraph.config.json: no such file"
              eq_refl eq_refl eq_refl eq_refl) as (Hout & _ & Hnone).
  eexists. split; [exact Hout|].
  destruct (existsb serves (code (RunE Samples.pkg noArtifact))) eqn:Hsome;
    [|done].
  apply existsb_exists in Hsome as (i & Hin & Hi).
  rewrite forallb_forall in Hnone. specialize (Hnone i Hin).
  by rewrite Hi in Hnone.
Defined.


End UpMoreFacts.

(** ** Facts about the variables a schema leaves out *)

Module SkipFacts.

Import VariablesSchema HandlerFacts.

Lemma filter_length_partition {A} (f : A -> bool) (g : A -> option string)
    (l : list A) :
  (forall x, f x = true <-> g x = None) ->
  length (List.filter f l) + length (omap g l) = length l.
Proof.
  intros Hfg. induction l as [|x l IH]; [done|]. cbn.
  destruct (f x) eqn:Hf.
  - apply Hfg in Hf as ->. cbn. by rewrite IH.
  - destruct (g x) eqn:Hg.
    + cbn. rewrite <- IH. lia.
    + apply Hfg in Hg. congruence.
Qed.

Lemma directiveHasNoField_iff directive :
  directiveHasNoField directive = true
  <-> (let field := directiveInjectedField directive in
       if truthy field then field else None) = None.
Proof.
  unfold directiveHasNoField. cbv zeta.
  destruct (truthy (directiveInjectedField directive)) eqn:Ht; cbn.
  - split; [done|]. by destruct (directiveInjectedField directive).
  - done.
Qed.

Lemma directivesNamed_subset variable (names names' : list string) directive :
  names ⊆ names' ->
  directive ∈ GraphQL.directivesNamed variable names ->
  directive ∈ GraphQL.directivesNamed variable names'.
Proof.
  unfold GraphQL.directivesNamed. intros Hsub.
  destruct (GraphQL.var_directives variable) as [directives|]; [|done].
  rewrite !list_elem_of_In, !filter_In, !bool_decide_eq_true.
  intros [? ?]. split; [done|]. by apply Hsub.
Qed.

Lemma filter_nonempty {A} (f : A -> bool) (l : list A) :
  Nat.ltb 0 (length (List.filter f l)) = true <-> exists x, x ∈ l /\ f x = true.
Proof.
  rewrite Nat.ltb_lt. split.
  - destruct (List.filter f l) as [|x rest] eqn:Hf; [cbn; lia|]. intros _.
    assert (In x (List.filter f l)) as Hin by (rewrite Hf; by left).
    apply filter_In in Hin as [Hin Hx]. exists x. by rewrite list_elem_of_In.
  - intros (x & Hin & Hx).
    assert (In x (List.filter f l)) as Hin'
      by (apply filter_In; by rewrite <- list_elem_of_In).
    destruct (List.filter f l); [done|]. cbn. lia.
Qed.

(** X12.  A variable is hidden from a schema when one of its directives of the
    list at hand names no field: it has no [on:] argument, one that is no
    string, or the empty string.  The directives that hide a variable from
    the schema of the injected variables are among those that hide it
    from the schema of the internal variables, so a variable left out of
    the former is left out of the latter. *)
Theorem hidden_variables (variable : GraphQL.VariableDefinitionNode) :
  (hasInternalVariable variable = true
   <-> exists directive,
         directive ∈ GraphQL.directivesNamed variable internalVariables
         /\ (directiveInjectedField directive = None
             \/ directiveInjectedField directive = Some ""))
  /\ (hasInjectedVariable variable = true
      <-> exists directive,
            directive ∈ GraphQL.directivesNamed variable injectedVariables
            /\ (directiveInjectedField directive = None
                \/ directiveInjectedField directive = Some ""))
  /\ (hasInjectedVariable variable = true ->
      hasInternalVariable variable = true).
Proof.
  assert (forall directive,
            directiveHasNoField directive = true
            <-> directiveInjectedField directive = None
                \/ directiveInjectedField directive = Some "") as Hfield.
  { intros directive. unfold directiveHasNoField, truthy.
    destruct (directiveInjectedField directive) as [[|c s]|]; cbn;
      first [tauto | intuition congruence]. }
  assert (forall names,
            Nat.ltb 0
              (length (List.filter directiveHasNoField
                         (GraphQL.directivesNamed variable names))) = true
            <-> exists directive,
                  directive ∈ GraphQL.directivesNamed variable names
                  /\ (directiveInjectedField directive = None
                      \/ directiveInjectedField directive = Some ""))
    as Hhidden.
  { intros names. rewrite filter_nonempty.
    split; intros (d & Hd & H); exists d; (split; [done|]); by apply Hfield. }
  split; [apply Hhidden|]. split; [apply Hhidden|].
  unfold hasInjectedVariable, hasInternalVariable. rewrite !Hhidden.
  intros (d & Hd & H). exists d. split; [|done].
  eapply directivesNamed_subset; [|exact Hd].
  intros name Hname. unfold injectedVariables, internalVariables in *.
  repeat (apply elem_of_cons in Hname as [->|Hname]);
    [..|by apply elem_of_nil in Hname];
    by apply (bool_decide_unpack _).
Qed.

(** X13.  Each directive of a list either hides the whole variable or names
    exactly one field of it, never both.  A field named is never the empty
    string, and it is the field the directive handlers inject into: the
    path [directiveInjectedVariablePathComponents] computes for the
    directive is the variable followed by the parts of that field. *)
Theorem directive_fields
    {lib : GraphQL.GraphQLLib}
    (variable : GraphQL.VariableDefinitionNode) (directiveNames : list string) :
  length (List.filter directiveHasNoField
            (GraphQL.directivesNamed variable directiveNames))
  + length (directiveDefinedFields variable directiveNames)
  = length (GraphQL.directivesNamed variable directiveNames)
  /\ forall field,
       field ∈ directiveDefinedFields variable directiveNames ->
       field <> ""
       /\ exists directive,
            directive ∈ GraphQL.directivesNamed variable directiveNames
            /\ directiveHasNoField directive = false
            /\ forall operation,
                 GraphQL.directiveInjectedVariablePathComponents directive
                   variable operation
                 = GraphQL.Ok (GraphQL.variable_name variable
                               :: JS.split_dot field).
Proof.
  split.
  - apply filter_length_partition, directiveHasNoField_iff.
  - intros field Hfield. unfold directiveDefinedFields in Hfield.
    apply list_elem_of_omap in Hfield as (directive & Hd & Hf).
    cbv zeta in Hf.
    destruct (truthy (directiveInjectedField directive)) eqn:Ht; [|done].
    split; [intros ->; by rewrite Hf in Ht|].
    exists directive. split; [done|].
    split; [unfold directiveHasNoField; by rewrite Ht|].
    intros operation. revert Hf.
    unfold directiveInjectedField,
      GraphQL.directiveInjectedVariablePathComponents.
    destruct (GraphQL.find_argument "on" directive) as [onArg|]; [|done].
    destruct (GraphQL.arg_value onArg); try done. by intros [= ->].
Qed.

(** *** The tree of fields to skip *)

Lemma get_own_set_own {A} (k k' : string) (v : A) (obj : list (string * A)) :
  JS.get_own k' (set_own k v obj)
  = if String.eqb k k' then Some v else JS.get_own k' obj.
Proof.
  induction obj as [|[k0 v0] obj IH]; cbn.
  - by destruct (String.eqb k k').
  - destruct (String.eqb k0 k) eqn:H0; cbn.
    + apply String.eqb_eq in H0 as ->. by destruct (String.eqb k k').
    + destruct (String.eqb k0 k') eqn:H1.
      * apply String.eqb_eq in H1 as ->.
        rewrite String.eqb_sym in H0. by rewrite H0.
      * exact IH.
Qed.

Lemma get_in_own {A} (key : string) (obj : list (string * A)) :
  key ∉ JS.Object_prototype_keys ->
  GraphQL.get_in key obj = GraphQL.Own <$> JS.get_own key obj.
Proof.
  intros Hkey. unfold GraphQL.get_in.
  destruct (JS.get_own key obj); [done|]. by rewrite bool_decide_eq_false_2.
Qed.

Lemma lookupPath_empty q :
  is_Some (lookupPath q (SkipFields [])) <-> q = [].
Proof. destruct q; cbn; [done|]. split; [by intros [? [=]]|done]. Qed.

(** Inserting a path adds the path and its prefixes to the tree and leaves
    what was there. *)
Lemma lookupPath_insertPath p fields :
  ownNames p ->
  exists fields',
    insertPath p fields = Some fields'
    /\ forall q,
         is_Some (lookupPath q fields')
         <-> is_Some (lookupPath q fields) \/ q `prefix_of` p.
Proof.
  intros Hown. revert fields.
  induction Hown as [|c rest Hc Hrest IH]; intros fields.
  - exists fields. split; [done|]. intros q. split; [by left|].
    intros [H|H]; [done|]. by apply prefix_nil_inv in H as ->.
  - cbn [insertPath]. rewrite (get_in_own _ _ Hc).
    destruct (JS.get_own c (entries fields)) as [inner|] eqn:Hget; cbn.
    + destruct (IH inner) as (updated & -> & Hupdated). cbn.
      eexists. split; [reflexivity|].
      intros [|k q]; [split; [by left|done]|]. cbn.
      rewrite get_own_set_own.
      destruct (String.eqb c k) eqn:Hk.
      * apply String.eqb_eq in Hk as <-. rewrite Hget. cbn.
        rewrite Hupdated. split.
        -- intros [H|H]; [by left|right; by apply prefix_cons].
        -- intros [H|H]; [by left|right; by apply prefix_cons_inv_2 in H].
      * apply String.eqb_neq in Hk. split; [by left|].
        intros [H|H]; [done|]. by apply prefix_cons_inv_1 in H.
    + destruct (IH (SkipFields [])) as (created & -> & Hcreated). cbn.
      eexists. split; [reflexivity|].
      intros [|k q]; [split; [by left|done]|]. cbn.
      rewrite get_own_set_own.
      destruct (String.eqb c k) eqn:Hk.
      * apply String.eqb_eq in Hk as <-. rewrite Hget. cbn.
        rewrite Hcreated, lookupPath_empty. split.
        -- intros [->|H]; right; [apply prefix_cons, prefix_nil
                                 |by apply prefix_cons].
        -- intros [[? [=]]|H]. right. by apply prefix_cons_inv_2 in H.
      * apply String.eqb_neq in Hk. split; [by left|].
        intros [H|H]; [done|]. by apply prefix_cons_inv_1 in H.
Qed.

Lemma lookupPath_updateSkipFields paths fields :
  Forall (fun field => ownNames (JS.split_dot field)) paths ->
  exists fields',
    updateSkipFields fields paths = Some fields'
    /\ forall q,
         is_Some (lookupPath q fields')
         <-> is_Some (lookupPath q fields)
             \/ exists field, field ∈ paths /\ q `prefix_of` JS.split_dot field.
Proof.
  intros Hown. revert fields.
  induction Hown as [|field rest Hfield Hrest IH]; intros fields.
  - exists fields. split; [done|]. intros q. split; [by left|].
    intros [H|(? & H & _)]; [done|]. by apply elem_of_nil in H.
  - cbn [updateSkipFields].
    destruct (lookupPath_insertPath _ fields Hfield) as (f1 & -> & H1). cbn.
    destruct (IH f1) as (f2 & -> & H2).
    exists f2. split; [done|]. intros q. rewrite H2, H1. split.
    + intros [[H|H]|(p & Hp & H)]; [by left| |].
      * right. exists field. split; [apply elem_of_cons; by left|done].
      * right. exists p. split; [apply elem_of_cons; by right|done].
    + intros [H|(p & Hp & H)]; [by left; left|].
      apply elem_of_cons in Hp as [->|Hp]; [left; by right|].
      right. by exists p.
Qed.

Lemma lookupPath_snoc q c fields :
  lookupPath (q ++ [c]) fields
  = inner ← lookupPath q fields; JS.get_own c (entries inner).
Proof.
  revert fields. induction q as [|k q IH]; intros fields; cbn.
  - by destruct (JS.get_own c (entries fields)).
  - destruct (JS.get_own k (entries fields)); cbn; [apply IH|done].
Qed.

Lemma leaf_iff_no_child q fields :
  lookupPath q fields = Some (SkipFields [])
  <-> is_Some (lookupPath q fields)
      /\ forall c, lookupPath (q ++ [c]) fields = None.
Proof.
  split.
  - intros H. split; [by eexists|]. intros c. by rewrite lookupPath_snoc, H.
  - intros [[[inner] H] Hnone]. rewrite H. do 2 f_equal.
    destruct inner as [|[k v] inner]; [done|].
    specialize (Hnone k). rewrite lookupPath_snoc, H in Hnone. cbn in Hnone.
    by rewrite String.eqb_refl in Hnone.
Qed.

(** X14.  The fields a schema skips.  Starting from the empty object,
    [updateSkipFields] returns a tree that holds exactly the paths given
    and their prefixes.  A field is a leaf, and so is left out of the
    schema, exactly when its path was given and no longer path given goes
    through it: naming [a] and [a.b] keeps [a] and drops only [a.b]. *)
Theorem skipped_fields (skipVariablePaths : list string) :
  Forall (fun field => ownNames (JS.split_dot field)) skipVariablePaths ->
  exists skipFields,
    updateSkipFields (SkipFields []) skipVariablePaths = Some skipFields
    /\ (forall q,
          is_Some (lookupPath q skipFields)
          <-> q = []
              \/ exists field,
                   field ∈ skipVariablePaths
                   /\ q `prefix_of` JS.split_dot field)
    /\ (forall q,
          q <> [] ->
          lookupPath q skipFields = Some (SkipFields [])
          <-> (exists field,
                 field ∈ skipVariablePaths /\ JS.split_dot field = q)
              /\ forall field,
                   field ∈ skipVariablePaths ->
                   q `prefix_of` JS.split_dot field ->
                   JS.split_dot field = q).
Proof.
  intros Hown.
  destruct (lookupPath_updateSkipFields _ (SkipFields []) Hown)
    as (skipFields & Hrun & Hpresent).
  exists skipFields. split; [done|].
  assert (forall q,
            is_Some (lookupPath q skipFields)
            <-> q = []
                \/ exists field,
                     field ∈ skipVariablePaths
                     /\ q `prefix_of` JS.split_dot field) as Hin.
  { intros q. rewrite Hpresent, lookupPath_empty. done. }
  split; [exact Hin|].
  intros q Hq. rewrite leaf_iff_no_child, Hin. split.
  - intros [[->|(field & Hfield & [rest Hrest])] Hnone]; [done|].
    assert (rest = []) as ->.
    { destruct rest as [|c rest]; [done|].
      specialize (Hnone c).
      assert (is_Some (lookupPath (q ++ [c]) skipFields)) as [? Hsome].
      { apply Hin. right. exists field. split; [done|]. exists rest.
        by rewrite Hrest, <- app_assoc. }
      congruence. }
    rewrite app_nil_r in Hrest. split; [by exists field|].
    intros field' Hfield' [rest' Hrest'].
    destruct rest' as [|c rest']; [by rewrite Hrest', app_nil_r|].
    specialize (Hnone c).
    assert (is_Some (lookupPath (q ++ [c]) skipFields)) as [? Hsome].
    { apply Hin. right. exists field'. split; [done|]. exists rest'.
      by rewrite Hrest', <- app_assoc. }
    congruence.
  - intros [(field & Hfield & <-) Hlongest]. split.
    + right. by exists field.
    + intros c. destruct (lookupPath _ skipFields) eqn:Hsome; [|done].
      assert (is_Some (lookupPath (JS.split_dot field ++ [c]) skipFields))
        as Hchild by (by eexists).
      apply Hin in Hchild as [Hnil|(field' & Hfield' & Hprefix)].
      * by destruct (JS.split_dot field).
      * assert (JS.split_dot field `prefix_of` JS.split_dot field') as Hp.
        { destruct Hprefix as [rest Hrest]. exists (c :: rest).
          by rewrite Hrest, <- app_assoc. }
        specialize (Hlongest field' Hfield' Hp).
        rewrite Hlongest in Hprefix. destruct Hprefix as [rest Hrest].
        apply (f_equal length) in Hrest.
        rewrite !length_app in Hrest. cbn in Hrest. lia.
Qed.

Lemma skipped_fields_witness :
  exists skipFields,
    updateSkipFields (SkipFields []) ["a"; "a.b"] = Some skipFields
    /\ lookupPath ["a"] skipFields <> Some (SkipFields [])
    /\ lookupPath ["a"; "b"] skipFields = Some (SkipFields []).
Proof.
  assert (Forall (fun field => ownNames (JS.split_dot field)) ["a"; "a.b"])
    as Hown.
  { constructor; [change (ownNames ["a"])|].
    - repeat constructor. by apply (bool_decide_unpack _).
    - constructor; [change (ownNames ["a"; "b"])|constructor].
      repeat constructor; by apply (bool_decide_unpack _). }
  destruct (skipped_fields ["a"; "a.b"] Hown) as (skipFields & Hrun & _ & Hleaf).
  exists skipFields. split; [exact Hrun|]. split.
  - intros Ha. apply Hleaf in Ha as [_ Hlongest]; [|done].
    assert ("a.b" ∈ ["a"; "a.b"]) as Hin by by apply (bool_decide_unpack _).
    assert (["a"] `prefix_of` JS.split_dot "a.b") as Hprefix by by exists ["b"].
    by specialize (Hlongest "a.b" Hin Hprefix).
  - apply Hleaf; [done|]. split.
    + exists "a.b". split; [by apply (bool_decide_unpack _)|done].
    + intros field Hfield Hprefix.
      apply elem_of_cons in Hfield as [->|Hfield].
      * by destruct Hprefix as [rest [=]].
      * apply elem_of_cons in Hfield as [->|Hfield]; [done|].
        by apply elem_of_nil in Hfield.
Defined.

End SkipFacts.

(** ** Facts about the JSON-Schema compiler *)

Module SchemaFacts.

Import VariablesSchema SchemaProperties SchemaSamples HandlerFacts SkipFacts.

Section WithSchema.

Context (graphQLSchema : GraphQLSchema).
Context (interpolateVariableDefinitionAsJSON customJsonScalars : list string).

Local Abbreviation typeSchema :=
  (typeSchema graphQLSchema interpolateVariableDefinitionAsJSON customJsonScalars).
Local Abbreviation namedTypeSchema :=
  (namedTypeSchema graphQLSchema interpolateVariableDefinitionAsJSON customJsonScalars).

Lemma typeSchema_NonNullType fuel objects inner name nonNull skipFields :
  typeSchema fuel objects (NonNullType inner) name nonNull skipFields
  = typeSchema fuel (on_parent (markNonNull name) objects) inner name true
      skipFields.
Proof. by destruct fuel. Qed.

Lemma typeSchema_ListType fuel objects inner name nonNull skipFields :
  typeSchema fuel objects (ListType inner) name nonNull skipFields
  = ('(itemSchema, after) ←
       typeSchema fuel
         (RootAndParent (the_root objects) (typed (nullable nonNull "array")))
         inner name false skipFields;
     Returns (set_items itemSchema (the_parent after), back_to objects after)).
Proof. by destruct fuel. Qed.

Lemma typeSchema_NamedType fuel objects typeName name nonNull skipFields :
  typeSchema fuel objects (NamedType typeName) name nonNull skipFields
  = namedTypeSchema
      (match fuel with
       | 0 => None
       | S fuel => Some (typeSchema fuel)
       end) objects typeName nonNull skipFields.
Proof. by destruct fuel. Qed.

Lemma bind_Returns {A B} (m : Run A) (f : A -> Run B) b :
  m ≫= f = Returns b -> exists a, m = Returns a /\ f a = Returns b.
Proof. destruct m; [by eexists|done|done]. Qed.

Lemma Returns_bind {A B} (a : A) (f : A -> Run B) : Returns a ≫= f = f a.
Proof. done. Qed.

Lemma without_definitions_markNonNull name s :
  without_definitions (markNonNull name s)
  = markNonNull name (without_definitions s).
Proof.
  unfold markNonNull. cbn.
  destruct (type s) as [[t|]|]; [|done|done].
  repeat (case_match; try done).
Qed.

Lemma without_definitions_iter k name s :
  without_definitions (Nat.iter k (markNonNull name) s)
  = Nat.iter k (markNonNull name) (without_definitions s).
Proof.
  induction k as [|k IH]; [done|]. rewrite !Nat.iter_succ.
  by rewrite without_definitions_markNonNull, IH.
Qed.

Lemma definitions_markNonNull name s :
  definitions (markNonNull name s) = definitions s.
Proof.
  unfold markNonNull.
  destruct (type s) as [[t|]|]; [|done|done].
  repeat (case_match; try done).
Qed.

Lemma properties_markNonNull name s :
  properties (markNonNull name s) = properties s.
Proof.
  unfold markNonNull.
  destruct (type s) as [[t|]|]; [|done|done].
  repeat (case_match; try done).
Qed.

Lemma type_markNonNull name s : type (markNonNull name s) = type s.
Proof.
  unfold markNonNull.
  destruct (type s) as [[t|]|] eqn:E; [|done|done].
  repeat (case_match; try done).
Qed.

Lemma properties_iter k name s :
  properties (Nat.iter k (markNonNull name) s) = properties s.
Proof.
  induction k as [|k IH]; [done|].
  by rewrite Nat.iter_succ, properties_markNonNull.
Qed.

Lemma type_iter k name s : type (Nat.iter k (markNonNull name) s) = type s.
Proof.
  induction k as [|k IH]; [done|].
  by rewrite Nat.iter_succ, type_markNonNull.
Qed.

Lemma effect_refl name objects : effect 0 name objects objects.
Proof. by destruct objects. Qed.

Lemma grows_refl objects : grows objects objects.
Proof. intros d Hd. by exists d. Qed.

Lemma grows_trans a b c : grows a b -> grows b c -> grows a c.
Proof.
  intros Hab Hbc d Hd. destruct (Hab d Hd) as (d' & Hd' & Hsub).
  destruct (Hbc d' Hd') as (d'' & Hd'' & Hsub'). exists d''. split; [done|].
  by etrans.
Qed.

Lemma without_definitions_eq_fields a b :
  without_definitions a = without_definitions b ->
  type a = type b /\ required a = required b /\ properties a = properties b
  /\ additionalProperties a = additionalProperties b
  /\ minItems a = minItems b /\ items a = items b.
Proof. destruct a, b. cbn. intros [=]. by subst. Qed.

Lemma effect_properties k name objects objects' :
  effect k name objects objects' ->
  properties (the_parent objects') = properties (the_parent objects)
  /\ properties (the_root objects') = properties (the_root objects).
Proof.
  destruct objects as [r|r p], objects' as [r'|r' p']; cbn; try done.
  - intros H.
    assert (properties r' = properties r) as ->; [|done].
    change (properties (without_definitions r')
            = properties (without_definitions r)).
    by rewrite H, properties_iter.
  - intros [H ->]. rewrite properties_iter.
    by apply without_definitions_eq_fields in H as (_ & _ & -> & _).
Qed.

Lemma elem_of_keys_set_own {A} key (value : A) obj k :
  k ∈ (set_own key value obj).*1 <-> k = key \/ k ∈ obj.*1.
Proof.
  induction obj as [|[k' v'] obj IH]; cbn.
  - rewrite list_elem_of_singleton. split; [by left|]. intros [H|H]; [done|].
    by apply elem_of_nil in H.
  - destruct (String.eqb_spec k' key) as [->|Hne]; cbn.
    + rewrite elem_of_cons. first [tauto | intuition congruence].
    + rewrite !elem_of_cons, IH. first [tauto | intuition congruence].
Qed.

Lemma elem_of_keys_assign {A} key (value : A) obj k :
  k ∈ (assign key value obj).*1
  <-> (k = key /\ key <> "__proto__") \/ k ∈ obj.*1.
Proof.
  unfold assign. destruct (String.eqb_spec key "__proto__") as [->|Hne].
  - first [tauto | intuition congruence].
  - rewrite elem_of_keys_set_own. first [tauto | intuition congruence].
Qed.

Lemma keys_assign_subseteq {A} key (value : A) obj :
  obj.*1 ⊆ (assign key value obj).*1.
Proof. intros k Hk. apply elem_of_keys_assign. by right. Qed.

Lemma forEachRun_invariant {A S} (I : S -> Prop) (body : S -> A -> Run S)
    (xs : list A) (s s' : S) :
  I s ->
  (forall s x s', x ∈ xs -> I s -> body s x = Returns s' -> I s') ->
  forEachRun body xs s = Returns s' ->
  I s'.
Proof.
  revert s. induction xs as [|x xs IH]; intros s Hs Hstep; cbn.
  - by intros [= <-].
  - intros H. apply bind_Returns in H as (s1 & H1 & H).
    eapply IH; [|  |exact H].
    + eapply Hstep; [|exact Hs|exact H1]. apply elem_of_cons. by left.
    + intros s2 y s3 Hy. apply Hstep. apply elem_of_cons. by right.
Qed.

(** What one round of the loop over the fields does to the schema of the
    input object. *)
Lemma fieldCallback_step (recur : option TypeSchema) skipFields r p f after :
  (forall g, recur = Some g -> respects g) ->
  fieldCallback recur skipFields (RootAndParent r p) f = Returns after ->
  exists r' p',
    after = RootAndParent r' p'
    /\ without_definitions r' = without_definitions r
    /\ grows (RootAndParent r p) after
    /\ if shownField skipFields f then
         exists fieldSchema props,
           properties p = Some props
           /\ p' = set_properties
                     (assign (field_name f) fieldSchema props)
                     (Nat.iter (leading (strippedType f))
                        (markNonNull (field_name f)) p)
       else p' = p.
Proof.
  intros Hrecur. unfold VariablesSchema.fieldCallback, shownField.
  destruct (isLeaf _) eqn:Hleaf; cbn [negb].
  { intros [= <-]. exists r, p. split; [done|]. split; [done|].
    split; [apply grows_refl|done]. }
  destruct recur as [g|]; [|done].
  intros H. apply bind_Returns in H as ([fieldSchema inside] & Hcall & H).
  destruct (Hrecur g eq_refl _ _ _ _ _ _ _ Hcall) as [Heffect Hgrows].
  destruct inside as [?|r' p']; [done|]. cbn in Heffect.
  destruct Heffect as [Hroot ->]. cbn [the_parent] in H.
  rewrite properties_iter in H.
  destruct (properties p) as [props|] eqn:Hprops; [|done].
  injection H as <-. cbn [on_parent].
  eexists _, _. split; [done|]. split; [done|]. split; [done|].
  by eexists _, _.
Qed.

Lemma inputObjectSchema_respects (recur : option TypeSchema) objects typeName
    fields name nonNull skipFields s objects' :
  (forall g, recur = Some g -> respects g) ->
  inputObjectSchema recur objects typeName fields nonNull skipFields
  = Returns (s, objects') ->
  effect 0 name objects objects' /\ grows objects objects'.
Proof.
  intros Hrecur. unfold VariablesSchema.inputObjectSchema.
  destruct (definitions (the_root objects)) as [defined|] eqn:Hdefined; [|done].
  case_bool_decide as Hin.
  { intros [= <- <-]. split; [apply effect_refl|apply grows_refl]. }
  intros H. apply bind_Returns in H as (after & Hloop & H).
  set (r0 := the_root
               (on_root
                  (set_definitions
                     (assign typeName (typed (nullable nonNull "object"))
                        defined)) objects)) in *.
  match type of Hloop with
  | forEachRun _ _ (RootAndParent _ ?p) = _ => set (p0 := p) in *
  end.
  assert (exists r' p',
            after = RootAndParent r' p'
            /\ without_definitions r' = without_definitions r0
            /\ grows (RootAndParent r0 p0) after) as (r' & p' & -> & Hr' & Hgrows).
  { eapply (forEachRun_invariant
              (fun after =>
                 exists r' p',
                   after = RootAndParent r' p'
                   /\ without_definitions r' = without_definitions r0
                   /\ grows (RootAndParent r0 p0) after)); [| |exact Hloop].
    - exists r0, p0. split; [done|]. split; [done|]. apply grows_refl.
    - intros inside f inside' _ (r1 & p1 & -> & Hr1 & Hg1) Hstep.
      destruct (fieldCallback_step _ _ _ _ _ _ Hrecur Hstep)
        as (r2 & p2 & -> & Hr2 & Hg2 & _).
      exists r2, p2. split; [done|]. split; [congruence|].
      by eapply grows_trans. }
  cbn [the_root the_parent] in H.
  destruct (definitions r') as [defined'|] eqn:Hdefined'; [|done].
  injection H as <- <-.
  assert (without_definitions r0 = without_definitions (the_root objects))
    as Hr0.
  { subst r0. by destruct objects. }
  assert (exists d0, definitions r0 = Some d0 /\ defined.*1 ⊆ d0.*1)
    as (d0 & Hd0 & Hsub0).
  { subst r0. eexists. split; [by destruct objects|].
    apply keys_assign_subseteq. }
  destruct (Hgrows d0 Hd0) as (d1 & Hd1 & Hsub1). cbn in Hd1.
  assert (d1 = defined') as -> by congruence.
  split.
  - destruct objects as [r|r p]; cbn in *; [|split; [|done]];
      by rewrite <- Hr0, <- Hr'.
  - intros d Hd. assert (d = defined) as -> by congruence.
    eexists. split; [by destruct objects|].
    etrans; [exact Hsub0|]. etrans; [exact Hsub1|].
    apply keys_assign_subseteq.
Qed.

Lemma namedTypeSchema_respects (recur : option TypeSchema) objects typeName
    name nonNull skipFields s objects' :
  (forall g, recur = Some g -> respects g) ->
  namedTypeSchema recur objects typeName nonNull skipFields
  = Returns (s, objects') ->
  effect 0 name objects objects' /\ grows objects objects'.
Proof.
  intros Hrecur. unfold VariablesSchema.namedTypeSchema.
  repeat case_match;
    try (intros [= <- <-]; split; [apply effect_refl|apply grows_refl]).
  by apply inputObjectSchema_respects.
Qed.

Lemma effect_on_parent k name objects objects' :
  effect k name (on_parent (markNonNull name) objects) objects' ->
  effect (S k) name objects objects'.
Proof.
  destruct objects as [r|r p], objects' as [r'|r' p']; cbn [effect on_parent];
    try done.
  - intros ->. by rewrite Nat.iter_succ_r, without_definitions_markNonNull.
  - intros [-> ->]. by rewrite Nat.iter_succ_r.
Qed.

Lemma grows_on_parent name objects objects' :
  grows (on_parent (markNonNull name) objects) objects' ->
  grows objects objects'.
Proof.
  intros H d Hd. apply H.
  destruct objects; cbn in *; [|done]. by rewrite definitions_markNonNull.
Qed.

(** [typeSchema] marks its parent once for every leading [!], and
    otherwise changes nothing but the definitions of the root, which only
    grow. *)
Lemma typeSchema_respects fuel : respects (typeSchema fuel).
Proof.
  induction fuel as [fuel IHfuel] using lt_wf_ind.
  intros objects type. revert objects.
  induction type as [inner IH|inner IH|typeName];
    intros objects name nonNull skipFields s objects'.
  - rewrite typeSchema_NonNullType. intros H.
    destruct (IH _ _ _ _ _ _ H) as [He Hg]. split.
    + by apply effect_on_parent.
    + by eapply grows_on_parent.
  - rewrite typeSchema_ListType. intros H.
    apply bind_Returns in H as ([itemSchema after] & Hcall & [= <- <-]).
    destruct (IH _ _ _ _ _ _ Hcall) as [He Hg].
    destruct after as [?|r' p']; [done|]. cbn in He. destruct He as [Hr' _].
    split.
    + destruct objects; cbn in *; [done|by split].
    + intros d Hd. destruct (Hg d) as (d' & Hd' & Hsub);
        [by destruct objects|].
      exists d'. split; [by destruct objects|done].
  - rewrite typeSchema_NamedType. apply namedTypeSchema_respects.
    intros g Hg. destruct fuel as [|fuel]; [done|].
    injection Hg as <-. apply IHfuel. lia.
Qed.

Lemma forEachRun_returns {A S} (I : S -> Prop) (body : S -> A -> Run S)
    (xs : list A) (s : S) :
  I s ->
  (forall s x, x ∈ xs -> I s -> exists s', body s x = Returns s' /\ I s') ->
  exists s', forEachRun body xs s = Returns s' /\ I s'.
Proof.
  revert s. induction xs as [|x xs IH]; intros s Hs Hstep; cbn.
  - by exists s.
  - destruct (Hstep s x) as (s1 & -> & Hs1); [apply elem_of_cons; by left|done|].
    cbn. apply IH; [done|]. intros s2 y Hy. apply Hstep. apply elem_of_cons.
    by right.
Qed.

Lemma size_list_to_set_le (l : list string) :
  size (list_to_set l : gset string) <= length l.
Proof.
  induction l as [|x l IH]; cbn; [by rewrite size_empty|].
  rewrite size_union_alt, size_singleton.
  assert (size (list_to_set l ∖ {[x]} : gset string)
          <= size (list_to_set l : gset string)).
  { apply subseteq_size. intros y. rewrite elem_of_difference. by intros [? _]. }
  lia.
Qed.

Lemma notYetDefined_le inputTypes defined : 
  notYetDefined inputTypes defined <= length inputTypes.
Proof.
  unfold notYetDefined. etrans; [|apply size_list_to_set_le].
  apply subseteq_size. intros y. rewrite elem_of_difference. by intros [? _].
Qed.

Lemma notYetDefined_mono inputTypes (defined defined' : list (string * JSONSchema)) :
  defined.*1 ⊆ defined'.*1 ->
  notYetDefined inputTypes defined' <= notYetDefined inputTypes defined.
Proof.
  intros Hsub. apply subseteq_size. intros x.
  rewrite !elem_of_difference, !elem_of_list_to_set.
  intros [Hin Hnot]. split; [done|]. intros Hx. by apply Hnot, Hsub.
Qed.

Lemma notYetDefined_assign inputTypes typeName (s : JSONSchema) defined :
  typeName ∈ inputTypes ->
  typeName <> "__proto__" ->
  typeName ∉ defined.*1 ->
  notYetDefined inputTypes (assign typeName s defined)
  < notYetDefined inputTypes defined.
Proof.
  intros Hin Hne Hnot. apply subset_size. split.
  - intros x. rewrite !elem_of_difference, !elem_of_list_to_set.
    intros [? Hx]. split; [done|]. intros ?. apply Hx.
    by apply keys_assign_subseteq.
  - intros Hsub. specialize (Hsub typeName).
    rewrite !elem_of_difference, !elem_of_list_to_set in Hsub.
    destruct Hsub as [_ Hsub]; [done|]. apply Hsub.
    apply elem_of_keys_assign. by left.
Qed.

Section Returns.

Context (inputTypes : list string).
Hypothesis inputs_listed : inputTypesAmong graphQLSchema inputTypes.
Hypothesis no_proto : "__proto__" ∉ inputTypes.

Lemma inputObjectSchema_returns (recur : option TypeSchema) fuel objects
    typeName fields nonNull skipFields defined :
  typeName ∈ inputTypes ->
  (forall fuel', fuel = S fuel' ->
     exists g, recur = Some g /\ respects g /\ returnsWithin inputTypes fuel' g) ->
  definitions (the_root objects) = Some defined ->
  notYetDefined inputTypes defined <= fuel ->
  exists result,
    inputObjectSchema recur objects typeName fields nonNull skipFields
    = Returns result.
Proof.
  intros Hin Hrecur Hdefined Hfuel. unfold inputObjectSchema.
  rewrite Hdefined. case_bool_decide as Hkey; [by eexists|].
  assert (typeName <> "__proto__") as Hne by (by intros ->).
  pose proof (notYetDefined_assign inputTypes typeName
                (typed (nullable nonNull "object")) defined Hin Hne Hkey)
    as Hless.
  destruct fuel as [|fuel]; [lia|].
  destruct (Hrecur fuel eq_refl) as (g & -> & Hrespects & Hreturns).
  set (d0 := assign typeName (typed (nullable nonNull "object")) defined) in *.
  assert (the_root (on_root (set_definitions d0) objects)
          = set_definitions d0 (the_root objects)) as -> by (by destruct objects).
  match goal with
  | |- context [forEachRun ?body ?xs ?s] =>
      destruct (forEachRun_returns
                  (fun inside =>
                     exists r p d props,
                       inside = RootAndParent r p
                       /\ definitions r = Some d
                       /\ d0.*1 ⊆ d.*1
                       /\ properties p = Some props) body xs s)
        as (after & -> & (r & p & d & props & -> & Hd & _ & _))
  end.
  - by eexists _, _, d0, _.
  - intros inside f _ (r & p & d & props & -> & Hd & Hsub & Hprops).
    unfold fieldCallback. destruct (isLeaf _).
    { eexists. split; [done|]. by eexists _, _, _, _. }
    match goal with
    | |- context [g ?objects ?type ?name ?nonNull ?skip] =>
        destruct (Hreturns objects type name nonNull skip d)
          as ([fieldSchema inside] & Hcall); [done| |]
    end.
    { pose proof (notYetDefined_mono inputTypes _ _ Hsub). lia. }
    rewrite Hcall. cbn.
    destruct (Hrespects _ _ _ _ _ _ _ Hcall) as [Heffect Hgrows].
    destruct inside as [?|r' p']; [done|]. destruct Heffect as [_ ->].
    destruct (Hgrows d Hd) as (d' & Hd' & Hsub'). cbn in Hd'.
    cbn [the_parent]. rewrite properties_iter, Hprops.
    eexists. split; [done|]. cbn.
    eexists _, _, d', _. split; [done|]. split; [done|].
    split; [by etrans|done].
  - cbn. rewrite Hd. by eexists.
Qed.

Lemma namedTypeSchema_returns (recur : option TypeSchema) fuel objects
    typeName nonNull skipFields defined :
  (forall fuel', fuel = S fuel' ->
     exists g, recur = Some g /\ respects g /\ returnsWithin inputTypes fuel' g) ->
  definitions (the_root objects) = Some defined ->
  notYetDefined inputTypes defined <= fuel ->
  exists result,
    namedTypeSchema recur objects typeName nonNull skipFields = Returns result.
Proof.
  intros Hrecur Hdefined Hfuel. unfold VariablesSchema.namedTypeSchema.
  repeat case_match; try by eexists.
  eapply inputObjectSchema_returns; [|done..].
  by eapply inputs_listed.
Qed.

(** With one unit of fuel for every input object type that has no
    definition yet, [typeSchema] returns. *)
Lemma typeSchema_returns fuel : returnsWithin inputTypes fuel (typeSchema fuel).
Proof.
  induction fuel as [fuel IHfuel] using lt_wf_ind.
  intros objects type. revert objects.
  induction type as [inner IH|inner IH|typeName];
    intros objects name nonNull skipFields defined Hdefined Hfuel.
  - rewrite typeSchema_NonNullType. eapply IH; [|exact Hfuel].
    destruct objects; cbn in *; [|done]. by rewrite definitions_markNonNull.
  - rewrite typeSchema_ListType.
    edestruct IH as ([itemSchema after] & ->); [|exact Hfuel|by eexists].
    done.
  - rewrite typeSchema_NamedType.
    eapply namedTypeSchema_returns; [|done..].
    intros fuel' ->. eexists. split; [done|].
    split; [apply typeSchema_respects|]. apply IHfuel. lia.
Qed.

End Returns.

Local Abbreviation variableCallback :=
  (variableCallback graphQLSchema interpolateVariableDefinitionAsJSON
     customJsonScalars).
Local Abbreviation operationVariablesToJSONSchema :=
  (operationVariablesToJSONSchema graphQLSchema
     interpolateVariableDefinitionAsJSON customJsonScalars).

Lemma hideVariables_Returns keep hasVariable fields skipFields result :
  hideVariables keep hasVariable fields skipFields = Returns result ->
  is_Some result <-> negb (negb keep && hasVariable) = true.
Proof.
  unfold hideVariables. destruct keep, hasVariable; cbn.
  1,2,3: intros [= <-]; by split.
  destruct (updateSkipFields _ _); [|done]. intros [= <-]. by split.
Qed.

(** What one round of the loop over the variables does to the schema. *)
Lemma variableCallback_step fuel keepInternalVariables keepInjectedVariables
    schema variable schema' :
  variableCallback fuel keepInternalVariables keepInjectedVariables schema
    variable = Returns schema' ->
  if visible keepInternalVariables keepInjectedVariables variable then
    exists variableSchema props r',
      properties schema = Some props
      /\ without_definitions r'
         = Nat.iter (leading (strippedVariableType variable))
             (markNonNull (GraphQL.variable_name (node variable)))
             (without_definitions schema)
      /\ schema'
         = set_properties
             (assign (GraphQL.variable_name (node variable)) variableSchema
                props) r'
  else schema' = schema.
Proof.
  unfold VariablesSchema.variableCallback, visible. intros H.
  apply bind_Returns in H as (internal & Hinternal & H).
  apply hideVariables_Returns in Hinternal.
  destruct internal as [skipFields|].
  2:{ destruct (negb (negb keepInternalVariables && _)).
      - by destruct Hinternal as [_ []].
      - cbn. by injection H as <-. }
  destruct Hinternal as [Hinternal _]. rewrite Hinternal by done.
  apply bind_Returns in H as (injected & Hinjected & H).
  apply hideVariables_Returns in Hinjected.
  destruct injected as [skipFields'|].
  2:{ destruct (negb (negb keepInjectedVariables && _)).
      - by destruct Hinjected as [_ []].
      - cbn. by injection H as <-. }
  destruct Hinjected as [Hinjected _]. rewrite Hinjected by done. cbn.
  unfold strippedVariableType.
  destruct (variable_type variable) as [inner|inner|typeName],
    (GraphQL.defaultValue (node variable)) as [value|];
    cbv beta iota zeta in H;
    apply bind_Returns in H as ([variableSchema after] & Hcall & H);
    destruct (typeSchema_respects _ _ _ _ _ _ _ _ Hcall) as [Heffect _];
    (destruct after as [r'|]; [|done]); cbn [effect] in Heffect;
    cbn [the_root] in H;
    (assert (properties r' = properties schema) as Hprops;
     [ change (properties (without_definitions r')
               = properties (without_definitions schema));
       by rewrite Heffect, properties_iter |]);
    rewrite Hprops in H; (destruct (properties schema) as [props|]; [|done]);
    injection H as <-; by eexists _, _, _.
Qed.

Lemma isObject_markNonNull name s : isObject (markNonNull name s) = isObject s.
Proof. unfold isObject. by rewrite type_markNonNull. Qed.

Lemma required_markNonNull name s :
  default [] (required (markNonNull name s))
  = default [] (required s) ++ (if isObject s then [name] else []).
Proof.
  unfold markNonNull, isObject. destruct (type s) as [[t|]|]; cbn.
  2,3: by rewrite app_nil_r.
  repeat (case_match; try done); by rewrite app_nil_r.
Qed.

Lemma required_iter k name s :
  default [] (required (Nat.iter k (markNonNull name) s))
  = default [] (required s) ++ (if isObject s then replicate k name else []).
Proof.
  revert s. induction k as [|k IH]; intros s.
  - cbn. destruct (isObject s); by rewrite app_nil_r.
  - rewrite Nat.iter_succ_r, IH, required_markNonNull, isObject_markNonNull.
    destruct (isObject s); [|by rewrite !app_nil_r].
    by rewrite <- app_assoc.
Qed.

Lemma leading_wellFormed type :
  wellFormed type = true ->
  leading type = if isNonNull type then 1 else 0.
Proof. destruct type as [[]| |]; cbn; done. Qed.

Lemma leading_strippedVariableType variable :
  wellFormed (variable_type variable) = true ->
  leading (strippedVariableType variable)
  = if requiredVariable variable then 1 else 0.
Proof.
  unfold strippedVariableType, requiredVariable.
  destruct (variable_type variable) as [[]| |],
    (GraphQL.defaultValue (node variable)); cbn; done.
Qed.

(** The loop over the variables: the type and [additionalProperties] of
    the schema stay, its properties gain the names of the visible
    variables, and its [required] gains each visible variable once for
    every leading [!] of the type passed on. *)
Lemma variables_loop fuel keepInternalVariables keepInjectedVariables
    variables schema schema' :
  forEachRun
    (variableCallback fuel keepInternalVariables keepInjectedVariables)
    variables schema = Returns schema' ->
  type schema' = type schema
  /\ additionalProperties schema' = additionalProperties schema
  /\ (is_Some (properties schema) -> is_Some (properties schema'))
  /\ (forall k,
        k ∈ keys (properties schema')
        <-> k ∈ keys (properties schema)
            \/ (k <> "__proto__"
                /\ exists variable,
                     variable ∈ variables
                     /\ visible keepInternalVariables keepInjectedVariables
                          variable = true
                     /\ GraphQL.variable_name (node variable) = k))
  /\ default [] (required schema')
     = default [] (required schema)
       ++ (if isObject schema then
             flat_map
               (fun variable =>
                  if visible keepInternalVariables keepInjectedVariables
                       variable
                  then replicate (leading (strippedVariableType variable))
                         (GraphQL.variable_name (node variable))
                  else [])
               variables
           else []).
Proof.
  revert schema. induction variables as [|variable variables IH]; intros schema.
  - cbn. intros [= <-]. split; [done|]. split; [done|]. split; [done|].
    split.
    + intros k. split; [by left|]. intros [H|(_ & v & Hv & _)]; [done|].
      by apply elem_of_nil in Hv.
    + destruct (isObject schema); by rewrite app_nil_r.
  - cbn [forEachRun]. intros H.
    apply bind_Returns in H as (schema1 & Hstep & Hrest).
    apply variableCallback_step in Hstep.
    destruct (IH _ Hrest) as (Htype & Hadditional & Hsome & Hkeys & Hrequired).
    destruct (visible keepInternalVariables keepInjectedVariables variable)
      eqn:Hvisible.
    + destruct Hstep as (variableSchema & props & r' & Hprops & Hr' & ->).
      cbn [type additionalProperties set_properties properties required]
        in *.
      assert (type r' = type schema) as Htype'.
      { change (type (without_definitions r')
                = type (without_definitions schema)).
        by rewrite Hr', type_iter. }
      assert (additionalProperties r' = additionalProperties schema) as Hadd'.
      { change (additionalProperties (without_definitions r')
                = additionalProperties (without_definitions schema)).
        rewrite Hr'. clear. generalize (without_definitions schema).
        induction (leading _) as [|k IH]; intros s; [done|].
        rewrite Nat.iter_succ_r, IH. unfold markNonNull.
        destruct (type s) as [[t|]|]; [|done|done].
        repeat (case_match; try done). }
      assert (default [] (required r')
              = default [] (required schema)
                ++ (if isObject schema then
                      replicate (leading (strippedVariableType variable))
                        (GraphQL.variable_name (node variable))
                    else [])) as Hreq'.
      { change (default [] (required (without_definitions r')) = 
                default [] (required (without_definitions schema)) ++
                (if isObject (without_definitions schema) then
                   replicate (leading (strippedVariableType variable))
                     (GraphQL.variable_name (node variable))
                 else [])).
        by rewrite Hr', required_iter. }
      assert (isObject (set_properties
                          (assign (GraphQL.variable_name (node variable))
                             variableSchema props) r')
              = isObject schema) as Hobject.
      { unfold isObject. cbn. by rewrite Htype'. }
      split; [congruence|]. split; [congruence|]. split; [by intros _; apply Hsome|].
      split.
      * intros k. rewrite Hkeys, Hprops. cbn. rewrite elem_of_keys_assign.
        split.
        -- intros [[[-> Hne]|Hk]|(Hne & v & Hv & Hvis & Hname)].
           ++ right. split; [done|]. exists variable.
              split; [apply elem_of_cons; by left|done].
           ++ by left.
           ++ right. split; [done|]. exists v.
              split; [apply elem_of_cons; by right|done].
        -- intros [Hk|(Hne & v & Hv & Hvis & Hname)]; [by left; right|].
           apply elem_of_cons in Hv as [->|Hv].
           ++ left. left. by subst k.
           ++ right. split; [done|]. by exists v.
      * rewrite Hrequired, Hobject, Hreq'. cbn [flat_map].
        rewrite Hvisible. destruct (isObject schema); [|by rewrite !app_nil_r].
        by rewrite <- app_assoc.
    + subst schema1. split; [done|]. split; [done|]. split; [done|]. split.
      * intros k. rewrite Hkeys. split.
        -- intros [Hk|(Hne & v & Hv & Hvis & Hname)]; [by left|].
           right. split; [done|]. exists v.
           split; [apply elem_of_cons; by right|done].
        -- intros [Hk|(Hne & v & Hv & Hvis & Hname)]; [by left|].
           apply elem_of_cons in Hv as [->|Hv]; [congruence|].
           right. split; [done|]. by exists v.
      * rewrite Hrequired. cbn [flat_map]. by rewrite Hvisible.
Qed.

Lemma required_never_empty_markNonNull name s :
  required s <> Some [] -> required (markNonNull name s) <> Some [].
Proof.
  unfold markNonNull. destruct (type s) as [[t|]|]; [|done|done].
  repeat (case_match; try done). cbn. intros _ [= Hnil].
  by apply app_eq_nil in Hnil as [_ ?].
Qed.

Lemma required_never_empty_iter k name s :
  required s <> Some [] -> required (Nat.iter k (markNonNull name) s) <> Some [].
Proof.
  intros H. induction k as [|k IH]; [done|]. rewrite Nat.iter_succ.
  by apply required_never_empty_markNonNull.
Qed.

Lemma variables_loop_required fuel keepInternalVariables keepInjectedVariables
    variables schema schema' :
  forEachRun
    (variableCallback fuel keepInternalVariables keepInjectedVariables)
    variables schema = Returns schema' ->
  required schema <> Some [] ->
  required schema' <> Some [].
Proof.
  intros Hloop Hschema.
  eapply (forEachRun_invariant (fun s => required s <> Some []));
    [exact Hschema| |exact Hloop].
  intros s variable s' _ Hs Hstep. apply variableCallback_step in Hstep.
  destruct (visible _ _ _); [|by subst].
  destruct Hstep as (variableSchema & props & r' & _ & Hr' & ->). cbn.
  change (required (without_definitions r') <> Some []). rewrite Hr'.
  by apply required_never_empty_iter.
Qed.

Lemma directiveDefinedFields_subset variable (names names' : list string) :
  names ⊆ names' ->
  directiveDefinedFields variable names
  ⊆ directiveDefinedFields variable names'.
Proof.
  intros Hsub field. unfold directiveDefinedFields.
  rewrite !list_elem_of_omap. intros (directive & Hin & Hfield).
  exists directive. split; [|done]. by eapply directivesNamed_subset.
Qed.

Lemma injectedVariables_subset : injectedVariables ⊆ internalVariables.
Proof.
  intros name. unfold injectedVariables, internalVariables.
  rewrite !elem_of_cons. first [tauto | intuition congruence].
Qed.

Lemma hideVariables_returns keep hasVariable fields skipFields :
  Forall (fun field => ownNames (JS.split_dot field)) fields ->
  exists result, hideVariables keep hasVariable fields skipFields = Returns result.
Proof.
  intros Hown. unfold hideVariables.
  destruct keep; [by eexists|]. destruct hasVariable; [by eexists|].
  destruct (lookupPath_updateSkipFields _ skipFields Hown) as (? & -> & _).
  by eexists.
Qed.

Lemma variableCallback_returns inputTypes fuel keepInternalVariables
    keepInjectedVariables schema variable :
  inputTypesAmong graphQLSchema inputTypes ->
  "__proto__" ∉ inputTypes ->
  length inputTypes <= fuel ->
  ownPaths variable ->
  is_Some (definitions schema) ->
  is_Some (properties schema) ->
  exists schema',
    variableCallback fuel keepInternalVariables keepInjectedVariables schema
      variable = Returns schema'
    /\ is_Some (definitions schema') /\ is_Some (properties schema').
Proof.
  intros Hinputs Hproto Hfuel Hown [defined Hdefined] [props Hprops].
  unfold VariablesSchema.variableCallback.
  edestruct hideVariables_returns as (internal & ->); [exact Hown|]. cbn.
  destruct internal as [skipFields|]; [|by eexists].
  edestruct hideVariables_returns as (injected & ->).
  { eapply Forall_forall. intros field Hfield.
    eapply (proj1 (Forall_forall _ _) Hown).
    by eapply directiveDefinedFields_subset;
      [apply injectedVariables_subset|]. }
  cbn. destruct injected as [skipFields'|]; [|by eexists].
  match goal with
  | |- context [let '(_, _) := ?m in _] => destruct m as [type nonNullType]
  end.
  destruct (typeSchema_returns inputTypes Hinputs Hproto fuel
              (RootIsParent schema) type
              (GraphQL.variable_name (node variable)) nonNullType
              (Some skipFields') defined Hdefined)
    as ([variableSchema after] & Hcall).
  { etrans; [apply notYetDefined_le|done]. }
  rewrite Hcall. cbn.
  destruct (typeSchema_respects _ _ _ _ _ _ _ _ Hcall) as [Heffect Hgrows].
  destruct (effect_properties _ _ _ _ Heffect) as [_ Hsame].
  destruct (Hgrows defined Hdefined) as (defined' & Hdefined' & _).
  rewrite Hsame. cbn [the_root]. rewrite Hprops.
  eexists. split; [done|]. cbn. by rewrite Hdefined'.
Qed.

Section MoreFuel.

Context (g g' : option TypeSchema).
Hypothesis more :
  forall f, g = Some f ->
  exists f',
    g' = Some f'
    /\ forall objects type name nonNull skipFields result,
         f objects type name nonNull skipFields = Returns result ->
         f' objects type name nonNull skipFields = Returns result.

Lemma forEachRun_mono {A S} (body body' : S -> A -> Run S) xs s s' :
  (forall s x s', body s x = Returns s' -> body' s x = Returns s') ->
  forEachRun body xs s = Returns s' ->
  forEachRun body' xs s = Returns s'.
Proof.
  intros Hbody. revert s. induction xs as [|x xs IH]; intros s; cbn; [done|].
  intros H. apply bind_Returns in H as (s1 & H1 & H).
  rewrite (Hbody _ _ _ H1). cbn. by apply IH.
Qed.

Lemma fieldCallback_more skipFields inside f after :
  fieldCallback g skipFields inside f = Returns after ->
  fieldCallback g' skipFields inside f = Returns after.
Proof.
  unfold fieldCallback. destruct (isLeaf _); [done|].
  destruct g as [f0|]; [|done].
  destruct (more f0 eq_refl) as (f' & -> & Hf').
  intros H. apply bind_Returns in H as ([fieldSchema inside'] & Hcall & H).
  by rewrite (Hf' _ _ _ _ _ _ Hcall).
Qed.

Lemma namedTypeSchema_more objects typeName nonNull skipFields result :
  namedTypeSchema g objects typeName nonNull skipFields = Returns result ->
  namedTypeSchema g' objects typeName nonNull skipFields = Returns result.
Proof.
  unfold VariablesSchema.namedTypeSchema. repeat case_match; try done.
  unfold inputObjectSchema. repeat case_match; try done.
  intros Hrun. apply bind_Returns in Hrun as (after & Hloop & Hrun).
  by rewrite (forEachRun_mono _ _ _ _ _ (fieldCallback_more skipFields) Hloop).
Qed.

End MoreFuel.

(** What [typeSchema] returns does not depend on the fuel that was left
    over. *)
Lemma typeSchema_more_fuel fuel fuel' objects type name nonNull skipFields
    result :
  fuel <= fuel' ->
  typeSchema fuel objects type name nonNull skipFields = Returns result ->
  typeSchema fuel' objects type name nonNull skipFields = Returns result.
Proof.
  revert fuel' objects type name nonNull skipFields result.
  induction fuel as [fuel IHfuel] using lt_wf_ind.
  intros fuel' objects type. revert objects.
  induction type as [inner IH|inner IH|typeName];
    intros objects name nonNull skipFields result Hle.
  - rewrite !typeSchema_NonNullType. by apply IH.
  - rewrite !typeSchema_ListType. intros H.
    apply bind_Returns in H as ([itemSchema after] & Hcall & H).
    by rewrite (IH _ _ _ _ _ Hle Hcall).
  - rewrite !typeSchema_NamedType. apply namedTypeSchema_more.
    intros f Hf. destruct fuel as [|fuel]; [done|]. injection Hf as <-.
    destruct fuel' as [|fuel']; [lia|]. eexists. split; [done|].
    intros. eapply IHfuel; [| |done]; lia.
Qed.

Lemma operationVariablesToJSONSchema_more_fuel fuel fuel' variableDefinitions
    keepInternalVariables keepInjectedVariables schema :
  fuel <= fuel' ->
  operationVariablesToJSONSchema fuel variableDefinitions
    keepInternalVariables keepInjectedVariables = Returns schema ->
  operationVariablesToJSONSchema fuel' variableDefinitions
    keepInternalVariables keepInjectedVariables = Returns schema.
Proof.
  intros Hle. unfold VariablesSchema.operationVariablesToJSONSchema.
  destruct variableDefinitions as [variables|]; [|done].
  apply forEachRun_mono. intros s variable s'.
  unfold VariablesSchema.variableCallback. intros H.
  apply bind_Returns in H as (internal & -> & H). rewrite Returns_bind.
  destruct internal as [skipFields|]; [|done].
  apply bind_Returns in H as (injected & -> & H). rewrite Returns_bind.
  destruct injected as [skipFields'|]; [|done].
  match goal with
  | |- context [let '(_, _) := ?m in _] => destruct m as [type nonNullType]
  end.
  apply bind_Returns in H as ([variableSchema after] & Hcall & H).
  by rewrite (typeSchema_more_fuel _ _ _ _ _ _ _ _ Hle Hcall).
Qed.

Lemma additionalProperties_iter k name s :
  additionalProperties (Nat.iter k (markNonNull name) s)
  = additionalProperties s.
Proof.
  revert s. induction k as [|k IH]; intros s; [done|].
  rewrite Nat.iter_succ_r, IH. unfold markNonNull.
  destruct (type s) as [[t|]|]; [|done|done].
  repeat (case_match; try done).
Qed.

Lemma isArray_markNonNull name s : isArray (markNonNull name s) = isArray s.
Proof. unfold isArray. by rewrite type_markNonNull. Qed.

Lemma minItems_markNonNull name s :
  minItems (markNonNull name s) = if isArray s then Some 1 else minItems s.
Proof.
  unfold markNonNull, isArray. destruct (type s) as [[t|]|]; [|done|done].
  repeat (case_match; try done).
Qed.

Lemma minItems_iter k name s :
  minItems (Nat.iter k (markNonNull name) s)
  = if isArray s && Nat.ltb 0 k then Some 1 else minItems s.
Proof.
  revert s. induction k as [|k IH]; intros s; [by rewrite andb_false_r|].
  rewrite Nat.iter_succ_r, IH, isArray_markNonNull, minItems_markNonNull.
  destruct (isArray s); [by destruct (Nat.ltb 0 k)|done].
Qed.

(** The schema [operationVariablesToJSONSchema] returns, read off the
    loop. *)
Lemma operationVariablesToJSONSchema_summary fuel variables
    keepInternalVariables keepInjectedVariables schema :
  operationVariablesToJSONSchema fuel (Some variables) keepInternalVariables
    keepInjectedVariables = Returns schema ->
  type schema = Some (One "object")
  /\ additionalProperties schema = Some false
  /\ is_Some (properties schema)
  /\ (forall k,
        k ∈ keys (properties schema)
        <-> k <> "__proto__"
            /\ exists variable,
                 variable ∈ variables
                 /\ visible keepInternalVariables keepInjectedVariables
                      variable = true
                 /\ GraphQL.variable_name (node variable) = k)
  /\ default [] (required schema)
     = flat_map
         (fun variable =>
            if visible keepInternalVariables keepInjectedVariables variable
            then replicate (leading (strippedVariableType variable))
                   (GraphQL.variable_name (node variable))
            else [])
         variables
  /\ required schema <> Some [].
Proof.
  unfold VariablesSchema.operationVariablesToJSONSchema. intros H.
  pose proof (variables_loop_required _ _ _ _ _ _ H) as Hnever.
  apply variables_loop in H
    as (Htype & Hadditional & Hsome & Hkeys & Hrequired).
  split; [done|]. split; [done|]. split; [by apply Hsome|]. split.
  - intros k. rewrite Hkeys. cbn. split; [|by right].
    intros [Hk|Hk]; [|done]. by apply elem_of_nil in Hk.
  - split; [done|]. by apply Hnever.
Qed.

End WithSchema.

(** X15.  The schema of the variables is compiled for every operation, also
    when the input object types of the GraphQL schema refer to each other
    or to themselves: a type that already has a definition is referred to
    and not entered again.  With the input object types among [inputTypes],
    none of them called [__proto__], and the [on:] paths of the directives
    made of names that objects do not inherit, the compiler returns a
    schema, and the same one however much deeper than [length inputTypes]
    the model is allowed to follow it. *)
Theorem variables_schema_is_returned (graphQLSchema : GraphQLSchema)
    (interpolateVariableDefinitionAsJSON customJsonScalars : list string)
    (inputTypes : list string)
    (variableDefinitions : option (list VariableDefinition))
    (keepInternalVariables keepInjectedVariables : bool) :
  inputTypesAmong graphQLSchema inputTypes ->
  "__proto__" ∉ inputTypes ->
  Forall ownPaths (default [] variableDefinitions) ->
  exists schema,
    forall fuel,
      length inputTypes <= fuel ->
      operationVariablesToJSONSchema graphQLSchema
        interpolateVariableDefinitionAsJSON customJsonScalars fuel
        variableDefinitions keepInternalVariables keepInjectedVariables
      = Returns schema.
Proof.
  intros Hinputs Hproto Hown.
  assert (exists schema,
            operationVariablesToJSONSchema graphQLSchema
              interpolateVariableDefinitionAsJSON customJsonScalars
              (length inputTypes) variableDefinitions keepInternalVariables
              keepInjectedVariables = Returns schema) as [schema Hschema].
  { unfold operationVariablesToJSONSchema.
    destruct variableDefinitions as [variables|]; [|by eexists].
    cbn in Hown.
    match goal with
    | |- context [forEachRun ?body ?xs ?s] =>
        destruct (forEachRun_returns
                    (fun schema =>
                       is_Some (definitions schema)
                       /\ is_Some (properties schema)) body xs s)
          as (schema & -> & _)
    end.
    - by split.
    - intros schema variable Hvariable [Hdefined Hprops].
      eapply variableCallback_returns; try done.
      by eapply (proj1 (Forall_forall _ _) Hown).
    - by eexists. }
  exists schema. intros fuel Hfuel.
  by eapply operationVariablesToJSONSchema_more_fuel.
Qed.

Lemma variables_schema_is_returned_witness :
  exists schema,
    forall fuel,
      1 <= fuel ->
      operationVariablesToJSONSchema shopSchema [] [] fuel
        (Some searchVariables) false false = Returns schema.
Proof.
  apply (variables_schema_is_returned shopSchema [] [] ["Filter"]
           (Some searchVariables) false false).
  - intros typeName namedType fields. unfold shopSchema.
    repeat case_match; try done; intros [= <-]; try done.
    intros _. by apply (bool_decide_unpack _).
  - by apply (bool_decide_unpack _).
  - cbn. repeat constructor; by apply (bool_decide_unpack _).
Defined.

Lemma required_names variables keepInternalVariables keepInjectedVariables :
  Forall (fun variable => wellFormed (variable_type variable) = true)
    variables ->
  flat_map
    (fun variable =>
       if visible keepInternalVariables keepInjectedVariables variable
       then replicate (leading (strippedVariableType variable))
              (GraphQL.variable_name (node variable))
       else [])
    variables
  = map (fun variable => GraphQL.variable_name (node variable))
      (List.filter
         (fun variable =>
            visible keepInternalVariables keepInjectedVariables variable
            && requiredVariable variable)
         variables).
Proof.
  induction 1 as [|variable variables Hwell _ IH]; [done|]. cbn.
  rewrite IH, (leading_strippedVariableType _ Hwell).
  by destruct (visible _ _ _), (requiredVariable _).
Qed.

(** X16.  The variables a schema requires.  [required] lists, in the order of
    the operation, the variables that the schema shows, that are declared
    with [!] and that have no default value; when there is none, the
    schema has no [required] at all.  A variable with a default value is
    never required, and neither is a hidden one. *)
Theorem required_variables (graphQLSchema : GraphQLSchema)
    (interpolateVariableDefinitionAsJSON customJsonScalars : list string)
    (fuel : nat) (variables : list VariableDefinition)
    (keepInternalVariables keepInjectedVariables : bool)
    (schema : JSONSchema) :
  Forall (fun variable => wellFormed (variable_type variable) = true)
    variables ->
  operationVariablesToJSONSchema graphQLSchema
    interpolateVariableDefinitionAsJSON customJsonScalars fuel
    (Some variables) keepInternalVariables keepInjectedVariables
  = Returns schema ->
  let names :=
    map (fun variable => GraphQL.variable_name (node variable))
      (List.filter
         (fun variable =>
            visible keepInternalVariables keepInjectedVariables variable
            && requiredVariable variable)
         variables) in
  required schema = match names with [] => None | _ => Some names end.
Proof.
  intros Hwell Hrun names.
  apply operationVariablesToJSONSchema_summary in Hrun
    as (_ & _ & _ & _ & Hrequired & Hnever).
  rewrite (required_names _ _ _ Hwell) in Hrequired. fold names in Hrequired.
  destruct (required schema) as [[|name rest]|]; cbn in Hrequired;
    [done|by rewrite <- Hrequired|by rewrite <- Hrequired].
Qed.

Lemma required_variables_witness :
  exists schema,
    operationVariablesToJSONSchema shopSchema [] [] 1 (Some searchVariables)
      false false = Returns schema
    /\ required schema = Some ["filter"; "tags"].
Proof.
  eexists. split; [by vm_compute|].
  refine (required_variables shopSchema [] [] 1 searchVariables false false _
            _ _).
  - by repeat constructor.
  - by vm_compute.
Defined.

(** X17.  The properties of a schema.  The schema returned is an object schema
    that admits no additional properties, and it has a property for a name
    exactly when a variable of that name is shown: with both flags off a
    variable is hidden by any of the five directives written without
    [on:], with [keepInternalVariables] by the three injecting ones only,
    with both flags on by none.  A variable called [__proto__] gets no
    property. *)
Theorem schema_shows_the_visible_variables (graphQLSchema : GraphQLSchema)
    (interpolateVariableDefinitionAsJSON customJsonScalars : list string)
    (fuel : nat) (variables : list VariableDefinition)
    (keepInternalVariables keepInjectedVariables : bool)
    (schema : JSONSchema) :
  operationVariablesToJSONSchema graphQLSchema
    interpolateVariableDefinitionAsJSON customJsonScalars fuel
    (Some variables) keepInternalVariables keepInjectedVariables
  = Returns schema ->
  type schema = Some (One "object")
  /\ additionalProperties schema = Some false
  /\ is_Some (properties schema)
  /\ forall name,
       name ∈ keys (properties schema)
       <-> name <> "__proto__"
           /\ exists variable,
                variable ∈ variables
                /\ GraphQL.variable_name (node variable) = name
                /\ (keepInternalVariables = false ->
                    hasInternalVariable (node variable) = false)
                /\ (keepInjectedVariables = false ->
                    hasInjectedVariable (node variable) = false).
Proof.
  intros Hrun.
  apply operationVariablesToJSONSchema_summary in Hrun
    as (Htype & Hadditional & Hsome & Hkeys & _).
  split; [done|]. split; [done|]. split; [done|].
  intros name. rewrite Hkeys. unfold visible.
  split; intros (Hne & variable & Hin & H); (split; [done|]);
    exists variable; (split; [done|]).
  - destruct H as [Hvisible <-]. split; [done|].
    apply andb_true_iff in Hvisible as [Hi Hj].
    split; intros ->.
    + by destruct (hasInternalVariable _).
    + by destruct (hasInjectedVariable _).
  - destruct H as (<- & Hi & Hj). split; [|done].
    destruct keepInternalVariables, keepInjectedVariables;
      cbn [negb andb];
      try rewrite Hi by done; try rewrite Hj by done; done.
Qed.

Lemma schema_shows_the_visible_variables_witness :
  exists schema,
    operationVariablesToJSONSchema shopSchema [] [] 1 (Some searchVariables)
      false false = Returns schema
    /\ keys (properties schema) = ["filter"; "limit"; "role"; "tags"]
    /\ type schema = Some (One "object").
Proof.
  eexists. split; [by vm_compute|]. split; [by vm_compute|].
  refine (proj1 (schema_shows_the_visible_variables shopSchema [] [] 1
                   searchVariables false false _ _)).
  by vm_compute.
Defined.

(** X18.  The four schemas of an operation are nested.  Turning a flag on only
    adds properties: whatever the fuel, the scalars taken as JSON and the
    custom scalars of the two calls, every property of the schema compiled
    with fewer variables kept is a property of the one compiled with more.
    So the public [VariablesSchema] lies within [InternalVariablesSchema],
    and that within [InjectedVariablesSchema]. *)
Theorem kept_variables_only_add_properties
    (graphQLSchema graphQLSchema' : GraphQLSchema)
    (interpolate interpolate' customJsonScalars customJsonScalars' : list string)
    (fuel fuel' : nat) (variables : list VariableDefinition)
    (keepInternalVariables keepInjectedVariables : bool)
    (keepInternalVariables' keepInjectedVariables' : bool)
    (schema schema' : JSONSchema) :
  (keepInternalVariables = true -> keepInternalVariables' = true) ->
  (keepInjectedVariables = true -> keepInjectedVariables' = true) ->
  operationVariablesToJSONSchema graphQLSchema interpolate customJsonScalars
    fuel (Some variables) keepInternalVariables keepInjectedVariables
  = Returns schema ->
  operationVariablesToJSONSchema graphQLSchema' interpolate'
    customJsonScalars' fuel' (Some variables) keepInternalVariables'
    keepInjectedVariables'
  = Returns schema' ->
  keys (properties schema) ⊆ keys (properties schema').
Proof.
  intros Hinternal Hinjected Hrun Hrun'.
  apply operationVariablesToJSONSchema_summary in Hrun
    as (_ & _ & _ & Hkeys & _).
  apply operationVariablesToJSONSchema_summary in Hrun'
    as (_ & _ & _ & Hkeys' & _).
  intros name. rewrite Hkeys, Hkeys'.
  intros (Hne & variable & Hin & Hvisible & Hname). split; [done|].
  exists variable. split; [done|]. split; [|done].
  revert Hvisible. unfold visible.
  destruct (hasInternalVariable _), (hasInjectedVariable _),
    keepInternalVariables, keepInjectedVariables,
    keepInternalVariables', keepInjectedVariables'; cbn; try done;
    intros _;
    first [ by specialize (Hinternal eq_refl)
          | by specialize (Hinjected eq_refl) ].
Qed.

Lemma kept_variables_only_add_properties_witness :
  exists schema schema',
    operationVariablesToJSONSchema shopSchema [] [] 1 (Some searchVariables)
      false false = Returns schema
    /\ operationVariablesToJSONSchema shopSchema [] [] 1
         (Some searchVariables) true false = Returns schema'
    /\ keys (properties schema) ⊆ keys (properties schema').
Proof.
  eexists _, _. split; [by vm_compute|]. split; [by vm_compute|].
  refine (kept_variables_only_add_properties shopSchema shopSchema [] [] [] []
            1 1 searchVariables false false true false _ _ _ _ _ _);
    by vm_compute.
Defined.

(** The loop over the fields of an input object type: the type and
    [additionalProperties] of its schema stay, the properties gain the
    names of the fields shown, and [required] gains each field shown once
    for every leading [!] of the type passed on. *)
Lemma fields_loop (recur : option TypeSchema) skipFields fields r p after :
  (forall g, recur = Some g -> respects g) ->
  forEachRun (fieldCallback recur skipFields) fields (RootAndParent r p)
  = Returns after ->
  exists r' p',
    after = RootAndParent r' p'
    /\ type p' = type p
    /\ additionalProperties p' = additionalProperties p
    /\ (is_Some (properties p) -> is_Some (properties p'))
    /\ (forall k,
          k ∈ keys (properties p')
          <-> k ∈ keys (properties p)
              \/ (k <> "__proto__"
                  /\ exists f,
                       f ∈ fields /\ field_name f = k
                       /\ shownField skipFields f = true))
    /\ default [] (required p')
       = default [] (required p)
         ++ (if isObject p then
               flat_map
                 (fun f =>
                    if shownField skipFields f
                    then replicate (leading (strippedType f)) (field_name f)
                    else [])
                 fields
             else [])
    /\ (required p <> Some [] -> required p' <> Some []).
Proof.
  intros Hrecur. revert r p. induction fields as [|f fields IH]; intros r p.
  - cbn. intros [= <-]. exists r, p. split; [done|]. split; [done|].
    split; [done|]. split; [done|]. split; [|split; [|done]].
    + intros k. split; [by left|]. intros [H|(_ & f & Hf & _)]; [done|].
      by apply elem_of_nil in Hf.
    + destruct (isObject p); by rewrite app_nil_r.
  - cbn [forEachRun]. intros H.
    apply bind_Returns in H as (inside & Hstep & Hrest).
    apply (fieldCallback_step _ _ _ _ _ _ Hrecur) in Hstep
      as (r1 & p1 & -> & _ & _ & Hp1).
    destruct (IH _ _ Hrest)
      as (r' & p' & -> & Htype & Hadditional & Hsome & Hkeys & Hrequired
          & Hnever).
    exists r', p'. split; [done|].
    destruct (shownField skipFields f) eqn:Hshown.
    + destruct Hp1 as (fieldSchema & props & Hprops & ->).
      cbn [type additionalProperties set_properties properties required]
        in *.
      rewrite type_iter in Htype. rewrite additionalProperties_iter in Hadditional.
      assert (isObject
                (set_properties (assign (field_name f) fieldSchema props)
                   (Nat.iter (leading (strippedType f))
                      (markNonNull (field_name f)) p))
              = isObject p) as Hobject.
      { unfold isObject. cbn. by rewrite type_iter. }
      split; [done|]. split; [done|]. split; [by intros _; apply Hsome|].
      split; [|split].
      * intros k. rewrite Hkeys, Hprops. cbn. rewrite elem_of_keys_assign.
        split.
        -- intros [[[-> Hne]|Hk]|(Hne & f' & Hf' & Hname & Hvis)].
           ++ right. split; [done|]. exists f.
              split; [apply elem_of_cons; by left|done].
           ++ by left.
           ++ right. split; [done|]. exists f'.
              split; [apply elem_of_cons; by right|done].
        -- intros [Hk|(Hne & f' & Hf' & Hname & Hvis)]; [by left; right|].
           apply elem_of_cons in Hf' as [->|Hf'].
           ++ left. left. by subst k.
           ++ right. split; [done|]. by exists f'.
      * rewrite Hrequired, Hobject, required_iter. cbn [flat_map].
        rewrite Hshown. destruct (isObject p); [|by rewrite !app_nil_r].
        by rewrite <- app_assoc.
      * intros Hp. apply Hnever. by apply required_never_empty_iter.
    + subst p1. split; [done|]. split; [done|]. split; [done|].
      split; [|split; [|done]].
      * intros k. rewrite Hkeys. split.
        -- intros [Hk|(Hne & f' & Hf' & Hname & Hvis)]; [by left|].
           right. split; [done|]. exists f'.
           split; [apply elem_of_cons; by right|done].
        -- intros [Hk|(Hne & f' & Hf' & Hname & Hvis)]; [by left|].
           apply elem_of_cons in Hf' as [->|Hf']; [congruence|].
           right. split; [done|]. by exists f'.
      * rewrite Hrequired. cbn [flat_map]. by rewrite Hshown.
Qed.

Lemma leading_strippedType f :
  wellFormed (field_type f) = true ->
  leading (strippedType f) = if requiredField f then 1 else 0.
Proof.
  unfold strippedType, requiredField.
  destruct (field_type f) as [[]| |], (field_defaultValue f); cbn; done.
Qed.

Lemma required_field_names skipFields fields :
  Forall (fun f => wellFormed (field_type f) = true) fields ->
  flat_map
    (fun f =>
       if shownField skipFields f
       then replicate (leading (strippedType f)) (field_name f)
       else [])
    fields
  = map field_name
      (List.filter (fun f => shownField skipFields f && requiredField f)
         fields).
Proof.
  induction 1 as [|f fields Hwell _ IH]; [done|]. cbn.
  rewrite IH, (leading_strippedType _ Hwell).
  by destruct (shownField _ _), (requiredField _).
Qed.

Lemma namedTypeSchema_input_object graphQLSchema interpolate customJsonScalars
    recur objects typeName namedType fields nonNull skipFields :
  resolvesToInputObject graphQLSchema interpolate customJsonScalars typeName
    namedType fields ->
  namedTypeSchema graphQLSchema interpolate customJsonScalars recur objects
    typeName nonNull skipFields
  = inputObjectSchema recur objects (type_name namedType) fields nonNull
      skipFields.
Proof.
  intros (Hscalar & Hcustom & Hget & Hnode & Hjson).
  unfold namedTypeSchema.
  assert (forall scalar,
            scalar ∈ ["Int"; "Boolean"; "ID"; "Float"; "String"; "JSON"] ->
            String.eqb typeName scalar = false) as Hno.
  { intros scalar Hin. apply String.eqb_neq. by intros ->. }
  rewrite !Hno by (by apply (bool_decide_unpack _)).
  rewrite bool_decide_eq_false_2 by done. rewrite Hget, Hnode.
  rewrite (bool_decide_eq_false_2 _ Hjson). by rewrite andb_false_r.
Qed.

(** X19.  The definition of an input object type.  A reference to an input
    object type is compiled to a [$ref].  The first reference enters the
    type and leaves its definition in the root: an object schema without
    additional properties, with a property for every field but those to
    skip (the leaves of [skipFields], and, while [skipFields] is an
    object, the names every object inherits) and, when that first
    reference is non-null, with the fields shown that are declared with
    [!] and without a default value as [required]; when it is nullable,
    the definition requires no field at all.  A later reference to the
    type changes nothing, whatever its [skipFields]. *)
Theorem input_object_definition (graphQLSchema : GraphQLSchema)
    (interpolateVariableDefinitionAsJSON customJsonScalars : list string)
    (fuel : nat) (objects : Objects) (typeName name : string)
    (namedType : GraphQLNamedType)
    (fields : option (list InputValueDefinitionNode)) (nonNull : bool)
    (skipFields : option SchemaSkipFields) (s : JSONSchema)
    (objects' : Objects) :
  resolvesToInputObject graphQLSchema interpolateVariableDefinitionAsJSON
    customJsonScalars typeName namedType fields ->
  type_name namedType <> "__proto__" ->
  Forall (fun f => wellFormed (field_type f) = true) (default [] fields) ->
  typeSchema graphQLSchema interpolateVariableDefinitionAsJSON
    customJsonScalars fuel objects (NamedType typeName) name nonNull
    skipFields
  = Returns (s, objects') ->
  s = reference ("#/definitions/" +:+ type_name namedType)
  /\ if bool_decide (type_name namedType
                     ∈ keys (definitions (the_root objects)))
     then objects' = objects
     else
       exists defined definition,
         definitions (the_root objects') = Some defined
         /\ JS.get_own (type_name namedType) defined = Some definition
         /\ type definition = Some (nullable nonNull "object")
         /\ additionalProperties definition = Some false
         /\ (forall k,
               k ∈ keys (properties definition)
               <-> k <> "__proto__"
                   /\ exists f,
                        f ∈ default [] fields /\ field_name f = k
                        /\ shownField skipFields f = true)
         /\ required definition
            = match
                (if nonNull then
                   map field_name
                     (List.filter
                        (fun f => shownField skipFields f && requiredField f)
                        (default [] fields))
                 else [])
              with
              | [] => None
              | names => Some names
              end.
Proof.
  intros Hresolves Hproto Hwell. rewrite typeSchema_NamedType.
  rewrite (namedTypeSchema_input_object _ _ _ _ _ _ _ _ _ _ Hresolves).
  unfold inputObjectSchema.
  destruct (definitions (the_root objects)) as [defined|] eqn:Hdefined;
    [|done].
  change (keys (Some defined)) with (defined.*1).
  destruct (bool_decide (type_name namedType ∈ defined.*1)) eqn:Hin.
  { by intros [= <- <-]. }
  intros H. apply bind_Returns in H as (after & Hloop & H).
  apply fields_loop in Hloop
    as (r' & p' & -> & Htype & Hadditional & _ & Hkeys & Hrequired & Hnever).
  2:{ intros g Hg. destruct fuel as [|fuel]; [done|]. injection Hg as <-.
      apply typeSchema_respects. }
  cbn [the_root the_parent] in H.
  destruct (definitions r') as [defined'|] eqn:Hdefined'; [|done].
  injection H as <- <-. split; [done|].
  eexists _, p'. split; [by destruct objects|].
  split.
  { unfold assign. rewrite (proj2 (String.eqb_neq _ _) Hproto).
    by rewrite get_own_set_own, String.eqb_refl. }
  split; [done|]. split; [done|]. split.
  - intros k. rewrite Hkeys. cbn. split; [|by right].
    intros [Hk|Hk]; [|done]. by apply elem_of_nil in Hk.
  - rewrite (required_field_names _ _ Hwell) in Hrequired.
    cbn [required default app] in Hrequired, Hnever.
    unfold isObject in Hrequired. cbn [type] in Hrequired.
    specialize (Hnever ltac:(done)).
    destruct nonNull; cbn [nullable] in Hrequired;
      destruct (required p') as [[|n rest]|]; cbn in Hrequired;
      try done; by rewrite <- Hrequired.
Qed.

Lemma input_object_definition_witness :
  exists s objects' defined definition,
    typeSchema shopSchema [] [] 1
      (RootIsParent (set_definitions [] (typed (One "object"))))
      (NamedType "Filter") "filter" true (Some (SkipFields []))
    = Returns (s, objects')
    /\ definitions (the_root objects') = Some defined
    /\ JS.get_own "Filter" defined = Some definition
    /\ required definition = Some ["name"; "owner"].
Proof.
  assert (exists result,
            typeSchema shopSchema [] [] 1
              (RootIsParent (set_definitions [] (typed (One "object"))))
              (NamedType "Filter") "filter" true (Some (SkipFields []))
            = Returns result) as [[s objects'] Hrun].
  { eexists. by vm_compute. }
  destruct (input_object_definition shopSchema [] [] 1
              (RootIsParent (set_definitions [] (typed (One "object"))))
              "Filter" "filter" filterType
              (Some [ {| field_name := "name";
                         field_type := NonNullType (NamedType "String");
                         field_defaultValue := None |};
                      {| field_name := "id";
                         field_type := NonNullType (NamedType "ID");
                         field_defaultValue := Some (GraphQL.StringValue "0") |};
                      {| field_name := "owner";
                         field_type := NonNullType (NamedType "String");
                         field_defaultValue := None |};
                      {| field_name := "and";
                         field_type :=
                           ListType (NonNullType (NamedType "Filter"));
                         field_defaultValue := None |};
                      {| field_name := "toString";
                         field_type := NamedType "String";
                         field_defaultValue := None |} ])
              true (Some (SkipFields [])) s objects')
    as (_ & defined & definition & Hdefined & Hget & _ & _ & _ & Hreq).
  - repeat split; try done; by apply (bool_decide_unpack _).
  - done.
  - by repeat constructor.
  - exact Hrun.
  - exists s, objects', defined, definition. split; [exact Hrun|].
    split; [exact Hdefined|]. split; [exact Hget|exact Hreq].
Defined.

(** X20.  The schema of a list type.  It is an array schema, nullable unless
    the list is written with [!], with the schema of the element type as
    [items].  A list written with [!] whose element type is written with
    [!] too gets [minItems: 1], so such a list must not be empty; every
    other list has no [minItems].  The parent is not marked. *)
Theorem list_schema (graphQLSchema : GraphQLSchema)
    (interpolateVariableDefinitionAsJSON customJsonScalars : list string)
    (fuel : nat) (objects : Objects) (inner : TypeNode) (name : string)
    (nonNull : bool) (skipFields : option SchemaSkipFields) (s : JSONSchema)
    (objects' : Objects) :
  typeSchema graphQLSchema interpolateVariableDefinitionAsJSON
    customJsonScalars fuel objects (ListType inner) name nonNull skipFields
  = Returns (s, objects') ->
  type s = Some (nullable nonNull "array")
  /\ (exists itemSchema after,
        typeSchema graphQLSchema interpolateVariableDefinitionAsJSON
          customJsonScalars fuel
          (RootAndParent (the_root objects) (typed (nullable nonNull "array")))
          inner name false skipFields
        = Returns (itemSchema, after)
        /\ items s = Some itemSchema)
  /\ minItems s = (if nonNull && isNonNull inner then Some 1 else None)
  /\ required s = None
  /\ effect 0 name objects objects'.
Proof.
  intros H.
  pose proof (typeSchema_respects _ _ _ _ _ _ _ _ _ _ _ H) as [Heffect _].
  rewrite typeSchema_ListType in H.
  apply bind_Returns in H as ([itemSchema after] & Hcall & [= <- <-]).
  pose proof (typeSchema_respects _ _ _ _ _ _ _ _ _ _ _ Hcall) as [He _].
  destruct after as [?|r' p']; [done|]. destruct He as [_ ->].
  cbn [the_parent set_items type items minItems required].
  split; [by rewrite type_iter|].
  split; [by eexists _, _|].
  split; [|split; [|done]].
  - rewrite minItems_iter. unfold isArray. cbn.
    destruct nonNull; cbn; [|done]. by destruct inner.
  - pose proof (required_iter (leading inner) name
                  (typed (nullable nonNull "array"))) as Hreq.
    pose proof (required_never_empty_iter (leading inner) name
                  (typed (nullable nonNull "array"))) as Hnever.
    unfold isObject in Hreq. cbn in Hreq, Hnever.
    specialize (Hnever ltac:(done)).
    destruct nonNull; cbn in Hreq;
      destruct (required _) as [[|? ?]|]; done.
Qed.

Lemma list_schema_witness :
  exists s objects',
    typeSchema shopSchema [] [] 0 (RootIsParent (typed (One "object")))
      (ListType (NonNullType (NamedType "String"))) "tags" true None
    = Returns (s, objects')
    /\ minItems s = Some 1.
Proof.
  eexists _, _. split; [by vm_compute|].
  refine (proj1 (proj2 (proj2 (list_schema shopSchema [] [] 0
                   (RootIsParent (typed (One "object")))
                   (NonNullType (NamedType "String")) "tags" true None _ _
                   _)))).
  by vm_compute.
Defined.

(** *** References *)

Lemma referenced_eq s :
  referenced s
  = match ref s with Some target => [target] | None => [] end
    ++ match items s with Some inner => referenced inner | None => [] end
    ++ referencedAmong (default [] (properties s))
    ++ referencedAmong (default [] (definitions s)).
Proof.
  destruct s as [t its req mi en ad props defs r]. cbn.
  do 2 f_equal. f_equal.
  - destruct props as [props|]; [|done]. cbn.
    induction props as [|[k v] props IH]; [done|]. cbn. by rewrite IH.
  - destruct defs as [defs|]; [|done]. cbn.
    induction defs as [|[k v] defs IH]; [done|]. cbn. by rewrite IH.
Qed.

Lemma elem_of_referencedAmong target l :
  target ∈ referencedAmong l
  <-> exists k v, (k, v) ∈ l /\ target ∈ referenced v.
Proof.
  unfold referencedAmong. rewrite list_elem_of_In, in_flat_map. split.
  - intros ([k v] & Hin & Ht). exists k, v.
    by rewrite !list_elem_of_In.
  - intros (k & v & Hin & Ht). exists (k, v). by rewrite <- !list_elem_of_In.
Qed.

Lemma elem_of_set_own {A} key (value : A) obj k v :
  (k, v) ∈ set_own key value obj -> (k, v) = (key, value) \/ (k, v) ∈ obj.
Proof.
  induction obj as [|[k' v'] obj IH]; cbn.
  - intros H. apply list_elem_of_singleton in H. by left.
  - destruct (String.eqb_spec k' key) as [->|Hne].
    + intros H. apply elem_of_cons in H as [H|H]; [by left|].
      right. apply elem_of_cons. by right.
    + intros H. apply elem_of_cons in H as [H|H].
      * right. apply elem_of_cons. by left.
      * destruct (IH H) as [?|?]; [by left|]. right. apply elem_of_cons.
        by right.
Qed.

Lemma referencedAmong_assign key value obj target :
  target ∈ referencedAmong (assign key value obj) ->
  target ∈ referenced value \/ target ∈ referencedAmong obj.
Proof.
  unfold assign. destruct (String.eqb key "__proto__"); [by right|].
  rewrite !elem_of_referencedAmong. intros (k & v & Hin & Ht).
  apply elem_of_set_own in Hin as [[= -> ->]|Hin]; [by left|].
  right. by exists k, v.
Qed.

Lemma referencedAmong_properties s props target :
  properties s = Some props ->
  target ∈ referencedAmong props -> target ∈ referenced s.
Proof.
  intros Hprops Ht. rewrite referenced_eq, Hprops, !elem_of_app.
  right. right. by left.
Qed.

Lemma referencedAmong_definitions s defined target :
  definitions s = Some defined ->
  target ∈ referencedAmong defined -> target ∈ referenced s.
Proof.
  intros Hdefined Ht. rewrite referenced_eq, Hdefined, !elem_of_app.
  right. right. by right.
Qed.

Lemma referenced_markNonNull name s :
  referenced (markNonNull name s) = referenced s.
Proof.
  unfold markNonNull. destruct (type s) as [[t|]|]; [|done|done].
  repeat (case_match; try done); by rewrite !referenced_eq.
Qed.

Lemma referenced_iter k name s :
  referenced (Nat.iter k (markNonNull name) s) = referenced s.
Proof.
  induction k as [|k IH]; [done|].
  by rewrite Nat.iter_succ, referenced_markNonNull.
Qed.

Lemma resolvedIn_mono (K K' : list string) s :
  K ⊆ K' -> resolvedIn K s -> resolvedIn K' s.
Proof.
  intros Hsub H target Ht. destruct (H target Ht) as (typeName & -> & Hin).
  exists typeName. split; [done|]. by apply Hsub.
Qed.

Lemma resolvedIn_no_reference K s : referenced s = [] -> resolvedIn K s.
Proof. intros H target Ht. rewrite H in Ht. by apply elem_of_nil in Ht. Qed.

Lemma resolvedIn_set_properties K name value props s :
  properties s = Some props ->
  resolvedIn K s ->
  resolvedIn K value ->
  resolvedIn K (set_properties (assign name value props) s).
Proof.
  intros Hprops Hs Hvalue target.
  rewrite referenced_eq. cbn [ref items properties definitions set_properties].
  rewrite !elem_of_app. intros [Ht|[Ht|[Ht|Ht]]].
  - apply Hs. rewrite referenced_eq, !elem_of_app. by left.
  - apply Hs. rewrite referenced_eq, !elem_of_app. right. by left.
  - cbn in Ht. apply referencedAmong_assign in Ht as [Ht|Ht]; [by apply Hvalue|].
    apply Hs. by eapply referencedAmong_properties.
  - apply Hs. rewrite referenced_eq, !elem_of_app. right. right. by right.
Qed.

Lemma resolvedIn_set_definitions K name value defined s :
  definitions s = Some defined ->
  resolvedIn K s ->
  resolvedIn K value ->
  resolvedIn K (set_definitions (assign name value defined) s).
Proof.
  intros Hdefined Hs Hvalue target.
  rewrite referenced_eq. cbn [ref items properties definitions set_definitions].
  rewrite !elem_of_app. intros [Ht|[Ht|[Ht|Ht]]].
  - apply Hs. rewrite referenced_eq, !elem_of_app. by left.
  - apply Hs. rewrite referenced_eq, !elem_of_app. right. by left.
  - apply Hs. rewrite referenced_eq, !elem_of_app. right. right. by left.
  - cbn in Ht. apply referencedAmong_assign in Ht as [Ht|Ht]; [by apply Hvalue|].
    apply Hs. by eapply referencedAmong_definitions.
Qed.

Lemma resolvedIn_set_items K inner s :
  resolvedIn K s -> resolvedIn K inner -> resolvedIn K (set_items inner s).
Proof.
  intros Hs Hinner target.
  rewrite referenced_eq. cbn [ref items properties definitions set_items].
  rewrite !elem_of_app. intros [Ht|[Ht|[Ht|Ht]]].
  - apply Hs. rewrite referenced_eq, !elem_of_app. by left.
  - by apply Hinner.
  - apply Hs. rewrite referenced_eq, !elem_of_app. right. right. by left.
  - apply Hs. rewrite referenced_eq, !elem_of_app. right. right. by right.
Qed.

Lemma resolvedIn_reference (K : list string) typeName :
  typeName ∈ K -> resolvedIn K (reference ("#/definitions/" +:+ typeName)).
Proof.
  intros Hin target Ht. cbn in Ht. apply list_elem_of_singleton in Ht as ->.
  by exists typeName.
Qed.

Lemma closed_markNonNull name objects :
  closed objects -> closed (on_parent (markNonNull name) objects).
Proof.
  intros (defined & Hdefined & Hroot & Hparent). exists defined.
  destruct objects as [r|r p]; cbn in *.
  - rewrite definitions_markNonNull. split; [done|].
    split; intros target; rewrite referenced_markNonNull; apply Hroot.
  - split; [done|]. split; [done|].
    intros target. rewrite referenced_markNonNull. apply Hparent.
Qed.

Section Closed.

Context (graphQLSchema : GraphQLSchema).
Context (interpolateVariableDefinitionAsJSON customJsonScalars : list string).
Hypothesis no_proto : noProtoType graphQLSchema.

Local Abbreviation typeSchema :=
  (typeSchema graphQLSchema interpolateVariableDefinitionAsJSON customJsonScalars).
Local Abbreviation namedTypeSchema :=
  (namedTypeSchema graphQLSchema interpolateVariableDefinitionAsJSON customJsonScalars).

Lemma fieldCallback_closed (recur : option TypeSchema) skipFields inside f
    after :
  (forall g, recur = Some g -> respects g /\ keepsClosed g) ->
  fieldCallback recur skipFields inside f = Returns after ->
  closed inside ->
  closed after.
Proof.
  intros Hrecur. unfold fieldCallback.
  destruct (isLeaf _); [by intros [= <-]|].
  destruct recur as [g|]; [|done].
  destruct (Hrecur g eq_refl) as [Hrespects Hclosed].
  intros H Hinside.
  apply bind_Returns in H as ([fieldSchema inside'] & Hcall & H).
  destruct (Hclosed _ _ _ _ _ _ _ Hcall Hinside)
    as ((defined' & Hdefined' & Hroot' & Hparent') & defined'' & Hd'' & Hfield).
  assert (defined'' = defined') as -> by congruence.
  destruct (properties (the_parent inside')) as [props|] eqn:Hprops; [|done].
  injection H as <-. exists defined'.
  destruct inside' as [r'|r' p']; cbn in *.
  - split; [done|].
    split; by apply resolvedIn_set_properties.
  - split; [done|]. split; [done|]. by apply resolvedIn_set_properties.
Qed.

Lemma inputObjectSchema_closed (recur : option TypeSchema) objects typeName
    fields nonNull skipFields s objects' :
  typeName <> "__proto__" ->
  (forall g, recur = Some g -> respects g /\ keepsClosed g) ->
  inputObjectSchema recur objects typeName fields nonNull skipFields
  = Returns (s, objects') ->
  closed objects ->
  closed objects'
  /\ exists defined',
       definitions (the_root objects') = Some defined'
       /\ resolvedIn defined'.*1 s.
Proof.
  intros Hproto Hrecur. unfold inputObjectSchema.
  intros H (defined & Hdefined & Hroot & Hparent). rewrite Hdefined in H.
  case_bool_decide as Hin.
  { injection H as <- <-. split; [by exists defined|].
    exists defined. split; [done|]. by apply resolvedIn_reference. }
  apply bind_Returns in H as (after & Hloop & H).
  set (d0 := assign typeName (typed (nullable nonNull "object")) defined) in *.
  assert (the_root (on_root (set_definitions d0) objects)
          = set_definitions d0 (the_root objects)) as Hr0
    by (by destruct objects).
  rewrite Hr0 in Hloop.
  assert (defined.*1 ⊆ d0.*1) as Hsub0 by apply keys_assign_subseteq.
  assert (resolvedIn d0.*1 (set_definitions d0 (the_root objects))) as Hroot0.
  { apply resolvedIn_set_definitions; [done| |by apply resolvedIn_no_reference].
    by eapply resolvedIn_mono. }
  match type of Hloop with
  | forEachRun _ _ (RootAndParent ?r ?p) = _ => set (r0 := r) in *; set (p0 := p) in *
  end.
  assert (closed after /\ grows (RootAndParent r0 p0) after
          /\ exists r' p', after = RootAndParent r' p') as (Hafter & Hgrows & r' & p' & ->).
  { eapply (forEachRun_invariant
              (fun after =>
                 closed after /\ grows (RootAndParent r0 p0) after
                 /\ exists r' p', after = RootAndParent r' p'));
      [| |exact Hloop].
    - split; [|split; [apply grows_refl|by eexists _, _]].
      exists d0. split; [done|]. split; [done|].
      by apply resolvedIn_no_reference.
    - intros inside f inside' _ (Hc & Hg & r1 & p1 & ->) Hstep.
      split; [by eapply fieldCallback_closed|].
      destruct (fieldCallback_step _ _ _ _ _ _
                  (fun g Hg => proj1 (Hrecur g Hg)) Hstep)
        as (r2 & p2 & -> & _ & Hg2 & _).
      split; [by eapply grows_trans|by eexists _, _]. }
  destruct Hafter as (defined' & Hdefined' & Hroot' & Hparent').
  cbn [the_root the_parent] in *. rewrite Hdefined' in H.
  injection H as <- <-.
  destruct (Hgrows d0 eq_refl) as (d1 & Hd1 & Hsub1). cbn in Hd1.
  assert (d1 = defined') as -> by congruence.
  set (d2 := assign typeName p' defined').
  assert (defined'.*1 ⊆ d2.*1) as Hsub2 by apply keys_assign_subseteq.
  assert (resolvedIn d2.*1 (set_definitions d2 r')) as Hroot2.
  { eapply resolvedIn_mono; [exact Hsub2|].
    by apply resolvedIn_set_definitions. }
  split.
  - exists d2. destruct objects as [r|r p]; cbn in *; [by split|].
    split; [done|]. split; [done|].
    eapply resolvedIn_mono; [|exact Hparent].
    etrans; [exact Hsub0|]. by etrans.
  - exists d2. split; [by destruct objects|].
    apply resolvedIn_reference. apply elem_of_keys_assign. by left.
Qed.

Lemma namedTypeSchema_closed (recur : option TypeSchema) objects typeName
    nonNull skipFields s objects' :
  (forall g, recur = Some g -> respects g /\ keepsClosed g) ->
  namedTypeSchema recur objects typeName nonNull skipFields
  = Returns (s, objects') ->
  closed objects ->
  closed objects'
  /\ exists defined',
       definitions (the_root objects') = Some defined'
       /\ resolvedIn defined'.*1 s.
Proof.
  intros Hrecur. unfold VariablesSchema.namedTypeSchema.
  repeat case_match;
    try (intros [= <- <-] (defined & Hdefined & Hroot & Hparent);
         split; [by exists defined|];
         exists defined; split; [done|]; by apply resolvedIn_no_reference).
  apply inputObjectSchema_closed; [|done]. by eapply no_proto.
Qed.

(** [typeSchema] leaves no [$ref] without its definition. *)
Lemma typeSchema_keepsClosed fuel : keepsClosed (typeSchema fuel).
Proof.
  induction fuel as [fuel IHfuel] using lt_wf_ind.
  intros objects type. revert objects.
  induction type as [inner IH|inner IH|typeName];
    intros objects name nonNull skipFields s objects'.
  - rewrite typeSchema_NonNullType. intros H Hclosed.
    eapply IH; [exact H|]. by apply closed_markNonNull.
  - rewrite typeSchema_ListType. intros H (defined & Hdefined & Hroot & Hparent).
    apply bind_Returns in H as ([itemSchema after] & Hcall & [= <- <-]).
    destruct (typeSchema_respects _ _ _ _ _ _ _ _ _ _ _ Hcall)
      as [Heffect Hgrows].
    destruct (IH _ _ _ _ _ _ Hcall)
      as ((defined' & Hdefined' & Hroot' & Hparent') & defined'' & Hd'' & Hitem).
    { exists defined. split; [done|]. split; [done|].
      by apply resolvedIn_no_reference. }
    assert (defined'' = defined') as -> by congruence.
    destruct (Hgrows defined Hdefined) as (d1 & Hd1 & Hsub).
    assert (d1 = defined') as -> by congruence.
    destruct after as [?|r' p']; [done|]. cbn in *. split.
    + exists defined'. destruct objects as [r|r p]; cbn in *; [by split|].
      split; [done|]. split; [done|]. by eapply resolvedIn_mono.
    + exists defined'. split; [by destruct objects|].
      by apply resolvedIn_set_items.
  - rewrite typeSchema_NamedType. apply namedTypeSchema_closed.
    intros g Hg. destruct fuel as [|fuel]; [done|]. injection Hg as <-.
    split; [apply typeSchema_respects|]. apply IHfuel. lia.
Qed.

Lemma variableCallback_closed fuel keepInternalVariables
    keepInjectedVariables schema variable schema' :
  variableCallback graphQLSchema interpolateVariableDefinitionAsJSON
    customJsonScalars fuel keepInternalVariables keepInjectedVariables schema
    variable
  = Returns schema' ->
  closed (RootIsParent schema) ->
  closed (RootIsParent schema').
Proof.
  unfold VariablesSchema.variableCallback. intros H Hclosed.
  apply bind_Returns in H as (internal & _ & H).
  destruct internal as [skipFields|]; [|by injection H as <-].
  apply bind_Returns in H as (injected & _ & H).
  destruct injected as [skipFields'|]; [|by injection H as <-].
  match type of H with
  | context [let '(_, _) := ?m in _] => destruct m as [type nonNullType]
  end.
  apply bind_Returns in H as ([variableSchema after] & Hcall & H).
  destruct (typeSchema_respects _ _ _ _ _ _ _ _ _ _ _ Hcall) as [Heffect _].
  destruct (typeSchema_keepsClosed _ _ _ _ _ _ _ _ Hcall Hclosed)
    as ((defined' & Hdefined' & Hroot' & _) & defined'' & Hd'' & Hvariable).
  assert (defined'' = defined') as -> by congruence.
  destruct after as [r'|]; [|done]. cbn in *.
  destruct (properties r') as [props|] eqn:Hprops; [|done].
  injection H as <-. exists defined'. cbn.
  split; [done|]. split; by apply resolvedIn_set_properties.
Qed.

End Closed.

(** X25.  No reference of a variables schema dangles.  When no input
    object type of the GraphQL schema is called [__proto__], every [$ref]
    in the schema [operationVariablesToJSONSchema] returns, at any depth
    of its properties and of its definitions, has the form
    [#/definitions/T] for a [T] that the [definitions] of the schema
    hold. *)
Theorem references_resolve (graphQLSchema : GraphQLSchema)
    (interpolateVariableDefinitionAsJSON customJsonScalars : list string)
    (fuel : nat) (variableDefinitions : option (list VariableDefinition))
    (keepInternalVariables keepInjectedVariables : bool)
    (schema : JSONSchema) :
  noProtoType graphQLSchema ->
  operationVariablesToJSONSchema graphQLSchema
    interpolateVariableDefinitionAsJSON customJsonScalars fuel
    variableDefinitions keepInternalVariables keepInjectedVariables
  = Returns schema ->
  forall target,
    target ∈ referenced schema ->
    exists typeName,
      target = "#/definitions/" +:+ typeName
      /\ typeName ∈ keys (definitions schema).
Proof.
  intros Hproto. unfold operationVariablesToJSONSchema. intros H.
  assert (closed (RootIsParent schema)) as (defined & Hdefined & Hroot & _).
  { destruct variableDefinitions as [variables|].
    - eapply (forEachRun_invariant (fun s => closed (RootIsParent s)));
        [| |exact H].
      + exists []. split; [done|]. split; by apply resolvedIn_no_reference.
      + intros s variable s' _ Hs Hstep.
        by eapply variableCallback_closed.
    - injection H as <-. exists []. split; [done|].
      split; by apply resolvedIn_no_reference. }
  cbn in Hdefined. unfold keys. rewrite Hdefined. exact Hroot.
Qed.

Lemma references_resolve_witness :
  exists schema,
    operationVariablesToJSONSchema shopSchema [] [] 1 (Some searchVariables)
      false false = Returns schema
    /\ referenced schema = ["#/definitions/Filter"; "#/definitions/Filter"]
    /\ forall target,
         target ∈ referenced schema ->
         exists typeName,
           target = "#/definitions/" +:+ typeName
           /\ typeName ∈ keys (definitions schema).
Proof.
  eexists. split; [by vm_compute|]. split; [by vm_compute|].
  refine (references_resolve shopSchema [] [] 1 (Some searchVariables) false
            false _ _ _).
  - intros typeName namedType fields. unfold shopSchema.
    repeat case_match; try done; by intros [= <-].
  - by vm_compute.
Defined.

End SchemaFacts.

(** ** Facts about the response compiler *)

Module ResponseFacts.

Import ResponseSchema ResponseProperties ResponseSamples.
Import HandlerFacts SchemaFacts.

Lemma names_app path path' : names (path ++ path') = names path ++ names path'.
Proof.
  unfold names. induction path; cbn; [done|]. case_match; cbn; congruence.
Qed.

(** One round of the walk that leaves it valid. *)
Lemma walkStep_valid walk elem walk' :
  walkStep walk elem = Returns walk' ->
  valid walk' = true ->
  valid walk = true
  /\ exists more,
       outPath walk' = outPath walk ++ more
       /\ names more = names [elem]
       /\ updatedSchema walk' = fold_left descend1 more (updatedSchema walk).
Proof.
  unfold walkStep. destruct walk as [out cursor ok]. cbn.
  destruct cursor as [schema| |key]; cbn; [|done|by intros [= <-]].
  unfold descend1.
  destruct (items schema) as [inner|] eqn:Hitems.
  - destruct (String.eqb_spec elem "[]") as [->|Hne].
    + intros [= <-]. cbn. intros ->. split; [done|]. exists ["[]"].
      cbn. by rewrite Hitems.
    + cbn. destruct (properties inner) as [props|] eqn:Hprops;
        intros [= <-]; cbn; [|done].
      intros ->. split; [done|]. exists ["[]"; elem].
      rewrite <- app_assoc. split; [done|]. split.
      * unfold names. cbn. by rewrite (proj2 (String.eqb_neq _ _) Hne).
      * cbn. rewrite Hitems, Hprops.
        rewrite (proj2 (String.eqb_neq _ _) Hne). by destruct (items inner).
  - destruct (properties schema) as [props|] eqn:Hprops;
      intros [= <-]; cbn; [|done].
    intros ->. split; [done|]. exists [elem]. split; [done|]. split; [done|].
    cbn. by rewrite Hitems, Hprops.
Qed.

Lemma walk_valid path walk walk' :
  forEachRun walkStep path walk = Returns walk' ->
  valid walk' = true ->
  valid walk = true
  /\ exists more,
       outPath walk' = outPath walk ++ more
       /\ names more = names path
       /\ updatedSchema walk' = fold_left descend1 more (updatedSchema walk).
Proof.
  revert walk. induction path as [|elem path IH]; intros walk; cbn.
  - intros [= <-] ->. split; [done|]. exists []. by rewrite app_nil_r.
  - intros H Hvalid. apply bind_Returns in H as (walk1 & Hstep & Hrest).
    destruct (IH _ Hrest Hvalid) as (Hvalid1 & more1 & Hout1 & Hnames1 & Hc1).
    destruct (walkStep_valid _ _ _ Hstep Hvalid1)
      as (Hvalid0 & more0 & Hout0 & Hnames0 & Hc0).
    split; [done|]. exists (more0 ++ more1).
    split; [by rewrite Hout1, Hout0, app_assoc|]. split.
    + rewrite names_app, Hnames0, Hnames1. unfold names. cbn.
      by case_match.
    + by rewrite fold_left_app, <- Hc0.
Qed.

(** What [handleTransformDirective] returns and records. *)
Lemma handleTransformDirective_Returns stringify transformDirective schema
    documentPath transformations returned transformations' :
  handleTransformDirective stringify transformDirective schema documentPath
    transformations
  = Returns (returned, transformations') ->
  match getPath transformDirective with
  | None => returned = Here schema /\ transformations' = transformations
  | Some value =>
      exists walked,
        transformations'
        = transformations
          ++ [ {| GraphQL.depth := length (documentPath ++ walked);
                  GraphQL.get_from := documentPath ++ walked;
                  GraphQL.get_to := documentPath |} ]
        /\ names walked = names (JS.split_dot value)
        /\ returned = descend walked schema
  end.
Proof.
  unfold getPath, handleTransformDirective.
  destruct (GraphQL.find_argument "get" transformDirective) as [get|];
    [|by intros [= <- <-]].
  destruct (GraphQL.arg_value get); try by intros [= <- <-].
  intros H. apply bind_Returns in H as (walk & Hwalk & H).
  destruct (valid walk) eqn:Hvalid; [|done]. injection H as <- <-.
  destruct (walk_valid _ _ _ Hwalk Hvalid) as (_ & walked & Hout & Hnames & Hc).
  cbn in Hout, Hc. exists walked. by rewrite Hout.
Qed.

(** X21.  A [@transform(get: "...")] that is accepted records exactly one
    transformation, after those recorded before: it leads from the path
    of the field followed by the path walked, to the path of the field,
    and its depth is the length of the former.  The path walked is the
    [get:] path with a [[]] put in wherever an array schema had to be
    entered, and the schema returned is the one found by going down that
    path from the schema of the field; it is undefined when the last
    component names a property that is not there. *)
Theorem transform_records_the_path (stringify : JSONSchema -> string)
    (transformDirective : GraphQL.DirectiveNode) (schema : JSONSchema)
    (documentPath : list string)
    (transformations transformations' : Transformations)
    (value : string) (returned : Value JSONSchema) :
  getPath transformDirective = Some value ->
  handleTransformDirective stringify transformDirective schema documentPath
    transformations
  = Returns (returned, transformations') ->
  exists walked,
    transformations'
    = transformations
      ++ [ {| GraphQL.depth := length (documentPath ++ walked);
              GraphQL.get_from := documentPath ++ walked;
              GraphQL.get_to := documentPath |} ]
    /\ names walked = names (JS.split_dot value)
    /\ returned = descend walked schema.
Proof.
  intros Hget Hrun. apply handleTransformDirective_Returns in Hrun.
  by rewrite Hget in Hrun.
Qed.

Lemma transform_records_the_path_witness :
  exists walked,
    [ {| GraphQL.depth := 4;
         GraphQL.get_from := ["data"; "friends"; "[]"; "name"];
         GraphQL.get_to := ["data"; "friends"] |} ]
    = []
      ++ [ {| GraphQL.depth := length (["data"; "friends"] ++ walked);
              GraphQL.get_from := ["data"; "friends"] ++ walked;
              GraphQL.get_to := ["data"; "friends"] |} ]
    /\ names walked = names (JS.split_dot "name")
    /\ Here (typed "string") = descend walked friendsSchema.
Proof.
  apply (transform_records_the_path (fun _ => "{}") transformGetName
           friendsSchema ["data"; "friends"] []
           [ {| GraphQL.depth := 4;
                GraphQL.get_from := ["data"; "friends"; "[]"; "name"];
                GraphQL.get_to := ["data"; "friends"] |} ]
           "name" (Here (typed "string"))); by vm_compute.
Defined.

(** *** The selections *)

Lemma set_spread_from_fixed seen l :
  NoDup l -> (forall x, x ∈ l -> x ∉ seen) -> JS.set_spread_from seen l = l.
Proof.
  intros Hnodup. revert seen.
  induction Hnodup as [|x l Hx _ IH]; intros seen Hseen; [done|]. cbn.
  rewrite bool_decide_eq_false_2
    by (apply Hseen, elem_of_cons; by left).
  f_equal. apply IH. intros y Hy. apply not_elem_of_cons. split.
  - by intros ->.
  - apply Hseen, elem_of_cons. by right.
Qed.

Lemma set_spread_from_again seen l x :
  x ∈ l \/ x ∈ seen ->
  JS.set_spread_from seen (l ++ [x]) = JS.set_spread_from seen l.
Proof.
  revert seen. induction l as [|y l IH]; intros seen Hx; cbn.
  - destruct Hx as [Hx|Hx]; [by apply elem_of_nil in Hx|].
    by rewrite bool_decide_eq_true_2.
  - case_bool_decide as Hy.
    + apply IH. destruct Hx as [Hx|Hx]; [|by right].
      apply elem_of_cons in Hx as [->|Hx]; [by right|by left].
    + f_equal. apply IH. destruct Hx as [Hx|Hx].
      * apply elem_of_cons in Hx as [->|Hx]; [right|by left].
        apply elem_of_cons. by left.
      * right. apply elem_of_cons. by right.
Qed.

(** [[...new Set([...required, propName])]] a second time changes
    nothing. *)
Lemma set_spread_again l x :
  JS.set_spread (JS.set_spread (l ++ [x]) ++ [x]) = JS.set_spread (l ++ [x]).
Proof.
  unfold JS.set_spread. rewrite set_spread_from_again.
  - apply set_spread_from_fixed; [apply NoDup_set_spread_from|].
    intros y _ Hy. by apply elem_of_nil in Hy.
  - left. apply elem_of_set_spread_from. split.
    + apply elem_of_app. right. apply elem_of_cons. by left.
    + intros Hy. by apply elem_of_nil in Hy.
Qed.

Lemma recordedUnder_shorter path path' t :
  path `prefix_of` path' -> recordedUnder path' t -> recordedUnder path t.
Proof.
  intros Hpath (Hdepth & Hto & Hunder). split; [done|]. split; [done|].
  by etrans.
Qed.

Lemma Forall_recordedUnder_shorter path more added :
  Forall (recordedUnder (path ++ more)) added ->
  Forall (recordedUnder path) added.
Proof.
  intros H. eapply Forall_impl; [exact H|]. intros t.
  apply recordedUnder_shorter. by apply prefix_app_r.
Qed.

Section WithSchema.

Context (stringify : JSONSchema -> string).
Context (graphQLSchema : GraphQLSchema) (operationDocument : DocumentNode).

Local Abbreviation resolveFieldSchema :=
  (resolveFieldSchema graphQLSchema).
Local Abbreviation unionSelection := (unionSelection operationDocument).
Local Abbreviation objectSelection :=
  (objectSelection stringify graphQLSchema operationDocument).
Local Abbreviation resolveSelections :=
  (resolveSelections stringify graphQLSchema operationDocument).

(** What [resolveFieldSchema] does to the object schema of the parent. *)
Lemma resolveFieldSchema_parent (callback : ResolveSelections) propName
    selectionSet fieldType parent documentPath transformations schema parent'
    transformations' :
  resolveFieldSchema callback propName selectionSet fieldType parent
    documentPath transformations
  = Returns (schema, parent', transformations') ->
  type parent = Some "object" ->
  parent'
  = if containsNonNull fieldType then
      set_required
        (Some (JS.set_spread (default [] (required parent) ++ [propName])))
        parent
    else parent.
Proof.
  revert parent documentPath transformations schema parent' transformations'.
  induction fieldType as [inner IH|inner IH|name];
    intros parent documentPath transformations schema parent' transformations';
    cbn [ResponseSchema.resolveFieldSchema containsNonNull].
  - intros H Hobject. rewrite Hobject in H. apply IH in H; [|done].
    rewrite H. destruct (containsNonNull inner); [|done].
    destruct parent as [t props req additional values its minimum].
    cbn [required set_required default from_option id].
    by rewrite set_spread_again.
  - intros H Hobject.
    apply bind_Returns in H as ([[itemSchema parent1] ts1] & Hcall & [= <- <- <-]).
    by eapply IH.
  - intros H _. repeat case_match; try by injection H as <- <- <-.
    all: by apply bind_Returns in H as ([schema1 ts1] & _ & [= <- <- <-]).
Qed.

(** The transformations [resolveFieldSchema] records. *)
Lemma resolveFieldSchema_transformations (callback : ResolveSelections)
    propName selectionSet fieldType parent documentPath transformations
    schema parent' transformations' :
  respects callback ->
  resolveFieldSchema callback propName selectionSet fieldType parent
    documentPath transformations
  = Returns (schema, parent', transformations') ->
  exists added,
    transformations' = transformations ++ added
    /\ Forall (recordedUnder documentPath) added.
Proof.
  intros Hcallback.
  revert parent documentPath transformations schema parent' transformations'.
  induction fieldType as [inner IH|inner IH|name];
    intros parent documentPath transformations schema parent' transformations';
    cbn [ResponseSchema.resolveFieldSchema].
  - intros H. repeat case_match; try by eapply IH.
    all: injection H as <- <- <-; exists []; by rewrite app_nil_r.
  - intros H.
    apply bind_Returns in H as ([[itemSchema parent1] ts1] & Hcall & [= <- <- <-]).
    destruct (IH _ _ _ _ _ _ Hcall) as (added & -> & Hadded).
    exists added. split; [done|]. by eapply Forall_recordedUnder_shorter.
  - intros H.
    repeat case_match;
      try (injection H as <- <- <-; exists []; by rewrite app_nil_r).
    all: apply bind_Returns in H as ([schema1 ts1] & Hcall & [= <- <- <-]);
      pose proof (Hcallback _ _ _ _ _ _ _ Hcall eq_refl) as Hext;
      by destruct Hext as (_ & _ & _ & _ & _ & _ & _ & _ & Hadded).
Qed.

Lemma extends_refl documentPath parentObject transformations :
  extends documentPath parentObject transformations parentObject
    transformations.
Proof.
  unfold extends. split_and!; try done. exists []. by rewrite app_nil_r.
Qed.

Lemma extends_trans documentPath a ts a' ts' a'' ts'' :
  extends documentPath a ts a' ts' ->
  extends documentPath a' ts' a'' ts'' ->
  extends documentPath a ts a'' ts''.
Proof.
  intros (H1 & H2 & H3 & H4 & H5 & H6 & H7 & H8 & added & -> & Hadded)
         (G1 & G2 & G3 & G4 & G5 & G6 & G7 & G8 & added' & -> & Hadded').
  split; [congruence|]. split; [congruence|]. split; [congruence|].
  split; [congruence|]. split; [congruence|]. split; [by intros; apply G6, H6|].
  split; [by etrans|]. split; [by intros; apply G8, H8|].
  exists (added ++ added'). split; [by rewrite app_assoc|].
  by apply Forall_app.
Qed.

Lemma extends_more documentPath a ts a' ts' added :
  extends documentPath a ts a' ts' ->
  Forall (recordedUnder documentPath) added ->
  extends documentPath a ts a' (ts' ++ added).
Proof.
  intros (H1 & H2 & H3 & H4 & H5 & H6 & H7 & H8 & added0 & -> & Hadded0) Hadded.
  unfold extends. split_and!; try done. exists (added0 ++ added).
  split; [by rewrite app_assoc|]. by apply Forall_app.
Qed.

Lemma keys_set_properties props s :
  keys (set_properties props s) = props.*1.
Proof. done. Qed.

(** [parentObject.properties![propName] = value] *)
Lemma store_extends documentPath propName value parentObject parentObject'
    transformations :
  store propName value parentObject = Returns parentObject' ->
  extends documentPath parentObject transformations parentObject'
    transformations
  /\ required parentObject' = required parentObject
  /\ propName ∈ keys parentObject'.
Proof.
  unfold store. destruct (properties parentObject) as [props|] eqn:Hprops;
    [|done].
  destruct (String.eqb propName "__proto__"); [done|]. intros [= <-].
  assert (keys parentObject ⊆ (set_own propName value props).*1) as Hkeys.
  { unfold keys. rewrite Hprops. cbn. intros k Hk.
    apply elem_of_keys_set_own. by right. }
  split; [|split; [done|]].
  - unfold extends. rewrite keys_set_properties.
    split_and!; try done; try (by eexists);
      try (exists []; by rewrite app_nil_r).
    cbn [required set_properties]. intros H. by etrans.
  - rewrite keys_set_properties. apply elem_of_keys_set_own. by left.
Qed.

Lemma requireProperty_extends documentPath propName parentObject
    transformations :
  propName ∈ keys parentObject ->
  extends documentPath parentObject transformations
    (requireProperty propName parentObject) transformations.
Proof.
  intros Hkey. unfold extends.
  split_and!; try done; try (exists []; by rewrite app_nil_r).
  cbn. intros H k Hk. apply elem_of_app in Hk as [Hk|Hk]; [by apply H|].
  apply list_elem_of_singleton in Hk as ->. exact Hkey.
Qed.

Lemma store_and_require documentPath propName value parentObject
    parentObject' transformations :
  store propName value parentObject = Returns parentObject' ->
  extends documentPath parentObject transformations
    (requireProperty propName parentObject') transformations.
Proof.
  intros Hstore.
  destruct (store_extends documentPath _ _ _ _ transformations Hstore)
    as (Hextends & _ & Hkey).
  eapply extends_trans; [exact Hextends|]. by apply requireProperty_extends.
Qed.

Lemma delete_required_extends documentPath parentObject transformations :
  extends documentPath parentObject transformations
    (set_required None parentObject) transformations.
Proof.
  unfold extends.
  split_and!; try done; try (exists []; by rewrite app_nil_r).
  intros _ k Hk. by apply elem_of_nil in Hk.
Qed.

Lemma type_extends documentPath a ts a' ts' :
  extends documentPath a ts a' ts' -> type a' = type a.
Proof. by intros [? _]. Qed.

Lemma unionSelection_extends (callback : ResolveSelections) types
    documentPath parentObject transformations selection parentObject'
    transformations' :
  respects callback ->
  unionSelection callback types documentPath (parentObject, transformations)
    selection
  = Returns (parentObject', transformations') ->
  type parentObject = Some "object" ->
  extends documentPath parentObject transformations parentObject'
    transformations'.
Proof.
  intros Hcallback. unfold ResponseSchema.unionSelection.
  destruct selection as [fieldName alias directives selectionSet|name
                        |typeCondition selections].
  - destruct (negb _); [intros [= <- <-] _; apply extends_refl|].
    intros H _. apply bind_Returns in H as (stored & Hstore & [= <- <-]).
    by eapply store_and_require.
  - destruct (find_fragment name operationDocument) as [fragment|];
      [|intros [= <- <-] _; apply extends_refl].
    intros H Hobject.
    apply bind_Returns in H as ([resolved ts1] & Hcall & [= <- <-]).
    eapply extends_trans; [by eapply Hcallback|].
    apply delete_required_extends.
  - destruct typeCondition as [typeName|];
      [|intros [= <- <-] _; apply extends_refl].
    intros H Hobject.
    apply bind_Returns in H as ([resolved ts1] & Hcall & [= <- <-]).
    eapply extends_trans; [by eapply Hcallback|].
    apply delete_required_extends.
Qed.

Lemma objectSelection_extends (callback : ResolveSelections) parentTypeName
    fields documentPath parentObject transformations selection parentObject'
    transformations' :
  respects callback ->
  objectSelection callback parentTypeName fields documentPath
    (parentObject, transformations) selection
  = Returns (parentObject', transformations') ->
  type parentObject = Some "object" ->
  extends documentPath parentObject transformations parentObject'
    transformations'.
Proof.
  intros Hcallback. unfold ResponseSchema.objectSelection.
  destruct selection as [fieldName alias directives selectionSet|name
                        |typeCondition selections].
  - destruct (String.eqb fieldName "__typename").
    { destruct (properties parentObject) as [props|] eqn:Hprops; [|done].
      destruct (property (default fieldName alias) props)
        as [existing| |key] eqn:Hexisting.
      2,3: intros H _;
        apply bind_Returns in H as (stored & Hstore & [= <- <-]);
        by eapply store_and_require.
      destruct (enum existing) as [values|].
      2: intros H _;
        apply bind_Returns in H as (stored & Hstore & [= <- <-]);
        by eapply store_and_require.
      intros [= <- <-] _.
      assert (keys parentObject
              ⊆ (set_own (default fieldName alias)
                   (Here (set_enum (values ++ [parentTypeName]) existing))
                   props).*1) as Hkeys.
      { unfold keys. rewrite Hprops. cbn. intros k Hk.
        apply elem_of_keys_set_own. by right. }
      unfold extends. rewrite keys_set_properties.
      split_and!; try done; try (by eexists);
        try (exists []; by rewrite app_nil_r).
      cbn [required set_properties]. intros H. by etrans. }
    destruct (List.find _ fields) as [definition|];
      [|intros [= <- <-] _; apply extends_refl].
    intros H Hobject.
    apply bind_Returns in H as ([[schema parent1] ts1] & Hfield & H).
    apply bind_Returns in H as ([value ts2] & Htransform & H).
    apply bind_Returns in H as (stored & Hstore & [= <- <-]).
    pose proof (resolveFieldSchema_parent _ _ _ _ _ _ _ _ _ _ Hfield Hobject)
      as Hparent.
    destruct (resolveFieldSchema_transformations _ _ _ _ _ _ _ _ _ _
                Hcallback Hfield) as (added1 & -> & Hadded1).
    apply Forall_recordedUnder_shorter in Hadded1.
    assert (exists added2,
              ts2 = (transformations ++ added1) ++ added2
              /\ Forall (recordedUnder documentPath) added2)
      as (added2 & -> & Hadded2).
    { destruct (GraphQL.find_directive "transform" directives)
        as [transformDirective|].
      2:{ injection Htransform as <- <-. exists []. by rewrite app_nil_r. }
      apply handleTransformDirective_Returns in Htransform.
      destruct (getPath transformDirective) as [path|].
      - destruct Htransform as (walked & -> & _). eexists. split; [done|].
        constructor; [|constructor]. split; [done|]. cbn. split.
        + by apply prefix_app_r.
        + by apply prefix_app_r.
      - destruct Htransform as [_ ->]. exists []. by rewrite app_nil_r. }
    destruct (store_extends documentPath _ _ _ _ transformations Hstore)
      as ((S1 & S2 & S3 & S4 & S5 & S6 & S7 & _) & Hrequired & Hkey).
    assert (type parent1 = type parentObject
            /\ additionalProperties parent1 = additionalProperties parentObject
            /\ enum parent1 = enum parentObject
            /\ items parent1 = items parentObject
            /\ minItems parent1 = minItems parentObject
            /\ properties parent1 = properties parentObject
            /\ default [] (required parent1)
               ⊆ default [] (required parentObject)
                 ++ [default fieldName alias])
      as (P1 & P2 & P3 & P4 & P5 & P6 & P7).
    { rewrite Hparent. destruct (containsNonNull _); cbn.
      - split_and!; try done. intros k.
        unfold JS.set_spread. rewrite elem_of_set_spread_from. by intros [? _].
      - split_and!; try done. intros k Hk. apply elem_of_app. by left. }
    assert (keys parent1 = keys parentObject) as Hsame.
    { unfold keys. by rewrite P6. }
    split; [congruence|]. split; [congruence|]. split; [congruence|].
    split; [congruence|]. split; [congruence|].
    split; [by intros; apply S6; rewrite P6|].
    split; [by rewrite <- Hsame|]. split.
    + intros Hconsistent k Hk. rewrite Hrequired in Hk. apply P7 in Hk.
      apply elem_of_app in Hk as [Hk|Hk].
      * apply S7. rewrite Hsame. by apply Hconsistent.
      * apply list_elem_of_singleton in Hk as ->. exact Hkey.
    + exists (added1 ++ added2). split; [by rewrite app_assoc|].
      by apply Forall_app.
  - destruct (find_fragment name operationDocument) as [fragment|]; [|done].
    apply Hcallback.
  - apply Hcallback.
Qed.

Lemma forEachRun_extends {A}
    (body : JSONSchema * Transformations -> A ->
            Run (JSONSchema * Transformations))
    documentPath xs parentObject transformations parentObject'
    transformations' :
  (forall a ts x a' ts',
     body (a, ts) x = Returns (a', ts') ->
     type a = Some "object" ->
     extends documentPath a ts a' ts') ->
  forEachRun body xs (parentObject, transformations)
  = Returns (parentObject', transformations') ->
  type parentObject = Some "object" ->
  extends documentPath parentObject transformations parentObject'
    transformations'.
Proof.
  intros Hbody. revert parentObject transformations.
  induction xs as [|x xs IH]; intros parentObject transformations; cbn.
  - intros [= <- <-] _. apply extends_refl.
  - intros H Hobject. apply bind_Returns in H as ([a1 ts1] & Hstep & Hrest).
    pose proof (Hbody _ _ _ _ _ Hstep Hobject) as H1.
    eapply extends_trans; [exact H1|]. apply IH; [done|].
    by rewrite (type_extends _ _ _ _ _ H1).
Qed.

(** [resolveSelections] extends the object schema and the
    transformations it is given. *)
Lemma resolveSelections_respects fuel : respects (resolveSelections fuel).
Proof.
  induction fuel as [|fuel IH]; [done|].
  intros selections parentTypeName parentObject documentPath transformations
    parentObject' transformations'.
  cbn [ResponseSchema.resolveSelections].
  repeat case_match; try (intros [= <- <-] _; apply extends_refl).
  - apply forEachRun_extends. intros a ts x a' ts'.
    by apply objectSelection_extends.
  - apply forEachRun_extends. intros a ts x a' ts'.
    by apply objectSelection_extends.
  - apply forEachRun_extends. intros a ts x a' ts'.
    by apply unionSelection_extends.
Qed.

End WithSchema.

(** X22.  The frame of a response schema.  The schema
    [operationResponseToJSONSchema] returns is an object schema without
    additional properties whose only property is [data], and nothing is
    required of it.  The schema of [data] is an object schema without
    additional properties too; the selections only add properties to it,
    and every name it requires is one of its properties. *)
Theorem response_schema_frame (stringify : JSONSchema -> string)
    (graphQLSchema : GraphQLSchema) (operationDocument : DocumentNode)
    (fuel : nat) (operation : string) (selections : list SelectionNode)
    (transformations transformations' : Transformations)
    (schema : JSONSchema) :
  operationResponseToJSONSchema stringify graphQLSchema operationDocument
    fuel operation selections transformations
  = Returns (schema, transformations') ->
  exists dataSchema,
    schema
    = {| type := Some "object";
         properties := Some [("data", Here dataSchema)];
         additionalProperties := Some false;
         required := None; enum := None; items := None; minItems := None |}
    /\ type dataSchema = Some "object"
    /\ additionalProperties dataSchema = Some false
    /\ enum dataSchema = None
    /\ items dataSchema = None
    /\ minItems dataSchema = None
    /\ is_Some (properties dataSchema)
    /\ default [] (required dataSchema) ⊆ keys dataSchema.
Proof.
  unfold operationResponseToJSONSchema. intros H.
  apply bind_Returns in H as ([dataSchema ts] & Hcall & [= <- <-]).
  pose proof (resolveSelections_respects _ _ _ _ _ _ _ _ _ _ _ Hcall eq_refl)
    as (H1 & H2 & H3 & H4 & H5 & H6 & _ & H8 & _).
  exists dataSchema. split; [done|]. split_and!; try done.
  - by apply H6.
  - apply H8. intros k Hk. by apply elem_of_nil in Hk.
Qed.

Lemma response_schema_frame_witness :
  exists schema transformations dataSchema,
    operationResponseToJSONSchema (fun _ => "{}") blogSchema blogDocument 3
      "query" blogSelections []
    = Returns (schema, transformations)
    /\ properties schema = Some [("data", Here dataSchema)]
    /\ required dataSchema = Some ["me"; "friends"; "names"]
    /\ keys dataSchema = ["me"; "friends"; "names"; "search"].
Proof.
  assert (exists result,
            operationResponseToJSONSchema (fun _ => "{}") blogSchema
              blogDocument 3 "query" blogSelections []
            = Returns result) as [[schema transformations] Hrun].
  { eexists. by vm_compute. }
  destruct (response_schema_frame _ _ _ _ _ _ _ _ _ Hrun)
    as (dataSchema & Hschema & _).
  exists schema, transformations, dataSchema. split; [exact Hrun|].
  split; [by rewrite Hschema|].
  assert (Returns (schema, transformations)
          = Returns
              ({| type := Some "object";
                  properties := Some [("data", Here dataSchema)];
                  additionalProperties := Some false;
                  required := None; enum := None; items := None;
                  minItems := None |}, transformations)) as Heq
    by (by rewrite Hschema).
  rewrite <- Hrun in Heq. vm_compute in Heq.
  by injection Heq as <-.
Defined.

(** X23.  The fields a response requires.  For a parent that is an object
    schema, [resolveFieldSchema] adds the property of the field to the
    [required] of the parent, once and after the names that were there,
    exactly when the type of the field has a [!] on the type itself or on
    the element type of a list at any depth: a field of type [[User!]] is
    required although the list may be null.  Nothing else of the parent
    changes, whatever the selection set of the field. *)
Theorem non_null_fields_are_required (graphQLSchema : GraphQLSchema)
    (callback : ResolveSelections) (propName : string)
    (selectionSet : option (list SelectionNode))
    (fieldType : VariablesSchema.TypeNode) (parent : JSONSchema)
    (documentPath : list string) (transformations : Transformations)
    (schema parent' : JSONSchema) (transformations' : Transformations) :
  resolveFieldSchema graphQLSchema callback propName selectionSet fieldType
    parent documentPath transformations
  = Returns (schema, parent', transformations') ->
  type parent = Some "object" ->
  parent'
  = (if containsNonNull fieldType then
       set_required
         (Some (JS.set_spread (default [] (required parent) ++ [propName])))
         parent
     else parent)
  /\ (containsNonNull fieldType = true ->
      propName ∈ default [] (required parent')
      /\ NoDup (default [] (required parent')))
  /\ minItems parent' = minItems parent.
Proof.
  intros Hrun Hobject.
  rewrite (resolveFieldSchema_parent _ _ _ _ _ _ _ _ _ _ _ Hrun Hobject).
  split; [done|]. destruct (containsNonNull fieldType); [|done].
  split; [|done]. intros _. cbn. split.
  - apply elem_of_set_spread_from. split.
    + apply elem_of_app. right. apply elem_of_cons. by left.
    + intros H. by apply elem_of_nil in H.
  - apply NoDup_set_spread_from.
Qed.

Lemma non_null_fields_are_required_witness :
  exists schema transformations,
    resolveFieldSchema blogSchema
      (resolveSelections (fun _ => "{}") blogSchema blogDocument 1)
      "friends" (Some [Field "id" None None None])
      (VariablesSchema.ListType
         (VariablesSchema.NonNullType (VariablesSchema.NamedType "User")))
      emptyObject ["data"; "friends"] []
    = Returns (schema, set_required (Some ["friends"]) emptyObject,
               transformations).
Proof.
  assert (exists result,
            resolveFieldSchema blogSchema
              (resolveSelections (fun _ => "{}") blogSchema blogDocument 1)
              "friends" (Some [Field "id" None None None])
              (VariablesSchema.ListType
                 (VariablesSchema.NonNullType
                    (VariablesSchema.NamedType "User")))
              emptyObject ["data"; "friends"] []
            = Returns result) as [[[schema parent'] transformations] Hrun].
  { eexists. by vm_compute. }
  exists schema, transformations. rewrite Hrun. do 2 f_equal.
  f_equal.
  by rewrite (proj1 (non_null_fields_are_required _ _ _ _ _ _ _ _ _ _ _ Hrun
                       eq_refl)).
Defined.

(** X24.  The transformations of a response.  The compiler only adds to
    the transformations it is given.  Each one it adds leads from a path
    to a prefix of that path, its depth is the length of the path it
    leads from, and both paths start with [data]. *)
Theorem recorded_transformations (stringify : JSONSchema -> string)
    (graphQLSchema : GraphQLSchema) (operationDocument : DocumentNode)
    (fuel : nat) (operation : string) (selections : list SelectionNode)
    (transformations transformations' : Transformations)
    (schema : JSONSchema) :
  operationResponseToJSONSchema stringify graphQLSchema operationDocument
    fuel operation selections transformations
  = Returns (schema, transformations') ->
  exists added,
    transformations' = transformations ++ added
    /\ Forall
         (fun t =>
            GraphQL.depth t = length (GraphQL.get_from t)
            /\ GraphQL.get_to t `prefix_of` GraphQL.get_from t
            /\ ["data"] `prefix_of` GraphQL.get_to t)
         added.
Proof.
  unfold operationResponseToJSONSchema. intros H.
  apply bind_Returns in H as ([dataSchema ts] & Hcall & [= <- <-]).
  pose proof (resolveSelections_respects _ _ _ _ _ _ _ _ _ _ _ Hcall eq_refl)
    as (_ & _ & _ & _ & _ & _ & _ & _ & Hadded).
  exact Hadded.
Qed.

Lemma recorded_transformations_witness :
  exists schema added,
    operationResponseToJSONSchema (fun _ => "{}") blogSchema blogDocument 3
      "query" blogSelections []
    = Returns (schema, [] ++ added)
    /\ length added = 1.
Proof.
  assert (exists result,
            operationResponseToJSONSchema (fun _ => "{}") blogSchema
              blogDocument 3 "query" blogSelections []
            = Returns result) as [[schema transformations] Hrun].
  { eexists. by vm_compute. }
  destruct (recorded_transformations _ _ _ _ _ _ _ _ _ Hrun)
    as (added & Hadded & _).
  exists schema, added. split; [by rewrite <- Hadded|].
  rewrite Hadded in Hrun. vm_compute in Hrun. by injection Hrun as _ <-.
Defined.

End ResponseFacts.
